(** * Untangle: the micro-tree, the section planner and the member engine

    A shallow embedding of the parts of the Untangle database tools that
    the catalogue's specification makes claims about:

    - [TinyTree]  : [tinyTree_t] of tinytree.h — level-1 normalisation
                    ([normaliseQTF], [basicNode]), the two parsers
                    ([decodeSafe], [decodeFast]), the encoder ([encode])
                    and the evaluator ([eval]);
    - [Planner]   : [dbtool_t::sizeDatabaseSections] of dbtool.h;
    - [Interleave]: the interleave presets the planner consults;
    - [Member]    : [comparMember], [findHeadTail] and [foundTreeMember]
                    of genmember.cc.

    References are 32-bit unsigned integers in the source.  They are
    modelled as [Z] with the bit operations written out.  A call either
    returns or stops: at an [assert] that fails, at a [ctx.fatal], or
    where C leaves the behaviour open (an array cell out of range or not
    yet written).  The result types below say which. *)

From Stdlib Require Import ZArith List String Ascii Bool Lia.
Import ListNotations.
Local Open Scope Z_scope.

(** ** Flag masks of the I/O context

    context.h is not part of the sources at hand, so the bit positions of
    the [MAGICMASK_*] flags are left open: every definition below is
    parametric in them. *)
Class context_masks := {
  MAGICMASK_PARANOID : Z;   (* extra assertions *)
  MAGICMASK_QNTF     : Z;   (* rewrite QTF to QnTF ("pure") *)
  MAGICMASK_AINF     : Z    (* add-if-not-found imprints *)
}.

(** ** 32-bit references and the inverter bit *)

Module Ref.

(** Modelled from the spec: [IBIT] is declared in datadef.h; the spec
    fixes it as the high bit of a 32-bit reference. *)
Definition IBIT : Z := 0x80000000.

(** [~IBIT] on [uint32_t]. *)
Definition NOT_IBIT : Z := 0x7FFFFFFF.

(** [~x] on [uint32_t]. *)
Definition lnot32 (x : Z) : Z := Z.lxor x 0xFFFFFFFF.

Definition u32 (x : Z) : Prop := 0 <= x < 2 ^ 32.

(** [x & IBIT] as a C condition. *)
Definition inverted (x : Z) : bool := negb (Z.land x IBIT =? 0).

(** [~x & IBIT] as a C condition. *)
Definition plain (x : Z) : bool := negb (Z.land (lnot32 x) IBIT =? 0).

(** [x & ~IBIT] *)
Definition strip (x : Z) : Z := Z.land x NOT_IBIT.

Lemma low31_land_IBIT (y : Z) : 0 <= y < 2 ^ 31 -> Z.land y IBIT = 0.
Proof.
  intros Hy. apply Z.bits_inj'. intros i Hi.
  rewrite Z.land_spec, Z.bits_0.
  change IBIT with (2 ^ 31). rewrite Z.pow2_bits_eqb by lia.
  destruct (Z.eqb_spec 31 i) as [<- | _]; [ | apply andb_false_r ].
  rewrite andb_true_r.
  rewrite <- (Z.mod_small y (2 ^ 31)) by lia.
  apply Z.mod_pow2_bits_high. lia.
Qed.

Lemma lxor_IBIT (x : Z) :
  u32 x -> Z.lxor x IBIT = if x <? IBIT then x + IBIT else x - IBIT.
Proof.
  unfold u32. intros Hx. destruct (Z.ltb_spec x IBIT) as [Hlt | Hge].
  - symmetry. apply Z.add_nocarry_lxor. apply low31_land_IBIT.
    change IBIT with (2 ^ 31) in Hlt. lia.
  - assert (Hlow : Z.land (x - IBIT) IBIT = 0).
    { apply low31_land_IBIT. change IBIT with (2 ^ 31) in *.
      change (2 ^ 32) with (2 * 2 ^ 31) in Hx. lia. }
    apply Z.add_nocarry_lxor in Hlow.
    replace (x - IBIT + IBIT) with x in Hlow by lia.
    rewrite Hlow at 1. rewrite Z.lxor_assoc, Z.lxor_nilpotent, Z.lxor_0_r.
    reflexivity.
Qed.

Lemma land_NOT_IBIT (x : Z) :
  u32 x -> Z.land x NOT_IBIT = if x <? IBIT then x else x - IBIT.
Proof.
  unfold u32. intros Hx. change NOT_IBIT with (Z.ones 31).
  rewrite Z.land_ones by lia. change IBIT with (2 ^ 31).
  change (2 ^ 32) with (2 * 2 ^ 31) in Hx.
  destruct (Z.ltb_spec x (2 ^ 31)).
  - apply Z.mod_small. lia.
  - symmetry. apply Z.mod_unique with (q := 1); lia.
Qed.

Lemma testbit31 (x : Z) : u32 x -> Z.testbit x 31 = (IBIT <=? x).
Proof.
  intros Hx. pose proof (lxor_IBIT x Hx) as Hl. unfold u32 in Hx.
  assert (Hb : Z.testbit (Z.lxor x IBIT) 31 = negb (Z.testbit x 31)).
  { rewrite Z.lxor_spec. change IBIT with (2 ^ 31).
    rewrite Z.pow2_bits_true by lia. apply xorb_true_r. }
  change (2 ^ 32) with (2 * 2 ^ 31) in Hx. change IBIT with (2 ^ 31) in *.
  destruct (Z.ltb_spec x (2 ^ 31)), (Z.leb_spec (2 ^ 31) x); try lia.
  - rewrite <- (Z.mod_small x (2 ^ 31)) by lia.
    apply Z.mod_pow2_bits_high. lia.
  - rewrite Hl in Hb.
    rewrite <- (Z.mod_small (x - 2 ^ 31) (2 ^ 31)) in Hb by lia.
    rewrite Z.mod_pow2_bits_high in Hb by lia.
    destruct (Z.testbit x 31); [ reflexivity | discriminate ].
Qed.

Lemma land_IBIT (x : Z) :
  u32 x -> Z.land x IBIT = if x <? IBIT then 0 else IBIT.
Proof.
  intros Hx. pose proof (testbit31 x Hx) as Hb.
  apply Z.bits_inj'. intros i Hi. rewrite Z.land_spec.
  change IBIT with (2 ^ 31) at 1. rewrite Z.pow2_bits_eqb by lia.
  destruct (Z.eqb_spec 31 i) as [<- | Hne].
  - rewrite Hb, andb_true_r.
    destruct (Z.ltb_spec x IBIT), (Z.leb_spec IBIT x); try lia.
    + symmetry. apply Z.bits_0.
    + symmetry. change IBIT with (2 ^ 31). apply Z.pow2_bits_true. lia.
  - rewrite andb_false_r. destruct (x <? IBIT).
    + symmetry. apply Z.bits_0.
    + symmetry. change IBIT with (2 ^ 31). apply Z.pow2_bits_false; lia.
Qed.

Lemma lnot32_u32 (x : Z) : u32 x -> lnot32 x = 0xFFFFFFFF - x.
Proof.
  unfold u32, lnot32. intros Hx.
  change 0xFFFFFFFF with (Z.ones 32).
  assert (H : Z.land (Z.ones 32 - x) x = 0).
  { apply Z.bits_inj'. intros i Hi. rewrite Z.land_spec, Z.bits_0.
    destruct (Z.ltb_spec i 32).
    - replace (Z.ones 32 - x) with (Z.lnot x mod 2 ^ 32).
      + rewrite Z.mod_pow2_bits_low by lia. rewrite Z.lnot_spec by lia.
        apply andb_negb_l.
      + unfold Z.lnot. rewrite Z.ones_equiv.
        symmetry. apply Z.mod_unique with (q := -1); lia.
    - rewrite <- (Z.mod_small x (2 ^ 32)) at 2 by lia.
      rewrite Z.mod_pow2_bits_high by lia. apply andb_false_r. }
  apply Z.add_nocarry_lxor in H.
  remember (Z.ones 32 - x) as A eqn:HA.
  replace (A + x) with (Z.ones 32) in H by lia.
  rewrite H, (Z.lxor_comm A x), <- Z.lxor_assoc, Z.lxor_nilpotent.
  apply Z.lxor_0_l.
Qed.

Lemma u32_lxor_IBIT (x : Z) : u32 x -> u32 (Z.lxor x IBIT).
Proof.
  intros Hx. rewrite lxor_IBIT by assumption. unfold u32, IBIT in *.
  destruct (Z.ltb_spec x 0x80000000); lia.
Qed.

Lemma inverted_u32 (x : Z) : u32 x -> inverted x = (IBIT <=? x).
Proof.
  intros Hx. unfold inverted. rewrite land_IBIT by assumption.
  destruct (Z.ltb_spec x IBIT), (Z.leb_spec IBIT x); try lia; reflexivity.
Qed.

Lemma plain_u32 (x : Z) : u32 x -> plain x = (x <? IBIT).
Proof.
  intros Hx. unfold plain. rewrite lnot32_u32 by assumption.
  assert (Hu : u32 (0xFFFFFFFF - x)) by (unfold u32 in *; lia).
  rewrite land_IBIT by assumption. unfold u32, IBIT in *.
  destruct (Z.ltb_spec (0xFFFFFFFF - x) 0x80000000),
           (Z.ltb_spec x 0x80000000); try lia; reflexivity.
Qed.

Lemma inverted_testbit (x : Z) : inverted x = Z.testbit x 31.
Proof.
  unfold inverted. destruct (Z.testbit x 31) eqn:Hb.
  - destruct (Z.eqb_spec (Z.land x IBIT) 0) as [H0 | _]; [ | reflexivity ].
    assert (Hc : Z.testbit (Z.land x IBIT) 31 = true).
    { rewrite Z.land_spec, Hb. reflexivity. }
    rewrite H0, Z.bits_0 in Hc. discriminate.
  - replace (Z.land x IBIT) with 0; [ reflexivity | ].
    symmetry. apply Z.bits_inj'. intros i Hi.
    rewrite Z.land_spec, Z.bits_0. change IBIT with (2 ^ 31).
    rewrite Z.pow2_bits_eqb by lia.
    destruct (Z.eqb_spec 31 i) as [<- | _];
      [ rewrite Hb; reflexivity | apply andb_false_r ].
Qed.

Lemma testbit31_lxor_IBIT (x : Z) :
  Z.testbit (Z.lxor x IBIT) 31 = negb (Z.testbit x 31).
Proof. rewrite Z.lxor_spec. apply xorb_true_r. Qed.

Lemma plain_testbit (x : Z) : plain x = negb (Z.testbit x 31).
Proof.
  unfold plain. fold (inverted (lnot32 x)). rewrite inverted_testbit.
  unfold lnot32. rewrite Z.lxor_spec. apply xorb_true_r.
Qed.

Lemma plain_inverted (x : Z) : plain x = negb (inverted x).
Proof. now rewrite plain_testbit, inverted_testbit. Qed.

Lemma inverted_lxor_IBIT (x : Z) : inverted (Z.lxor x IBIT) = negb (inverted x).
Proof. now rewrite !inverted_testbit, testbit31_lxor_IBIT. Qed.

Lemma strip_u32 (x : Z) :
  u32 x -> strip x = if x <? IBIT then x else x - IBIT.
Proof. apply land_NOT_IBIT. Qed.

End Ref.

(** ** The micro-tree [tinyTree_t] (tinytree.h) *)

Module TinyTree.
Import Ref.

(** [MAXSLOTS] is declared in datadef.h, which is not among the sources;
    [initialiseVector] asserts [MAXSLOTS == 9]. *)
Definition MAXSLOTS : Z := 9.

Definition TINYTREE_MAXNODES : Z := MAXSLOTS * 2.
Definition TINYTREE_KSTART   : Z := 1.
Definition TINYTREE_NSTART   : Z := TINYTREE_KSTART + MAXSLOTS.
Definition TINYTREE_NEND     : Z := TINYTREE_NSTART + TINYTREE_MAXNODES.
Definition TINYTREE_MAXSTACK : Z := (3 + 1) * TINYTREE_MAXNODES.
Definition TINYTREE_NAMELEN  : Z := 1 + (3 + 1) * TINYTREE_MAXNODES + 1 + 1.

(** Single unified operator node. *)
Record tinyNode_t := mkNode { Q : Z; T : Z; F : Z }.

(** The tree.  The source declares [tinyNode_t N[TINYTREE_MAXNODES]] and
    addresses it by node id ([this->N + nid]), so the array has a cell for
    the ids [0 <= id < TINYTREE_MAXNODES] and for no other: operator nodes
    start at [TINYTREE_NSTART], which leaves room for
    [TINYTREE_MAXNODES - TINYTREE_NSTART] of them.  The field [N] below
    holds the contents by id; every access goes through the bound [inN]. *)
Record tinyTree_t := mkTree {
  flags : Z;
  count : Z;
  N     : Z -> tinyNode_t;
  root  : Z
}.

Definition node_is (n : tinyNode_t) (q t f : Z) : bool :=
  (Q n =? q) && (T n =? t) && (F n =? f).

Definition setNode (tree : tinyTree_t) (nid : Z) (n : tinyNode_t) : tinyTree_t :=
  mkTree (flags tree) (count tree)
         (fun i => if i =? nid then n else N tree i) (root tree).

Definition setCount (tree : tinyTree_t) (c : Z) : tinyTree_t :=
  mkTree (flags tree) c (N tree) (root tree).

Definition setRoot (tree : tinyTree_t) (r : Z) : tinyTree_t :=
  mkTree (flags tree) (count tree) (N tree) r.

(** [clear] *)
Definition clear (tree : tinyTree_t) : tinyTree_t :=
  setRoot (setCount tree TINYTREE_NSTART) 0.

(** How a call ends.  Where the source reads an array cell nothing has
    written yet, or reaches outside an array, C leaves the behaviour open;
    the model stops with [Undefined] there. *)
Inductive outcome (A : Type) :=
| Returned (a : A)   (* the call returns *)
| Aborted            (* an [assert] failed *)
| Undefined.         (* unwritten or out-of-range array access *)
Arguments Returned {A} a.
Arguments Aborted {A}.
Arguments Undefined {A}.

(** [assert(c); k] *)
Definition assert {A : Type} (c : bool) (k : outcome A) : outcome A :=
  if c then k else Aborted.

Notation "'ASSERT' c ;; k" := (assert c k)
  (at level 10, c at level 9, k at level 200).

(** [this->N + nid] stays inside [N], which is declared with
    [TINYTREE_MAXNODES] entries. *)
Definition inN (nid : Z) : bool := (0 <=? nid) && (nid <? TINYTREE_MAXNODES).

(** *** The parsers

    Characters are taken in the "C" locale. *)

Definition code (ch : ascii) : Z := Z.of_N (N_of_ascii ch).

Definition isdigit (ch : ascii) : bool := (code "0" <=? code ch) && (code ch <=? code "9").
Definition isupper (ch : ascii) : bool := (code "A" <=? code ch) && (code ch <=? code "Z").
Definition islower (ch : ascii) : bool := (code "a" <=? code ch) && (code ch <=? code "z").
Definition isalnum (ch : ascii) : bool := isdigit ch || isupper ch || islower ch.

(** Decode error codes (the anonymous [enum] of [tinyTree_t]). *)
Definition DERR_OK          : Z := 0.
Definition DERR_SYNTAX      : Z := 1.
Definition DERR_PLACEHOLDER : Z := 2.
Definition DERR_OVERFLOW    : Z := 3.
Definition DERR_UNDERFLOW   : Z := 4.
Definition DERR_INCOMPLETE  : Z := 5.
Definition DERR_SIZE        : Z := 6.

(** [pSkin[i]]: the characters of the skin, then its terminator. *)
Definition skinAt (pSkin : string) (i : Z) : option Z :=
  if (i <? 0) then None
  else match String.get (Z.to_nat i) pSkin with
       | Some ch => Some (code ch)
       | None => if i =? Z.of_nat (String.length pSkin) then Some 0 else None
       end.

(** A local array: [upd a i v] is [a[i] = v]. *)
Definition upd {A : Type} (a : Z -> A) (i : Z) (v : A) : Z -> A :=
  fun j => if j =? i then v else a j.

(** What one turn of a parser loop leads to. *)
Inductive step (S : Type) (A : Type) :=
| Next (s : S)            (* go on with the next character *)
| SkipRest (s : S)        (* the ['/'] separator: the rest is not looked at *)
| Stop (o : outcome A).   (* the call ends here *)
Arguments Next {S A} s.
Arguments SkipRest {S A} s.
Arguments Stop {S A} o.

(** *** [eval]

    [footprint_t] is declared in datadef.h, which is not among the
    sources.  By the comment of [eval] an entry is a 512-bit vector split
    into [uint64_t] chunks, which makes 8 of them; [initialiseVector] keeps
    the value for the inputs that are the binary digits of [i] in bit
    [i % 64] of chunk [i / 64]. *)
Definition QUADPERFOOTPRINT : nat := 8.
Definition footprint_t : Type := list Z.

(** [~x] on [uint64_t]. *)
Definition lnot64 (x : Z) : Z := Z.lxor x 0xFFFFFFFFFFFFFFFF.

Definition lane (fp : footprint_t) (j : nat) : Z := nth j fp 0.

(** [R[j] = (Q[j] & T'[j]) ^ (~Q[j] & F[j])] for every lane [j], where
    [T'] is [~T] for a QnTF node and [T] for a QTF node. *)
Definition evalNode (v : Z -> footprint_t) (n : tinyNode_t) : footprint_t :=
  let Q := v (Q n) in
  let T := v (strip (T n)) in
  let F := v (F n) in
  map (fun j =>
         if inverted (TinyTree.T n)
         then Z.lxor (Z.land (lane Q j) (lnot64 (lane T j)))
                     (Z.land (lnot64 (lane Q j)) (lane F j))
         else Z.lxor (Z.land (lane Q j) (lane T j))
                     (Z.land (lnot64 (lane Q j)) (lane F j)))
      (seq 0 QUADPERFOOTPRINT).

Fixpoint evalFrom (nodes : Z -> tinyNode_t) (v : Z -> footprint_t) (i : Z) (n : nat)
  : outcome (Z -> footprint_t) :=
  match n with
  | O => Returned v
  | S n' =>
      if negb (inN i) then Undefined
      else evalFrom nodes (upd v i (evalNode v (nodes i))) (i + 1) n'
  end.

(** [eval]: [for (i = TINYTREE_NSTART; i < count; i++) v[i] = ...]. *)
Definition eval (tree : tinyTree_t) (v : Z -> footprint_t)
  : outcome (Z -> footprint_t) :=
  evalFrom (N tree) v TINYTREE_NSTART (Z.to_nat (count tree - TINYTREE_NSTART)).

(** [initialiseVector] for one transform: slot [k] of the alphabet is
    preloaded with the value of the input named by nibble [k] of
    [transformMask]. *)
Definition initialiseVector (transformMask : Z) : Z -> footprint_t :=
  fun slot =>
    if (TINYTREE_KSTART <=? slot) && (slot <? TINYTREE_NSTART) then
      let input := Z.land (Z.shiftr transformMask (4 * (slot - TINYTREE_KSTART))) 15 in
      map (fun j =>
             fold_left (fun acc b =>
                          let i := 64 * Z.of_nat j + Z.of_nat b in
                          if Z.testbit i input then Z.lor acc (Z.shiftl 1 (Z.of_nat b))
                          else acc)
                       (seq 0 64) 0)
          (seq 0 QUADPERFOOTPRINT)
    else repeat 0 QUADPERFOOTPRINT.

(** The 512 values of a tree: the footprint of its root, complemented
    when the root carries the inverter. *)
Definition footprintOf (tree : tinyTree_t) (v : Z -> footprint_t)
  : outcome footprint_t :=
  match eval tree v with
  | Returned v' =>
      let fp := v' (strip (root tree)) in
      Returned (if inverted (root tree) then map lnot64 fp else fp)
  | Aborted => Aborted
  | Undefined => Undefined
  end.

Ltac split_tests :=
  repeat (match goal with
          | |- context [Z.eqb ?a ?b] => destruct (Z.eqb_spec a b)
          | |- context [Z.ltb ?a ?b] => destruct (Z.ltb_spec a b)
          | |- context [Z.leb ?a ?b] => destruct (Z.leb_spec a b)
          end; cbn [orb andb negb]).

Ltac tree_consts :=
  change TINYTREE_NEND with 28 in *;
  change TINYTREE_NSTART with 10 in *;
  change TINYTREE_KSTART with 1 in *;
  change TINYTREE_MAXSTACK with 72 in *;
  change TINYTREE_NAMELEN with 75 in *;
  change TINYTREE_MAXNODES with 18 in *;
  change MAXSLOTS with 9 in *.

Section WithMasks.
Context {masks : context_masks}.

(** [this->flags & context_t::MAGICMASK_PARANOID] *)
Definition paranoid (tree : tinyTree_t) : bool :=
  negb (Z.land (flags tree) MAGICMASK_PARANOID =? 0).

(** [this->flags & context_t::MAGICMASK_QNTF] *)
Definition qntf (tree : tinyTree_t) : bool :=
  negb (Z.land (flags tree) MAGICMASK_QNTF =? 0).

(** [~this->flags & context_t::MAGICMASK_QNTF] *)
Definition not_qntf (tree : tinyTree_t) : bool :=
  negb (Z.land (lnot32 (flags tree)) MAGICMASK_QNTF =? 0).

(** The scan of [basicNode]:
    [for (nid = from; nid < from + n; nid++) if (N[nid] == (Q,T,F)) return nid]. *)
Inductive scanned := Found (nid : Z) | Absent | OutOfRange.

Fixpoint findNode (nodes : Z -> tinyNode_t) (q t f : Z) (from : Z) (n : nat)
  : scanned :=
  match n with
  | O => Absent
  | S n' =>
      if negb (inN from) then OutOfRange
      else if node_is (nodes from) q t f then Found from
      else findNode nodes q t f (from + 1) n'
  end.

(** [basicNode]: append-if-absent. *)
Definition basicNode (tree : tinyTree_t) (Q T F : Z) : outcome (Z * tinyTree_t) :=
  ASSERT (negb (paranoid tree) ||
          (plain Q
           && (inverted T || not_qntf tree)
           && plain F
           && negb (Q =? 0)
           && negb (T =? 0)
           && (negb (T =? IBIT) || negb (F =? 0))
           && negb (Q =? strip T)
           && negb (Q =? F)
           && negb (T =? F)
           && (negb (strip T =? F) || (Q <? F))
           && (negb (F =? 0) || inverted T || (Q <? T))
           && (negb (T =? IBIT) || (Q <? F)))) ;;
  match findNode (N tree) Q T F TINYTREE_NSTART
                 (Z.to_nat (count tree - TINYTREE_NSTART)) with
  | Found nid => Returned (nid, tree)
  | OutOfRange => Undefined
  | Absent =>
      ASSERT (count tree <? TINYTREE_NEND) ;;
      let nid := count tree in
      if negb (inN nid) then Undefined else
      Returned (nid, setNode (setCount tree (count tree + 1)) nid (mkNode Q T F))
  end.

(** Level 1b/1c of [normaliseQTF]: function grouping and dyadic ordering
    of a triple whose [Q] and [F] carry no inverter.  Either the triple
    collapses to a reference ([return r ^ ibit]) or it goes on as the
    operator [(Q, T, F)]. *)
Inductive grouped := Collapse (r : Z) | Operator (Q T F : Z).

Definition functionGrouping (Q T F : Z) : grouped :=
  if inverted T then
    if T =? IBIT then
      if (F =? Q) || (F =? 0) then Collapse Q                 (* SELF [1],[0] *)
      else if Q >? F then Operator F T Q                      (* OR [2], swapped *)
      else Operator Q T F
    else if strip T =? Q then
      if (F =? Q) || (F =? 0) then Collapse 0                 (* ZERO [4],[3] *)
      else Operator F T 0                                     (* LESS-THAN [5] *)
    else
      if (F =? Q) || (F =? 0) then Operator Q T 0             (* GREATER-THAN [7],[6] *)
      else if strip T =? F then
        if Q >? F then Operator F (Z.lxor Q IBIT) Q           (* XOR [8], swapped *)
        else Operator Q T F
      else Operator Q T F                                     (* QnTF [9] *)
  else
    if T =? 0 then
      if (F =? Q) || (F =? 0) then Collapse 0                 (* ZERO [11],[10] *)
      else Operator F (Z.lxor Q IBIT) 0                       (* LESS-THAN [12] *)
    else if T =? Q then
      if (F =? Q) || (F =? 0) then Collapse Q                 (* SELF [14],[13] *)
      else if Q >? F then Operator F (Z.lxor 0 IBIT) Q        (* OR [15], swapped *)
      else Operator Q (Z.lxor 0 IBIT) F
    else
      if (F =? Q) || (F =? 0) then
        if Q >? T then Operator T Q 0                         (* AND [17],[16], swapped *)
        else Operator Q T 0
      else if T =? F then Collapse F                          (* SELF [18] *)
      else Operator Q T F.                                    (* QTF [19] *)

(** [normaliseQTF].  The source calls itself once, to rewrite a surviving
    [QTF] into [QnTF]; [depth] bounds the nesting of these calls. *)
Fixpoint normaliseQTF_rec (depth : nat) (tree : tinyTree_t) (Q T F : Z)
  : outcome (Z * tinyTree_t) :=
  match depth with
  | O => Aborted
  | S depth' =>
      ASSERT (negb (paranoid tree) ||
              ((strip Q <? count tree) && (strip T <? count tree)
               && (strip F <? count tree))) ;;
      (* Level 1a: inverts *)
      let '(Q, T, F) :=
        if inverted Q then (Z.lxor Q IBIT, F, T) else (Q, T, F) in
      if Q =? 0 then Returned (F, tree) else
      let '(T, F, ibit) :=
        if inverted F then (Z.lxor T IBIT, Z.lxor F IBIT, Z.lxor 0 IBIT)
        else (T, F, 0) in
      (* Level 1b, 1c *)
      match functionGrouping Q T F with
      | Collapse r => Returned (Z.lxor r ibit, tree)
      | Operator Q T F =>
          (* directly before caching, rewrite QTF to QnTF *)
          if qntf tree && plain T then
            match normaliseQTF_rec depth' tree Q (Z.lxor T IBIT) F with
            | Returned (r, tree) =>
                match basicNode tree Q (Z.lxor r IBIT) F with
                | Returned (nid, tree) => Returned (Z.lxor nid ibit, tree)
                | Aborted => Aborted
                | Undefined => Undefined
                end
            | Aborted => Aborted
            | Undefined => Undefined
            end
          else
            match basicNode tree Q T F with
            | Returned (nid, tree) => Returned (Z.lxor nid ibit, tree)
            | Aborted => Aborted
            | Undefined => Undefined
            end
      end
  end.

(** The rewrite never nests deeper than one call: with two levels or with
    more the result is the same (lemma [normaliseQTF_rec_depth] below), so
    the bottom of [normaliseQTF_rec] is never what [normaliseQTF] gives. *)
Definition normaliseQTF : tinyTree_t -> Z -> Z -> Z -> outcome (Z * tinyTree_t) :=
  normaliseQTF_rec 2.



(** *** [decodeSafe]

    The locals of [decodeSafe] together with the tree under construction.
    [stack] is only ever read below [stackPos], where it has been
    written; [beenThere] starts unwritten. *)
Record safeState := mkSafe {
  sTree      : tinyTree_t;
  sStack     : Z -> Z;
  sStackPos  : Z;
  sBeenThere : Z -> option Z;
  sNextNode  : Z
}.

(** An operator of [decodeSafe] taking two operands:
    [R = stack[--stackPos]; L = stack[--stackPos]; nid = normaliseQTF(..);
     stack[stackPos++] = nid; beenThere[nextNode++] = nid]. *)
Definition safeDyadic (st : safeState) (mk : Z -> Z -> Z * Z * Z)
  : step safeState (Z * tinyTree_t) :=
  if sStackPos st <? 2 then Stop (Returned (DERR_UNDERFLOW, sTree st)) else
  let R := sStack st (sStackPos st - 1) in
  let L := sStack st (sStackPos st - 2) in
  let '(q, t, f) := mk L R in
  match normaliseQTF (sTree st) q t f with
  | Aborted => Stop Aborted
  | Undefined => Stop Undefined
  | Returned (nid, tree) =>
      if TINYTREE_NEND <=? sNextNode st then Stop Undefined else
      Next (mkSafe tree
                   (upd (sStack st) (sStackPos st - 2) nid)
                   (sStackPos st - 1)
                   (upd (sBeenThere st) (sNextNode st) (Some nid))
                   (sNextNode st + 1))
  end.

(** An operator of [decodeSafe] taking three operands. *)
Definition safeTernary (st : safeState) (mk : Z -> Z -> Z -> Z * Z * Z)
  : step safeState (Z * tinyTree_t) :=
  if sStackPos st <? 3 then Stop (Returned (DERR_UNDERFLOW, sTree st)) else
  let F := sStack st (sStackPos st - 1) in
  let T := sStack st (sStackPos st - 2) in
  let Q := sStack st (sStackPos st - 3) in
  let '(q, t, f) := mk Q T F in
  match normaliseQTF (sTree st) q t f with
  | Aborted => Stop Aborted
  | Undefined => Stop Undefined
  | Returned (nid, tree) =>
      if TINYTREE_NEND <=? sNextNode st then Stop Undefined else
      Next (mkSafe tree
                   (upd (sStack st) (sStackPos st - 3) nid)
                   (sStackPos st - 2)
                   (upd (sBeenThere st) (sNextNode st) (Some nid))
                   (sNextNode st + 1))
  end.

(** [stack[stackPos++] = v] of an operand. *)
Definition safePush (st : safeState) (v : Z) : step safeState (Z * tinyTree_t) :=
  Next (mkSafe (sTree st) (upd (sStack st) (sStackPos st) v)
               (sStackPos st + 1) (sBeenThere st) (sNextNode st)).

(** One turn of the loop of [decodeSafe] on the character [ch]. *)
Definition decodeSafeStep (pSkin : string) (st : safeState) (ch : ascii)
  : step safeState (Z * tinyTree_t) :=
  if isalnum ch && (TINYTREE_MAXSTACK <=? sStackPos st)
  then Stop (Returned (DERR_OVERFLOW, sTree st)) else
  if negb (isalnum ch) && (TINYTREE_NEND - 1 <=? count (sTree st))
  then Stop (Returned (DERR_SIZE, sTree st)) else
  match (if islower ch then skinAt pSkin (code ch - code "a") else Some 0) with
  | None => Stop Undefined
  | Some sk =>
  if islower ch && negb ((code "a" <=? sk) && (sk <=? code "z"))
  then Stop (Returned (DERR_PLACEHOLDER, sTree st)) else
  if (ch =? "0")%char then safePush st 0
  else if (code "a" <=? code ch) && (code ch <=? code "i") then
    safePush st (TINYTREE_KSTART + sk - code "a")
  else if (code "1" <=? code ch) && (code ch <=? code "9") then
    let ix := sNextNode st - (code ch - code "0") in
    if (ix <? 0) || (TINYTREE_NEND <=? ix) then Stop Undefined else
    match sBeenThere st ix with
    | None => Stop Undefined
    | Some v => safePush st v
    end
  else if (ch =? ">")%char then
    safeDyadic st (fun L R => (L, Z.lxor R IBIT, 0))               (* GT *)
  else if (ch =? "+")%char then
    safeDyadic st (fun L R => (L, Z.lxor 0 IBIT, R))               (* OR *)
  else if (ch =? "^")%char then
    safeDyadic st (fun L R => (L, Z.lxor R IBIT, R))               (* XOR/NE *)
  else if (ch =? "!")%char then
    safeTernary st (fun Q T F => (Q, Z.lxor T IBIT, F))            (* QnTF *)
  else if (ch =? "&")%char then
    safeDyadic st (fun L R => (L, R, 0))                           (* AND *)
  else if (ch =? "<")%char then
    (* LT: the source ends with [beenThere[stackPos++] = nid], not with
       [beenThere[nextNode++] = nid] *)
    if sStackPos st <? 2 then Stop (Returned (DERR_UNDERFLOW, sTree st)) else
    let R := sStack st (sStackPos st - 1) in
    let L := sStack st (sStackPos st - 2) in
    match normaliseQTF (sTree st) L 0 R with
    | Aborted => Stop Aborted
    | Undefined => Stop Undefined
    | Returned (nid, tree) =>
        if TINYTREE_NEND <=? sStackPos st - 1 then Stop Undefined else
        Next (mkSafe tree
                     (upd (sStack st) (sStackPos st - 2) nid)
                     (sStackPos st)
                     (upd (sBeenThere st) (sStackPos st - 1) (Some nid))
                     (sNextNode st))
    end
  else if (ch =? "?")%char then
    safeTernary st (fun Q T F => (Q, T, F))                        (* QTF *)
  else if (ch =? "~")%char then
    if sStackPos st <? 1 then Stop (Returned (DERR_UNDERFLOW, sTree st)) else
    Next (mkSafe (sTree st)
                 (upd (sStack st) (sStackPos st - 1)
                      (Z.lxor (sStack st (sStackPos st - 1)) IBIT))
                 (sStackPos st) (sBeenThere st) (sNextNode st))
  else if (ch =? "/")%char then SkipRest st
  else if (ch =? " ")%char then Next st
  else Stop (Returned (DERR_SYNTAX, sTree st))
  end.

(** The loop [for (pCh = pName; *pCh; pCh++)]: either the call ends inside
    it, or the end of the notation is reached in some state. *)
Fixpoint decodeSafeLoop (pSkin : string) (st : safeState) (pName : string)
  : outcome (Z * tinyTree_t) + safeState :=
  match pName with
  | EmptyString => inr st
  | String ch rest =>
      match decodeSafeStep pSkin st ch with
      | Next st' => decodeSafeLoop pSkin st' rest
      | SkipRest st' => inr st'
      | Stop o => inl o
      end
  end.

Definition safeInit (tree : tinyTree_t) : safeState :=
  mkSafe (setRoot (setCount tree TINYTREE_NSTART) 0)
         (fun _ => 0) 0 (fun _ => None) TINYTREE_NSTART.

(** [decodeSafe]: the error code and the tree as the call leaves it. *)
Definition decodeSafe (tree : tinyTree_t) (pName : string) (pSkin : string)
  : outcome (Z * tinyTree_t) :=
  match decodeSafeLoop pSkin (safeInit tree) pName with
  | inl o => o
  | inr st =>
      if negb (sStackPos st =? 1) then Returned (DERR_INCOMPLETE, sTree st)
      else Returned (DERR_OK, setRoot (sTree st) (sStack st (sStackPos st - 1)))
  end.


(** *** [decodeFast]: literal construction, nothing is checked *)

(** [(uint32_t) x] *)
Definition wrap32 (x : Z) : Z := x mod 2 ^ 32.

Record fastState := mkFast {
  fTree     : tinyTree_t;
  fStack    : Z -> Z;
  fStackPos : Z
}.

Definition fastPush (st : fastState) (v : Z) : step fastState tinyTree_t :=
  if TINYTREE_MAXSTACK <=? fStackPos st then Stop Undefined else
  Next (mkFast (fTree st) (upd (fStack st) (fStackPos st) v) (fStackPos st + 1)).

(** An operator of [decodeFast] with [arity] operands:
    [nid = count++; N[nid] = ...; stack[stackPos++] = nid]. *)
Definition fastOperator (st : fastState) (arity : Z) (mk : (Z -> Z) -> tinyNode_t)
  : step fastState tinyTree_t :=
  if fStackPos st <? arity then Stop Undefined else
  let nid := count (fTree st) in
  if negb (inN nid) then Stop Undefined else
  (* [arg k] is the k-th value popped *)
  let arg := fun k => fStack st (fStackPos st - k) in
  Next (mkFast (setNode (setCount (fTree st) (nid + 1)) nid (mk arg))
               (upd (fStack st) (fStackPos st - arity) nid)
               (fStackPos st - arity + 1)).

Definition decodeFastStep (pSkin : string) (st : fastState) (ch : ascii)
  : step fastState tinyTree_t :=
  if (ch =? "0")%char then fastPush st 0
  else if (code "a" <=? code ch) && (code ch <=? code "i") then
    match skinAt pSkin (code ch - code "a") with
    | None => Stop Undefined
    | Some sk => fastPush st (wrap32 (TINYTREE_KSTART + sk - code "a"))
    end
  else if (code "1" <=? code ch) && (code ch <=? code "9") then
    fastPush st (wrap32 (count (fTree st) - (code ch - code "0")))
  else if (ch =? ">")%char then   (* R = arg 1, L = arg 2 *)
    fastOperator st 2 (fun arg => mkNode (arg 2) (Z.lxor (arg 1) IBIT) 0)
  else if (ch =? "+")%char then
    fastOperator st 2 (fun arg => mkNode (arg 2) (Z.lxor 0 IBIT) (arg 1))
  else if (ch =? "^")%char then
    fastOperator st 2 (fun arg => mkNode (arg 2) (Z.lxor (arg 1) IBIT) (arg 1))
  else if (ch =? "!")%char then   (* F = arg 1, T = arg 2, Q = arg 3 *)
    fastOperator st 3 (fun arg => mkNode (arg 3) (Z.lxor (arg 2) IBIT) (arg 1))
  else if (ch =? "&")%char then
    fastOperator st 2 (fun arg => mkNode (arg 2) (arg 1) 0)
  else if (ch =? "<")%char then
    fastOperator st 2 (fun arg => mkNode (arg 2) 0 (arg 1))
  else if (ch =? "?")%char then
    fastOperator st 3 (fun arg => mkNode (arg 3) (arg 2) (arg 1))
  else if (ch =? "~")%char then
    if fStackPos st <? 1 then Stop Undefined else
    Next (mkFast (fTree st)
                 (upd (fStack st) (fStackPos st - 1)
                      (Z.lxor (fStack st (fStackPos st - 1)) IBIT))
                 (fStackPos st))
  else if (ch =? "/")%char then SkipRest st
  else Next st.

Fixpoint decodeFastLoop (pSkin : string) (st : fastState) (pName : string)
  : outcome tinyTree_t + fastState :=
  match pName with
  | EmptyString => inr st
  | String ch rest =>
      match decodeFastStep pSkin st ch with
      | Next st' => decodeFastLoop pSkin st' rest
      | SkipRest st' => inr st'
      | Stop o => inl o
      end
  end.

Definition decodeFast (tree : tinyTree_t) (pName : string) (pSkin : string)
  : outcome tinyTree_t :=
  match decodeFastLoop pSkin
          (mkFast (setRoot (setCount tree TINYTREE_NSTART) 0) (fun _ => 0) 0)
          pName with
  | inl o => o
  | inr st =>
      if fStackPos st <? 1 then Undefined
      else Returned (setRoot (fTree st) (fStack st (fStackPos st - 1)))
  end.

(** *** [encode] *)

(** The locals of [encode].  [beenThere] is the 32-bit visit mask,
    [beenWhat] starts unwritten; [eName] and [eSkin] hold the characters
    written so far, last first. *)
Record encState := mkEnc {
  eStack     : Z -> Z;
  eStackPos  : Z;
  eBeenThere : Z;
  eBeenWhat  : Z -> option Z;
  eNextNode  : Z;
  eName      : list ascii;
  eSkin      : list ascii
}.

(** [(char) x] *)
Definition char_of (x : Z) : ascii := ascii_of_N (Z.to_N (x mod 256)).

(** [~beenThere & (1 << x)] *)
Definition unvisited (beenThere : Z) (x : Z) : bool := negb (Z.testbit beenThere x).

(** [beenThere |= (1 << x)] *)
Definition visit (beenThere : Z) (x : Z) : Z := Z.lor beenThere (Z.shiftl 1 x).

(** [stack[stackPos++] = v] for each [v] of [vs] in turn; [None] when the
    stack of [TINYTREE_MAXSTACK] entries is full. *)
Fixpoint pushAll (stack : Z -> Z) (stackPos : Z) (vs : list Z)
  : option ((Z -> Z) * Z) :=
  match vs with
  | [] => Some (stack, stackPos)
  | v :: vs' =>
      if TINYTREE_MAXSTACK <=? stackPos then None
      else pushAll (upd stack stackPos v) (stackPos + 1) vs'
  end.

(** The shapes [encode] tells apart, with the operands in the order they
    are to come out. *)
Inductive shape :=
| ShapeSelf                                  (* Q?F:F, [assert(!"Q?F:F")] *)
| ShapeOp (opcode : ascii) (operands : list Z).

Definition shapeOf (n : tinyNode_t) : shape :=
  let To := strip (T n) in
  if inverted (T n) then
    if F n =? 0 then ShapeOp ">" [Q n; To]                  (* GT  Q?!T:0 *)
    else if To =? 0 then ShapeOp "+" [Q n; F n]             (* OR  Q?!0:F *)
    else if F n =? To then ShapeOp "^" [Q n; F n]           (* XOR Q?!F:F *)
    else ShapeOp "!" [Q n; To; F n]                         (* QnTF *)
  else
    if F n =? 0 then ShapeOp "&" [Q n; To]                  (* AND Q?T:0 *)
    else if To =? 0 then ShapeOp "<" [Q n; F n]             (* LT  Q?0:F *)
    else if F n =? To then ShapeSelf
    else ShapeOp "?" [Q n; To; F n].                        (* QTF *)

(** Walk 1, the three tests that hand placeholders to the endpoints
    [Q], [To], [F] of a completed node. *)
Definition assignPlaceholder (st : encState) (x : Z) : encState :=
  if (x <? TINYTREE_NSTART) && unvisited (eBeenThere st) x then
    let skinLen := Z.of_nat (List.length (eSkin st)) in
    mkEnc (eStack st) (eStackPos st)
          (visit (eBeenThere st) x)
          (upd (eBeenWhat st) x (Some (code "a" + skinLen)))
          (eNextNode st) (eName st)
          (char_of (code "a" + x - TINYTREE_KSTART) :: eSkin st)
  else st.

(** One turn of the first [do ... while (stackPos > 0)] of [encode]. *)
Definition encodeWalk1Step (tree : tinyTree_t) (st : encState)
  : step encState (string * string) :=
  let curr := eStack st (eStackPos st - 1) in
  let stackPos := eStackPos st - 1 in
  if negb (inN curr) then Stop Undefined else
  let pNode := N tree curr in
  if unvisited (eBeenThere st) curr then
    match shapeOf pNode with
    | ShapeSelf => Stop Aborted
    | ShapeOp _ operands =>
        (* pushed last operand first, endpoints left out *)
        match pushAll (eStack st) stackPos
                (curr :: filter (fun x => TINYTREE_NSTART <=? x) (rev operands)) with
        | None => Stop Undefined
        | Some (stack, stackPos) =>
            Next (mkEnc stack stackPos (visit (eBeenThere st) curr)
                        (upd (eBeenWhat st) curr (Some 0))
                        (eNextNode st) (eName st) (eSkin st))
        end
    end
  else
    match eBeenWhat st curr with
    | None => Stop Undefined
    | Some 0 =>
        let st := mkEnc (eStack st) stackPos (eBeenThere st) (eBeenWhat st)
                        (eNextNode st) (eName st) (eSkin st) in
        let st := assignPlaceholder st (Q pNode) in
        let st := assignPlaceholder st (strip (T pNode)) in
        let st := assignPlaceholder st (F pNode) in
        Next (mkEnc (eStack st) (eStackPos st) (eBeenThere st)
                    (upd (eBeenWhat st) curr (Some (eNextNode st)))
                    (eNextNode st + 1) (eName st) (eSkin st))
    | Some _ =>
        Next (mkEnc (eStack st) stackPos (eBeenThere st) (eBeenWhat st)
                    (eNextNode st) (eName st) (eSkin st))
    end.

(** [pName[nameLen++] = ch]; [nameStorage] has [TINYTREE_NAMELEN + 1]
    characters. *)
Definition emit (st : encState) (stackPos : Z) (ch : ascii)
  : step encState (string * string) :=
  if TINYTREE_NAMELEN + 1 <=? Z.of_nat (List.length (eName st)) then Stop Undefined
  else Next (mkEnc (eStack st) stackPos (eBeenThere st) (eBeenWhat st)
                   (eNextNode st) (ch :: eName st) (eSkin st)).

(** One turn of the second [do ... while (stackPos > 0)] of [encode]. *)
Definition encodeWalk2Step (tree : tinyTree_t) (withSkin : bool) (st : encState)
  : step encState (string * string) :=
  let curr := eStack st (eStackPos st - 1) in
  let stackPos := eStackPos st - 1 in
  if (0 <=? curr) && (curr <? TINYTREE_NSTART) then
    (* endpoint *)
    if curr =? 0 then emit st stackPos "0"
    else if negb withSkin then
      emit st stackPos (char_of (code "a" + curr - TINYTREE_KSTART))
    else match eBeenWhat st curr with
         | None => Stop Undefined
         | Some ph => emit st stackPos (char_of ph)
         end
  else
  if negb (inN curr) then Stop Undefined else
  let pNode := N tree curr in
  if unvisited (eBeenThere st) curr then
    match shapeOf pNode with
    | ShapeSelf => Stop Aborted
    | ShapeOp _ operands =>
        match pushAll (eStack st) stackPos (curr :: rev operands) with
        | None => Stop Undefined
        | Some (stack, stackPos) =>
            Next (mkEnc stack stackPos (visit (eBeenThere st) curr)
                        (upd (eBeenWhat st) curr (Some 0))
                        (eNextNode st) (eName st) (eSkin st))
        end
    end
  else
    match eBeenWhat st curr with
    | None => Stop Undefined
    | Some 0 =>
        (* node complete, append opcode *)
        match shapeOf pNode with
        | ShapeSelf => Stop Aborted
        | ShapeOp opcode _ =>
            match emit st stackPos opcode with
            | Next st =>
                Next (mkEnc (eStack st) (eStackPos st) (eBeenThere st)
                            (upd (eBeenWhat st) curr (Some (eNextNode st)))
                            (eNextNode st + 1) (eName st) (eSkin st))
            | other => other
            end
        end
    | Some where_ =>
        (* back-reference to previous opcode *)
        let backref := wrap32 (eNextNode st - where_) in
        if negb (backref <=? 9) then Stop Aborted
        else emit st stackPos (char_of (code "0" + backref))
    end.

(** [do body while (stackPos > 0)], at most [turns] turns of it; [None]
    when the turns are used up. *)
Fixpoint doWhile (turns : nat) (body : encState -> step encState (string * string))
  (st : encState) : option (outcome (string * string) + encState) :=
  match turns with
  | O => None
  | S turns' =>
      match body st with
      | Next st' =>
          if 0 <? eStackPos st' then doWhile turns' body st'
          else Some (inr st')
      | SkipRest st' => Some (inr st')
      | Stop o => Some (inl o)
      end
  end.

Definition string_of_rev (l : list ascii) : string :=
  string_of_list_ascii (rev l).

(** A turn of either walk marks a fresh entry of the 32-bit mask or takes
    one entry off the stack for good; [encodeTurns] turns are more than a
    walk can take (lemma [encode_returns] below). *)
Definition encodeTurns : nat := 4 * 32 + 1.

(** [encode(id, pSkin)]: the name and, when [withSkin], the skin.  The
    outer [option] would be [None] if a walk used up [encodeTurns]. *)
Definition encode (tree : tinyTree_t) (id : Z) (withSkin : bool)
  : option (outcome (string * string)) :=
  let rootInvert (name : list ascii) :=
    if inverted id then "~"%char :: name else name in
  if strip id <? TINYTREE_NSTART then
    if withSkin then
      if strip id =? 0 then
        Some (Returned (string_of_rev (rootInvert ["0"%char]), ""%string))
      else
        Some (Returned (string_of_rev (rootInvert ["a"%char]),
                        string_of_rev [char_of (code "a" + strip id - TINYTREE_KSTART)]))
    else
      if strip id =? 0 then
        Some (Returned (string_of_rev (rootInvert ["0"%char]), ""%string))
      else
        Some (Returned (string_of_rev
                          (rootInvert [char_of (code "a" + strip id - TINYTREE_KSTART)]),
                        ""%string))
  else
    let start (beenWhat : Z -> option Z) (skin : list ascii) :=
      mkEnc (upd (fun _ => 0) 0 (strip id)) 1 (Z.shiftl 1 0) beenWhat
            TINYTREE_NSTART [] skin in
    let walk1 :=
      if withSkin then
        match doWhile encodeTurns (encodeWalk1Step tree) (start (fun _ => None) []) with
        | None => None
        | Some (inl o) => Some (inl o)
        | Some (inr st) =>
            if negb (Z.of_nat (List.length (eSkin st)) <=? MAXSLOTS)
            then Some (inl Aborted)
            else Some (inr (eBeenWhat st, eSkin st))
        end
      else Some (inr (fun _ => None, []))
    in
    match walk1 with
    | None => None
    | Some (inl o) => Some o
    | Some (inr (beenWhat, skin)) =>
        match doWhile encodeTurns (encodeWalk2Step tree withSkin) (start beenWhat skin) with
        | None => None
        | Some (inl o) => Some o
        | Some (inr st) =>
            let name := rootInvert (eName st) in
            if negb (Z.of_nat (List.length name) <=? TINYTREE_NAMELEN)
            then Some Aborted
            else Some (Returned (string_of_rev name, string_of_rev skin))
        end
    end.


(** *** Facts about [findNode] and [basicNode] *)

Lemma findNode_Found (nodes : Z -> tinyNode_t) (q t f : Z) (n : nat) :
  forall from nid,
    findNode nodes q t f from n = Found nid <->
    (from <= nid < from + Z.of_nat n
     /\ node_is (nodes nid) q t f = true
     /\ (forall j, from <= j < nid -> node_is (nodes j) q t f = false)
     /\ (forall j, from <= j <= nid -> inN j = true)).
Proof.
  induction n as [| n IH]; intros from nid; simpl findNode.
  - split; [ discriminate | intros [H _]; lia ].
  - destruct (inN from) eqn:Hin; simpl negb; cbv iota.
    2:{ split; [ discriminate | ].
        intros (Hr & _ & _ & Hall). rewrite (Hall from) in Hin by lia.
        discriminate. }
    destruct (node_is (nodes from) q t f) eqn:Hhere.
    + split.
      * intros [= <-]. repeat split; try lia; [ exact Hhere | ].
        intros j Hj. replace j with from by lia. exact Hin.
      * intros (Hr & Hm & Hfirst & _). f_equal.
        destruct (Z.eq_dec from nid) as [-> | Hne]; [ reflexivity | ].
        rewrite (Hfirst from) in Hhere by lia. discriminate.
    + rewrite IH. split.
      * intros (Hr & Hm & Hfirst & Hall).
        repeat split; try lia; [ exact Hm | | ].
        -- intros j Hj. destruct (Z.eq_dec j from) as [-> | Hne];
             [ exact Hhere | apply Hfirst; lia ].
        -- intros j Hj. destruct (Z.eq_dec j from) as [-> | Hne];
             [ exact Hin | apply Hall; lia ].
      * intros (Hr & Hm & Hfirst & Hall).
        assert (from <> nid) by (intros ->; congruence).
        repeat split; try lia; [ exact Hm | | ].
        -- intros j Hj. apply Hfirst. lia.
        -- intros j Hj. apply Hall. lia.
Qed.

Lemma findNode_Absent (nodes : Z -> tinyNode_t) (q t f : Z) (n : nat) :
  forall from,
    findNode nodes q t f from n = Absent <->
    (forall j, from <= j < from + Z.of_nat n ->
               inN j = true /\ node_is (nodes j) q t f = false).
Proof.
  induction n as [| n IH]; intros from; simpl findNode.
  - split; [ intros _ j Hj; lia | reflexivity ].
  - destruct (inN from) eqn:Hin; simpl negb; cbv iota.
    2:{ split; [ discriminate | ].
        intros H. destruct (H from) as [Hc _]; [ lia | congruence ]. }
    destruct (node_is (nodes from) q t f) eqn:Hhere.
    + split; [ discriminate | ].
      intros H. destruct (H from) as [_ Hc]; [ lia | congruence ].
    + rewrite IH. split.
      * intros H j Hj. destruct (Z.eq_dec j from) as [-> | Hne];
          [ split; assumption | apply H; lia ].
      * intros H j Hj. apply H. lia.
Qed.

(** [tree2] has everything [tree1] has: the same flags and root, and the
    same nodes below [count tree1]. *)
Definition extends (tree1 tree2 : tinyTree_t) : Prop :=
  flags tree2 = flags tree1
  /\ root tree2 = root tree1
  /\ count tree1 <= count tree2
  /\ forall i, i < count tree1 -> N tree2 i = N tree1 i.

Lemma extends_refl (tree : tinyTree_t) : extends tree tree.
Proof. repeat split; try reflexivity; lia. Qed.

Lemma extends_trans (t1 t2 t3 : tinyTree_t) :
  extends t1 t2 -> extends t2 t3 -> extends t1 t3.
Proof.
  intros (Hf1 & Hr1 & Hc1 & Hn1) (Hf2 & Hr2 & Hc2 & Hn2).
  repeat split; try congruence; try lia.
  intros i Hi. rewrite Hn2 by lia. apply Hn1, Hi.
Qed.

Lemma extends_paranoid (t1 t2 : tinyTree_t) :
  extends t1 t2 -> paranoid t2 = paranoid t1.
Proof. intros (Hf & _). unfold paranoid. now rewrite Hf. Qed.

Lemma extends_qntf (t1 t2 : tinyTree_t) :
  extends t1 t2 -> qntf t2 = qntf t1.
Proof. intros (Hf & _). unfold qntf. now rewrite Hf. Qed.

Lemma extends_not_qntf (t1 t2 : tinyTree_t) :
  extends t1 t2 -> not_qntf t2 = not_qntf t1.
Proof. intros (Hf & _). unfold not_qntf. now rewrite Hf. Qed.

(** What a returning [basicNode] did: it found the first node equal to
    the triple, or it appended the triple at [count]. *)
Lemma basicNode_inv (tree tree1 : tinyTree_t) (q t f nid : Z) :
  basicNode tree q t f = Returned (nid, tree1) ->
  (tree1 = tree
   /\ TINYTREE_NSTART <= nid < count tree
   /\ N tree nid = mkNode q t f
   /\ (forall j, TINYTREE_NSTART <= j < nid -> node_is (N tree j) q t f = false)
   /\ nid < TINYTREE_MAXNODES)
  \/
  (tree1 = setNode (setCount tree (count tree + 1)) (count tree) (mkNode q t f)
   /\ nid = count tree
   /\ 0 <= count tree < TINYTREE_MAXNODES
   /\ forall j, TINYTREE_NSTART <= j < count tree ->
                node_is (N tree j) q t f = false).
Proof.
  unfold basicNode, assert. intros H.
  destruct (negb (paranoid tree) || _); [ | discriminate ].
  destruct (findNode _ _ _ _ _ _) as [found | |] eqn:Hfind;
    [ | | discriminate ].
  - injection H as <- <-. left.
    apply findNode_Found in Hfind.
    destruct Hfind as (Hr & Hm & Hfirst & Hall).
    assert (Hin : inN found = true) by (apply Hall; lia).
    unfold inN in Hin. apply andb_true_iff in Hin. destruct Hin as [_ Hin].
    apply Z.ltb_lt in Hin.
    repeat split; try lia; [ | exact Hfirst ].
    unfold node_is in Hm.
    apply andb_true_iff in Hm. destruct Hm as [Hm Hf'].
    apply andb_true_iff in Hm. destruct Hm as [Hq' Ht'].
    apply Z.eqb_eq in Hq', Ht', Hf'.
    destruct (N tree found) as [q0 t0 f0]. simpl in *. congruence.
  - destruct (Z.ltb_spec (count tree) TINYTREE_NEND); [ | discriminate ].
    destruct (inN (count tree)) eqn:Hin; simpl negb in H; cbv iota in H;
      [ | discriminate ].
    injection H as <- <-. right.
    unfold inN in Hin. apply andb_true_iff in Hin. destruct Hin as [Hlo Hhi].
    apply Z.leb_le in Hlo. apply Z.ltb_lt in Hhi.
    repeat split; try assumption.
    intros j Hj. eapply findNode_Absent in Hfind; [ apply Hfind | ]. lia.
Qed.

Lemma node_is_refl (q t f : Z) : node_is (mkNode q t f) q t f = true.
Proof. unfold node_is. simpl. now rewrite !Z.eqb_refl. Qed.

Lemma basicNode_extends (tree tree1 : tinyTree_t) (q t f nid : Z) :
  basicNode tree q t f = Returned (nid, tree1) -> extends tree tree1.
Proof.
  intros H. apply basicNode_inv in H.
  destruct H as [(-> & _) | (-> & _ & _ & _)]; [ apply extends_refl | ].
  repeat split; simpl; try lia.
  intros i Hi. destruct (Z.eqb_spec i (count tree)); [ lia | reflexivity ].
Qed.

(** Once [basicNode] has returned [nid] for a triple, it returns [nid]
    again, without a change, on every tree that extends the result. *)
Lemma basicNode_stable (tree tree1 tree2 : tinyTree_t) (q t f nid : Z) :
  TINYTREE_NSTART <= count tree ->
  basicNode tree q t f = Returned (nid, tree1) ->
  extends tree1 tree2 ->
  basicNode tree2 q t f = Returned (nid, tree2).
Proof.
  intros Hwf H Hext.
  assert (Hfirst : TINYTREE_NSTART <= nid < count tree1
                   /\ N tree1 nid = mkNode q t f
                   /\ (forall j, TINYTREE_NSTART <= j < nid ->
                                  node_is (N tree1 j) q t f = false)
                   /\ nid < TINYTREE_MAXNODES).
  { apply basicNode_inv in H.
    destruct H as [(-> & Hr & Hn & Hf & Hb) | (-> & -> & Hc & Hf)].
    - repeat split; try lia; assumption.
    - simpl. rewrite Z.eqb_refl. repeat split; try lia.
      intros j Hj. destruct (Z.eqb_spec j (count tree)); [ lia | ].
      apply Hf. lia. }
  assert (Hasserts : paranoid tree2 = paranoid tree
                     /\ not_qntf tree2 = not_qntf tree).
  { pose proof (basicNode_extends _ _ _ _ _ _ H) as Hext1.
    pose proof (extends_trans _ _ _ Hext1 Hext) as Hext2.
    split; [ eapply extends_paranoid | eapply extends_not_qntf ]; eassumption. }
  destruct Hasserts as [Hp Hq].
  destruct Hfirst as (Hr & Hn & Hf & Hb).
  destruct Hext as (_ & _ & Hc & Hagree).
  unfold basicNode, assert in *. rewrite Hp, Hq.
  destruct (negb (paranoid tree) || _); [ | discriminate ].
  assert (Hfind : findNode (N tree2) q t f TINYTREE_NSTART
                    (Z.to_nat (count tree2 - TINYTREE_NSTART)) = Found nid).
  { apply findNode_Found. repeat split; try lia.
    - rewrite Hagree by lia. rewrite Hn. apply node_is_refl.
    - intros j Hj. rewrite Hagree by lia. apply Hf. lia.
    - intros j Hj. unfold inN. tree_consts.
      apply andb_true_iff. split; [ apply Z.leb_le | apply Z.ltb_lt ]; lia. }
  rewrite Hfind. reflexivity.
Qed.

(** *** [normaliseQTF] is idempotent *)

Lemma normaliseQTF_rec_stable (depth : nat) :
  forall (tree tree1 : tinyTree_t) (q t f r : Z),
    TINYTREE_NSTART <= count tree ->
    normaliseQTF_rec depth tree q t f = Returned (r, tree1) ->
    extends tree tree1
    /\ forall tree2, extends tree1 tree2 ->
                     normaliseQTF_rec depth tree2 q t f = Returned (r, tree2).
Proof.
  induction depth as [| depth IH]; intros tree tree1 q t f r Hwf H;
    [ discriminate | ].
  cbn [normaliseQTF_rec] in H. unfold assert in H.
  destruct (negb (paranoid tree) || _) eqn:Hargs; [ | discriminate ].
  assert (Hargs2 : forall tree2, extends tree tree2 ->
            negb (paranoid tree2)
            || ((strip q <? count tree2) && (strip t <? count tree2)
                && (strip f <? count tree2)) = true).
  { intros tree2 Hext. rewrite (extends_paranoid _ _ Hext).
    destruct (paranoid tree); [ simpl in * | reflexivity ].
    destruct Hext as (_ & _ & Hc & _).
    apply andb_true_iff in Hargs. destruct Hargs as [Hargs H3].
    apply andb_true_iff in Hargs. destruct Hargs as [H1 H2].
    apply Z.ltb_lt in H1, H2, H3.
    rewrite !andb_true_iff, !Z.ltb_lt. lia. }
  destruct (if inverted q then (Z.lxor q IBIT, f, t) else (q, t, f))
    as [[Q1 T1] F1] eqn:E1.
  destruct (Q1 =? 0) eqn:EQ0.
  { injection H as <- <-. split; [ apply extends_refl | ].
    intros tree2 Hext. cbn [normaliseQTF_rec]. unfold assert.
    rewrite (Hargs2 _ Hext), E1, EQ0. reflexivity. }
  destruct (if inverted F1
            then (Z.lxor T1 IBIT, Z.lxor F1 IBIT, Z.lxor 0 IBIT)
            else (T1, F1, 0)) as [[T2 F2] ibit] eqn:E2.
  destruct (functionGrouping Q1 T2 F2) as [r0 | Q3 T3 F3] eqn:EG.
  { injection H as <- <-. split; [ apply extends_refl | ].
    intros tree2 Hext. cbn [normaliseQTF_rec]. unfold assert.
    rewrite (Hargs2 _ Hext), E1, EQ0, E2, EG. reflexivity. }
  destruct (qntf tree && plain T3) eqn:Erw.
  - destruct (normaliseQTF_rec depth tree Q3 (Z.lxor T3 IBIT) F3)
      as [[rin tin] | |] eqn:Einner; [ | discriminate | discriminate ].
    destruct (basicNode tin Q3 (Z.lxor rin IBIT) F3)
      as [[nid tout] | |] eqn:Eb; [ | discriminate | discriminate ].
    injection H as <- <-.
    destruct (IH _ _ _ _ _ _ Hwf Einner) as [Hext_in Hstable_in].
    pose proof (basicNode_extends _ _ _ _ _ _ Eb) as Hext_b.
    assert (Hwf_in : TINYTREE_NSTART <= count tin).
    { destruct Hext_in as (_ & _ & Hc & _). lia. }
    split; [ eapply extends_trans; eassumption | ].
    intros tree2 Hext. cbn [normaliseQTF_rec]. unfold assert.
    assert (Hext02 : extends tree tree2).
    { eapply extends_trans; [ | exact Hext ].
      eapply extends_trans; eassumption. }
    rewrite (Hargs2 _ Hext02), E1, EQ0, E2, EG.
    rewrite (extends_qntf _ _ Hext02), Erw.
    rewrite (Hstable_in tree2) by (eapply extends_trans; eassumption).
    rewrite (basicNode_stable _ _ _ _ _ _ _ Hwf_in Eb Hext). reflexivity.
  - destruct (basicNode tree Q3 T3 F3) as [[nid tout] | |] eqn:Eb;
      [ | discriminate | discriminate ].
    injection H as <- <-.
    pose proof (basicNode_extends _ _ _ _ _ _ Eb) as Hext_b.
    split; [ assumption | ].
    intros tree2 Hext. cbn [normaliseQTF_rec]. unfold assert.
    assert (Hext02 : extends tree tree2) by (eapply extends_trans; eassumption).
    rewrite (Hargs2 _ Hext02), E1, EQ0, E2, EG.
    rewrite (extends_qntf _ _ Hext02), Erw.
    rewrite (basicNode_stable _ _ _ _ _ _ _ Hwf Eb Hext). reflexivity.
Qed.


(** *** The QTF-to-QnTF rewrite nests one call deep *)

Lemma functionGrouping_inverted (q t f q' t' f' : Z) :
  inverted q = false -> inverted t = true ->
  functionGrouping q t f = Operator q' t' f' ->
  inverted t' = true.
Proof.
  intros Hq Ht. unfold functionGrouping. rewrite Ht.
  repeat match goal with
         | |- context [if ?b then _ else _] => destruct b
         end;
    intros [= <- <- <-]; try assumption.
  all: now rewrite inverted_lxor_IBIT, Hq.
Qed.

Lemma functionGrouping_plain (q t f q' t' f' : Z) :
  inverted q = false -> inverted f = false ->
  functionGrouping q t f = Operator q' t' f' ->
  inverted t' = false ->
  inverted q' = false /\ inverted f' = false.
Proof.
  intros Hq Hf. unfold functionGrouping.
  destruct (inverted t) eqn:Ht.
  - intros HG Ht'.
    rewrite (functionGrouping_inverted q t f q' t' f' Hq Ht) in Ht';
      [ discriminate | ].
    unfold functionGrouping. now rewrite Ht.
  - assert (H0 : inverted 0 = false) by reflexivity.
    repeat match goal with
           | |- context [if ?b then _ else _] => destruct b
           end;
      intros [= <- <- <-] Ht'; auto.
Qed.

Lemma normaliseQTF_rec_inverted (m : nat) (tree : tinyTree_t) (q t f : Z) :
  inverted q = false -> inverted f = false -> inverted t = true ->
  normaliseQTF_rec (S m) tree q t f = normaliseQTF_rec 1 tree q t f.
Proof.
  intros Hq Hf Ht. cbn [normaliseQTF_rec]. rewrite Hq, Hf.
  destruct (negb (paranoid tree) || _); [ | reflexivity ].
  unfold assert. destruct (q =? 0); [ reflexivity | ].
  destruct (functionGrouping q t f) as [r | q' t' f'] eqn:EG; [ reflexivity | ].
  rewrite plain_inverted.
  rewrite (functionGrouping_inverted _ _ _ _ _ _ Hq Ht EG).
  rewrite andb_false_r. reflexivity.
Qed.

Lemma normaliseQTF_rec_depth (n : nat) (tree : tinyTree_t) (q t f : Z) :
  normaliseQTF_rec (S (S n)) tree q t f = normaliseQTF tree q t f.
Proof.
  unfold normaliseQTF.
  change (normaliseQTF_rec 2 tree q t f)
    with (normaliseQTF_rec (S 1) tree q t f).
  remember (S n) as m eqn:Hm. remember 1%nat as one eqn:H1.
  cbn [normaliseQTF_rec]. unfold assert.
  destruct (negb (paranoid tree) || _); [ | reflexivity ].
  destruct (if inverted q then (Z.lxor q IBIT, f, t) else (q, t, f))
    as [[Q1 T1] F1] eqn:E1.
  assert (HQ1 : inverted Q1 = false).
  { destruct (inverted q) eqn:Hq; injection E1 as <- <- <-;
      [ now rewrite inverted_lxor_IBIT, Hq | assumption ]. }
  destruct (Q1 =? 0); [ reflexivity | ].
  destruct (if inverted F1
            then (Z.lxor T1 IBIT, Z.lxor F1 IBIT, Z.lxor 0 IBIT)
            else (T1, F1, 0)) as [[T2 F2] ibit] eqn:E2.
  assert (HF2 : inverted F2 = false).
  { destruct (inverted F1) eqn:HF1; injection E2 as <- <- <-;
      [ now rewrite inverted_lxor_IBIT, HF1 | assumption ]. }
  destruct (functionGrouping Q1 T2 F2) as [r | Q3 T3 F3] eqn:EG;
    [ reflexivity | ].
  destruct (qntf tree && plain T3) eqn:Erw; [ | reflexivity ].
  apply andb_true_iff in Erw. destruct Erw as [_ HT3].
  rewrite plain_inverted in HT3. apply negb_true_iff in HT3.
  destruct (functionGrouping_plain _ _ _ _ _ _ HQ1 HF2 EG HT3) as [HQ3 HF3].
  subst m one.
  rewrite (normaliseQTF_rec_inverted n tree Q3 (Z.lxor T3 IBIT) F3);
    [ reflexivity | assumption | assumption | ].
  now rewrite inverted_lxor_IBIT, HT3.
Qed.


(** *** When [normaliseQTF] returns *)

Lemma findNode_inside (nodes : Z -> tinyNode_t) (q t f : Z) (n : nat) :
  forall from,
    0 <= from -> from + Z.of_nat n <= TINYTREE_MAXNODES ->
    findNode nodes q t f from n <> OutOfRange.
Proof.
  induction n as [| n IH]; intros from Hlo Hhi; simpl findNode;
    [ discriminate | ].
  replace (inN from) with true.
  - simpl. destruct (node_is (nodes from) q t f); [ discriminate | ].
    apply IH; lia.
  - symmetry. unfold inN. apply andb_true_iff.
    split; [ apply Z.leb_le | apply Z.ltb_lt ]; lia.
Qed.

Lemma basicNode_returns (tree : tinyTree_t) (q t f : Z) :
  paranoid tree = false ->
  0 <= count tree < TINYTREE_MAXNODES ->
  exists nid tree1,
    basicNode tree q t f = Returned (nid, tree1)
    /\ count tree1 <= count tree + 1.
Proof.
  intros Hp Hc. unfold basicNode, assert. rewrite Hp. simpl.
  destruct (findNode _ _ _ _ _ _) as [nid | |] eqn:Hfind.
  - exists nid, tree. split; [ reflexivity | lia ].
  - destruct (Z.ltb_spec (count tree) TINYTREE_NEND);
      [ | tree_consts; lia ].
    replace (inN (count tree)) with true.
    + eexists _, _. split; [ reflexivity | simpl; lia ].
    + symmetry. unfold inN. apply andb_true_iff.
      split; [ apply Z.leb_le | apply Z.ltb_lt ]; lia.
  - exfalso. revert Hfind. apply findNode_inside; tree_consts; lia.
Qed.

Lemma normaliseQTF_rec1_returns (tree : tinyTree_t) (q t f : Z) :
  paranoid tree = false ->
  inverted q = false -> inverted f = false -> inverted t = true ->
  0 <= count tree < TINYTREE_MAXNODES ->
  exists r tree1,
    normaliseQTF_rec 1 tree q t f = Returned (r, tree1)
    /\ count tree <= count tree1 <= count tree + 1
    /\ paranoid tree1 = false.
Proof.
  intros Hp Hq Hf Ht Hc. cbn [normaliseQTF_rec]. unfold assert.
  rewrite Hp, Hq, Hf. simpl negb. cbn [orb].
  destruct (q =? 0); [ eexists _, _; repeat split; [ lia | lia | assumption ] | ].
  destruct (functionGrouping q t f) as [r | q' t' f'] eqn:EG;
    [ eexists _, _; repeat split; [ lia | lia | assumption ] | ].
  rewrite plain_inverted, (functionGrouping_inverted _ _ _ _ _ _ Hq Ht EG).
  rewrite andb_false_r.
  destruct (basicNode_returns tree q' t' f' Hp Hc) as (nid & tree1 & Hb & Hc1).
  pose proof (basicNode_extends _ _ _ _ _ _ Hb) as Hext.
  rewrite Hb. eexists _, _. repeat split; [ | lia | ].
  - destruct Hext as (_ & _ & Hle & _). exact Hle.
  - rewrite (extends_paranoid tree tree1); assumption.
Qed.

(** Without the paranoid assertions the only way not to return is a full
    array; a call appends two nodes at most. *)
Lemma normaliseQTF_returns (tree : tinyTree_t) (q t f : Z) :
  paranoid tree = false ->
  0 <= count tree -> count tree + 2 <= TINYTREE_MAXNODES ->
  exists r tree1,
    normaliseQTF tree q t f = Returned (r, tree1)
    /\ count tree1 <= count tree + 2.
Proof.
  intros Hp Hc0 Hc. unfold normaliseQTF.
  remember 1%nat as one eqn:H1.
  cbn [normaliseQTF_rec]. unfold assert.
  rewrite Hp. simpl negb. cbn [orb].
  destruct (if inverted q then (Z.lxor q IBIT, f, t) else (q, t, f))
    as [[Q1 T1] F1] eqn:E1.
  assert (HQ1 : inverted Q1 = false).
  { destruct (inverted q) eqn:Hq; injection E1 as <- <- <-;
      [ now rewrite inverted_lxor_IBIT, Hq | assumption ]. }
  destruct (Q1 =? 0); [ eexists _, _; split; [ reflexivity | lia ] | ].
  destruct (if inverted F1
            then (Z.lxor T1 IBIT, Z.lxor F1 IBIT, Z.lxor 0 IBIT)
            else (T1, F1, 0)) as [[T2 F2] ibit] eqn:E2.
  assert (HF2 : inverted F2 = false).
  { destruct (inverted F1) eqn:HF1; injection E2 as <- <- <-;
      [ now rewrite inverted_lxor_IBIT, HF1 | assumption ]. }
  destruct (functionGrouping Q1 T2 F2) as [r | Q3 T3 F3] eqn:EG;
    [ eexists _, _; split; [ reflexivity | lia ] | ].
  destruct (qntf tree && plain T3) eqn:Erw.
  - apply andb_true_iff in Erw. destruct Erw as [_ HT3].
    rewrite plain_inverted in HT3. apply negb_true_iff in HT3.
    destruct (functionGrouping_plain _ _ _ _ _ _ HQ1 HF2 EG HT3) as [HQ3 HF3].
    subst one.
    destruct (normaliseQTF_rec1_returns tree Q3 (Z.lxor T3 IBIT) F3)
      as (rin & tin & -> & Hcin & Hpin); try assumption; try lia.
    { now rewrite inverted_lxor_IBIT, HT3. }
    destruct (basicNode_returns tin Q3 (Z.lxor rin IBIT) F3 Hpin)
      as (nid & tout & -> & Hcout); [ lia | ].
    eexists _, _; split; [ reflexivity | lia ].
  - destruct (basicNode_returns tree Q3 T3 F3 Hp)
      as (nid & tree1 & -> & Hc1); [ lia | ].
    eexists _, _; split; [ reflexivity | lia ].
Qed.


(** *** The ordering invariant *)

(** Every stored operator node refers to entries below itself. *)
Definition ordered (tree : tinyTree_t) : Prop :=
  forall nid, TINYTREE_NSTART <= nid < count tree ->
    Q (N tree nid) < nid
    /\ strip (T (N tree nid)) < nid
    /\ F (N tree nid) < nid.

(** An argument of [normaliseQTF] is a reference, possibly inverted, to an
    entry the tree already has; this is what paranoid mode asserts. *)
Definition valid_ref (tree : tinyTree_t) (x : Z) : Prop :=
  u32 x /\ strip x < count tree.

Lemma functionGrouping_valid (c q t f : Z) :
  0 < c <= IBIT ->
  u32 q -> u32 t -> u32 f ->
  q < IBIT -> f < IBIT ->
  q < c -> strip t < c -> f < c ->
  match functionGrouping q t f with
  | Collapse r => u32 r /\ strip r < c
  | Operator q' t' f' =>
      (u32 q' /\ u32 t' /\ u32 f')
      /\ (q' < IBIT /\ f' < IBIT)
      /\ (q' < c /\ strip t' < c /\ f' < c)
  end.
Proof.
  intros Hc Hq Ht Hf Hqp Hfp Hqc Htc Hfc.
  assert (Hxq : Z.lxor q IBIT = q + IBIT).
  { rewrite lxor_IBIT by assumption.
    destruct (Z.ltb_spec q IBIT); [ reflexivity | lia ]. }
  assert (Hsq : strip q = q).
  { rewrite strip_u32 by assumption.
    destruct (Z.ltb_spec q IBIT); [ reflexivity | lia ]. }
  assert (Hsxq : strip (q + IBIT) = q).
  { rewrite strip_u32 by (unfold u32, IBIT in *; lia).
    destruct (Z.ltb_spec (q + IBIT) IBIT); unfold u32 in *; lia. }
  assert (Hsf : strip f = f).
  { rewrite strip_u32 by assumption.
    destruct (Z.ltb_spec f IBIT); [ reflexivity | lia ]. }
  assert (Hs0 : strip 0 = 0) by reflexivity.
  assert (HsI : strip IBIT = 0) by reflexivity.
  assert (Hst : (t < IBIT /\ strip t = t) \/ (IBIT <= t /\ strip t = t - IBIT)).
  { rewrite strip_u32 by assumption. destruct (Z.ltb_spec t IBIT); lia. }
  unfold functionGrouping.
  rewrite (inverted_u32 t Ht). rewrite !Z.gtb_ltb.
  change (Z.lxor 0 IBIT) with IBIT. rewrite Hxq.
  remember (strip t) as st eqn:Est.
  split_tests;
    rewrite ?Hsq, ?Hsxq, ?Hs0, ?HsI, ?Hsf, <- ?Est;
    unfold u32, IBIT in *; repeat split; lia.
Qed.

Lemma basicNode_ordered (tree tree1 : tinyTree_t) (q t f nid : Z) :
  TINYTREE_NSTART <= count tree <= TINYTREE_NEND ->
  ordered tree ->
  q < count tree -> strip t < count tree -> f < count tree ->
  basicNode tree q t f = Returned (nid, tree1) ->
  ordered tree1
  /\ count tree1 <= TINYTREE_NEND
  /\ TINYTREE_NSTART <= nid < count tree1.
Proof.
  intros Hwf Hord Hq Ht Hf H. apply basicNode_inv in H.
  destruct H as [(-> & Hr & _) | (-> & -> & Hc & _)].
  - split; [ exact Hord | lia ].
  - split; [ | simpl; tree_consts; lia ].
    intros nid Hnid. simpl in *.
    destruct (Z.eqb_spec nid (count tree)) as [-> | Hne]; simpl.
    + lia.
    + apply Hord. lia.
Qed.


Lemma strip_lxor_IBIT (x : Z) : u32 x -> strip (Z.lxor x IBIT) = strip x.
Proof.
  intros Hx. rewrite (strip_u32 _ (u32_lxor_IBIT x Hx)), (strip_u32 x Hx).
  rewrite (lxor_IBIT x Hx). unfold u32, IBIT in *.
  destruct (Z.ltb_spec x 0x80000000);
    match goal with
    | |- context [Z.ltb ?a ?b] => destruct (Z.ltb_spec a b)
    end; lia.
Qed.

Lemma strip_plain (x : Z) : u32 x -> inverted x = false -> strip x = x.
Proof.
  intros Hx. rewrite (inverted_u32 x Hx), (strip_u32 x Hx).
  destruct (Z.leb_spec IBIT x), (Z.ltb_spec x IBIT);
    try discriminate; try lia; reflexivity.
Qed.

Lemma plain_lt_IBIT (x : Z) : u32 x -> inverted x = false -> x < IBIT.
Proof.
  intros Hx. rewrite (inverted_u32 x Hx).
  destruct (Z.leb_spec IBIT x); [ discriminate | intros _; assumption ].
Qed.

Lemma valid_ref_lxor (tree : tinyTree_t) (x : Z) :
  valid_ref tree x -> valid_ref tree (Z.lxor x IBIT).
Proof.
  intros [Hu Hs]. split; [ apply u32_lxor_IBIT, Hu | ].
  now rewrite strip_lxor_IBIT.
Qed.


Lemma valid_ref_nid (tree : tinyTree_t) (nid : Z) :
  TINYTREE_NSTART <= nid < count tree -> count tree <= TINYTREE_NEND ->
  valid_ref tree nid.
Proof.
  intros Hn Hc.
  assert (Hu : u32 nid) by (tree_consts; unfold u32; lia).
  split; [ exact Hu | ].
  rewrite (strip_u32 nid Hu). tree_consts. unfold IBIT.
  destruct (Z.ltb_spec nid 0x80000000); lia.
Qed.

(** [normaliseQTF] keeps the tree ordered when it is handed references to
    entries that exist, and it hands back such a reference. *)
Lemma normaliseQTF_rec_ordered (depth : nat) :
  forall (tree tree1 : tinyTree_t) (q t f r : Z),
    TINYTREE_NSTART <= count tree <= TINYTREE_NEND ->
    ordered tree ->
    valid_ref tree q -> valid_ref tree t -> valid_ref tree f ->
    normaliseQTF_rec depth tree q t f = Returned (r, tree1) ->
    ordered tree1
    /\ count tree <= count tree1 <= TINYTREE_NEND
    /\ valid_ref tree1 r.
Proof.
  induction depth as [| depth IH]; intros tree tree1 q t f r Hwf Hord Vq Vt Vf H;
    [ discriminate | ].
  cbn [normaliseQTF_rec] in H. unfold assert in H.
  destruct (negb (paranoid tree) || _); [ | discriminate ].
  (* level 1a *)
  destruct (if inverted q then (Z.lxor q IBIT, f, t) else (q, t, f))
    as [[Q1 T1] F1] eqn:E1.
  assert (H1 : valid_ref tree Q1 /\ inverted Q1 = false
               /\ valid_ref tree T1 /\ valid_ref tree F1).
  { destruct (inverted q) eqn:Hq; injection E1 as <- <- <-.
    - split; [ apply valid_ref_lxor, Vq | ].
      split; [ now rewrite inverted_lxor_IBIT, Hq | split; assumption ].
    - split; [ exact Vq | split; [ exact Hq | split; assumption ] ]. }
  destruct H1 as (VQ1 & PQ1 & VT1 & VF1).
  destruct (Q1 =? 0).
  { injection H as <- <-. split; [ exact Hord | split; [ lia | exact VF1 ] ]. }
  destruct (if inverted F1
            then (Z.lxor T1 IBIT, Z.lxor F1 IBIT, Z.lxor 0 IBIT)
            else (T1, F1, 0)) as [[T2 F2] ibit] eqn:E2.
  assert (H2 : valid_ref tree T2 /\ valid_ref tree F2 /\ inverted F2 = false
               /\ (ibit = 0 \/ ibit = IBIT)).
  { destruct (inverted F1) eqn:HF1; injection E2 as <- <- <-.
    - split; [ apply valid_ref_lxor, VT1 | ].
      split; [ apply valid_ref_lxor, VF1 | ].
      split; [ now rewrite inverted_lxor_IBIT, HF1 | right; reflexivity ].
    - split; [ exact VT1 | split; [ exact VF1 | split; [ exact HF1 | now left ] ] ]. }
  destruct H2 as (VT2 & VF2 & PF2 & Hibit).
  assert (Vibit : forall tr x, valid_ref tr x -> valid_ref tr (Z.lxor x ibit)).
  { intros tr x Vx. destruct Hibit as [-> | ->];
      [ now rewrite Z.lxor_0_r | now apply valid_ref_lxor ]. }
  (* level 1b, 1c *)
  assert (Hc : 0 < count tree <= IBIT) by (tree_consts; unfold IBIT; lia).
  destruct VQ1 as [UQ1 SQ1]. destruct VT2 as [UT2 ST2].
  destruct VF2 as [UF2 SF2].
  rewrite (strip_plain Q1 UQ1 PQ1) in SQ1.
  rewrite (strip_plain F2 UF2 PF2) in SF2.
  pose proof (functionGrouping_valid (count tree) Q1 T2 F2 Hc UQ1 UT2 UF2
                (plain_lt_IBIT _ UQ1 PQ1) (plain_lt_IBIT _ UF2 PF2)
                SQ1 ST2 SF2) as HG.
  destruct (functionGrouping Q1 T2 F2) as [r0 | Q3 T3 F3].
  { injection H as <- <-.
    split; [ exact Hord | split; [ lia | apply Vibit; exact HG ] ]. }
  destruct HG as ((UQ3 & UT3 & UF3) & (PQ3 & PF3) & (CQ3 & CT3 & CF3)).
  assert (SQ3 : strip Q3 = Q3).
  { rewrite strip_u32 by assumption.
    destruct (Z.ltb_spec Q3 IBIT); [ reflexivity | lia ]. }
  assert (SF3 : strip F3 = F3).
  { rewrite strip_u32 by assumption.
    destruct (Z.ltb_spec F3 IBIT); [ reflexivity | lia ]. }
  destruct (qntf tree && plain T3).
  - destruct (normaliseQTF_rec depth tree Q3 (Z.lxor T3 IBIT) F3)
      as [[rin tin] | |] eqn:Einner; [ | discriminate | discriminate ].
    destruct (basicNode tin Q3 (Z.lxor rin IBIT) F3)
      as [[nid tout] | |] eqn:Eb; [ | discriminate | discriminate ].
    injection H as <- <-.
    destruct (IH tree tin Q3 (Z.lxor T3 IBIT) F3 rin Hwf Hord)
      as (Hord_in & Hc_in & Vrin); try assumption.
    { split; [ assumption | lia ]. }
    { apply valid_ref_lxor. split; assumption. }
    { split; [ assumption | lia ]. }
    destruct (basicNode_ordered tin tout Q3 (Z.lxor rin IBIT) F3 nid)
      as (Hord_out & Hc_out & Hnid); try assumption; try lia.
    { rewrite strip_lxor_IBIT by apply Vrin. apply Vrin. }
    pose proof (basicNode_extends _ _ _ _ _ _ Eb) as (_ & _ & Hgrow & _).
    split; [ exact Hord_out | split; [ lia | ] ].
    apply Vibit, valid_ref_nid; assumption.
  - destruct (basicNode tree Q3 T3 F3) as [[nid tout] | |] eqn:Eb;
      [ | discriminate | discriminate ].
    injection H as <- <-.
    destruct (basicNode_ordered tree tout Q3 T3 F3 nid)
      as (Hord_out & Hc_out & Hnid); try assumption.
    pose proof (basicNode_extends _ _ _ _ _ _ Eb) as (_ & _ & Hgrow & _).
    split; [ exact Hord_out | split; [ lia | ] ].
    apply Vibit, valid_ref_nid; assumption.
Qed.


(** *** The safe parser: the root, and notations that do not balance *)

Lemma normaliseQTF_root (tree tree1 : tinyTree_t) (q t f r : Z) :
  TINYTREE_NSTART <= count tree ->
  normaliseQTF tree q t f = Returned (r, tree1) ->
  root tree1 = root tree /\ TINYTREE_NSTART <= count tree1.
Proof.
  intros Hc H. unfold normaliseQTF in H.
  destruct (normaliseQTF_rec_stable _ _ _ _ _ _ _ Hc H)
    as [(_ & Hr & Hgrow & _) _].
  split; [ exact Hr | lia ].
Qed.

(** What a turn of the loop keeps: the root, and [count] at or above
    [TINYTREE_NSTART]. *)
Definition keeps (r : Z) (tree : tinyTree_t) : Prop :=
  root tree = r /\ TINYTREE_NSTART <= count tree.

Lemma safeDyadic_keeps (r : Z) (st st' : safeState) mk :
  keeps r (sTree st) ->
  (safeDyadic st mk = Next st' \/ safeDyadic st mk = SkipRest st') ->
  keeps r (sTree st').
Proof.
  intros [Hr Hc] H. unfold safeDyadic in H.
  destruct (sStackPos st <? 2); [ destruct H; discriminate | ].
  destruct (mk _ _) as [[q t] f].
  destruct (normaliseQTF (sTree st) q t f) as [[nid tree] | |] eqn:En;
    [ | destruct H; discriminate | destruct H; discriminate ].
  destruct (TINYTREE_NEND <=? sNextNode st); [ destruct H; discriminate | ].
  destruct H as [[= <-] | H]; [ | discriminate ]. simpl.
  destruct (normaliseQTF_root _ _ _ _ _ _ Hc En) as [Hr' Hc'].
  split; [ congruence | assumption ].
Qed.

Lemma safeTernary_keeps (r : Z) (st st' : safeState) mk :
  keeps r (sTree st) ->
  (safeTernary st mk = Next st' \/ safeTernary st mk = SkipRest st') ->
  keeps r (sTree st').
Proof.
  intros [Hr Hc] H. unfold safeTernary in H.
  destruct (sStackPos st <? 3); [ destruct H; discriminate | ].
  destruct (mk _ _ _) as [[q t] f].
  destruct (normaliseQTF (sTree st) q t f) as [[nid tree] | |] eqn:En;
    [ | destruct H; discriminate | destruct H; discriminate ].
  destruct (TINYTREE_NEND <=? sNextNode st); [ destruct H; discriminate | ].
  destruct H as [[= <-] | H]; [ | discriminate ]. simpl.
  destruct (normaliseQTF_root _ _ _ _ _ _ Hc En) as [Hr' Hc'].
  split; [ congruence | assumption ].
Qed.

Lemma decodeSafeStep_keeps (pSkin : string) (r : Z) (st st' : safeState) (ch : ascii) :
  keeps r (sTree st) ->
  (decodeSafeStep pSkin st ch = Next st'
   \/ decodeSafeStep pSkin st ch = SkipRest st') ->
  keeps r (sTree st').
Proof.
  intros Hk H. unfold decodeSafeStep, safePush in H.
  repeat match type of H with
         | context [safeDyadic st ?mk] =>
             lazymatch type of H with
             | context [if ?b then _ else _] => destruct b
             | _ => apply (safeDyadic_keeps r st st' mk Hk H)
             end
         | context [safeTernary st ?mk] =>
             lazymatch type of H with
             | context [if ?b then _ else _] => destruct b
             | _ => apply (safeTernary_keeps r st st' mk Hk H)
             end
         | context [match ?o with Some _ => _ | None => _ end] =>
             destruct o eqn:?
         | context [normaliseQTF ?a ?b ?c ?d] =>
             destruct (normaliseQTF a b c d) as [[? ?] | |] eqn:?
         | context [let '(_, _) := ?p in _] => destruct p
         | context [if ?b then _ else _] => destruct b
         end;
    try (destruct H as [H | H]; try discriminate; injection H as <-; simpl;
         try exact Hk).
  all: try exact (safeDyadic_keeps r st st' _ Hk H).
  all: try exact (safeTernary_keeps r st st' _ Hk H).
  (* LT *)
  all: destruct Hk as [Hr Hc];
    match goal with
    | En : normaliseQTF _ _ _ _ = Returned _ |- _ =>
        destruct (normaliseQTF_root _ _ _ _ _ _ Hc En) as [Hr' Hc']
    end;
    split; [ congruence | assumption ].
Qed.

Lemma decodeSafeLoop_keeps (pSkin : string) (r : Z) (pName : string) :
  forall st st',
    keeps r (sTree st) ->
    decodeSafeLoop pSkin st pName = inr st' ->
    keeps r (sTree st').
Proof.
  induction pName as [| ch rest IH]; intros st st' Hk H; simpl in H.
  - injection H as <-. exact Hk.
  - destruct (decodeSafeStep pSkin st ch) as [st1 | st1 | o] eqn:Es;
      [ | | discriminate ].
    + apply (IH st1 st'); [ | exact H ].
      eapply decodeSafeStep_keeps; [ exact Hk | left; exact Es ].
    + injection H as <-.
      eapply decodeSafeStep_keeps; [ exact Hk | right; exact Es ].
Qed.


(** *** The walks of [encode] end *)

(** The ids of the cells of [N]. *)
Definition nodeIds : list Z := map Z.of_nat (seq 0 (Z.to_nat TINYTREE_MAXNODES)).

(** How many cells of [N] a walk has not been to. *)
Definition unvisitedCount (beenThere : Z) : nat :=
  List.length (filter (unvisited beenThere) nodeIds).

(** What a turn of a walk uses up: an entry of the stack, or a cell not
    been to, which puts four entries on the stack at most. *)
Definition walkMeasure (st : encState) : nat :=
  (Z.to_nat (eStackPos st) + 4 * unvisitedCount (eBeenThere st))%nat.

Lemma filter_length_mono {A : Type} (f g : A -> bool) (l : list A) :
  (forall x, g x = true -> f x = true) ->
  (List.length (filter g l) <= List.length (filter f l))%nat.
Proof.
  intros Himp. induction l as [| a l IH]; simpl; [ lia | ].
  destruct (g a) eqn:Hg.
  - rewrite (Himp a Hg). simpl. lia.
  - destruct (f a); simpl; lia.
Qed.

Lemma filter_length_all {A : Type} (f : A -> bool) (l : list A) :
  (List.length (filter f l) <= List.length l)%nat.
Proof. induction l as [| a l IH]; simpl; [ lia | destruct (f a); simpl; lia ]. Qed.

Lemma filter_length_strict {A : Type} (f g : A -> bool) (l : list A) (a : A) :
  (forall x, g x = true -> f x = true) ->
  In a l -> f a = true -> g a = false ->
  (List.length (filter g l) < List.length (filter f l))%nat.
Proof.
  intros Himp Hin Hf Hg. induction l as [| b l IH]; simpl; [ destruct Hin | ].
  destruct Hin as [-> | Hin].
  - rewrite Hf, Hg. simpl.
    pose proof (filter_length_mono f g l Himp). lia.
  - specialize (IH Hin). destruct (g b) eqn:Hgb.
    + rewrite (Himp b Hgb). simpl. lia.
    + destruct (f b); simpl; lia.
Qed.

Lemma unvisited_visit (beenThere x i : Z) :
  unvisited (visit beenThere x) i = true -> unvisited beenThere i = true.
Proof.
  unfold unvisited, visit. rewrite Z.lor_spec.
  destruct (Z.testbit beenThere i); [ discriminate | reflexivity ].
Qed.

Lemma unvisited_visit_same (beenThere x : Z) :
  0 <= x -> unvisited (visit beenThere x) x = false.
Proof.
  intros Hx. unfold unvisited, visit.
  rewrite Z.lor_spec, Z.shiftl_spec by assumption.
  rewrite Z.sub_diag. change (Z.testbit 1 0) with true.
  rewrite orb_true_r. reflexivity.
Qed.

Lemma inN_nodeIds (x : Z) : inN x = true -> In x nodeIds.
Proof.
  unfold inN, nodeIds. intros H. apply andb_true_iff in H.
  destruct H as [Hlo Hhi]. apply Z.leb_le in Hlo. apply Z.ltb_lt in Hhi.
  apply in_map_iff. exists (Z.to_nat x). split; [ apply Z2Nat.id, Hlo | ].
  apply in_seq. lia.
Qed.

Lemma unvisitedCount_visit (beenThere x : Z) :
  (unvisitedCount (visit beenThere x) <= unvisitedCount beenThere)%nat.
Proof. apply filter_length_mono, unvisited_visit. Qed.

Lemma unvisitedCount_fresh (beenThere x : Z) :
  inN x = true -> unvisited beenThere x = true ->
  (unvisitedCount (visit beenThere x) < unvisitedCount beenThere)%nat.
Proof.
  intros Hin Hun. apply (filter_length_strict _ _ _ x).
  - apply unvisited_visit.
  - apply inN_nodeIds, Hin.
  - exact Hun.
  - apply unvisited_visit_same. unfold inN in Hin.
    apply andb_true_iff in Hin. destruct Hin as [Hlo _]. apply Z.leb_le, Hlo.
Qed.

Lemma pushAll_length (vs : list Z) :
  forall stack stackPos stack' stackPos',
    pushAll stack stackPos vs = Some (stack', stackPos') ->
    stackPos' = stackPos + Z.of_nat (List.length vs).
Proof.
  induction vs as [| v vs IH]; intros stack sp stack' sp' H; simpl in H.
  - injection H as _ <-. simpl. lia.
  - destruct (TINYTREE_MAXSTACK <=? sp); [ discriminate | ].
    apply IH in H. simpl List.length. lia.
Qed.

Lemma shapeOf_operands (n : tinyNode_t) (opcode : ascii) (operands : list Z) :
  shapeOf n = ShapeOp opcode operands -> (List.length operands <= 3)%nat.
Proof.
  unfold shapeOf.
  repeat match goal with
         | |- context [if ?b then _ else _] => destruct b
         end; intros [= _ <-]; simpl; lia.
Qed.

Lemma assignPlaceholder_measure (st : encState) (x : Z) :
  eStackPos (assignPlaceholder st x) = eStackPos st
  /\ (unvisitedCount (eBeenThere (assignPlaceholder st x))
      <= unvisitedCount (eBeenThere st))%nat.
Proof.
  unfold assignPlaceholder.
  destruct ((x <? TINYTREE_NSTART) && unvisited (eBeenThere st) x); simpl.
  - split; [ reflexivity | apply unvisitedCount_visit ].
  - split; [ reflexivity | lia ].
Qed.

(** A turn of [body] that goes on uses up some of the measure. *)
Definition descends (body : encState -> step encState (string * string)) : Prop :=
  forall st st',
    1 <= eStackPos st -> body st = Next st' ->
    (walkMeasure st' < walkMeasure st)%nat.

Lemma emit_measure (st st' : encState) (stackPos : Z) (ch : ascii) :
  emit st stackPos ch = Next st' ->
  eStackPos st' = stackPos /\ eBeenThere st' = eBeenThere st.
Proof.
  unfold emit. destruct (_ <=? _); [ discriminate | ].
  intros [= <-]. split; reflexivity.
Qed.

Lemma encodeWalk1Step_descends (tree : tinyTree_t) : descends (encodeWalk1Step tree).
Proof.
  intros st st' Hpos H. unfold encodeWalk1Step in H. unfold walkMeasure.
  set (curr := eStack st (eStackPos st - 1)) in *.
  destruct (inN curr) eqn:Hin; simpl negb in H; cbv iota in H; [ | discriminate ].
  destruct (unvisited (eBeenThere st) curr) eqn:Hun.
  - destruct (shapeOf (N tree curr)) as [| opcode operands] eqn:Hshape;
      [ discriminate | ].
    destruct (pushAll _ _ _) as [[stack sp] |] eqn:Hpush; [ | discriminate ].
    injection H as <-. simpl.
    apply pushAll_length in Hpush.
    pose proof (shapeOf_operands _ _ _ Hshape) as Hops.
    pose proof (unvisitedCount_fresh _ _ Hin Hun) as Hfresh.
    pose proof (filter_length_all (fun x => TINYTREE_NSTART <=? x) (rev operands))
      as Hlen.
    rewrite length_rev in Hlen. simpl List.length in Hpush.
    lia.
  - destruct (eBeenWhat st curr) as [[| p | p] |]; try discriminate.
    + injection H as <-. simpl.
      set (s0 := mkEnc (eStack st) (eStackPos st - 1) (eBeenThere st)
                       (eBeenWhat st) (eNextNode st) (eName st) (eSkin st)).
      set (s1 := assignPlaceholder s0 (Q (N tree curr))).
      set (s2 := assignPlaceholder s1 (strip (T (N tree curr)))).
      set (s3 := assignPlaceholder s2 (F (N tree curr))).
      destruct (assignPlaceholder_measure s0 (Q (N tree curr))) as [Hs1 Hc1].
      destruct (assignPlaceholder_measure s1 (strip (T (N tree curr)))) as [Hs2 Hc2].
      destruct (assignPlaceholder_measure s2 (F (N tree curr))) as [Hs3 Hc3].
      fold s1 in Hs1, Hc1. fold s2 in Hs2, Hc2. fold s3 in Hs3, Hc3.
      change (eStackPos s0) with (eStackPos st - 1) in Hs1.
      change (eBeenThere s0) with (eBeenThere st) in Hc1.
      lia.
    + injection H as <-. simpl. lia.
    + injection H as <-. simpl. lia.
Qed.

Lemma encodeWalk2Step_descends (tree : tinyTree_t) (withSkin : bool) :
  descends (encodeWalk2Step tree withSkin).
Proof.
  intros st st' Hpos H. unfold encodeWalk2Step in H. unfold walkMeasure.
  set (curr := eStack st (eStackPos st - 1)) in *.
  destruct ((0 <=? curr) && (curr <? TINYTREE_NSTART)).
  { assert (Hemit : exists ch, emit st (eStackPos st - 1) ch = Next st').
    { destruct (curr =? 0); [ eexists; exact H | ].
      destruct (negb withSkin); [ eexists; exact H | ].
      destruct (eBeenWhat st curr); [ eexists; exact H | discriminate ]. }
    destruct Hemit as [ch Hemit]. apply emit_measure in Hemit.
    destruct Hemit as [-> ->]. lia. }
  destruct (inN curr) eqn:Hin; simpl negb in H; cbv iota in H; [ | discriminate ].
  destruct (unvisited (eBeenThere st) curr) eqn:Hun.
  - destruct (shapeOf (N tree curr)) as [| opcode operands] eqn:Hshape;
      [ discriminate | ].
    destruct (pushAll _ _ _) as [[stack sp] |] eqn:Hpush; [ | discriminate ].
    injection H as <-. simpl.
    apply pushAll_length in Hpush.
    pose proof (shapeOf_operands _ _ _ Hshape) as Hops.
    pose proof (unvisitedCount_fresh _ _ Hin Hun) as Hfresh.
    simpl List.length in Hpush. rewrite length_rev in Hpush.
    lia.
  - destruct (eBeenWhat st curr) as [[| p | p] |]; try discriminate.
    + destruct (shapeOf (N tree curr)) as [| opcode operands]; [ discriminate | ].
      destruct (emit st (eStackPos st - 1) opcode) as [s1 | s1 | o] eqn:Hemit;
        try discriminate.
      injection H as <-. simpl. apply emit_measure in Hemit.
      destruct Hemit as [-> ->]. lia.
    + destruct (negb _); [ discriminate | ].
      apply emit_measure in H. destruct H as [-> ->]. lia.
    + destruct (negb _); [ discriminate | ].
      apply emit_measure in H. destruct H as [-> ->]. lia.
Qed.

Lemma doWhile_ends (body : encState -> step encState (string * string)) :
  descends body ->
  forall (turns : nat) (st : encState),
    1 <= eStackPos st -> (walkMeasure st < turns)%nat ->
    doWhile turns body st <> None.
Proof.
  intros Hdesc. induction turns as [| turns IH]; intros st Hpos Hm; [ lia | ].
  simpl. destruct (body st) as [st' | st' | o] eqn:Hbody; try discriminate.
  destruct (Z.ltb_spec 0 (eStackPos st')); [ | discriminate ].
  apply IH; [ lia | ].
  pose proof (Hdesc st st' Hpos Hbody). lia.
Qed.

(** Both walks start with one entry on the stack and the mask [1 << 0]:
    a measure of 69. *)
Lemma encode_returns (tree : tinyTree_t) (id : Z) (withSkin : bool) :
  encode tree id withSkin <> None.
Proof.
  unfold encode.
  destruct (strip id <? TINYTREE_NSTART).
  { destruct withSkin, (strip id =? 0); discriminate. }
  assert (Hstart : forall beenWhat skin body,
            descends body ->
            doWhile encodeTurns body
              (mkEnc (upd (fun _ => 0) 0 (strip id)) 1 (Z.shiftl 1 0) beenWhat
                     TINYTREE_NSTART [] skin) <> None).
  { intros beenWhat skin body Hdesc. apply doWhile_ends;
      [ exact Hdesc | simpl; lia | vm_compute; lia ]. }
  destruct withSkin.
  - destruct (doWhile encodeTurns (encodeWalk1Step tree) _) as [[o | st] |] eqn:H1.
    + discriminate.
    + destruct (negb _); [ discriminate | ].
      destruct (doWhile encodeTurns (encodeWalk2Step tree true) _)
        as [[o | st2] |] eqn:H2; try discriminate.
      * destruct (negb _); discriminate.
      * exfalso. revert H2. apply Hstart, encodeWalk2Step_descends.
    + exfalso. revert H1. apply Hstart, encodeWalk1Step_descends.
  - destruct (doWhile encodeTurns (encodeWalk2Step tree false) _)
      as [[o | st2] |] eqn:H2; try discriminate.
    + destruct (negb _); discriminate.
    + exfalso. revert H2. apply Hstart, encodeWalk2Step_descends.
Qed.


(** *** The trees a program holds *)

(** What [clear] leaves, and what a returning [normaliseQTF] makes of
    such a tree. *)
Inductive built : tinyTree_t -> Prop :=
| built_clear (tree : tinyTree_t) : built (clear tree)
| built_add (tree tree1 : tinyTree_t) (q t f r : Z) :
    built tree ->
    normaliseQTF tree q t f = Returned (r, tree1) ->
    built tree1.

Lemma built_count (tree : tinyTree_t) :
  built tree -> TINYTREE_NSTART <= count tree.
Proof.
  induction 1 as [tree | tree tree1 q t f r _ IH H].
  - simpl. lia.
  - destruct (normaliseQTF_root _ _ _ _ _ _ IH H) as [_ Hc]. exact Hc.
Qed.


(** *** The claims about the micro-tree *)

(** C6.  Normalisation is idempotent: when [normaliseQTF] (the spec's
    [addNode]) has returned a reference for [(Q, T, F)], a second call
    with the same arguments returns the same reference, and the second
    call leaves [count], and in fact the whole tree, as it was.  The
    trees are those whose [count] is at or above [TINYTREE_NSTART], as it
    is in every tree a program has built (lemma [built_count]). *)
Theorem normaliseQTF_idempotent (tree tree1 : tinyTree_t) (q t f r : Z) :
  TINYTREE_NSTART <= count tree ->
  normaliseQTF tree q t f = Returned (r, tree1) ->
  exists tree2,
    normaliseQTF tree1 q t f = Returned (r, tree2)
    /\ count tree2 = count tree1
    /\ tree2 = tree1.
Proof.
  intros Hc H. exists tree1.
  destruct (normaliseQTF_rec_stable _ _ _ _ _ _ _ Hc H) as [_ Hstable].
  split; [ apply Hstable, extends_refl | split; reflexivity ].
Qed.

(** C7, as amended.  [normaliseQTF] keeps every stored node above its
    operands when its three arguments are references, possibly inverted,
    to entries the tree already has; these are the bounds that paranoid
    mode asserts on entry, so in paranoid mode every call that returns
    keeps the invariant. *)
Theorem normaliseQTF_ordered (tree tree1 : tinyTree_t) (q t f r : Z) :
  TINYTREE_NSTART <= count tree <= TINYTREE_NEND ->
  ordered tree ->
  u32 q -> u32 t -> u32 f ->
  (paranoid tree = true
   \/ (strip q < count tree /\ strip t < count tree /\ strip f < count tree)) ->
  normaliseQTF tree q t f = Returned (r, tree1) ->
  ordered tree1.
Proof.
  intros Hwf Hord Uq Ut Uf Hargs H.
  assert (Hin : strip q < count tree /\ strip t < count tree
                /\ strip f < count tree).
  { destruct Hargs as [Hp | Hin]; [ | exact Hin ].
    unfold normaliseQTF in H. cbn [normaliseQTF_rec] in H. unfold assert in H.
    rewrite Hp in H. cbn [negb orb] in H.
    destruct (Z.ltb_spec (strip q) (count tree)); [ | discriminate ].
    destruct (Z.ltb_spec (strip t) (count tree)); [ | discriminate ].
    destruct (Z.ltb_spec (strip f) (count tree)); [ | discriminate ].
    repeat split; assumption. }
  destruct Hin as (Hq & Ht & Hf).
  eapply (normaliseQTF_rec_ordered 2 tree tree1 q t f r); try eassumption;
    split; assumption.
Qed.

(** C10.  A notation that is read to its end but leaves more or fewer
    than one entry on the operand stack makes [decodeSafe] return
    [DERR_INCOMPLETE], a non-zero code of its own, with the root still the
    zero reference. *)
Theorem decodeSafe_incomplete (tree : tinyTree_t) (pName pSkin : string)
    (st : safeState) :
  decodeSafeLoop pSkin (safeInit tree) pName = inr st ->
  sStackPos st <> 1 ->
  exists tree',
    decodeSafe tree pName pSkin = Returned (DERR_INCOMPLETE, tree')
    /\ root tree' = 0
    /\ DERR_INCOMPLETE <> DERR_OK
    /\ ~ In DERR_INCOMPLETE
         [DERR_SYNTAX; DERR_PLACEHOLDER; DERR_OVERFLOW; DERR_UNDERFLOW; DERR_SIZE].
Proof.
  intros Hloop Hpos. exists (sTree st). unfold decodeSafe. rewrite Hloop.
  destruct (Z.eqb_spec (sStackPos st) 1) as [E | _]; [ contradiction | ].
  split; [ reflexivity | ].
  split.
  - apply (decodeSafeLoop_keeps pSkin 0 pName (safeInit tree) st);
      [ | exact Hloop ].
    split; [ reflexivity | simpl; lia ].
  - split; [ discriminate | ].
    simpl. intros [H | [H | [H | [H | [H | []]]]]]; discriminate.
Qed.

(** C4 at an input where it fails.  The skin ["kbcdefghi"] passes the
    only test the safe parser makes of a skin, [islower], yet its first
    letter names no input slot: [TINYTREE_KSTART + 'k' - 'a'] is 11, the id
    of the second operator node.  For ["ab^cd^&"] the parser so builds
    node 10 as [b ^ N[11]] before node 11 exists and returns [DERR_OK].
    [eval] takes entry 11 of the vector as [initialiseVector] left it, all
    zero, so the tree is worth [b & (c ^ d)].  [encode] walks into
    node 11 from node 10 and emits ["cab^^2&"] with skin ["cdb"], from
    which the fast parser builds [(b ^ c ^ d) & (c ^ d)]: the two trees
    differ on every input with [c <> d]. *)
Theorem roundtrip_differs (c0 r0 : Z) (nodes0 : Z -> tinyNode_t) :
  exists tree tree',
    decodeSafe (mkTree 0 c0 nodes0 r0) "ab^cd^&" "kbcdefghi"
      = Returned (DERR_OK, tree)
    /\ encode tree (root tree) true = Some (Returned ("cab^^2&", "cdb")%string)
    /\ decodeFast (mkTree 0 c0 nodes0 r0) "cab^^2&" "cdb" = Returned tree'
    /\ footprintOf tree (initialiseVector 0x876543210)
       = Returned (repeat 0x0CC00CC00CC00CC0 8)
    /\ footprintOf tree' (initialiseVector 0x876543210)
       = Returned (repeat 0x0330033003300330 8)
    /\ footprintOf tree (initialiseVector 0x876543210)
       <> footprintOf tree' (initialiseVector 0x876543210).
Proof.
  eexists. eexists.
  split; [ vm_compute; reflexivity | ].
  split; [ vm_compute; reflexivity | ].
  split; [ vm_compute; reflexivity | ].
  split; [ vm_compute; reflexivity | ].
  split; [ vm_compute; reflexivity | ].
  vm_compute. discriminate.
Qed.


(** ** Further properties of the micro-tree *)

(** *** What a tree computes *)

(** One of the 512 values of a footprint: bit [b] of chunk [j]. *)
Definition bitOf (fp : footprint_t) (j : nat) (b : Z) : bool :=
  Z.testbit (lane fp j) b.

(** The value of a reference when [env] gives the value of every entry:
    the inverter complements it. *)
Definition refBit (env : Z -> bool) (x : Z) : bool :=
  xorb (inverted x) (env (strip x)).

(** The value of an operator node, [Q ? T : F]. *)
Definition nodeBit (env : Z -> bool) (n : tinyNode_t) : bool :=
  if env (Q n) then refBit env (T n) else env (F n).

(** [env] gives entry 0 the value 0 and every stored node the value of
    its operator. *)
Definition models (tree : tinyTree_t) (env : Z -> bool) : Prop :=
  env 0 = false
  /\ forall nid, TINYTREE_NSTART <= nid < count tree ->
                 env nid = nodeBit env (N tree nid).

Lemma lane_map (g : nat -> Z) (j : nat) :
  (j < QUADPERFOOTPRINT)%nat -> lane (map g (seq 0 QUADPERFOOTPRINT)) j = g j.
Proof.
  unfold lane, QUADPERFOOTPRINT. intros Hj.
  do 8 (destruct j as [| j]; [ reflexivity | ]). lia.
Qed.

Lemma lnot64_testbit (x b : Z) :
  0 <= b < 64 -> Z.testbit (lnot64 x) b = negb (Z.testbit x b).
Proof.
  intros Hb. unfold lnot64. rewrite Z.lxor_spec.
  change 0xFFFFFFFFFFFFFFFF with (Z.ones 64).
  rewrite Z.ones_spec_low by lia. apply xorb_true_r.
Qed.

Lemma evalNode_bitOf (v : Z -> footprint_t) (n : tinyNode_t) (j : nat) (b : Z) :
  (j < QUADPERFOOTPRINT)%nat -> 0 <= b < 64 ->
  bitOf (evalNode v n) j b = nodeBit (fun x => bitOf (v x) j b) n.
Proof.
  intros Hj Hb. unfold bitOf, evalNode, nodeBit, refBit.
  rewrite lane_map by assumption.
  destruct (inverted (T n));
    rewrite Z.lxor_spec, !Z.land_spec, ?lnot64_testbit by assumption;
    destruct (Z.testbit (lane (v (Q n)) j) b),
             (Z.testbit (lane (v (strip (T n))) j) b),
             (Z.testbit (lane (v (F n)) j) b); reflexivity.
Qed.

Lemma evalNode_ext (v1 v2 : Z -> footprint_t) (n : tinyNode_t) :
  v1 (Q n) = v2 (Q n) -> v1 (strip (T n)) = v2 (strip (T n)) ->
  v1 (F n) = v2 (F n) ->
  evalNode v1 n = evalNode v2 n.
Proof. intros Hq Ht Hf. unfold evalNode. now rewrite Hq, Ht, Hf. Qed.

Lemma evalFrom_spec (nodes : Z -> tinyNode_t) (n : nat) :
  forall (v : Z -> footprint_t) (i : Z),
    0 <= i -> i + Z.of_nat n <= TINYTREE_MAXNODES ->
    (forall k, i <= k < i + Z.of_nat n ->
               Q (nodes k) < k /\ strip (T (nodes k)) < k /\ F (nodes k) < k) ->
    exists v',
      evalFrom nodes v i n = Returned v'
      /\ (forall k, ~ (i <= k < i + Z.of_nat n) -> v' k = v k)
      /\ (forall k, i <= k < i + Z.of_nat n -> v' k = evalNode v' (nodes k)).
Proof.
  induction n as [| n IH]; intros v i Hlo Hhi Hord.
  - exists v. split; [ reflexivity | ]. split; [ reflexivity | ]. intros k Hk. lia.
  - cbn [evalFrom].
    replace (inN i) with true
      by (symmetry; unfold inN; apply andb_true_iff;
          split; [ apply Z.leb_le | apply Z.ltb_lt ]; lia).
    cbn [negb].
    destruct (IH (upd v i (evalNode v (nodes i))) (i + 1)) as (v' & E & Hout & Hin);
      [ lia | lia | intros k Hk; apply Hord; lia | ].
    exists v'. split; [ exact E | ]. split.
    + intros k Hk. rewrite Hout by lia. unfold upd.
      destruct (Z.eqb_spec k i); [ lia | reflexivity ].
    + intros k Hk. destruct (Z.eq_dec k i) as [-> | Hne]; [ | apply Hin; lia ].
      destruct (Hord i) as (Hq & Ht & Hf); [ lia | ].
      rewrite (Hout i) by lia. unfold upd at 1. rewrite Z.eqb_refl.
      apply evalNode_ext; rewrite Hout by lia; unfold upd;
        match goal with
        | |- context [Z.eqb ?a ?b] => destruct (Z.eqb_spec a b); [ lia | reflexivity ]
        end.
Qed.

(** X1.  On an ordered tree that fits the array, [eval] returns; it
    leaves every entry outside [TINYTREE_NSTART .. count) as it was, and
    gives every stored node, at each of the 512 positions of a footprint,
    the value [Q ? T : F] of its operands' values at that position, the
    inverter on [T] complementing the operand. *)
Theorem eval_computes (tree : tinyTree_t) (v : Z -> footprint_t) :
  ordered tree ->
  TINYTREE_NSTART <= count tree <= TINYTREE_MAXNODES ->
  exists v',
    eval tree v = Returned v'
    /\ (forall k, ~ (TINYTREE_NSTART <= k < count tree) -> v' k = v k)
    /\ (forall nid j b,
          TINYTREE_NSTART <= nid < count tree ->
          (j < QUADPERFOOTPRINT)%nat -> 0 <= b < 64 ->
          bitOf (v' nid) j b = nodeBit (fun x => bitOf (v' x) j b) (N tree nid)).
Proof.
  intros Hord Hc. unfold eval.
  destruct (evalFrom_spec (N tree) (Z.to_nat (count tree - TINYTREE_NSTART))
              v TINYTREE_NSTART) as (v' & E & Hout & Hin).
  - tree_consts. lia.
  - lia.
  - intros k Hk. apply Hord. lia.
  - exists v'. split; [ exact E | ]. split.
    + intros k Hk. apply Hout. lia.
    + intros nid j b Hnid Hj Hb. rewrite Hin by lia.
      apply evalNode_bitOf; assumption.
Qed.

(** *** [normaliseQTF] keeps the meaning of [Q ? T : F] *)

Lemma refBit_plain (env : Z -> bool) (x : Z) :
  u32 x -> inverted x = false -> refBit env x = env x.
Proof.
  intros Hu Hp. unfold refBit. rewrite Hp, (strip_plain x Hu Hp). reflexivity.
Qed.

Lemma refBit_lxor (env : Z -> bool) (x : Z) :
  u32 x -> refBit env (Z.lxor x IBIT) = negb (refBit env x).
Proof.
  intros Hu. unfold refBit.
  rewrite inverted_lxor_IBIT, (strip_lxor_IBIT x Hu).
  destruct (inverted x), (env (strip x)); reflexivity.
Qed.

Lemma models_extends (tree tree1 : tinyTree_t) (env : Z -> bool) :
  extends tree tree1 -> models tree1 env -> models tree env.
Proof.
  intros (_ & _ & Hc & Hn) [H0 Hm]. split; [ exact H0 | ].
  intros nid Hnid. rewrite <- Hn by lia. apply Hm. lia.
Qed.

Lemma basicNode_node (tree tree1 : tinyTree_t) (q t f nid : Z) :
  TINYTREE_NSTART <= count tree ->
  basicNode tree q t f = Returned (nid, tree1) ->
  TINYTREE_NSTART <= nid < count tree1
  /\ nid < TINYTREE_MAXNODES
  /\ N tree1 nid = mkNode q t f.
Proof.
  intros Hwf H. apply basicNode_inv in H.
  destruct H as [(-> & Hr & Hn & _ & Hb) | (-> & -> & Hc & _)].
  - repeat split; try lia; assumption.
  - simpl. rewrite Z.eqb_refl. repeat split; lia.
Qed.

Lemma functionGrouping_sound (env : Z -> bool) (q t f : Z) :
  env 0 = false ->
  u32 q -> u32 t -> u32 f ->
  inverted q = false -> inverted f = false ->
  match functionGrouping q t f with
  | Collapse r => refBit env r
  | Operator q' t' f' => nodeBit env (mkNode q' t' f')
  end = (if env q then refBit env t else env f).
Proof.
  intros H0 Uq Ut Uf Pq Pf.
  assert (Hxq : refBit env (Z.lxor q IBIT) = negb (env q)).
  { rewrite refBit_lxor, refBit_plain by assumption. reflexivity. }
  assert (HI : refBit env (Z.lxor 0 IBIT) = true).
  { unfold refBit. change (inverted (Z.lxor 0 IBIT)) with true.
    change (strip (Z.lxor 0 IBIT)) with 0. now rewrite H0. }
  assert (HQ : refBit env q = env q) by now apply refBit_plain.
  assert (HF : refBit env f = env f) by now apply refBit_plain.
  assert (HZ : refBit env 0 = false) by (unfold refBit; exact H0).
  unfold functionGrouping, nodeBit. cbn [Q T F].
  rewrite !Z.gtb_ltb.
  destruct (inverted t) eqn:Pt.
  - assert (HT : refBit env t = negb (env (strip t))).
    { unfold refBit. rewrite Pt. reflexivity. }
    rewrite HT.
    split_tests; subst;
      rewrite ?HQ, ?HF, ?HZ, ?HI, ?Hxq, ?HT, ?H0;
      repeat match goal with
             | E : strip _ = _ |- _ => rewrite E in *
             end;
      try (change (strip IBIT) with 0; rewrite ?H0);
      try (change (refBit env IBIT) with (refBit env (Z.lxor 0 IBIT)); rewrite HI);
      rewrite ?H0;
      repeat match goal with
             | |- context [env ?x] => destruct (env x) eqn:?
             end; try reflexivity; try congruence.
  - assert (HT : refBit env t = env t) by now apply refBit_plain.
    rewrite HT.
    split_tests; subst;
      rewrite ?HQ, ?HF, ?HZ, ?HI, ?Hxq, ?HT, ?H0;
      repeat match goal with
             | |- context [env ?x] => destruct (env x) eqn:?
             end; try reflexivity; try congruence.
Qed.

Lemma normaliseQTF_rec_sound (depth : nat) :
  forall (tree tree1 : tinyTree_t) (q t f r : Z) (env : Z -> bool),
    TINYTREE_NSTART <= count tree ->
    u32 q -> u32 t -> u32 f ->
    normaliseQTF_rec depth tree q t f = Returned (r, tree1) ->
    u32 r
    /\ (models tree1 env ->
        refBit env r = if refBit env q then refBit env t else refBit env f).
Proof.
  induction depth as [| depth IH]; intros tree tree1 q t f r env Hwf Uq Ut Uf H;
    [ discriminate | ].
  cbn [normaliseQTF_rec] in H. unfold assert in H.
  destruct (negb (paranoid tree) || _); [ | discriminate ].
  (* level 1a *)
  destruct (if inverted q then (Z.lxor q IBIT, f, t) else (q, t, f))
    as [[Q1 T1] F1] eqn:E1.
  assert (H1 : u32 Q1 /\ u32 T1 /\ u32 F1 /\ inverted Q1 = false
               /\ (env 0 = false ->
                   (if env Q1 then refBit env T1 else refBit env F1)
                   = if refBit env q then refBit env t else refBit env f)).
  { destruct (inverted q) eqn:Hq; injection E1 as <- <- <-.
    - split; [ now apply u32_lxor_IBIT | ].
      split; [ assumption | ]. split; [ assumption | ].
      split; [ now rewrite inverted_lxor_IBIT, Hq | ].
      intros _. unfold refBit at 3. rewrite Hq.
        rewrite <- (strip_lxor_IBIT q Uq).
        rewrite (strip_plain (Z.lxor q IBIT));
          [ | now apply u32_lxor_IBIT | now rewrite inverted_lxor_IBIT, Hq ].
        destruct (env (Z.lxor q IBIT)); reflexivity.
    - split; [ assumption | ]. split; [ assumption | ].
      split; [ assumption | ]. split; [ assumption | ].
      intros _. now rewrite (refBit_plain env q Uq Hq). }
  destruct H1 as (UQ1 & UT1 & UF1 & PQ1 & M1).
  destruct (Z.eqb_spec Q1 0) as [EQ0 | NQ0].
  { injection H as <- <-. split; [ exact UF1 | ].
    intros [H0 _]. rewrite <- (M1 H0), EQ0, H0. reflexivity. }
  destruct (if inverted F1
            then (Z.lxor T1 IBIT, Z.lxor F1 IBIT, Z.lxor 0 IBIT)
            else (T1, F1, 0)) as [[T2 F2] ibit] eqn:E2.
  assert (H2 : u32 T2 /\ u32 F2 /\ inverted F2 = false
               /\ (forall x, u32 x -> u32 (Z.lxor x ibit))
               /\ (forall x, u32 x ->
                     refBit env (Z.lxor x ibit)
                     = xorb (inverted F1) (refBit env x))
               /\ (if env Q1 then refBit env T1 else refBit env F1)
                  = xorb (inverted F1)
                         (if env Q1 then refBit env T2 else env F2)).
  { destruct (inverted F1) eqn:HF1; injection E2 as <- <- <-.
    - split; [ now apply u32_lxor_IBIT | ].
      split; [ now apply u32_lxor_IBIT | ].
      split; [ now rewrite inverted_lxor_IBIT, HF1 | ].
      split; [ intros x Ux; now apply u32_lxor_IBIT | ].
      split; [ intros x Ux; now rewrite refBit_lxor | ].
      rewrite (refBit_lxor env T1 UT1).
      rewrite <- (refBit_plain env (Z.lxor F1 IBIT));
        [ | now apply u32_lxor_IBIT | now rewrite inverted_lxor_IBIT, HF1 ].
      rewrite (refBit_lxor env F1 UF1).
      destruct (env Q1), (refBit env T1), (refBit env F1); reflexivity.
    - split; [ assumption | ]. split; [ assumption | ].
      split; [ assumption | ].
      split; [ intros x Ux; now rewrite Z.lxor_0_r | ].
      split; [ intros x Ux; now rewrite Z.lxor_0_r | ].
      rewrite (refBit_plain env F1 UF1 HF1). reflexivity. }
  destruct H2 as (UT2 & UF2 & PF2 & Uibit & Ribit & M2).
  (* level 1b, 1c *)
  assert (Hc : 0 < IBIT <= IBIT) by (unfold IBIT; lia).
  pose proof (functionGrouping_valid IBIT Q1 T2 F2 Hc UQ1 UT2 UF2
                (plain_lt_IBIT _ UQ1 PQ1) (plain_lt_IBIT _ UF2 PF2)
                (plain_lt_IBIT _ UQ1 PQ1)) as HG.
  assert (HsT2 : strip T2 < IBIT).
  { rewrite (strip_u32 T2 UT2). unfold u32, IBIT in *.
    destruct (Z.ltb_spec T2 0x80000000); lia. }
  specialize (HG HsT2 (plain_lt_IBIT _ UF2 PF2)).
  assert (HS : env 0 = false ->
               match functionGrouping Q1 T2 F2 with
               | Collapse r => refBit env r
               | Operator q' t' f' => nodeBit env (mkNode q' t' f')
               end = (if env Q1 then refBit env T2 else env F2)).
  { intros H0. now apply functionGrouping_sound. }
  destruct (functionGrouping Q1 T2 F2) as [r0 | Q3 T3 F3].
  { injection H as <- <-. destruct HG as [Ur0 _].
    split; [ now apply Uibit | ].
    intros [H0 _]. rewrite (Ribit r0 Ur0), (HS H0), <- M2. now apply M1. }
  destruct HG as ((UQ3 & UT3 & UF3) & (PQ3 & PF3) & _).
  assert (Hnid : forall nid, TINYTREE_NSTART <= nid -> nid < TINYTREE_MAXNODES ->
                   u32 nid /\ inverted nid = false).
  { intros nid Hlo Hhi.
    assert (Hu : u32 nid) by (tree_consts; unfold u32; lia).
    split; [ exact Hu | ]. rewrite (inverted_u32 nid Hu).
    tree_consts. unfold IBIT. destruct (Z.leb_spec 0x80000000 nid); [ lia | reflexivity ]. }
  destruct (qntf tree && plain T3).
  - destruct (normaliseQTF_rec depth tree Q3 (Z.lxor T3 IBIT) F3)
      as [[rin tin] | |] eqn:Einner; [ | discriminate | discriminate ].
    destruct (basicNode tin Q3 (Z.lxor rin IBIT) F3)
      as [[nid tout] | |] eqn:Eb; [ | discriminate | discriminate ].
    injection H as <- <-.
    destruct (normaliseQTF_rec_stable _ _ _ _ _ _ _ Hwf Einner)
      as [Hext_in _].
    assert (Hwf_in : TINYTREE_NSTART <= count tin).
    { destruct Hext_in as (_ & _ & Hle & _). lia. }
    destruct (basicNode_node _ _ _ _ _ _ Hwf_in Eb) as (Hr & Hb & Hn).
    destruct (Hnid nid) as [Unid Pnid]; [ lia | lia | ].
    split; [ now apply Uibit | ].
    intros Hm.
    destruct (IH tree tin Q3 (Z.lxor T3 IBIT) F3 rin env Hwf UQ3
                (u32_lxor_IBIT _ UT3) UF3 Einner) as [Urin Hin].
    pose proof (basicNode_extends _ _ _ _ _ _ Eb) as Hext_b.
    specialize (Hin (models_extends _ _ _ Hext_b Hm)).
    destruct Hm as [H0 Hm].
    rewrite (Ribit nid Unid), (refBit_plain env nid Unid Pnid).
    rewrite (Hm nid Hr), Hn, <- (M1 H0), M2, <- (HS H0).
    f_equal. unfold nodeBit. cbn [Q T F].
    rewrite (refBit_lxor env rin Urin), Hin.
    assert (PQ3' : inverted Q3 = false).
    { rewrite (inverted_u32 Q3 UQ3). destruct (Z.leb_spec IBIT Q3); [ lia | reflexivity ]. }
    assert (PF3' : inverted F3 = false).
    { rewrite (inverted_u32 F3 UF3). destruct (Z.leb_spec IBIT F3); [ lia | reflexivity ]. }
    rewrite (refBit_plain env Q3 UQ3 PQ3'), (refBit_plain env F3 UF3 PF3').
    rewrite (refBit_lxor env T3 UT3).
    destruct (env Q3), (refBit env T3), (env F3); reflexivity.
  - destruct (basicNode tree Q3 T3 F3) as [[nid tout] | |] eqn:Eb;
      [ | discriminate | discriminate ].
    injection H as <- <-.
    destruct (basicNode_node _ _ _ _ _ _ Hwf Eb) as (Hr & Hb & Hn).
    destruct (Hnid nid) as [Unid Pnid]; [ lia | lia | ].
    split; [ now apply Uibit | ].
    intros [H0 Hm].
    rewrite (Ribit nid Unid), (refBit_plain env nid Unid Pnid).
    rewrite (Hm nid Hr), Hn, <- (M1 H0), M2, <- (HS H0). reflexivity.
Qed.

(** X2.  [normaliseQTF] keeps the meaning of what it is asked for: in
    every valuation of the entries that gives each stored node of the
    resulting tree the value of its operator, the reference handed back is
    worth [Q ? T : F] of the three arguments, whichever of the rewrites of
    levels 1a to 1c and of the QnTF mode took place. *)
Theorem normaliseQTF_sound (tree tree1 : tinyTree_t) (q t f r : Z)
    (env : Z -> bool) :
  TINYTREE_NSTART <= count tree ->
  u32 q -> u32 t -> u32 f ->
  normaliseQTF tree q t f = Returned (r, tree1) ->
  models tree1 env ->
  refBit env r = if refBit env q then refBit env t else refBit env f.
Proof.
  intros Hwf Uq Ut Uf H Hm.
  destruct (normaliseQTF_rec_sound 2 tree tree1 q t f r env Hwf Uq Ut Uf H)
    as [_ Hs].
  exact (Hs Hm).
Qed.

(** *** [normaliseQTF] appends, two nodes at most *)

Lemma basicNode_count (tree tree1 : tinyTree_t) (q t f nid : Z) :
  basicNode tree q t f = Returned (nid, tree1) ->
  count tree1 <= count tree + 1.
Proof.
  intros H. apply basicNode_inv in H.
  destruct H as [(-> & _) | (-> & _)]; simpl; lia.
Qed.

Lemma normaliseQTF_rec_count (depth : nat) :
  forall (tree tree1 : tinyTree_t) (q t f r : Z),
    normaliseQTF_rec depth tree q t f = Returned (r, tree1) ->
    count tree1 <= count tree + Z.of_nat depth
    /\ (qntf tree = false -> count tree1 <= count tree + 1).
Proof.
  induction depth as [| depth IH]; intros tree tree1 q t f r H;
    [ discriminate | ].
  cbn [normaliseQTF_rec] in H. unfold assert in H.
  destruct (negb (paranoid tree) || _); [ | discriminate ].
  destruct (if inverted q then (Z.lxor q IBIT, f, t) else (q, t, f))
    as [[Q1 T1] F1].
  destruct (Q1 =? 0); [ injection H as <- <-; lia | ].
  destruct (if inverted F1
            then (Z.lxor T1 IBIT, Z.lxor F1 IBIT, Z.lxor 0 IBIT)
            else (T1, F1, 0)) as [[T2 F2] ibit].
  destruct (functionGrouping Q1 T2 F2) as [r0 | Q3 T3 F3];
    [ injection H as <- <-; lia | ].
  destruct (qntf tree) eqn:Eq; cbn [andb] in H.
  - destruct (plain T3).
    + destruct (normaliseQTF_rec depth tree Q3 (Z.lxor T3 IBIT) F3)
        as [[rin tin] | |] eqn:Einner; [ | discriminate | discriminate ].
      destruct (basicNode tin Q3 (Z.lxor rin IBIT) F3)
        as [[nid tout] | |] eqn:Eb; [ | discriminate | discriminate ].
      injection H as <- <-.
      destruct (IH _ _ _ _ _ _ Einner) as [Hin _].
      pose proof (basicNode_count _ _ _ _ _ _ Eb).
      split; [ lia | discriminate ].
    + destruct (basicNode tree Q3 T3 F3) as [[nid tout] | |] eqn:Eb;
        [ | discriminate | discriminate ].
      injection H as <- <-.
      pose proof (basicNode_count _ _ _ _ _ _ Eb).
      split; [ lia | discriminate ].
  - destruct (basicNode tree Q3 T3 F3) as [[nid tout] | |] eqn:Eb;
      [ | discriminate | discriminate ].
    injection H as <- <-.
    pose proof (basicNode_count _ _ _ _ _ _ Eb).
    split; [ lia | intros _; lia ].
Qed.


(** X3.  [normaliseQTF] only appends: flags, root and every node
    already stored stay as they were, and [count] grows by two at most,
    by one at most when [MAGICMASK_QNTF] is not set. *)
Theorem normaliseQTF_appends (tree tree1 : tinyTree_t) (q t f r : Z) :
  TINYTREE_NSTART <= count tree ->
  normaliseQTF tree q t f = Returned (r, tree1) ->
  flags tree1 = flags tree
  /\ root tree1 = root tree
  /\ (forall i, i < count tree -> N tree1 i = N tree i)
  /\ count tree <= count tree1 <= count tree + 2
  /\ (qntf tree = false -> count tree1 <= count tree + 1).
Proof.
  intros Hwf H.
  destruct (normaliseQTF_rec_stable _ _ _ _ _ _ _ Hwf H)
    as [(Hf & Hr & Hc & Hn) _].
  destruct (normaliseQTF_rec_count _ _ _ _ _ _ _ H) as [Hc2 Hc1].
  simpl in Hc2. repeat split; try assumption; lia.
Qed.

(** *** The assertions of paranoid mode hold on references into the tree *)

(** The twelve conditions [basicNode] asserts in paranoid mode; [notq] is
    [~flags & MAGICMASK_QNTF]. *)
Definition sane (notq : bool) (Q T F : Z) : bool :=
  plain Q
  && (inverted T || notq)
  && plain F
  && negb (Q =? 0)
  && negb (T =? 0)
  && (negb (T =? IBIT) || negb (F =? 0))
  && negb (Q =? strip T)
  && negb (Q =? F)
  && negb (T =? F)
  && (negb (strip T =? F) || (Q <? F))
  && (negb (F =? 0) || inverted T || (Q <? T))
  && (negb (T =? IBIT) || (Q <? F)).

Lemma sane_weaken (notq : bool) (q t f : Z) :
  sane true q t f = true -> inverted t || notq = true -> sane notq q t f = true.
Proof.
  unfold sane. intros H Hn. rewrite Hn. rewrite orb_true_r in H. exact H.
Qed.

Lemma basicNode_sane_returns (tree : tinyTree_t) (q t f : Z) :
  sane (not_qntf tree) q t f = true ->
  0 <= count tree < TINYTREE_MAXNODES ->
  exists nid tree1, basicNode tree q t f = Returned (nid, tree1).
Proof.
  intros Hs Hc. unfold basicNode, assert.
  change (plain q && (inverted t || not_qntf tree) && plain f && negb (q =? 0)
          && negb (t =? 0) && (negb (t =? IBIT) || negb (f =? 0))
          && negb (q =? strip t) && negb (q =? f) && negb (t =? f)
          && (negb (strip t =? f) || (q <? f))
          && (negb (f =? 0) || inverted t || (q <? t))
          && (negb (t =? IBIT) || (q <? f)))
    with (sane (not_qntf tree) q t f).
  rewrite Hs, orb_true_r.
  destruct (findNode _ _ _ _ _ _) as [nid | |] eqn:Hfind.
  - exists nid, tree. reflexivity.
  - destruct (Z.ltb_spec (count tree) TINYTREE_NEND);
      [ | tree_consts; lia ].
    replace (inN (count tree)) with true.
    + eexists _, _. reflexivity.
    + symmetry. unfold inN. apply andb_true_iff.
      split; [ apply Z.leb_le | apply Z.ltb_lt ]; lia.
  - exfalso. revert Hfind. apply findNode_inside; tree_consts; lia.
Qed.

Lemma plain_facts (x : Z) :
  0 <= x < IBIT ->
  inverted x = false /\ plain x = true /\ strip x = x
  /\ Z.lxor x IBIT = x + IBIT.
Proof.
  intros Hx. assert (Hu : u32 x) by (unfold u32, IBIT in *; lia).
  rewrite (inverted_u32 x Hu), (plain_u32 x Hu), (strip_u32 x Hu),
    (lxor_IBIT x Hu).
  destruct (Z.leb_spec IBIT x), (Z.ltb_spec x IBIT); try lia;
    repeat split.
Qed.

Lemma inverted_facts (x : Z) :
  0 <= x < IBIT ->
  inverted (x + IBIT) = true /\ plain (x + IBIT) = false
  /\ strip (x + IBIT) = x /\ Z.lxor (x + IBIT) IBIT = x.
Proof.
  intros Hx. assert (Hu : u32 (x + IBIT)) by (unfold u32, IBIT in *; lia).
  rewrite (inverted_u32 _ Hu), (plain_u32 _ Hu), (strip_u32 _ Hu),
    (lxor_IBIT _ Hu).
  destruct (Z.leb_spec IBIT (x + IBIT)), (Z.ltb_spec (x + IBIT) IBIT); try lia;
    repeat split; lia.
Qed.

Ltac sane_conjuncts :=
  repeat (apply andb_true_intro; split);
  split_tests; try reflexivity; try lia.

Lemma functionGrouping_sane (q t f : Z) :
  u32 q -> u32 t -> u32 f ->
  q < IBIT -> f < IBIT -> q <> 0 ->
  match functionGrouping q t f with
  | Collapse _ => True
  | Operator q' t' f' =>
      sane true q' t' f' = true
      /\ (inverted t' = false ->
          functionGrouping q' (Z.lxor t' IBIT) f' = Operator q' (Z.lxor t' IBIT) f')
  end.
Proof.
  intros Hq Ht Hf Hqp Hfp Hq0.
  assert (HI : IBIT = 2147483648) by reflexivity.
  assert (Rq : 0 <= q < IBIT) by (unfold u32 in *; lia).
  assert (Rf : 0 <= f < IBIT) by (unfold u32 in *; lia).
  assert (R0 : 0 <= 0 < IBIT) by lia.
  destruct (plain_facts q Rq) as (Iq & Pq & Sq & Xq).
  destruct (plain_facts f Rf) as (If & Pf & Sf & Xf).
  destruct (plain_facts 0 R0) as (I0 & P0 & S0 & X0).
  destruct (inverted_facts q Rq) as (Iq' & Pq' & Sq' & Xq').
  destruct (inverted_facts 0 R0) as (I0' & P0' & S0' & X0').
  cbn [Z.add] in X0, I0', P0', S0', X0'.
  destruct (Z.ltb_spec t IBIT) as [Hpl | Hinv].
  - (* T without the inverter *)
    assert (Rt : 0 <= t < IBIT) by (unfold u32 in *; lia).
    destruct (plain_facts t Rt) as (It & Pt & St & Xt).
    destruct (inverted_facts t Rt) as (It' & Pt' & St' & Xt').
    unfold functionGrouping at 1. rewrite !Z.gtb_ltb, It, ?Xq, ?X0.
    clear Hq Ht Hf.
    split_tests; try exact I;
      (split;
       [ unfold sane; rewrite ?Pq, ?Pf, ?Pt, ?P0, ?Iq', ?I0', ?It, ?Iq,
           ?Sq', ?S0', ?St, ?Sq; sane_conjuncts
       | intros Hi; try (rewrite Iq' in Hi; discriminate);
         try (rewrite I0' in Hi; discriminate);
         unfold functionGrouping; rewrite !Z.gtb_ltb;
         rewrite ?Xt, ?Xq, ?It', ?Iq', ?St', ?Sq';
         split_tests; try reflexivity; try lia; try discriminate ]).
  - (* T with the inverter *)
    assert (Rs : 0 <= t - IBIT < IBIT) by (unfold u32 in *; lia).
    destruct (inverted_facts (t - IBIT) Rs) as (It & Pt & St & Xt).
    replace (t - IBIT + IBIT) with t in It, Pt, St, Xt by lia.
    unfold functionGrouping at 1. rewrite !Z.gtb_ltb, It, St, ?Xq.
    clear Hq Ht Hf.
    split_tests; try exact I;
      (split;
       [ unfold sane; rewrite ?Pq, ?Pf, ?P0, ?It, ?Iq', ?St, ?Sq';
         sane_conjuncts
       | rewrite ?It, ?Iq'; discriminate ]).
Qed.

Lemma sane_rewritten (q f nid : Z) :
  0 < q < IBIT -> 0 <= f < IBIT -> q <> f ->
  TINYTREE_NSTART <= nid < TINYTREE_MAXNODES ->
  q < nid -> f < nid ->
  sane true q (Z.lxor nid IBIT) f = true.
Proof.
  intros Rq Rf Hqf Hnid Hqn Hfn.
  assert (HI : IBIT = 2147483648) by reflexivity.
  assert (Rn : 0 <= nid < IBIT) by (tree_consts; lia).
  assert (Rq' : 0 <= q < IBIT) by lia.
  destruct (plain_facts q Rq') as (Iq & Pq & Sq & Xq).
  destruct (plain_facts f Rf) as (If & Pf & Sf & Xf).
  destruct (plain_facts nid Rn) as (_ & _ & _ & Xn).
  destruct (inverted_facts nid Rn) as (In' & Pn' & Sn' & Xn').
  unfold sane. rewrite Xn, Pq, Pf, In', Sn'. tree_consts.
  sane_conjuncts.
Qed.

(** A flag of the context is one bit. *)
Definition one_bit (mask : Z) : Prop := exists k, 0 <= k < 32 /\ mask = 2 ^ k.

Lemma not_qntf_of_qntf (tree : tinyTree_t) :
  one_bit MAGICMASK_QNTF -> qntf tree = false -> not_qntf tree = true.
Proof.
  intros (k & Hk & Hm). unfold qntf, not_qntf. rewrite Hm.
  intros H. apply negb_false_iff, Z.eqb_eq in H.
  assert (Hb : Z.testbit (flags tree) k = false).
  { assert (Hb := f_equal (fun x => Z.testbit x k) H). cbv beta in Hb.
    rewrite Z.land_spec, Z.bits_0, Z.pow2_bits_true, andb_true_r in Hb by lia.
    exact Hb. }
  apply negb_true_iff. apply Z.eqb_neq. intros Hc.
  assert (Hb' := f_equal (fun x => Z.testbit x k) Hc). cbv beta in Hb'.
  rewrite Z.land_spec, Z.bits_0, Z.pow2_bits_true, andb_true_r in Hb' by lia.
  unfold lnot32 in Hb'. rewrite Z.lxor_spec, Hb in Hb'.
  change 0xFFFFFFFF with (Z.ones 32) in Hb'.
  rewrite Z.ones_spec_low in Hb' by lia. discriminate.
Qed.

Lemma normaliseQTF_rec_valid_returns (tree : tinyTree_t) (q t f : Z) :
  one_bit MAGICMASK_QNTF ->
  TINYTREE_NSTART <= count tree -> count tree + 2 <= TINYTREE_MAXNODES ->
  ordered tree ->
  valid_ref tree q -> valid_ref tree t -> valid_ref tree f ->
  exists r tree1, normaliseQTF_rec 2 tree q t f = Returned (r, tree1).
Proof.
  intros Hbit Hlo Hhi Hord Vq Vt Vf.
  assert (HI : IBIT = 2147483648) by reflexivity.
  remember 1%nat as one eqn:Hone.
  cbn [normaliseQTF_rec]. unfold assert.
  replace ((strip q <? count tree) && (strip t <? count tree)
           && (strip f <? count tree)) with true
    by (symmetry; rewrite !andb_true_iff, !Z.ltb_lt;
        destruct Vq, Vt, Vf; repeat split; assumption).
  rewrite orb_true_r.
  (* level 1a *)
  destruct (if inverted q then (Z.lxor q IBIT, f, t) else (q, t, f))
    as [[Q1 T1] F1] eqn:E1.
  assert (H1 : valid_ref tree Q1 /\ inverted Q1 = false
               /\ valid_ref tree T1 /\ valid_ref tree F1).
  { destruct (inverted q) eqn:Hq; injection E1 as <- <- <-.
    - split; [ apply valid_ref_lxor, Vq | ].
      split; [ now rewrite inverted_lxor_IBIT, Hq | split; assumption ].
    - split; [ exact Vq | split; [ exact Hq | split; assumption ] ]. }
  destruct H1 as (VQ1 & PQ1 & VT1 & VF1).
  destruct (Z.eqb_spec Q1 0) as [EQ0 | NQ0]; [ eexists _, _; reflexivity | ].
  destruct (if inverted F1
            then (Z.lxor T1 IBIT, Z.lxor F1 IBIT, Z.lxor 0 IBIT)
            else (T1, F1, 0)) as [[T2 F2] ibit] eqn:E2.
  assert (H2 : valid_ref tree T2 /\ valid_ref tree F2 /\ inverted F2 = false).
  { destruct (inverted F1) eqn:HF1; injection E2 as <- <- <-.
    - split; [ apply valid_ref_lxor, VT1 | ].
      split; [ apply valid_ref_lxor, VF1 | ].
      now rewrite inverted_lxor_IBIT, HF1.
    - split; [ exact VT1 | split; [ exact VF1 | exact HF1 ] ]. }
  destruct H2 as (VT2 & VF2 & PF2).
  (* level 1b, 1c *)
  assert (Hc : 0 < count tree <= IBIT) by (tree_consts; lia).
  destruct VQ1 as [UQ1 SQ1]. destruct VT2 as [UT2 ST2].
  destruct VF2 as [UF2 SF2].
  rewrite (strip_plain Q1 UQ1 PQ1) in SQ1.
  rewrite (strip_plain F2 UF2 PF2) in SF2.
  pose proof (functionGrouping_valid (count tree) Q1 T2 F2 Hc UQ1 UT2 UF2
                (plain_lt_IBIT _ UQ1 PQ1) (plain_lt_IBIT _ UF2 PF2)
                SQ1 ST2 SF2) as HG.
  pose proof (functionGrouping_sane Q1 T2 F2 UQ1 UT2 UF2
                (plain_lt_IBIT _ UQ1 PQ1) (plain_lt_IBIT _ UF2 PF2) NQ0) as HS.
  destruct (functionGrouping Q1 T2 F2) as [r0 | Q3 T3 F3];
    [ eexists _, _; reflexivity | ].
  destruct HG as ((UQ3 & UT3 & UF3) & (PQ3 & PF3) & (CQ3 & CT3 & CF3)).
  destruct HS as [Hsane Hagain].
  assert (Hc0 : 0 <= count tree < TINYTREE_MAXNODES) by (tree_consts; lia).
  destruct (qntf tree && plain T3) eqn:Erw.
  - apply andb_true_iff in Erw. destruct Erw as [_ HT3].
    rewrite plain_inverted in HT3. apply negb_true_iff in HT3.
    specialize (Hagain HT3).
    (* the nested call, on a triple whose T carries the inverter *)
    assert (HQ3 : Q3 <> 0 /\ Q3 <> F3).
    { unfold sane in Hsane. rewrite !andb_true_iff in Hsane.
      destruct Hsane as (((((((((((_ & _) & _) & Hq0) & _) & _) & _) & Hqf) & _) & _) & _) & _).
      apply negb_true_iff in Hq0, Hqf. apply Z.eqb_neq in Hq0, Hqf.
      split; assumption. }
    destruct HQ3 as [NQ3 NQF3].
    assert (IQ3 : inverted Q3 = false).
    { rewrite (inverted_u32 Q3 UQ3). destruct (Z.leb_spec IBIT Q3); [ lia | reflexivity ]. }
    assert (IF3 : inverted F3 = false).
    { rewrite (inverted_u32 F3 UF3). destruct (Z.leb_spec IBIT F3); [ lia | reflexivity ]. }
    assert (UT3' : u32 (Z.lxor T3 IBIT)) by now apply u32_lxor_IBIT.
    assert (IT3' : inverted (Z.lxor T3 IBIT) = true)
      by now rewrite inverted_lxor_IBIT, HT3.
    pose proof (functionGrouping_sane Q3 (Z.lxor T3 IBIT) F3 UQ3 UT3' UF3 PQ3 PF3 NQ3)
      as HS'.
    rewrite Hagain in HS'. destruct HS' as [Hsane' _].
    subst one. cbn [normaliseQTF_rec]. unfold assert.
    replace ((strip Q3 <? count tree) && (strip (Z.lxor T3 IBIT) <? count tree)
             && (strip F3 <? count tree)) with true.
    2:{ symmetry. rewrite !andb_true_iff, !Z.ltb_lt.
        rewrite (strip_plain Q3 UQ3 IQ3), (strip_plain F3 UF3 IF3),
          (strip_lxor_IBIT T3 UT3). repeat split; assumption. }
    rewrite orb_true_r, IQ3.
    destruct (Z.eqb_spec Q3 0) as [E | _]; [ contradiction | ].
    rewrite IF3, Hagain, plain_inverted, IT3', andb_false_r.
    destruct (basicNode_sane_returns tree Q3 (Z.lxor T3 IBIT) F3)
      as (nid & tin & Eb); [ | exact Hc0 | ].
    { apply sane_weaken; [ exact Hsane' | ]. now rewrite IT3'. }
    rewrite Eb.
    assert (CT3' : strip (Z.lxor T3 IBIT) < count tree)
      by now rewrite (strip_lxor_IBIT T3 UT3).
    destruct (basicNode_ordered tree tin Q3 (Z.lxor T3 IBIT) F3 nid)
      as (Hord_in & _ & _); try assumption; [ tree_consts; lia | ].
    destruct (basicNode_node _ _ _ _ _ _ Hlo Eb) as (Hr & Hb & Hn).
    pose proof (basicNode_count _ _ _ _ _ _ Eb) as Hcnt.
    pose proof (basicNode_extends _ _ _ _ _ _ Eb) as Hext.
    destruct (Hord_in nid Hr) as (Hqn & _ & Hfn). rewrite Hn in Hqn, Hfn.
    cbn [Q F] in Hqn, Hfn.
    rewrite Z.lxor_0_r.
    destruct (basicNode_sane_returns tin Q3 (Z.lxor nid IBIT) F3)
      as (nid2 & tout & Eb2).
    + apply sane_weaken.
      * apply sane_rewritten; unfold u32 in *; try lia.
      * rewrite inverted_lxor_IBIT.
        assert (Un : u32 nid) by (tree_consts; unfold u32; lia).
        rewrite (inverted_u32 nid Un).
        destruct (Z.leb_spec IBIT nid); [ tree_consts; lia | reflexivity ].
    + destruct Hext as (_ & _ & Hle & _). lia.
    + rewrite Eb2. eexists _, _. reflexivity.
  - destruct (basicNode_sane_returns tree Q3 T3 F3) as (nid & tout & Eb);
      [ | exact Hc0 | rewrite Eb; eexists _, _; reflexivity ].
    apply sane_weaken; [ exact Hsane | ].
    apply andb_false_iff in Erw. destruct Erw as [Eq | Ep].
    + rewrite (not_qntf_of_qntf tree Hbit Eq). apply orb_true_r.
    + rewrite plain_inverted in Ep. apply negb_false_iff in Ep.
      now rewrite Ep.
Qed.

(** X4.  On an ordered tree with room for two more nodes, and with
    arguments that refer to entries the tree has, [normaliseQTF] returns
    whatever the flags are: none of the assertions of paranoid mode, on
    entry or in [basicNode], fails.  The reference handed back points into
    the resulting tree, which is ordered again. *)
Theorem normaliseQTF_returns_on_valid (tree : tinyTree_t) (q t f : Z) :
  one_bit MAGICMASK_QNTF ->
  TINYTREE_NSTART <= count tree -> count tree + 2 <= TINYTREE_MAXNODES ->
  ordered tree ->
  valid_ref tree q -> valid_ref tree t -> valid_ref tree f ->
  exists r tree1,
    normaliseQTF tree q t f = Returned (r, tree1)
    /\ valid_ref tree1 r
    /\ ordered tree1.
Proof.
  intros Hbit Hlo Hhi Hord Vq Vt Vf.
  destruct (normaliseQTF_rec_valid_returns tree q t f Hbit Hlo Hhi Hord Vq Vt Vf)
    as (r & tree1 & E).
  exists r, tree1. split; [ exact E | ].
  destruct (normaliseQTF_rec_ordered 2 tree tree1 q t f r) as (Ho & _ & Vr);
    try assumption; [ tree_consts; lia | ].
  split; assumption.
Qed.

(** *** What [decodeSafe] hands back *)

Ltac step_cases H :=
  repeat match type of H with
         | (if ?b then _ else _) = _ => destruct b eqn:?
         | match ?o with Some _ => _ | None => _ end = _ => destruct o eqn:?
         | match ?o with Returned _ => _ | Aborted => _ | Undefined => _ end = _ =>
             destruct o as [[? ?] | |] eqn:?
         end.

Lemma decodeSafeStep_stop (pSkin : string) (st : safeState) (ch : ascii)
    (e : Z) (tr : tinyTree_t) :
  decodeSafeStep pSkin st ch = Stop (Returned (e, tr)) ->
  tr = sTree st
  /\ In e [DERR_SYNTAX; DERR_PLACEHOLDER; DERR_OVERFLOW; DERR_UNDERFLOW; DERR_SIZE].
Proof.
  intros H. unfold decodeSafeStep, safePush, safeDyadic, safeTernary in H.
  cbv beta iota zeta in H.
  step_cases H; try discriminate;
    injection H as <- <-; (split; [ reflexivity | simpl; tauto ]).
Qed.

Lemma decodeSafeLoop_stop (pSkin : string) (pName : string) :
  forall (st : safeState) (e : Z) (tr : tinyTree_t),
    keeps 0 (sTree st) ->
    decodeSafeLoop pSkin st pName = inl (Returned (e, tr)) ->
    root tr = 0
    /\ In e [DERR_SYNTAX; DERR_PLACEHOLDER; DERR_OVERFLOW; DERR_UNDERFLOW; DERR_SIZE].
Proof.
  induction pName as [| ch rest IH]; intros st e tr Hk H; simpl in H;
    [ discriminate | ].
  destruct (decodeSafeStep pSkin st ch) as [st1 | st1 | o] eqn:Es.
  - apply (IH st1); [ | exact H ].
    eapply decodeSafeStep_keeps; [ exact Hk | left; exact Es ].
  - discriminate.
  - injection H as ->. apply decodeSafeStep_stop in Es.
    destruct Es as [-> He]. split; [ apply Hk | exact He ].
Qed.

(** X5.  [decodeSafe] sets the root only when it succeeds.  A returned
    [DERR_OK] means the loop came to the end of the notation with exactly
    one entry on the stack, which becomes the root; with every other code
    the root is the zero reference [clear] left. *)
Theorem decodeSafe_error_keeps_root (tree tree' : tinyTree_t)
    (pName pSkin : string) (e : Z) :
  decodeSafe tree pName pSkin = Returned (e, tree') ->
  (e = DERR_OK
   /\ exists st, decodeSafeLoop pSkin (safeInit tree) pName = inr st
                 /\ sStackPos st = 1
                 /\ root tree' = sStack st 0)
  \/ (In e [DERR_SYNTAX; DERR_PLACEHOLDER; DERR_OVERFLOW; DERR_UNDERFLOW;
            DERR_INCOMPLETE; DERR_SIZE]
      /\ root tree' = 0).
Proof.
  unfold decodeSafe. intros H.
  assert (Hk : keeps 0 (sTree (safeInit tree))).
  { split; [ reflexivity | simpl; lia ]. }
  destruct (decodeSafeLoop pSkin (safeInit tree) pName) as [o | st] eqn:Hloop.
  - subst o. right.
    destruct (decodeSafeLoop_stop _ _ _ _ _ Hk Hloop) as [Hr He].
    split; [ simpl in *; tauto | exact Hr ].
  - destruct (Z.eqb_spec (sStackPos st) 1) as [E1 | N1]; cbn [negb] in H;
      injection H as <- <-.
    + left. split; [ reflexivity | ].
      exists st. split; [ reflexivity | ]. split; [ exact E1 | ].
      simpl. rewrite E1. reflexivity.
    + right. split; [ simpl; tauto | ].
      apply (decodeSafeLoop_keeps pSkin 0 pName (safeInit tree) st Hk Hloop).
Qed.

(** *** [decodeSafe] builds ordered trees *)














(** *** The input vectors *)

Lemma fold_bits (p : nat -> bool) (n : nat) (k : nat) :
  Z.testbit
    (fold_left (fun acc b => if p b then Z.lor acc (Z.shiftl 1 (Z.of_nat b)) else acc)
               (seq 0 n) 0)
    (Z.of_nat k)
  = if (k <? n)%nat then p k else false.
Proof.
  induction n as [| n IH].
  - simpl. apply Z.bits_0.
  - rewrite seq_S, fold_left_app. cbn [fold_left Nat.add].
    destruct (Nat.ltb_spec k (S n)) as [Hlt | Hge].
    + destruct (Nat.eq_dec k n) as [-> | Hne].
      * destruct (p n) eqn:Hp.
        -- rewrite Z.lor_spec, Z.shiftl_1_l, Z.pow2_bits_true by lia.
           apply orb_true_r.
        -- rewrite IH. destruct (Nat.ltb_spec n n); [ lia | reflexivity ].
      * assert (Hk : (k <? n)%nat = true) by (apply Nat.ltb_lt; lia).
        destruct (p n).
        -- rewrite Z.lor_spec, IH, Hk, Z.shiftl_1_l, Z.pow2_bits_false by lia.
           apply orb_false_r.
        -- rewrite IH, Hk. reflexivity.
    + assert (Hk : (k <? n)%nat = false) by (apply Nat.ltb_ge; lia).
      destruct (p n).
      * rewrite Z.lor_spec, IH, Hk, Z.shiftl_1_l, Z.pow2_bits_false by lia.
        reflexivity.
      * rewrite IH, Hk. reflexivity.
Qed.

(** X7.  [initialiseVector] gives slot [k] the truth table of the input
    named by nibble [k - 1] of the transform mask: position [i] of its
    footprint holds binary digit [input] of [i].  The zero entry and the
    entries of the operator nodes start all zero. *)
Theorem initialiseVector_bit (transformMask slot : Z) (j : nat) (b : Z) :
  (j < QUADPERFOOTPRINT)%nat -> 0 <= b < 64 ->
  bitOf (initialiseVector transformMask slot) j b
  = if (TINYTREE_KSTART <=? slot) && (slot <? TINYTREE_NSTART)
    then Z.testbit (64 * Z.of_nat j + b)
                   (Z.land (Z.shiftr transformMask (4 * (slot - TINYTREE_KSTART))) 15)
    else false.
Proof.
  intros Hj Hb. unfold bitOf, initialiseVector.
  destruct ((TINYTREE_KSTART <=? slot) && (slot <? TINYTREE_NSTART)).
  - rewrite lane_map by assumption.
    rewrite <- (Z2Nat.id b) by lia.
    rewrite (fold_bits (fun b0 => Z.testbit (64 * Z.of_nat j + Z.of_nat b0)
                                   (Z.land (Z.shiftr transformMask
                                              (4 * (slot - TINYTREE_KSTART))) 15))
                       64 (Z.to_nat b)).
    destruct (Nat.ltb_spec (Z.to_nat b) 64); [ reflexivity | lia ].
  - unfold lane, QUADPERFOOTPRINT in *.
    do 8 (destruct j as [| j]; [ apply Z.bits_0 | ]). lia.
Qed.

(** *** Endpoints go round *)

(** X8.  The references to the zero entry and to the nine slots, with
    or without the inverter, survive a round trip: what [encode] emits for
    them, both parsers read back as a tree without nodes whose root is the
    reference. *)
Theorem endpoint_roundtrip (tree tree0 : tinyTree_t) (k : Z)
    (inv withSkin : bool) :
  0 <= k < TINYTREE_NSTART ->
  exists name skin tree',
    encode tree (if inv then Z.lxor k IBIT else k) withSkin
      = Some (Returned (name, skin))
    /\ decodeSafe tree0 name (if withSkin then skin else "abcdefghi"%string)
       = Returned (DERR_OK, tree')
    /\ decodeFast tree0 name (if withSkin then skin else "abcdefghi"%string)
       = Returned tree'
    /\ root tree' = (if inv then Z.lxor k IBIT else k)
    /\ count tree' = TINYTREE_NSTART.
Proof.
  intros Hk. tree_consts.
  assert (Hcases : k = 0 \/ k = 1 \/ k = 2 \/ k = 3 \/ k = 4 \/ k = 5 \/ k = 6
                   \/ k = 7 \/ k = 8 \/ k = 9) by lia.
  destruct tree0 as [fl c n r].
  repeat (destruct Hcases as [-> | Hcases]); try subst k; destruct inv, withSkin;
    eexists _, _, _; (split; [ reflexivity | ]);
    (split; [ reflexivity | ]); (split; [ reflexivity | ]);
    split; reflexivity.
Qed.

(** X9.  [encode] ends on every tree, also on one whose nodes refer to
    each other in a cycle: neither walk takes more than [encodeTurns]
    turns. *)
Theorem encode_walks_end (tree : tinyTree_t) (id : Z) (withSkin : bool) :
  exists o, encode tree id withSkin = Some o.
Proof.
  destruct (encode tree id withSkin) as [o |] eqn:E.
  - exists o. reflexivity.
  - exfalso. revert E. apply encode_returns.
Qed.

End WithMasks.

(** *** Concrete instances

    Closed statements need concrete flag masks; the sample below gives
    each [MAGICMASK_*] flag a bit of its own. *)
Definition sample_masks : context_masks :=
  {| MAGICMASK_PARANOID := 1; MAGICMASK_QNTF := 2; MAGICMASK_AINF := 8 |}.

(** A tree after [clear], no flag set. *)
Definition sample_tree : tinyTree_t :=
  clear (mkTree 0 0 (fun _ => mkNode 0 0 0) 0).

Lemma sample_tree_ordered : ordered sample_tree.
Proof. intros nid Hnid. cbn in Hnid. lia. Qed.

Lemma normaliseQTF_idempotent_witness :
  exists tree1,
    normaliseQTF (masks := sample_masks) sample_tree 3 (Z.lxor 2 IBIT) 1
      = Returned (TINYTREE_NSTART, tree1)
    /\ exists tree2,
         normaliseQTF (masks := sample_masks) tree1 3 (Z.lxor 2 IBIT) 1
           = Returned (TINYTREE_NSTART, tree2)
         /\ count tree2 = count tree1
         /\ tree2 = tree1.
Proof.
  eexists. split; [ reflexivity | ].
  apply (normaliseQTF_idempotent (masks := sample_masks) sample_tree);
    [ vm_compute; discriminate | reflexivity ].
Defined.

Lemma normaliseQTF_ordered_witness :
  exists tree1,
    normaliseQTF (masks := sample_masks) sample_tree 3 (Z.lxor 2 IBIT) 1
      = Returned (TINYTREE_NSTART, tree1)
    /\ ordered tree1.
Proof.
  eexists. split; [ reflexivity | ].
  apply (normaliseQTF_ordered (masks := sample_masks) sample_tree _
           3 (Z.lxor 2 IBIT) 1 TINYTREE_NSTART).
  - vm_compute. split; discriminate.
  - exact sample_tree_ordered.
  - vm_compute. split; [ discriminate | reflexivity ].
  - vm_compute. split; [ discriminate | reflexivity ].
  - vm_compute. split; [ discriminate | reflexivity ].
  - right. vm_compute. repeat split.
  - reflexivity.
Defined.

Lemma decodeSafe_incomplete_witness :
  exists tree',
    decodeSafe (masks := sample_masks) sample_tree "ab" "abcdefghi"
      = Returned (DERR_INCOMPLETE, tree')
    /\ root tree' = 0
    /\ DERR_INCOMPLETE <> DERR_OK
    /\ ~ In DERR_INCOMPLETE
         [DERR_SYNTAX; DERR_PLACEHOLDER; DERR_OVERFLOW; DERR_UNDERFLOW; DERR_SIZE].
Proof.
  eapply (decodeSafe_incomplete (masks := sample_masks) sample_tree
            "ab" "abcdefghi").
  - vm_compute. reflexivity.
  - vm_compute. discriminate.
Defined.

(** The empty notation, the first example of C10. *)
Example decodeSafe_of_empty :
  decodeSafe (masks := sample_masks) sample_tree "" "abcdefghi"
    = Returned (DERR_INCOMPLETE, sample_tree).
Proof. reflexivity. Qed.

(** C7 as stated fails.  Outside paranoid mode [normaliseQTF] stores
    whatever it is handed: asked for [26 | 2] on a cleared tree it stores
    node 10 with [F = 26].  The safe parser makes this very call for the
    notation ["ab+"] under the skin ["zbcdefghi"], whose first letter is
    lowercase, which is all the parser asks of it, but names no input. *)
Lemma ordering_not_preserved :
  ordered sample_tree
  /\ (exists tree1,
        normaliseQTF (masks := sample_masks) sample_tree 26 IBIT 2
          = Returned (TINYTREE_NSTART, tree1)
        /\ F (N tree1 TINYTREE_NSTART) = 26
        /\ ~ ordered tree1)
  /\ (exists tree1,
        decodeSafe (masks := sample_masks) sample_tree "ab+" "zbcdefghi"
          = Returned (DERR_OK, tree1)
        /\ ~ ordered tree1).
Proof.
  split; [ exact sample_tree_ordered | ].
  split; eexists; (split; [ vm_compute; reflexivity | ]).
  - split; [ reflexivity | ].
    intros Hord. specialize (Hord 10). vm_compute in Hord.
    destruct Hord as (_ & _ & Hf);
      [ split; [ discriminate | reflexivity ] | discriminate ].
  - intros Hord. specialize (Hord 10). vm_compute in Hord.
    destruct Hord as (_ & _ & Hf);
      [ split; [ discriminate | reflexivity ] | discriminate ].
Qed.

(** The round trip on a small tree: ["abc!"] under the skin ["bcaefghid"] is
    [b ? !c : a]; the encoder gives ["abc!"] with skin ["bca"], and the
    fast parser's tree has the same 512 values, [0x2E] repeated. *)
Example roundtrip_small :
  exists tree tree',
    decodeSafe (masks := sample_masks) sample_tree "abc!" "bcaefghid"
      = Returned (DERR_OK, tree)
    /\ encode tree (root tree) true = Some (Returned ("abc!", "bca")%string)
    /\ decodeFast sample_tree "abc!" "bca" = Returned tree'
    /\ footprintOf tree (initialiseVector 0x876543210)
       = Returned (repeat 0x2E2E2E2E2E2E2E2E 8)
    /\ footprintOf tree' (initialiseVector 0x876543210)
       = footprintOf tree (initialiseVector 0x876543210).
Proof.
  eexists _, _. split; [ vm_compute; reflexivity | ].
  split; [ vm_compute; reflexivity | ].
  split; [ vm_compute; reflexivity | ].
  split; vm_compute; reflexivity.
Qed.

(** *** Instances of the further properties *)

(** The tree of [a | b]: one node, [a ? !0 : b]. *)
Definition sample_or : tinyTree_t :=
  setNode (setCount sample_tree (TINYTREE_NSTART + 1)) TINYTREE_NSTART
          (mkNode 1 (Z.lxor 0 IBIT) 2).

Lemma sample_or_ordered : ordered sample_or.
Proof.
  intros nid Hnid. cbn in Hnid. assert (nid = 10) by lia. subst nid.
  vm_compute. repeat split.
Defined.

(** A valuation of [sample_or]: [a] is 1, [b] is 0, so the node is 1. *)
Definition sample_env : Z -> bool :=
  fun x => (x =? 1) || (x =? TINYTREE_NSTART).

Lemma sample_env_models : models sample_or sample_env.
Proof.
  split; [ reflexivity | ].
  intros nid Hnid. cbn in Hnid. assert (nid = 10) by lia. subst nid.
  reflexivity.
Defined.


Lemma eval_computes_witness :
  exists v',
    eval sample_or (initialiseVector 0x876543210) = Returned v'
    /\ (forall k, ~ (TINYTREE_NSTART <= k < count sample_or) ->
                  v' k = initialiseVector 0x876543210 k)
    /\ (forall nid j b,
          TINYTREE_NSTART <= nid < count sample_or ->
          (j < QUADPERFOOTPRINT)%nat -> 0 <= b < 64 ->
          bitOf (v' nid) j b
          = nodeBit (fun x => bitOf (v' x) j b) (N sample_or nid)).
Proof.
  apply (eval_computes sample_or (initialiseVector 0x876543210)).
  - exact sample_or_ordered.
  - vm_compute. split; discriminate.
Defined.

Lemma normaliseQTF_sound_witness :
  normaliseQTF (masks := sample_masks) sample_tree 1 (Z.lxor 0 IBIT) 2
    = Returned (TINYTREE_NSTART, sample_or)
  /\ refBit sample_env TINYTREE_NSTART
     = (if refBit sample_env 1 then refBit sample_env (Z.lxor 0 IBIT)
        else refBit sample_env 2).
Proof.
  split; [ reflexivity | ].
  apply (normaliseQTF_sound (masks := sample_masks) sample_tree sample_or
           1 (Z.lxor 0 IBIT) 2 TINYTREE_NSTART sample_env).
  - vm_compute. discriminate.
  - vm_compute. split; [ discriminate | reflexivity ].
  - vm_compute. split; [ discriminate | reflexivity ].
  - vm_compute. split; [ discriminate | reflexivity ].
  - reflexivity.
  - exact sample_env_models.
Defined.

Lemma normaliseQTF_appends_witness :
  flags sample_or = flags sample_tree
  /\ root sample_or = root sample_tree
  /\ (forall i, i < count sample_tree -> N sample_or i = N sample_tree i)
  /\ count sample_tree <= count sample_or <= count sample_tree + 2
  /\ (qntf (masks := sample_masks) sample_tree = false ->
      count sample_or <= count sample_tree + 1).
Proof.
  apply (normaliseQTF_appends (masks := sample_masks) sample_tree sample_or
           1 (Z.lxor 0 IBIT) 2 TINYTREE_NSTART).
  - vm_compute. discriminate.
  - reflexivity.
Defined.

(** A tree in paranoid QnTF mode. *)
Definition sample_paranoid : tinyTree_t :=
  clear (mkTree 3 0 (fun _ => mkNode 0 0 0) 0).

Lemma normaliseQTF_returns_on_valid_witness :
  exists r tree1,
    normaliseQTF (masks := sample_masks) sample_paranoid 1 2 3 = Returned (r, tree1)
    /\ valid_ref tree1 r
    /\ ordered tree1.
Proof.
  apply (normaliseQTF_returns_on_valid (masks := sample_masks) sample_paranoid 1 2 3).
  - exists 1. split; [ lia | reflexivity ].
  - vm_compute. discriminate.
  - vm_compute. discriminate.
  - intros nid Hnid. cbn in Hnid. lia.
  - vm_compute. repeat split; discriminate.
  - vm_compute. repeat split; discriminate.
  - vm_compute. repeat split; discriminate.
Defined.

Lemma decodeSafe_error_keeps_root_witness :
  (DERR_UNDERFLOW = DERR_OK
   /\ exists st, decodeSafeLoop (masks := sample_masks) "abcdefghi"
                   (safeInit sample_tree) "a+" = inr st
                 /\ sStackPos st = 1
                 /\ root sample_tree = sStack st 0)
  \/ (In DERR_UNDERFLOW [DERR_SYNTAX; DERR_PLACEHOLDER; DERR_OVERFLOW;
                         DERR_UNDERFLOW; DERR_INCOMPLETE; DERR_SIZE]
      /\ root sample_tree = 0).
Proof.
  apply (decodeSafe_error_keeps_root (masks := sample_masks) sample_tree sample_tree
           "a+" "abcdefghi" DERR_UNDERFLOW).
  reflexivity.
Defined.


Lemma initialiseVector_bit_witness :
  bitOf (initialiseVector 0x876543210 2) 0 5
  = if (TINYTREE_KSTART <=? 2) && (2 <? TINYTREE_NSTART)
    then Z.testbit (64 * Z.of_nat 0 + 5)
                   (Z.land (Z.shiftr 0x876543210 (4 * (2 - TINYTREE_KSTART))) 15)
    else false.
Proof.
  apply (initialiseVector_bit 0x876543210 2 0 5).
  - unfold QUADPERFOOTPRINT. lia.
  - lia.
Defined.

Lemma endpoint_roundtrip_witness :
  exists name skin tree',
    encode sample_tree (Z.lxor 3 IBIT) true = Some (Returned (name, skin))
    /\ decodeSafe (masks := sample_masks) sample_tree name skin
       = Returned (DERR_OK, tree')
    /\ decodeFast sample_tree name skin = Returned tree'
    /\ root tree' = Z.lxor 3 IBIT
    /\ count tree' = TINYTREE_NSTART.
Proof.
  apply (endpoint_roundtrip (masks := sample_masks) sample_tree sample_tree 3 true true).
  vm_compute. split; [ discriminate | reflexivity ].
Defined.

End TinyTree.

(** ** Interleave presets

    Modelled from the spec: the table [metricsInterleave] and its lookup
    [getMetricsInterleave] live in metrics.h, which is not among the
    sources.  The spec gives the allowed interleaves as the set
    {504, 120, 720, 5040, 15120, 40320, 60480} of numbers of stored
    imprints, each paired with the step that makes the product 9!. *)

Module Interleave.

(** Modelled from the spec: [MAXTRANSFORM], the 9! permutations of the
    variable alphabet (declared in datadef.h). *)
Definition MAXTRANSFORM : Z := 362880.

Record metricsInterleave_t := mkInterleave {
  numSlot        : Z;
  numStored      : Z;
  interleaveStep : Z
}.

(** Modelled from the spec: the presets for 9 slots, one row per allowed
    interleave. *)
Definition metricsInterleave : list metricsInterleave_t :=
  [ mkInterleave 9 504 720;
    mkInterleave 9 120 3024;
    mkInterleave 9 720 504;
    mkInterleave 9 5040 72;
    mkInterleave 9 15120 24;
    mkInterleave 9 40320 9;
    mkInterleave 9 60480 6 ].

(** Modelled from the spec: the preset whose number of stored imprints is
    [interleave], if it is an allowed value. *)
Definition getMetricsInterleave (slots interleave : Z) : option metricsInterleave_t :=
  find (fun m => (numSlot m =? slots) && (numStored m =? interleave))
       metricsInterleave.

(** The transform ids of the stored imprints of one signature,
    [{ k * step mod 9! : 0 <= k < numStored }]. *)
Definition storedRows (m : metricsInterleave_t) : list Z :=
  map (fun k => (Z.of_nat k * interleaveStep m) mod MAXTRANSFORM)
      (seq 0 (Z.to_nat (numStored m))).

(** The transform ids a lookup probes, [{ 0, 1, ..., step - 1 }]. *)
Definition probeOffsets (m : metricsInterleave_t) : list Z :=
  map Z.of_nat (seq 0 (Z.to_nat (interleaveStep m))).

Lemma getMetricsInterleave_In (slots interleave : Z) (m : metricsInterleave_t) :
  getMetricsInterleave slots interleave = Some m ->
  In m metricsInterleave /\ numSlot m = slots /\ numStored m = interleave.
Proof.
  unfold getMetricsInterleave. intros H.
  apply find_some in H. destruct H as [Hin Hb].
  apply andb_true_iff in Hb. destruct Hb as [H1 H2].
  apply Z.eqb_eq in H1, H2. auto.
Qed.

Lemma preset_product (m : metricsInterleave_t) :
  In m metricsInterleave ->
  numStored m * interleaveStep m = MAXTRANSFORM
  /\ 0 < numStored m /\ 0 < interleaveStep m.
Proof.
  unfold metricsInterleave. simpl.
  intros H. repeat (destruct H as [<- | H]; [ vm_compute; auto | ]).
  destruct H.
Qed.

(** C8.  For every allowed interleave the preset satisfies
    [numStored * interleaveStep = 9!], and the stored rows together with
    the probe offsets cover the transform range: a lookup answers with a
    stored row combined with the offset it probed, and each [t] in
    [[0, 9!)] is [row + u] for a stored row [row = k * step mod 9!],
    [k < numStored], and an offset [u < step], and for one such pair
    only. *)
Theorem interleave_coverage (interleave : Z) (m : metricsInterleave_t) :
  getMetricsInterleave 9 interleave = Some m ->
  numStored m * interleaveStep m = MAXTRANSFORM
  /\ forall t, 0 <= t < MAXTRANSFORM ->
       exists k u,
         (0 <= k < numStored m /\ 0 <= u < interleaveStep m)
         /\ In ((k * interleaveStep m) mod MAXTRANSFORM) (storedRows m)
         /\ In u (probeOffsets m)
         /\ t = (k * interleaveStep m) mod MAXTRANSFORM + u
         /\ forall k' u',
              0 <= k' < numStored m -> 0 <= u' < interleaveStep m ->
              t = (k' * interleaveStep m) mod MAXTRANSFORM + u' ->
              k' = k /\ u' = u.
Proof.
  intros Hget. apply getMetricsInterleave_In in Hget.
  destruct Hget as (Hin & _ & _).
  destruct (preset_product m Hin) as (Hprod & Hn & Hs).
  split; [ exact Hprod | ].
  intros t Ht. set (s := interleaveStep m) in *. set (n := numStored m) in *.
  assert (Hsmall : forall j, 0 <= j < n -> (j * s) mod MAXTRANSFORM = j * s).
  { intros j Hj. apply Z.mod_small. rewrite <- Hprod. nia. }
  exists (t / s), (t mod s).
  pose proof (Z.mod_pos_bound t s Hs) as Hu.
  pose proof (Z.div_mod t s ltac:(lia)) as Hdm.
  assert (Hk : 0 <= t / s < n).
  { split; [ apply Z.div_pos; lia | ].
    apply Z.div_lt_upper_bound; [ lia | ]. rewrite Z.mul_comm, Hprod. lia. }
  split; [ split; assumption | ].
  split.
  { unfold storedRows. apply in_map_iff. exists (Z.to_nat (t / s)).
    split; [ fold s; rewrite Z2Nat.id by lia; reflexivity | ].
    apply in_seq. fold n. lia. }
  split.
  { unfold probeOffsets. apply in_map_iff. exists (Z.to_nat (t mod s)).
    split; [ apply Z2Nat.id; lia | ]. apply in_seq. fold s. lia. }
  split.
  { rewrite Hsmall by assumption. lia. }
  intros k' u' Hk' Hu' Heq. rewrite Hsmall in Heq by assumption.
  assert (Hq : t / s = k').
  { symmetry. apply (Z.div_unique t s k' u'); lia. }
  split; [ lia | ]. subst k'. lia.
Qed.

Lemma interleave_coverage_witness :
  numStored (mkInterleave 9 504 720) * interleaveStep (mkInterleave 9 504 720)
    = MAXTRANSFORM
  /\ forall t, 0 <= t < MAXTRANSFORM ->
       exists k u,
         (0 <= k < 504 /\ 0 <= u < 720)
         /\ In ((k * 720) mod MAXTRANSFORM) (storedRows (mkInterleave 9 504 720))
         /\ In u (probeOffsets (mkInterleave 9 504 720))
         /\ t = (k * 720) mod MAXTRANSFORM + u
         /\ forall k' u',
              0 <= k' < 504 -> 0 <= u' < 720 ->
              t = (k' * 720) mod MAXTRANSFORM + u' ->
              k' = k /\ u' = u.
Proof.
  apply (interleave_coverage 504 (mkInterleave 9 504 720)). reflexivity.
Defined.

End Interleave.

(** ** The section planner [dbtool_t::sizeDatabaseSections] (dbtool.h) *)

Module Planner.

(** database.h is not among the sources, so the bits that
    [database_t::ALLOCMASK_*] assign to the sections are left open. *)
Class alloc_masks := {
  ALLOCMASK_SIGNATURE      : Z;
  ALLOCMASK_SIGNATUREINDEX : Z;
  ALLOCMASK_HINT           : Z;
  ALLOCMASK_HINTINDEX      : Z;
  ALLOCMASK_IMPRINT        : Z;
  ALLOCMASK_IMPRINTINDEX   : Z;
  ALLOCMASK_MEMBER         : Z;
  ALLOCMASK_MEMBERINDEX    : Z
}.

Definition METRICS_DEFAULT_INTERLEAVE : Z := 504.

(** The options and planning state of [dbtool_t]. *)
Record dbtool_t := mkTool {
  opt_imprintIndexSize   : Z;
  opt_hintIndexSize      : Z;
  opt_interleave         : Z;
  opt_maxHint            : Z;
  opt_maxImprint         : Z;
  opt_maxMember          : Z;
  opt_maxSignature       : Z;
  opt_memberIndexSize    : Z;
  opt_signatureIndexSize : Z;
  copyOnWrite            : Z;
  readOnlyMode           : Z;
  rebuildSections        : Z;
  inheritSections        : Z
}.

(** What the planner reads of the input database. *)
Record input_t := mkInput {
  numSignature        : Z;
  inSignatureIndexSize : Z;
  numHint             : Z;
  inHintIndexSize     : Z;
  inInterleave        : Z;
  numImprint          : Z;
  inImprintIndexSize  : Z;
  numMember           : Z;
  inMemberIndexSize   : Z
}.

(** What the planner writes into the output database. *)
Record store_t := mkStore {
  maxSignature       : Z;
  signatureIndexSize : Z;
  maxHint            : Z;
  hintIndexSize      : Z;
  interleave         : Z;
  interleaveStep     : Z;
  maxImprint         : Z;
  imprintIndexSize   : Z;
  maxMember          : Z;
  memberIndexSize    : Z
}.

(** [ctx.fatal] prints its message and ends the program. *)
Inductive planned (A : Type) :=
| Planned (a : A)
| Fatal (message : string).
Arguments Planned {A} a.
Arguments Fatal {A} message.

Definition bind {A B : Type} (p : planned A) (k : A -> planned B) : planned B :=
  match p with
  | Planned a => k a
  | Fatal m => Fatal m
  end.

Notation "x <- p ;; k" := (bind p (fun x => k))
  (at level 61, p at next level, right associativity).
Notation "' pat <- p ;; k" := (bind p (fun x => let 'pat := x in k))
  (at level 61, pat pattern, p at next level, right associativity).

(** The rows of the generator and imprint metrics the planner reads. *)
Record metricsGenerator_t := mkGenerator {
  mgNumSignature : Z;
  mgNumHint      : Z;
  mgNumMember    : Z
}.

Section WithCollaborators.
Context {masks : alloc_masks}.

(** metrics.h and context.h are not among the sources; the planner's
    calls into them are parameters. *)
Variable getMetricsGenerator : Z -> Z -> Z -> option metricsGenerator_t.
Variable getMetricsImprint : Z -> Z -> Z -> Z -> option Z.   (* its [numImprint] *)
Variable getMetricsInterleave : Z -> Z -> option Interleave.metricsInterleave_t.
Variable raisePercent : Z -> Z -> Z.
(** [ctx.nextPrime(max * this->opt_ratio)] *)
Variable nextPrimeRatio : Z -> Z.

(** [mask & bit] as a C condition, [mask |= bit], [mask &= ~bit]. *)
Definition has (mask bit : Z) : bool := negb (Z.land mask bit =? 0).
Definition set (mask bit : Z) : Z := Z.lor mask bit.
Definition unset (mask bit : Z) : Z := Z.ldiff mask bit.

(** The two planning masks, as the blocks below pass them on. *)
Definition plan_masks : Type := (Z * Z)%type.   (* inheritSections, rebuildSections *)

(** The data block of the signature, hint and member sections. *)
Definition sizeData (app : dbtool_t) (pure numNodes : Z)
    (opt_max bit num : Z) (metric : metricsGenerator_t -> Z) (preset : string)
    (inherit : Z) : planned (Z * Z) :=
  max <- (if negb (opt_max =? 0) then
            Planned opt_max                         (* user specified *)
          else if has inherit bit then
            Planned num                             (* inherited. pass-though *)
          else if readOnlyMode app =? 0 then
            (* resize using metrics *)
            match getMetricsGenerator TinyTree.MAXSLOTS pure numNodes with
            | None => Fatal preset
            | Some pMetrics => Planned (raisePercent (metric pMetrics) 5)
            end
          else if negb (num =? 0) then
            Planned num                             (* non-empty. pass-though *)
          else Planned 1) ;;                        (* empty. minimal section *)
  Planned (max,
           if max >? num then unset inherit bit     (* section wants to grow *)
           else if negb (copyOnWrite app =? 0) then set inherit bit
           else inherit).

(** The index block of every section. *)
Definition sizeIndex (app : dbtool_t) (max opt_size bit size : Z)
    (pm : plan_masks) : Z * plan_masks :=
  let '(inherit, rebuild) := pm in
  if max =? 0 then (0, pm)                          (* no data to index *)
  else
    let indexSize :=
      if negb (opt_size =? 0) then opt_size         (* user specified *)
      else if has inherit bit then size             (* inherited. pass-though *)
      else if readOnlyMode app =? 0 then nextPrimeRatio max   (* auto-resize *)
      else if negb (size =? 0) then size            (* non-empty. pass-though *)
      else 1 in
    if negb (indexSize =? size) then
      (* source section is missing or unusable *)
      let rebuild := set rebuild bit in
      (indexSize, (Z.ldiff inherit rebuild, rebuild))
    else if negb (copyOnWrite app =? 0) then
      (indexSize, (set inherit bit, rebuild))
    else (indexSize, pm).

(** Everything [sizeDatabaseSections] does before its closing tests:
    the sizes for [store] and the two planning masks. *)
Definition planSections (app : dbtool_t) (ctxPure : Z) (store : store_t)
    (db : input_t) (numNodes : Z) : planned (store_t * plan_masks) :=
  let inherit := Z.ldiff (inheritSections app) (rebuildSections app) in
  let rebuild := rebuildSections app in
  (* signature *)
  '(maxSignature, inherit) <-
     sizeData app ctxPure numNodes (opt_maxSignature app) ALLOCMASK_SIGNATURE
              (numSignature db) mgNumSignature "no preset for --maxsignature" inherit ;;
  let '(signatureIndexSize, (inherit, rebuild)) :=
    sizeIndex app maxSignature (opt_signatureIndexSize app)
              ALLOCMASK_SIGNATUREINDEX (inSignatureIndexSize db) (inherit, rebuild) in
  (* hint *)
  '(maxHint, inherit) <-
     sizeData app ctxPure numNodes (opt_maxHint app) ALLOCMASK_HINT
              (numHint db) mgNumHint "no preset for --maxhint" inherit ;;
  let '(hintIndexSize, (inherit, rebuild)) :=
    sizeIndex app maxHint (opt_hintIndexSize app)
              ALLOCMASK_HINTINDEX (inHintIndexSize db) (inherit, rebuild) in
  (* imprint: interleave is not a section but a setting *)
  let interleave :=
    if negb (opt_interleave app =? 0) then opt_interleave app   (* user specified *)
    else if negb (inInterleave db =? 0) then inInterleave db    (* inherit *)
    else METRICS_DEFAULT_INTERLEAVE in                          (* first time *)
  '(interleave, interleaveStep) <-
     (if negb (interleave =? 0) then
        match getMetricsInterleave TinyTree.MAXSLOTS interleave with
        | None => Fatal "no preset for --interleave"
        | Some pMetrics =>
            Planned (Interleave.numStored pMetrics, Interleave.interleaveStep pMetrics)
        end
      else Planned (interleave, interleaveStep store)) ;;
  let '(inherit, rebuild) :=
    if negb (interleave =? inInterleave db) then
      (* change of interleave triggers a rebuild *)
      let rebuild := set rebuild ALLOCMASK_IMPRINT in
      (Z.ldiff inherit rebuild, rebuild)
    else (inherit, rebuild) in
  '(interleave, interleaveStep, maxImprint, (inherit, rebuild)) <-
     (if maxSignature =? 0 then
        Planned (0, interleaveStep, 0, (inherit, rebuild))      (* no data to index *)
      else
        '(interleave, interleaveStep, maxImprint) <-
           (if negb (opt_maxImprint app =? 0) then
              Planned (interleave, interleaveStep, opt_maxImprint app)
            else if has inherit ALLOCMASK_IMPRINT then
              Planned (interleave, interleaveStep, numImprint db)
            else if readOnlyMode app =? 0 then
              match getMetricsImprint TinyTree.MAXSLOTS ctxPure interleave numNodes with
              | None => Fatal "no preset for --maximprint"
              | Some n => Planned (interleave, interleaveStep, raisePercent n 5)
              end
            else if negb (numImprint db =? 0) then
              Planned (interleave, interleaveStep, numImprint db)
            else
              Planned (1, Interleave.MAXTRANSFORM, 1)) ;;
        (* imprint as data *)
        let inherit :=
          if maxImprint >? numImprint db then unset inherit ALLOCMASK_IMPRINT
          else if negb (copyOnWrite app =? 0) then set inherit ALLOCMASK_IMPRINT
          else inherit in
        (* imprint as index *)
        let '(inherit, rebuild) :=
          if (numImprint db =? 0) || negb (interleave =? inInterleave db) then
            let rebuild := set rebuild ALLOCMASK_IMPRINT in
            (Z.ldiff inherit rebuild, rebuild)
          else if negb (copyOnWrite app =? 0) then
            (set inherit ALLOCMASK_IMPRINT, rebuild)
          else (inherit, rebuild) in
        Planned (interleave, interleaveStep, maxImprint, (inherit, rebuild))) ;;
  let '(imprintIndexSize, (inherit, rebuild)) :=
    sizeIndex app maxImprint (opt_imprintIndexSize app)
              ALLOCMASK_IMPRINTINDEX (inImprintIndexSize db) (inherit, rebuild) in
  (* member *)
  '(maxMember, inherit) <-
     sizeData app ctxPure numNodes (opt_maxMember app) ALLOCMASK_MEMBER
              (numMember db) mgNumMember "no preset for --maxmember" inherit ;;
  let '(memberIndexSize, (inherit, rebuild)) :=
    sizeIndex app maxMember (opt_memberIndexSize app)
              ALLOCMASK_MEMBERINDEX (inMemberIndexSize db) (inherit, rebuild) in
  (* rebuilt sections cannot be inherited *)
  let inherit := Z.ldiff inherit rebuild in
  Planned (mkStore maxSignature signatureIndexSize maxHint hintIndexSize
                   interleave interleaveStep maxImprint imprintIndexSize maxMember memberIndexSize,
           (inherit, rebuild)).

(** [sizeDatabaseSections]: the plan, then
    "output data must be large enough to fit input data". *)
Definition sizeDatabaseSections (app : dbtool_t) (ctxPure : Z) (store : store_t)
    (db : input_t) (numNodes : Z) : planned (store_t * plan_masks) :=
  '(store, pm) <- planSections app ctxPure store db numNodes ;;
  if maxSignature store <? numSignature db then
    Fatal "--maxsignature=%u needs to be at least %u"
  else if maxHint store <? numHint db then
    Fatal "--maxhint=%u needs to be at least %u"
  else if maxMember store <? numMember db then
    Fatal "--maxmember=%u needs to be at least %u"
  else Planned (store, pm).

(** The closing tests of the planner: the three sections it compares
    with the input. *)
Definition fits (db : input_t) (store : store_t) : Prop :=
  numSignature db <= maxSignature store
  /\ numHint db <= maxHint store
  /\ numMember db <= maxMember store.

(** C3, as amended.  A run of the planner that returns without a fatal
    error leaves the signature, hint and member sections of the output at
    least as large as the input's occupancy, and a plan in which one of
    these three is smaller ends in a fatal error.  The imprint section is
    not among the sections tested. *)
Theorem planner_fits_input (app : dbtool_t) (ctxPure : Z) (store : store_t)
    (db : input_t) (numNodes : Z) :
  (forall store' pm,
      sizeDatabaseSections app ctxPure store db numNodes = Planned (store', pm) ->
      planSections app ctxPure store db numNodes = Planned (store', pm)
      /\ fits db store')
  /\ (forall store' pm,
        planSections app ctxPure store db numNodes = Planned (store', pm) ->
        ~ fits db store' ->
        exists message,
          sizeDatabaseSections app ctxPure store db numNodes = Fatal message).
Proof.
  unfold sizeDatabaseSections, fits. split; intros store' pm H.
  - destruct (planSections app ctxPure store db numNodes) as [[st pm'] | m];
      [ | discriminate ].
    simpl in H.
    destruct (Z.ltb_spec (maxSignature st) (numSignature db)); [ discriminate | ].
    destruct (Z.ltb_spec (maxHint st) (numHint db)); [ discriminate | ].
    destruct (Z.ltb_spec (maxMember st) (numMember db)); [ discriminate | ].
    injection H as <- <-. repeat split; assumption.
  - intros Hno. rewrite H. simpl.
    destruct (Z.ltb_spec (maxSignature store') (numSignature db));
      [ eexists; reflexivity | ].
    destruct (Z.ltb_spec (maxHint store') (numHint db));
      [ eexists; reflexivity | ].
    destruct (Z.ltb_spec (maxMember store') (numMember db));
      [ eexists; reflexivity | ].
    exfalso. apply Hno. repeat split; assumption.
Qed.


(** ** Further properties of the section planner *)

(** The imprint block of [planSections], from the choice of the interleave
    to the two tests that follow the sizing of the section, under a name
    of its own so that the stages of the planner can be told apart. *)
Definition planImprint (app : dbtool_t) (ctxPure : Z) (store : store_t)
    (db : input_t) (numNodes : Z) (maxSignature : Z) (pm : plan_masks)
  : planned (Z * Z * Z * plan_masks) :=
  let '(inherit, rebuild) := pm in
  let interleave :=
    if negb (opt_interleave app =? 0) then opt_interleave app
    else if negb (inInterleave db =? 0) then inInterleave db
    else METRICS_DEFAULT_INTERLEAVE in
  '(interleave, interleaveStep) <-
     (if negb (interleave =? 0) then
        match getMetricsInterleave TinyTree.MAXSLOTS interleave with
        | None => Fatal "no preset for --interleave"
        | Some pMetrics =>
            Planned (Interleave.numStored pMetrics, Interleave.interleaveStep pMetrics)
        end
      else Planned (interleave, interleaveStep store)) ;;
  let '(inherit, rebuild) :=
    if negb (interleave =? inInterleave db) then
      let rebuild := set rebuild ALLOCMASK_IMPRINT in
      (Z.ldiff inherit rebuild, rebuild)
    else (inherit, rebuild) in
  (if maxSignature =? 0 then
     Planned (0, interleaveStep, 0, (inherit, rebuild))
   else
     '(interleave, interleaveStep, maxImprint) <-
        (if negb (opt_maxImprint app =? 0) then
           Planned (interleave, interleaveStep, opt_maxImprint app)
         else if has inherit ALLOCMASK_IMPRINT then
           Planned (interleave, interleaveStep, numImprint db)
         else if readOnlyMode app =? 0 then
           match getMetricsImprint TinyTree.MAXSLOTS ctxPure interleave numNodes with
           | None => Fatal "no preset for --maximprint"
           | Some n => Planned (interleave, interleaveStep, raisePercent n 5)
           end
         else if negb (numImprint db =? 0) then
           Planned (interleave, interleaveStep, numImprint db)
         else
           Planned (1, Interleave.MAXTRANSFORM, 1)) ;;
     let inherit :=
       if maxImprint >? numImprint db then unset inherit ALLOCMASK_IMPRINT
       else if negb (copyOnWrite app =? 0) then set inherit ALLOCMASK_IMPRINT
       else inherit in
     let '(inherit, rebuild) :=
       if (numImprint db =? 0) || negb (interleave =? inInterleave db) then
         let rebuild := set rebuild ALLOCMASK_IMPRINT in
         (Z.ldiff inherit rebuild, rebuild)
       else if negb (copyOnWrite app =? 0) then
         (set inherit ALLOCMASK_IMPRINT, rebuild)
       else (inherit, rebuild) in
     Planned (interleave, interleaveStep, maxImprint, (inherit, rebuild))).

(** The stages a plan went through. *)
Record stages := mkStages {
  gSignature      : Z * Z;          (* [maxSignature], [inheritSections] after it *)
  gSignatureIndex : Z * plan_masks;
  gHint           : Z * Z;
  gHintIndex      : Z * plan_masks;
  gImprint        : Z * Z * Z * plan_masks;
  gImprintIndex   : Z * plan_masks;
  gMember         : Z * Z;
  gMemberIndex    : Z * plan_masks
}.

Definition staged (app : dbtool_t) (ctxPure : Z) (store : store_t)
    (db : input_t) (numNodes : Z) (g : stages) : Prop :=
  sizeData app ctxPure numNodes (opt_maxSignature app) ALLOCMASK_SIGNATURE
           (numSignature db) mgNumSignature "no preset for --maxsignature"
           (Z.ldiff (inheritSections app) (rebuildSections app))
    = Planned (gSignature g)
  /\ sizeIndex app (fst (gSignature g)) (opt_signatureIndexSize app)
               ALLOCMASK_SIGNATUREINDEX (inSignatureIndexSize db)
               (snd (gSignature g), rebuildSections app)
     = gSignatureIndex g
  /\ sizeData app ctxPure numNodes (opt_maxHint app) ALLOCMASK_HINT
              (numHint db) mgNumHint "no preset for --maxhint"
              (fst (snd (gSignatureIndex g)))
     = Planned (gHint g)
  /\ sizeIndex app (fst (gHint g)) (opt_hintIndexSize app)
               ALLOCMASK_HINTINDEX (inHintIndexSize db)
               (snd (gHint g), snd (snd (gSignatureIndex g)))
     = gHintIndex g
  /\ planImprint app ctxPure store db numNodes (fst (gSignature g))
                 (snd (gHintIndex g))
     = Planned (gImprint g)
  /\ sizeIndex app (snd (fst (gImprint g))) (opt_imprintIndexSize app)
               ALLOCMASK_IMPRINTINDEX (inImprintIndexSize db)
               (snd (gImprint g))
     = gImprintIndex g
  /\ sizeData app ctxPure numNodes (opt_maxMember app) ALLOCMASK_MEMBER
              (numMember db) mgNumMember "no preset for --maxmember"
              (fst (snd (gImprintIndex g)))
     = Planned (gMember g)
  /\ sizeIndex app (fst (gMember g)) (opt_memberIndexSize app)
               ALLOCMASK_MEMBERINDEX (inMemberIndexSize db)
               (snd (gMember g), snd (snd (gImprintIndex g)))
     = gMemberIndex g.

(** What [planSections] returns for the stages [g]. *)
Definition planOf (g : stages) : store_t * plan_masks :=
  (mkStore (fst (gSignature g)) (fst (gSignatureIndex g))
           (fst (gHint g)) (fst (gHintIndex g))
           (fst (fst (fst (gImprint g)))) (snd (fst (fst (gImprint g))))
           (snd (fst (gImprint g))) (fst (gImprintIndex g))
           (fst (gMember g)) (fst (gMemberIndex g)),
   (Z.ldiff (fst (snd (gMemberIndex g))) (snd (snd (gMemberIndex g))),
    snd (snd (gMemberIndex g)))).

Lemma planSections_stages (app : dbtool_t) (ctxPure : Z) (store : store_t)
    (db : input_t) (numNodes : Z) (plan : store_t * plan_masks) :
  planSections app ctxPure store db numNodes = Planned plan <->
  exists g, staged app ctxPure store db numNodes g /\ plan = planOf g.
Proof.
  unfold planSections, staged, planOf. split.
  - intros H.
    destruct (sizeData app ctxPure numNodes (opt_maxSignature app) _ _ _ _ _)
      as [[maxSig inh1] | m] eqn:E1; [ | discriminate ].
    cbn [bind] in H.
    destruct (sizeIndex app maxSig _ _ _ _) as [sis [inh2 rb2]] eqn:E2.
    destruct (sizeData app ctxPure numNodes (opt_maxHint app) _ _ _ _ _)
      as [[maxHnt inh3] | m] eqn:E3; [ | discriminate ].
    cbn [bind] in H.
    destruct (sizeIndex app maxHnt _ _ _ _) as [his [inh4 rb4]] eqn:E4.
    destruct (planImprint app ctxPure store db numNodes maxSig (inh4, rb4))
      as [[[[il ils] maxImp] [inh5 rb5]] | m] eqn:E5.
    + unfold planImprint in E5.
      match type of E5 with
      | bind ?A _ = _ => destruct A as [[il0 ils0] | m] eqn:EA
      end; [ | discriminate ].
      cbn [bind] in H, E5.
      destruct (if negb (il0 =? inInterleave db) then _ else _)
        as [inhA rbA] eqn:EB.
      rewrite E5 in H. cbn [bind] in H.
      destruct (sizeIndex app maxImp _ _ _ _) as [iis [inh6 rb6]] eqn:E6.
      destruct (sizeData app ctxPure numNodes (opt_maxMember app) _ _ _ _ _)
        as [[maxMem inh7] | m] eqn:E7; [ | discriminate ].
      cbn [bind] in H.
      destruct (sizeIndex app maxMem _ _ _ _) as [mis [inh8 rb8]] eqn:E8.
      injection H as <-.
      exists (mkStages (maxSig, inh1) (sis, (inh2, rb2)) (maxHnt, inh3)
                       (his, (inh4, rb4)) (il, ils, maxImp, (inh5, rb5))
                       (iis, (inh6, rb6)) (maxMem, inh7) (mis, (inh8, rb8))).
      cbn [gSignature gSignatureIndex gHint gHintIndex gImprint gImprintIndex
           gMember gMemberIndex fst snd].
      repeat split; try assumption.
      unfold planImprint. rewrite EA. cbn [bind]. rewrite EB. exact E5.
    + exfalso. unfold planImprint in E5.
      match type of E5 with
      | bind ?A _ = _ => destruct A as [[il0 ils0] | m0] eqn:EA
      end; [ | discriminate ].
      cbn [bind] in H, E5.
      destruct (if negb (il0 =? inInterleave db) then _ else _)
        as [inhA rbA] eqn:EB.
      rewrite E5 in H. discriminate.
  - intros ([[maxSig inh1] [sis [inh2 rb2]] [maxHnt inh3] [his [inh4 rb4]]
             [[[il ils] maxImp] [inh5 rb5]] [iis [inh6 rb6]] [maxMem inh7]
             [mis [inh8 rb8]]] & Hst & ->).
    cbn [gSignature gSignatureIndex gHint gHintIndex gImprint gImprintIndex
         gMember gMemberIndex fst snd] in *.
    destruct Hst as (E1 & E2 & E3 & E4 & E5 & E6 & E7 & E8).
    rewrite E1. cbn [bind]. rewrite E2, E3. cbn [bind]. rewrite E4.
    unfold planImprint in E5.
    match type of E5 with
    | bind ?A _ = _ => destruct A as [[il0 ils0] | m0] eqn:EA
    end; [ | discriminate ].
    cbn [bind] in E5 |- *.
    destruct (if negb (il0 =? inInterleave db) then _ else _)
      as [inhA rbA] eqn:EB.
    rewrite E5. cbn [bind]. rewrite E6, E7. cbn [bind]. rewrite E8.
    reflexivity.
Qed.

(** *** The two planning masks *)

(** [x] has none of the bits of [b]; [a] has no bit outside [b]. *)
Definition lacks (x b : Z) : Prop := Z.land x b = 0.
Definition within (a b : Z) : Prop := Z.land a b = a.

Lemma lacks_bits (x b : Z) :
  lacks x b <-> forall i, 0 <= i -> Z.testbit x i && Z.testbit b i = false.
Proof.
  unfold lacks. split.
  - intros H i Hi. rewrite <- Z.land_spec, H. apply Z.bits_0.
  - intros H. apply Z.bits_inj'. intros i Hi.
    rewrite Z.land_spec, Z.bits_0. apply H, Hi.
Qed.

Lemma within_bits (a b : Z) :
  within a b <-> forall i, 0 <= i -> Z.testbit a i = true -> Z.testbit b i = true.
Proof.
  unfold within. split.
  - intros H i Hi Ha. rewrite <- H, Z.land_spec in Ha.
    apply andb_true_iff in Ha. apply Ha.
  - intros H. apply Z.bits_inj'. intros i Hi. rewrite Z.land_spec.
    destruct (Z.testbit a i) eqn:Ha; [ | reflexivity ].
    rewrite (H i Hi Ha). reflexivity.
Qed.

Lemma lacks_ldiff (x r b : Z) : lacks x b -> lacks (Z.ldiff x r) b.
Proof.
  rewrite !lacks_bits. intros H i Hi. specialize (H i Hi).
  rewrite Z.ldiff_spec. destruct (Z.testbit x i), (Z.testbit r i), (Z.testbit b i);
    try reflexivity; discriminate.
Qed.

Lemma lacks_unset (x b : Z) : lacks (unset x b) b.
Proof.
  unfold unset. apply lacks_bits. intros i Hi. rewrite Z.ldiff_spec.
  destruct (Z.testbit x i), (Z.testbit b i); reflexivity.
Qed.

Lemma lacks_ldiff_self (x r : Z) : lacks (Z.ldiff x r) r.
Proof. apply (lacks_unset x r). Qed.

Lemma lacks_set (x c b : Z) : lacks x b -> Z.land c b = 0 -> lacks (set x c) b.
Proof.
  unfold set. intros Hx Hc. fold (lacks c b) in Hc.
  rewrite lacks_bits in *. intros i Hi.
  specialize (Hx i Hi). specialize (Hc i Hi). rewrite Z.lor_spec.
  destruct (Z.testbit x i), (Z.testbit c i), (Z.testbit b i);
    try reflexivity; discriminate.
Qed.

Lemma lacks_within (x y b : Z) : within x y -> lacks y b -> lacks x b.
Proof.
  rewrite within_bits, !lacks_bits. intros Hw Hy i Hi.
  specialize (Hw i Hi). specialize (Hy i Hi).
  destruct (Z.testbit x i); [ | reflexivity ].
  rewrite Hw in Hy by reflexivity. exact Hy.
Qed.

Lemma has_lacks (x b : Z) : lacks x b -> has x b = false.
Proof. unfold lacks, has. intros ->. reflexivity. Qed.

Lemma within_refl (a : Z) : within a a.
Proof. apply Z.land_diag. Qed.

Lemma within_trans (a b c : Z) : within a b -> within b c -> within a c.
Proof.
  rewrite !within_bits. intros H1 H2 i Hi Ha. apply H2, H1; assumption.
Qed.

Lemma within_set (a b : Z) : within a (set a b).
Proof.
  apply within_bits. intros i Hi Ha. unfold set. rewrite Z.lor_spec, Ha.
  reflexivity.
Qed.

Lemma within_set_bit (a b : Z) : within b (set a b).
Proof.
  apply within_bits. intros i Hi Hb. unfold set. rewrite Z.lor_spec, Hb.
  apply orb_true_r.
Qed.

Lemma within_ldiff (a r : Z) : within (Z.ldiff a r) a.
Proof.
  apply within_bits. intros i Hi H. rewrite Z.ldiff_spec in H.
  apply andb_true_iff in H. apply H.
Qed.

Lemma has_within (x b : Z) : within b x -> b <> 0 -> has x b = true.
Proof.
  unfold within, has. intros Hw Hb. rewrite Z.land_comm, Hw.
  apply negb_true_iff, Z.eqb_neq, Hb.
Qed.

(** The effect of the two blocks on the masks. *)
Lemma sizeData_effect (app : dbtool_t) (pure numNodes opt_max bit num : Z)
    (metric : metricsGenerator_t -> Z) (preset : string) (inherit max inherit' : Z) :
  sizeData app pure numNodes opt_max bit num metric preset inherit
    = Planned (max, inherit') ->
  (num < max /\ inherit' = unset inherit bit)
  \/ (max <= num /\ copyOnWrite app <> 0 /\ inherit' = set inherit bit)
  \/ (max <= num /\ copyOnWrite app = 0 /\ inherit' = inherit).
Proof.
  unfold sizeData. intros H.
  match type of H with
  | bind ?A _ = _ => destruct A as [m | msg]; [ | discriminate ]
  end.
  cbn [bind] in H. injection H as <- <-. rewrite Z.gtb_ltb.
  destruct (Z.ltb_spec num m); [ left; split; [ assumption | reflexivity ] | ].
  destruct (Z.eqb_spec (copyOnWrite app) 0); cbn [negb];
    [ right; right | right; left ]; repeat split; assumption.
Qed.

Lemma sizeIndex_effect (app : dbtool_t) (max opt_size bit size : Z)
    (inherit rebuild indexSize inherit' rebuild' : Z) :
  sizeIndex app max opt_size bit size (inherit, rebuild)
    = (indexSize, (inherit', rebuild')) ->
  (max = 0 /\ indexSize = 0 /\ inherit' = inherit /\ rebuild' = rebuild)
  \/ (max <> 0 /\ indexSize <> size
      /\ rebuild' = set rebuild bit /\ inherit' = Z.ldiff inherit rebuild')
  \/ (max <> 0 /\ indexSize = size /\ copyOnWrite app <> 0
      /\ inherit' = set inherit bit /\ rebuild' = rebuild)
  \/ (max <> 0 /\ indexSize = size /\ copyOnWrite app = 0
      /\ inherit' = inherit /\ rebuild' = rebuild).
Proof.
  unfold sizeIndex. intros H.
  destruct (Z.eqb_spec max 0) as [E0 | N0].
  { injection H as <- <- <-. left. repeat split; assumption. }
  right.
  match type of H with
  | context [negb (?sz =? size)] =>
      remember sz as sz0 eqn:Esz; clear Esz;
      destruct (Z.eqb_spec sz0 size) as [Es | Ns]; cbn [negb] in H
  end.
  - destruct (Z.eqb_spec (copyOnWrite app) 0); cbn [negb] in H;
      injection H as <- <- <-; [ right; right | right; left ];
      repeat split; assumption.
  - injection H as <- <- <-. left. repeat split; assumption.
Qed.

Ltac imprint_cases H :=
  unfold planImprint in H;
  match type of H with
  | context [getMetricsInterleave TinyTree.MAXSLOTS ?il] =>
      let chosen := fresh "chosen" in
      remember il as chosen eqn:Echosen; clear Echosen
  end;
  repeat match type of H with
         | bind (if ?b then _ else _) _ = _ => destruct b eqn:?
         | bind (match ?o with Some _ => _ | None => _ end) _ = _ => destruct o eqn:?
         | bind (Planned _) _ = _ => cbn [bind] in H
         | bind (Fatal _) _ = _ => discriminate H
         | (if ?b then _ else _) = _ => destruct b eqn:?
         | (let '(_, _) := (if ?b then _ else _) in _) = _ => destruct b eqn:?
         | (let '(_, _) := (_, _) in _) = _ => cbv beta iota zeta in H
         end;
  injection H as <- <- <- <- <-;
  repeat match goal with
         | |- context [if ?b then _ else _] => destruct b eqn:?
         end.

Ltac bool_props :=
  repeat match goal with
         | H : negb _ = true |- _ => apply negb_true_iff in H
         | H : negb _ = false |- _ => apply negb_false_iff in H
         | H : (_ || _) = false |- _ => apply orb_false_iff in H; destruct H
         | H : (_ =? _) = true |- _ => apply Z.eqb_eq in H
         | H : (_ =? _) = false |- _ => apply Z.eqb_neq in H
         | H : (_ >? _) = true |- _ => rewrite Z.gtb_ltb in H; apply Z.ltb_lt in H
         | H : (_ >? _) = false |- _ => rewrite Z.gtb_ltb in H; apply Z.ltb_ge in H
         end.

Ltac mask_within :=
  repeat first [ apply within_refl
               | apply within_set_bit
               | (eapply within_trans; [ | apply within_set ])
               | (eapply within_trans; [ apply within_ldiff | ]) ].

Lemma planImprint_effect (app : dbtool_t) (ctxPure : Z) (store : store_t)
    (db : input_t) (numNodes maxSig inherit rebuild : Z)
    (il ils maxImp inherit' rebuild' : Z) :
  planImprint app ctxPure store db numNodes maxSig (inherit, rebuild)
    = Planned (il, ils, maxImp, (inherit', rebuild')) ->
  within rebuild rebuild'
  /\ (forall b, lacks inherit b -> Z.land ALLOCMASK_IMPRINT b = 0 ->
                lacks inherit' b)
  /\ (copyOnWrite app = 0 -> within inherit' inherit)
  /\ (maxSig = 0 -> il = 0 /\ maxImp = 0)
  /\ (maxSig <> 0 -> il <> inInterleave db -> within ALLOCMASK_IMPRINT rebuild')
  /\ (maxSig <> 0 -> il = inInterleave db -> numImprint db <> 0 ->
      copyOnWrite app <> 0 ->
      within ALLOCMASK_IMPRINT inherit' /\ rebuild' = rebuild).
Proof.
  intros H. imprint_cases H.
  all: split; [ unfold set; mask_within | ].
  all: split;
    [ intros b Hl Hd;
      repeat first [ assumption
                   | apply lacks_ldiff
                   | (unfold unset; apply lacks_ldiff)
                   | (apply lacks_set; [ | assumption ]) ] | ].
  all: split;
    [ intros Hc; bool_props; try contradiction;
      unfold unset; mask_within | ].
  all: split; [ intros ->; bool_props; try contradiction; split; reflexivity | ].
  all: split;
    [ intros Hn Hd; bool_props; try contradiction; try congruence;
      unfold set; mask_within | ].
  all: intros Hn He Hi Hc; bool_props;
    repeat match goal with
           | Ho : (_ || _) = true |- _ => apply orb_true_iff in Ho; destruct Ho
           end;
    bool_props; try contradiction; try congruence.
  all: split; [ apply within_set_bit | reflexivity ].
Qed.

Lemma lacks_mono (x r b : Z) : lacks x r -> within b r -> lacks x b.
Proof.
  rewrite within_bits, !lacks_bits. intros Hx Hw i Hi.
  specialize (Hx i Hi). specialize (Hw i Hi).
  destruct (Z.testbit b i); [ | apply andb_false_r ].
  rewrite Hw in Hx by reflexivity. exact Hx.
Qed.

Lemma sizeData_lacks (app : dbtool_t) (pure numNodes opt_max bit num : Z)
    (metric : metricsGenerator_t -> Z) (preset : string) (inherit max inherit' : Z) :
  sizeData app pure numNodes opt_max bit num metric preset inherit
    = Planned (max, inherit') ->
  forall b, lacks inherit b -> Z.land bit b = 0 -> lacks inherit' b.
Proof.
  intros H b Hl Hd. apply sizeData_effect in H.
  destruct H as [[_ ->] | [(_ & _ & ->) | (_ & _ & ->)]].
  - unfold unset. apply lacks_ldiff, Hl.
  - apply lacks_set; assumption.
  - exact Hl.
Qed.

Lemma sizeData_grows (app : dbtool_t) (pure numNodes opt_max bit num : Z)
    (metric : metricsGenerator_t -> Z) (preset : string) (inherit max inherit' : Z) :
  sizeData app pure numNodes opt_max bit num metric preset inherit
    = Planned (max, inherit') ->
  num < max -> lacks inherit' bit.
Proof.
  intros H Hg. apply sizeData_effect in H.
  destruct H as [[_ ->] | [(Hle & _) | (Hle & _)]]; [ apply lacks_unset | lia | lia ].
Qed.

Lemma sizeData_within (app : dbtool_t) (pure numNodes opt_max bit num : Z)
    (metric : metricsGenerator_t -> Z) (preset : string) (inherit max inherit' : Z) :
  sizeData app pure numNodes opt_max bit num metric preset inherit
    = Planned (max, inherit') ->
  copyOnWrite app = 0 -> within inherit' inherit.
Proof.
  intros H Hc. apply sizeData_effect in H.
  destruct H as [[_ ->] | [(_ & Hn & _) | (_ & _ & ->)]].
  - apply within_ldiff.
  - contradiction.
  - apply within_refl.
Qed.

Lemma sizeIndex_lacks (app : dbtool_t) (max opt_size bit size : Z)
    (inherit rebuild indexSize inherit' rebuild' : Z) :
  sizeIndex app max opt_size bit size (inherit, rebuild)
    = (indexSize, (inherit', rebuild')) ->
  forall b, lacks inherit b -> Z.land bit b = 0 -> lacks inherit' b.
Proof.
  intros H b Hl Hd. apply sizeIndex_effect in H.
  destruct H as [(_ & _ & -> & _) | [(_ & _ & _ & ->) | [(_ & _ & _ & -> & _)
                                                       | (_ & _ & _ & -> & _)]]].
  - exact Hl.
  - apply lacks_ldiff, Hl.
  - apply lacks_set; assumption.
  - exact Hl.
Qed.

Lemma sizeIndex_within (app : dbtool_t) (max opt_size bit size : Z)
    (inherit rebuild indexSize inherit' rebuild' : Z) :
  sizeIndex app max opt_size bit size (inherit, rebuild)
    = (indexSize, (inherit', rebuild')) ->
  within rebuild rebuild'
  /\ (copyOnWrite app = 0 -> within inherit' inherit)
  /\ (max = 0 -> indexSize = 0).
Proof.
  intros H. apply sizeIndex_effect in H.
  destruct H as [(_ & -> & -> & ->) | [(Hm & _ & -> & ->) | [(Hm & _ & Hn & -> & ->)
                                                           | (Hm & _ & _ & -> & ->)]]].
  - split; [ apply within_refl | ]. split; [ intros _; apply within_refl | reflexivity ].
  - split; [ apply within_set | ]. split; [ intros _; apply within_ldiff | contradiction ].
  - split; [ apply within_refl | ]. split; contradiction.
  - split; [ apply within_refl | ]. split; [ intros _; apply within_refl | contradiction ].
Qed.

(** The eight section bits the planner deals in. *)
Definition section_bits : list Z :=
  [ALLOCMASK_SIGNATURE; ALLOCMASK_SIGNATUREINDEX; ALLOCMASK_HINT;
   ALLOCMASK_HINTINDEX; ALLOCMASK_IMPRINT; ALLOCMASK_IMPRINTINDEX;
   ALLOCMASK_MEMBER; ALLOCMASK_MEMBERINDEX].

(** No two sections share a bit. *)
Definition separate_bits : Prop :=
  forall i j : nat, i <> j ->
    Z.land (nth i section_bits 0) (nth j section_bits 0) = 0.

Ltac other_bit Hsep i j :=
  exact (Hsep i j ltac:(discriminate)).

(** X10.  A section whose planned size exceeds what the input holds is
    never inherited: when no two sections share a bit of the mask, the
    final [inheritSections] lacks the bit of every signature, hint or
    member section that wants to grow, whatever the later blocks and
    copy-on-write did to the mask. *)
Theorem plan_growing_not_inherited (app : dbtool_t) (ctxPure : Z)
    (store : store_t) (db : input_t) (numNodes : Z)
    (store' : store_t) (inherit' rebuild' : Z) :
  separate_bits ->
  planSections app ctxPure store db numNodes = Planned (store', (inherit', rebuild')) ->
  (numSignature db < maxSignature store' -> has inherit' ALLOCMASK_SIGNATURE = false)
  /\ (numHint db < maxHint store' -> has inherit' ALLOCMASK_HINT = false)
  /\ (numMember db < maxMember store' -> has inherit' ALLOCMASK_MEMBER = false).
Proof.
  intros Hsep H. apply planSections_stages in H.
  destruct H as ([[maxSig inh1] [sis [inh2 rb2]] [maxHnt inh3] [his [inh4 rb4]]
                  [[[il ils] maxImp] [inh5 rb5]] [iis [inh6 rb6]] [maxMem inh7]
                  [mis [inh8 rb8]]] & Hst & Heq).
  unfold staged, planOf in *.
  cbn [gSignature gSignatureIndex gHint gHintIndex gImprint gImprintIndex
       gMember gMemberIndex fst snd] in *.
  destruct Hst as (E1 & E2 & E3 & E4 & E5 & E6 & E7 & E8).
  injection Heq as -> -> ->. cbn [maxSignature maxHint maxMember].
  destruct (planImprint_effect _ _ _ _ _ _ _ _ _ _ _ _ _ E5) as (_ & L5 & _).
  split; [ | split ]; intros Hg; apply has_lacks, lacks_ldiff.
  - apply (sizeIndex_lacks _ _ _ _ _ _ _ _ _ _ E8); [ | other_bit Hsep 7%nat 0%nat ].
    apply (sizeData_lacks _ _ _ _ _ _ _ _ _ _ _ E7); [ | other_bit Hsep 6%nat 0%nat ].
    apply (sizeIndex_lacks _ _ _ _ _ _ _ _ _ _ E6); [ | other_bit Hsep 5%nat 0%nat ].
    apply L5; [ | other_bit Hsep 4%nat 0%nat ].
    apply (sizeIndex_lacks _ _ _ _ _ _ _ _ _ _ E4); [ | other_bit Hsep 3%nat 0%nat ].
    apply (sizeData_lacks _ _ _ _ _ _ _ _ _ _ _ E3); [ | other_bit Hsep 2%nat 0%nat ].
    apply (sizeIndex_lacks _ _ _ _ _ _ _ _ _ _ E2); [ | other_bit Hsep 1%nat 0%nat ].
    apply (sizeData_grows _ _ _ _ _ _ _ _ _ _ _ E1 Hg).
  - apply (sizeIndex_lacks _ _ _ _ _ _ _ _ _ _ E8); [ | other_bit Hsep 7%nat 2%nat ].
    apply (sizeData_lacks _ _ _ _ _ _ _ _ _ _ _ E7); [ | other_bit Hsep 6%nat 2%nat ].
    apply (sizeIndex_lacks _ _ _ _ _ _ _ _ _ _ E6); [ | other_bit Hsep 5%nat 2%nat ].
    apply L5; [ | other_bit Hsep 4%nat 2%nat ].
    apply (sizeIndex_lacks _ _ _ _ _ _ _ _ _ _ E4); [ | other_bit Hsep 3%nat 2%nat ].
    apply (sizeData_grows _ _ _ _ _ _ _ _ _ _ _ E3 Hg).
  - apply (sizeIndex_lacks _ _ _ _ _ _ _ _ _ _ E8); [ | other_bit Hsep 7%nat 6%nat ].
    apply (sizeData_grows _ _ _ _ _ _ _ _ _ _ _ E7 Hg).
Qed.

(** X11.  What the planner does to the two masks as a whole: no section
    is both rebuilt and inherited; a section the caller asked to rebuild
    stays in [rebuildSections]; and without copy-on-write nothing is
    inherited that the caller's [inheritSections] did not offer. *)
Theorem plan_masks_sound (app : dbtool_t) (ctxPure : Z)
    (store : store_t) (db : input_t) (numNodes : Z)
    (store' : store_t) (inherit' rebuild' : Z) :
  planSections app ctxPure store db numNodes = Planned (store', (inherit', rebuild')) ->
  Z.land inherit' rebuild' = 0
  /\ Z.land (rebuildSections app) rebuild' = rebuildSections app
  /\ (copyOnWrite app = 0 ->
      Z.land inherit' (inheritSections app) = inherit').
Proof.
  intros H. apply planSections_stages in H.
  destruct H as ([[maxSig inh1] [sis [inh2 rb2]] [maxHnt inh3] [his [inh4 rb4]]
                  [[[il ils] maxImp] [inh5 rb5]] [iis [inh6 rb6]] [maxMem inh7]
                  [mis [inh8 rb8]]] & Hst & Heq).
  unfold staged, planOf in *.
  cbn [gSignature gSignatureIndex gHint gHintIndex gImprint gImprintIndex
       gMember gMemberIndex fst snd] in *.
  destruct Hst as (E1 & E2 & E3 & E4 & E5 & E6 & E7 & E8).
  injection Heq as -> -> ->.
  destruct (planImprint_effect _ _ _ _ _ _ _ _ _ _ _ _ _ E5) as (R5 & _ & W5 & _).
  destruct (sizeIndex_within _ _ _ _ _ _ _ _ _ _ E2) as (R2 & W2 & _).
  destruct (sizeIndex_within _ _ _ _ _ _ _ _ _ _ E4) as (R4 & W4 & _).
  destruct (sizeIndex_within _ _ _ _ _ _ _ _ _ _ E6) as (R6 & W6 & _).
  destruct (sizeIndex_within _ _ _ _ _ _ _ _ _ _ E8) as (R8 & W8 & _).
  split; [ apply lacks_ldiff_self | ].
  split.
  - fold (within (rebuildSections app) rb8).
    repeat (eapply within_trans; [ eassumption | ]). apply within_refl.
  - intros Hc. fold (within (Z.ldiff inh8 rb8) (inheritSections app)).
    eapply within_trans; [ apply within_ldiff | ].
    eapply within_trans; [ apply (W8 Hc) | ].
    eapply within_trans; [ apply (sizeData_within _ _ _ _ _ _ _ _ _ _ _ E7 Hc) | ].
    eapply within_trans; [ apply (W6 Hc) | ].
    eapply within_trans; [ apply (W5 Hc) | ].
    eapply within_trans; [ apply (W4 Hc) | ].
    eapply within_trans; [ apply (sizeData_within _ _ _ _ _ _ _ _ _ _ _ E3 Hc) | ].
    eapply within_trans; [ apply (W2 Hc) | ].
    eapply within_trans; [ apply (sizeData_within _ _ _ _ _ _ _ _ _ _ _ E1 Hc) | ].
    apply within_ldiff.
Qed.

(** X12.  Nothing is indexed that has no data: a plan without
    signatures has no signature index, no interleave, no imprints and no
    imprint index, and a plan without hints or without members has no
    index for them. *)
Theorem plan_no_data_no_index (app : dbtool_t) (ctxPure : Z)
    (store : store_t) (db : input_t) (numNodes : Z)
    (store' : store_t) (pm : plan_masks) :
  planSections app ctxPure store db numNodes = Planned (store', pm) ->
  (maxSignature store' = 0 ->
   signatureIndexSize store' = 0 /\ interleave store' = 0
   /\ maxImprint store' = 0 /\ imprintIndexSize store' = 0)
  /\ (maxHint store' = 0 -> hintIndexSize store' = 0)
  /\ (maxImprint store' = 0 -> imprintIndexSize store' = 0)
  /\ (maxMember store' = 0 -> memberIndexSize store' = 0).
Proof.
  intros H. apply planSections_stages in H.
  destruct H as ([[maxSig inh1] [sis [inh2 rb2]] [maxHnt inh3] [his [inh4 rb4]]
                  [[[il ils] maxImp] [inh5 rb5]] [iis [inh6 rb6]] [maxMem inh7]
                  [mis [inh8 rb8]]] & Hst & Heq).
  unfold staged, planOf in *.
  cbn [gSignature gSignatureIndex gHint gHintIndex gImprint gImprintIndex
       gMember gMemberIndex fst snd] in *.
  destruct Hst as (E1 & E2 & E3 & E4 & E5 & E6 & E7 & E8).
  injection Heq as -> ->.
  cbn [maxSignature signatureIndexSize interleave maxImprint imprintIndexSize
       maxHint hintIndexSize maxMember memberIndexSize].
  destruct (planImprint_effect _ _ _ _ _ _ _ _ _ _ _ _ _ E5) as (_ & _ & _ & Z5 & _ & _).
  destruct (sizeIndex_within _ _ _ _ _ _ _ _ _ _ E2) as (_ & _ & Z2).
  destruct (sizeIndex_within _ _ _ _ _ _ _ _ _ _ E4) as (_ & _ & Z4).
  destruct (sizeIndex_within _ _ _ _ _ _ _ _ _ _ E6) as (_ & _ & Z6).
  destruct (sizeIndex_within _ _ _ _ _ _ _ _ _ _ E8) as (_ & _ & Z8).
  split; [ | split; [ exact Z4 | split; [ exact Z6 | exact Z8 ] ] ].
  intros Hs. destruct (Z5 Hs) as [Hi Hm].
  split; [ exact (Z2 Hs) | ]. split; [ exact Hi | ]. split; [ exact Hm | ].
  exact (Z6 Hm).
Qed.

(** X13.  A change of interleave makes the imprints unusable: when the
    plan has signatures and its interleave differs from the input's, the
    imprint section is in [rebuildSections] and not in
    [inheritSections]. *)
Theorem plan_interleave_change_rebuilds (app : dbtool_t) (ctxPure : Z)
    (store : store_t) (db : input_t) (numNodes : Z)
    (store' : store_t) (inherit' rebuild' : Z) :
  ALLOCMASK_IMPRINT <> 0 ->
  planSections app ctxPure store db numNodes = Planned (store', (inherit', rebuild')) ->
  maxSignature store' <> 0 ->
  interleave store' <> inInterleave db ->
  has rebuild' ALLOCMASK_IMPRINT = true
  /\ has inherit' ALLOCMASK_IMPRINT = false.
Proof.
  intros Hbit H. apply planSections_stages in H.
  destruct H as ([[maxSig inh1] [sis [inh2 rb2]] [maxHnt inh3] [his [inh4 rb4]]
                  [[[il ils] maxImp] [inh5 rb5]] [iis [inh6 rb6]] [maxMem inh7]
                  [mis [inh8 rb8]]] & Hst & Heq).
  unfold staged, planOf in *.
  cbn [gSignature gSignatureIndex gHint gHintIndex gImprint gImprintIndex
       gMember gMemberIndex fst snd] in *.
  destruct Hst as (E1 & E2 & E3 & E4 & E5 & E6 & E7 & E8).
  injection Heq as -> -> ->. cbn [maxSignature interleave].
  intros Hs Hi.
  destruct (planImprint_effect _ _ _ _ _ _ _ _ _ _ _ _ _ E5) as (_ & _ & _ & _ & C5 & _).
  destruct (sizeIndex_within _ _ _ _ _ _ _ _ _ _ E6) as (R6 & _).
  destruct (sizeIndex_within _ _ _ _ _ _ _ _ _ _ E8) as (R8 & _).
  assert (Hw : within ALLOCMASK_IMPRINT rb8).
  { eapply within_trans; [ apply (C5 Hs Hi) | ].
    eapply within_trans; [ exact R6 | exact R8 ]. }
  split; [ apply has_within; assumption | ].
  apply has_lacks. eapply lacks_mono; [ apply lacks_ldiff_self | exact Hw ].
Qed.


Lemma within_keep (b x r : Z) : within b x -> lacks r b -> within b (Z.ldiff x r).
Proof.
  rewrite !within_bits, lacks_bits. intros Hw Hl i Hi Hb.
  specialize (Hw i Hi Hb). specialize (Hl i Hi).
  rewrite Z.ldiff_spec, Hw. rewrite Hb, andb_true_r in Hl. rewrite Hl.
  reflexivity.
Qed.

Lemma sizeData_keeps (app : dbtool_t) (pure numNodes opt_max bit num : Z)
    (metric : metricsGenerator_t -> Z) (preset : string) (inherit max inherit' : Z) :
  sizeData app pure numNodes opt_max bit num metric preset inherit
    = Planned (max, inherit') ->
  forall b, within b inherit -> Z.land bit b = 0 -> within b inherit'.
Proof.
  intros H b Hw Hd. apply sizeData_effect in H.
  destruct H as [[_ ->] | [(_ & _ & ->) | (_ & _ & ->)]].
  - apply within_keep; assumption.
  - eapply within_trans; [ exact Hw | apply within_set ].
  - exact Hw.
Qed.

Lemma sizeIndex_keeps (app : dbtool_t) (max opt_size bit size : Z)
    (inherit rebuild indexSize inherit' rebuild' : Z) :
  sizeIndex app max opt_size bit size (inherit, rebuild)
    = (indexSize, (inherit', rebuild')) ->
  forall b, within b inherit -> lacks rebuild b -> Z.land bit b = 0 ->
            within b inherit' /\ lacks rebuild' b.
Proof.
  intros H b Hw Hl Hd. apply sizeIndex_effect in H.
  destruct H as [(_ & _ & -> & ->) | [(_ & _ & -> & ->) | [(_ & _ & _ & -> & ->)
                                                        | (_ & _ & _ & -> & ->)]]].
  - split; assumption.
  - assert (Hl' : lacks (set rebuild bit) b) by (apply lacks_set; assumption).
    split; [ apply within_keep; assumption | exact Hl' ].
  - split; [ eapply within_trans; [ exact Hw | apply within_set ] | exact Hl ].
  - split; assumption.
Qed.

Lemma sizeIndex_rebuild_lacks (app : dbtool_t) (max opt_size bit size : Z)
    (inherit rebuild indexSize inherit' rebuild' : Z) :
  sizeIndex app max opt_size bit size (inherit, rebuild)
    = (indexSize, (inherit', rebuild')) ->
  forall b, lacks rebuild b -> Z.land bit b = 0 -> lacks rebuild' b.
Proof.
  intros H b Hl Hd. apply sizeIndex_effect in H.
  destruct H as [(_ & _ & _ & ->) | [(_ & _ & -> & _) | [(_ & _ & _ & _ & ->)
                                                       | (_ & _ & _ & _ & ->)]]];
    try assumption.
  apply lacks_set; assumption.
Qed.

(** X14.  With copy-on-write the imprint section is inherited whenever
    the input's imprints are usable: the plan has signatures, the
    interleave is the input's, the input has imprints and the caller did
    not ask to rebuild them.  This holds also when the planned
    [maxImprint] exceeds [numImprint]: the test that follows
    "imprint as index" sets the bit that the test after "imprint as data"
    cleared. *)
Theorem plan_imprint_inherited_under_cow (app : dbtool_t) (ctxPure : Z)
    (store : store_t) (db : input_t) (numNodes : Z)
    (store' : store_t) (inherit' rebuild' : Z) :
  separate_bits -> ALLOCMASK_IMPRINT <> 0 ->
  copyOnWrite app <> 0 ->
  Z.land (rebuildSections app) ALLOCMASK_IMPRINT = 0 ->
  planSections app ctxPure store db numNodes = Planned (store', (inherit', rebuild')) ->
  maxSignature store' <> 0 ->
  interleave store' = inInterleave db ->
  numImprint db <> 0 ->
  has inherit' ALLOCMASK_IMPRINT = true
  /\ has rebuild' ALLOCMASK_IMPRINT = false.
Proof.
  intros Hsep Hbit Hcow Hrb H. apply planSections_stages in H.
  destruct H as ([[maxSig inh1] [sis [inh2 rb2]] [maxHnt inh3] [his [inh4 rb4]]
                  [[[il ils] maxImp] [inh5 rb5]] [iis [inh6 rb6]] [maxMem inh7]
                  [mis [inh8 rb8]]] & Hst & Heq).
  unfold staged, planOf in *.
  cbn [gSignature gSignatureIndex gHint gHintIndex gImprint gImprintIndex
       gMember gMemberIndex fst snd] in *.
  destruct Hst as (E1 & E2 & E3 & E4 & E5 & E6 & E7 & E8).
  injection Heq as -> -> ->. cbn [maxSignature interleave].
  intros Hs Hi Hn.
  destruct (planImprint_effect _ _ _ _ _ _ _ _ _ _ _ _ _ E5)
    as (_ & _ & _ & _ & _ & K5).
  destruct (K5 Hs Hi Hn Hcow) as [W5 ->].
  assert (L2 : lacks rb2 ALLOCMASK_IMPRINT).
  { apply (sizeIndex_rebuild_lacks _ _ _ _ _ _ _ _ _ _ E2);
      [ exact Hrb | other_bit Hsep 1%nat 4%nat ]. }
  assert (L4 : lacks rb4 ALLOCMASK_IMPRINT).
  { apply (sizeIndex_rebuild_lacks _ _ _ _ _ _ _ _ _ _ E4);
      [ exact L2 | other_bit Hsep 3%nat 4%nat ]. }
  destruct (sizeIndex_keeps _ _ _ _ _ _ _ _ _ _ E6 ALLOCMASK_IMPRINT W5 L4)
    as [W6 L6]; [ other_bit Hsep 5%nat 4%nat | ].
  assert (W7 : within ALLOCMASK_IMPRINT inh7).
  { apply (sizeData_keeps _ _ _ _ _ _ _ _ _ _ _ E7);
      [ exact W6 | other_bit Hsep 6%nat 4%nat ]. }
  destruct (sizeIndex_keeps _ _ _ _ _ _ _ _ _ _ E8 ALLOCMASK_IMPRINT W7 L6)
    as [W8 L8]; [ other_bit Hsep 7%nat 4%nat | ].
  split.
  - apply has_within; [ | exact Hbit ]. apply within_keep; assumption.
  - apply has_lacks, L8.
Qed.

(** X15.  In read-only mode without size options every data section is
    planned exactly as large as the input's, or with the one entry of an
    empty section that is not inherited; the closing tests of
    [sizeDatabaseSections] then never end the program. *)
Theorem plan_readonly_sizes (app : dbtool_t) (ctxPure : Z)
    (store : store_t) (db : input_t) (numNodes : Z)
    (store' : store_t) (pm : plan_masks) :
  readOnlyMode app <> 0 ->
  opt_maxSignature app = 0 -> opt_maxHint app = 0 -> opt_maxMember app = 0 ->
  planSections app ctxPure store db numNodes = Planned (store', pm) ->
  sizeDatabaseSections app ctxPure store db numNodes = Planned (store', pm)
  /\ (maxSignature store' = numSignature db
      \/ (numSignature db = 0 /\ maxSignature store' = 1))
  /\ (maxHint store' = numHint db \/ (numHint db = 0 /\ maxHint store' = 1))
  /\ (maxMember store' = numMember db
      \/ (numMember db = 0 /\ maxMember store' = 1)).
Proof.
  intros Hro Os Oh Om H.
  assert (Hdata : forall pure nn bit num metric preset inherit max inherit',
             sizeData app pure nn 0 bit num metric preset inherit
               = Planned (max, inherit') ->
             max = num \/ (num = 0 /\ max = 1)).
  { intros pure nn bit num metric preset inherit max inherit' E.
    unfold sizeData in E. cbn [Z.eqb negb] in E.
    destruct (has inherit bit).
    - cbn [bind] in E. injection E as <- _. left. reflexivity.
    - destruct (Z.eqb_spec (readOnlyMode app) 0) as [E0 | _]; [ contradiction | ].
      destruct (Z.eqb_spec num 0) as [-> | Hn]; cbn [negb bind] in E;
        injection E as <- _; [ right; split; reflexivity | left; reflexivity ]. }
  assert (Hplan := H). apply planSections_stages in H.
  destruct H as ([[maxSig inh1] [sis [inh2 rb2]] [maxHnt inh3] [his [inh4 rb4]]
                  [[[il ils] maxImp] [inh5 rb5]] [iis [inh6 rb6]] [maxMem inh7]
                  [mis [inh8 rb8]]] & Hst & Heq).
  unfold staged, planOf in *.
  cbn [gSignature gSignatureIndex gHint gHintIndex gImprint gImprintIndex
       gMember gMemberIndex fst snd] in *.
  destruct Hst as (E1 & _ & E3 & _ & _ & _ & E7 & _).
  rewrite Os in E1. rewrite Oh in E3. rewrite Om in E7.
  apply Hdata in E1, E3, E7.
  injection Heq as -> ->.
  cbn [maxSignature maxHint maxMember].
  split; [ | repeat split; assumption ].
  unfold sizeDatabaseSections. rewrite Hplan. cbn [bind].
  cbn [maxSignature maxHint maxMember].
  destruct (Z.ltb_spec maxSig (numSignature db)); [ lia | ].
  destruct (Z.ltb_spec maxHnt (numHint db)); [ lia | ].
  destruct (Z.ltb_spec maxMem (numMember db)); [ lia | ].
  reflexivity.
Qed.


(** ** The populator [dbtool_t::populateDatabaseSections] (dbtool.h) *)

(** [database_t::ALLOCMASK_TRANSFORM], one more bit that database.h
    assigns. *)
Variable ALLOCMASK_TRANSFORM : Z.

(** A pointer held by a [database_t]; [None] is [NULL]. *)
Definition pointer : Type := option Z.

(** The fields of [database_t] the populator deals with, section by
    section: of a data section its count, its capacity and its array
    ([numSignature], [maxSignature], [signatures]); of an index its size
    and its array ([signatureIndexSize], [signatureIndex]). *)
Record data_t := mkData { dNum : Z; dMax : Z; dPtr : pointer }.

Record index_t := mkIndex { xSize : Z; xPtr : pointer }.

Record transform_t := mkTransform {
  maxTransform          : Z;
  numTransform          : Z;
  fwdTransformData      : pointer;
  revTransformData      : pointer;
  fwdTransformNames     : pointer;
  revTransformNames     : pointer;
  revTransformIds       : pointer;
  transformIndexSize    : Z;
  fwdTransformNameIndex : pointer;
  revTransformNameIndex : pointer
}.

Record database_t := mkDatabase {
  allocFlags       : Z;
  transform        : transform_t;
  signature        : data_t;
  signatureIndex   : index_t;
  hint             : data_t;
  hintIndex        : index_t;
  dbInterleave     : Z;
  dbInterleaveStep : Z;
  imprint          : data_t;
  imprintIndex     : index_t;
  member           : data_t;
  memberIndex      : index_t
}.

(** What the planner reads of an input database, and the sizes it has
    written into an output database. *)
Definition inputOf (db : database_t) : input_t :=
  mkInput (dNum (signature db)) (xSize (signatureIndex db))
          (dNum (hint db)) (xSize (hintIndex db))
          (dbInterleave db)
          (dNum (imprint db)) (xSize (imprintIndex db))
          (dNum (member db)) (xSize (memberIndex db)).

Definition sizesOf (store : database_t) : store_t :=
  mkStore (dMax (signature store)) (xSize (signatureIndex store))
          (dMax (hint store)) (xSize (hintIndex store))
          (dbInterleave store) (dbInterleaveStep store)
          (dMax (imprint store)) (xSize (imprintIndex store))
          (dMax (member store)) (xSize (memberIndex store)).

(** The calls of [::memcpy] and [::memset] (always with the value 0) that
    a run makes, counted in elements instead of bytes. *)
Inductive memop :=
| Memcpy (dst src : pointer) (n : Z)
| Memset (dst : pointer) (n : Z).

(** A run either returns or stops at an [assert]; the line of dbtool.h
    tells the assertions apart. *)
Inductive populated (A : Type) :=
| Populated (a : A)
| AssertFailed (line : Z).
#[global] Arguments Populated {A} a.
#[global] Arguments AssertFailed {A} line.

Definition check {A : Type} (c : bool) (line : Z) (k : populated A)
  : populated A :=
  if c then k else AssertFailed line.

Definition andThen {A B : Type} (p : populated A) (k : A -> populated B)
  : populated B :=
  match p with
  | Populated a => k a
  | AssertFailed line => AssertFailed line
  end.

(** "transforms are never invalid or resized" *)
Definition populateTransform (inherit alloc : Z) (db : transform_t)
  : populated transform_t :=
  if has inherit ALLOCMASK_TRANSFORM then
    check (has (Ref.lnot32 alloc) ALLOCMASK_TRANSFORM) 523
      (check (numTransform db =? Interleave.MAXTRANSFORM) 525
         (check (transformIndexSize db >? 0) 535
            (Populated
               (mkTransform (numTransform db) (numTransform db)
                            (fwdTransformData db) (revTransformData db)
                            (fwdTransformNames db) (revTransformNames db)
                            (revTransformIds db)
                            (transformIndexSize db)
                            (fwdTransformNameIndex db)
                            (revTransformNameIndex db)))))
  else AssertFailed 541.

(** The data block of a section.  The source repeats it for the
    signatures, hints, imprints and members; [line] is the line of its
    first assertion (554, 612, 670, 728), the others follow at the same
    distances in each copy. *)
Definition populateData (app : dbtool_t) (pm : plan_masks)
    (alloc bit line : Z) (st db : data_t) (log : list memop)
  : populated (data_t * list memop) :=
  let '(inherit, rebuild) := pm in
  if has inherit bit then
    (* inherited. pass-though *)
    check (has (Ref.lnot32 alloc) bit) line
      (Populated (mkData (dNum db) (dMax st) (dPtr db), log))
  else if dNum db =? 0 then
    (* input empty *)
    check (has alloc bit) (line + 5)
      (Populated (mkData 1 (dMax st) (dPtr st), log))
  else if (dMax st <=? dNum db) && negb (copyOnWrite app =? 0) then
    (* small enough to use copy-on-write *)
    check (has (Ref.lnot32 alloc) bit) (line + 9)
      (Populated (mkData (dNum db) (dMax st) (dPtr db), log))
  else if has (Ref.lnot32 rebuild) bit then
    check (dNum db <=? dMax st) (line + 15)
      (check (has alloc bit) (line + 16)
         (Populated (mkData (dNum db) (dMax st) (dPtr st),
                     log ++ [Memcpy (dPtr st) (dPtr db) (dNum db)])))
  else Populated (st, log).

(** The index block of a section; [line] is the line of its first
    assertion (577, 635, 693, 751). *)
Definition populateIndex (app : dbtool_t) (pm : plan_masks)
    (alloc bit line : Z) (st db : index_t) (log : list memop)
  : populated (index_t * list memop) :=
  let '(inherit, rebuild) := pm in
  if has inherit bit then
    (* inherited. pass-though *)
    check (has (Ref.lnot32 alloc) bit) line
      (Populated (mkIndex (xSize db) (xPtr db), log))
  else if has rebuild bit then
    (* post-processing *)
    check (has alloc bit) (line + 5) (Populated (st, log))
  else if xSize db =? 0 then
    (* was missing *)
    check (has alloc bit) (line + 8)
      (Populated (st, log ++ [Memset (xPtr st) (xSize st)]))
  else if negb (copyOnWrite app =? 0) then
    (* copy-on-write *)
    check (xSize st =? xSize db) (line + 12)
      (check (has (Ref.lnot32 alloc) bit) (line + 13)
         (Populated (mkIndex (xSize db) (xPtr db), log)))
  else
    (* copy *)
    check (xSize st =? xSize db) (line + 18)
      (check (has alloc bit) (line + 19)
         (Populated (mkIndex (xSize db) (xPtr st),
                     log ++ [Memcpy (xPtr st) (xPtr db) (xSize db)]))).

(** A section: without capacity its array is set to [NULL] and its index
    is left alone, otherwise the data block and then the index block. *)
Definition populateSection (app : dbtool_t) (pm : plan_masks)
    (alloc bitData bitIndex line : Z)
    (st db : data_t * index_t) (log : list memop)
  : populated (data_t * index_t * list memop) :=
  if dMax (fst st) =? 0 then
    Populated (mkData (dNum (fst st)) (dMax (fst st)) None, snd st, log)
  else
    andThen (populateData app pm alloc bitData line (fst st) (fst db) log)
      (fun '(d, log) =>
    andThen (populateIndex app pm alloc bitIndex (line + 23) (snd st) (snd db) log)
      (fun '(x, log) =>
    Populated (d, x, log))).

(** [populateDatabaseSections] with the two masks as the planner left
    them: the output database and the memory calls made. *)
Definition populateDatabaseSections (app : dbtool_t) (pm : plan_masks)
    (store db : database_t) : populated (database_t * list memop) :=
  let alloc := allocFlags store in
  andThen (populateTransform (fst pm) alloc (transform db))
    (fun tr =>
  andThen (populateSection app pm alloc
             ALLOCMASK_SIGNATURE ALLOCMASK_SIGNATUREINDEX 554
             (signature store, signatureIndex store)
             (signature db, signatureIndex db) [])
    (fun '(sg, sx, log) =>
  andThen (populateSection app pm alloc
             ALLOCMASK_HINT ALLOCMASK_HINTINDEX 612
             (hint store, hintIndex store) (hint db, hintIndex db) log)
    (fun '(hn, hx, log) =>
  andThen (populateSection app pm alloc
             ALLOCMASK_IMPRINT ALLOCMASK_IMPRINTINDEX 670
             (imprint store, imprintIndex store)
             (imprint db, imprintIndex db) log)
    (fun '(im, ix, log) =>
  andThen (populateSection app pm alloc
             ALLOCMASK_MEMBER ALLOCMASK_MEMBERINDEX 728
             (member store, memberIndex store)
             (member db, memberIndex db) log)
    (fun '(mb, mx, log) =>
  Populated (mkDatabase alloc tr sg sx hn hx
                        (dbInterleave store) (dbInterleaveStep store)
                        im ix mb mx, log)))))).


(** *** How the blocks end *)

Ltac check_cases H :=
  repeat match type of H with
         | (let '(_, _) := ?p in _) = _ => destruct p
         | (if ?b then _ else _) = _ => destruct b eqn:?
         | check ?c _ _ = _ => unfold check at 1 in H
         | Populated _ = AssertFailed _ => discriminate H
         | AssertFailed _ = Populated _ => discriminate H
         end.

(** Where the data block can stop: at one of its four tests of
    [allocFlags], or at its test of the capacity. *)
Lemma populateData_stops (app : dbtool_t) (pm : plan_masks)
    (alloc bit line : Z) (st db : data_t) (log : list memop) (l : Z) :
  populateData app pm alloc bit line st db log = AssertFailed l ->
  (l = line \/ l = line + 5 \/ l = line + 9 \/ l = line + 16)
  \/ (l = line + 15 /\ dMax st < dNum db /\ has (fst pm) bit = false).
Proof.
  unfold populateData. intros H. check_cases H.
  all: injection H as <-.
  all: try (left; lia).
  right. split; [ reflexivity | ]. split; [ | cbn [fst]; assumption ].
  apply Z.leb_gt. assumption.
Qed.

(** Where the index block can stop: at one of its five tests of
    [allocFlags], or at one of its two comparisons of the sizes, which
    are only made for an index that is not to be rebuilt. *)
Lemma populateIndex_stops (app : dbtool_t) (pm : plan_masks)
    (alloc bit line : Z) (st db : index_t) (log : list memop) (l : Z) :
  populateIndex app pm alloc bit line st db log = AssertFailed l ->
  (l = line \/ l = line + 5 \/ l = line + 8 \/ l = line + 13 \/ l = line + 19)
  \/ ((l = line + 12 \/ l = line + 18)
      /\ has (snd pm) bit = false /\ xSize st <> xSize db).
Proof.
  unfold populateIndex. intros H. check_cases H.
  all: injection H as <-.
  all: try (left; lia).
  all: right; cbn [snd]; split; [ lia | ]; split; [ assumption | ];
    apply Z.eqb_neq; assumption.
Qed.

(** What the data block returns. *)
Lemma populateData_returns (app : dbtool_t) (inherit rebuild : Z)
    (alloc bit line : Z) (st db d : data_t) (log log' : list memop) :
  populateData app (inherit, rebuild) alloc bit line st db log
    = Populated (d, log') ->
  (* the section is shared with the input *)
  (d = mkData (dNum db) (dMax st) (dPtr db) /\ log' = log
   /\ has (Ref.lnot32 alloc) bit = true
   /\ (has inherit bit = true
       \/ (dNum db <> 0 /\ dMax st <= dNum db /\ copyOnWrite app <> 0)))
  (* the input has none *)
  \/ (d = mkData 1 (dMax st) (dPtr st) /\ log' = log
      /\ has alloc bit = true /\ has inherit bit = false /\ dNum db = 0)
  (* the section is copied *)
  \/ (d = mkData (dNum db) (dMax st) (dPtr st)
      /\ log' = log ++ [Memcpy (dPtr st) (dPtr db) (dNum db)]
      /\ has alloc bit = true /\ has inherit bit = false
      /\ dNum db <> 0 /\ dNum db <= dMax st
      /\ (dNum db < dMax st \/ copyOnWrite app = 0))
  (* the section is left for the rebuild *)
  \/ (d = st /\ log' = log /\ has (Ref.lnot32 rebuild) bit = false
      /\ has inherit bit = false /\ dNum db <> 0
      /\ (dNum db < dMax st \/ copyOnWrite app = 0)).
Proof.
  unfold populateData. intros H. check_cases H.
  all: injection H as <- <-.
  all: try match goal with
           | E : (_ && _) = false |- _ =>
               apply andb_false_iff in E;
               assert (dNum db < dMax st \/ copyOnWrite app = 0)
                 by (destruct E as [E | E];
                     [ left; apply Z.leb_gt; exact E
                     | right; apply negb_false_iff, Z.eqb_eq in E; exact E ]);
               clear E
           end.
  all: repeat match goal with
              | E : (_ && _) = true |- _ => apply andb_true_iff in E; destruct E
              | E : (_ <=? _) = true |- _ => apply Z.leb_le in E
              | E : (_ <=? _) = false |- _ => apply Z.leb_gt in E
              end;
    bool_props.
  - left. repeat split; try reflexivity. left. reflexivity.
  - right. left. repeat split; try reflexivity; assumption.
  - left. repeat split; try reflexivity. right. repeat split; assumption.
  - right. right. left. repeat split; try reflexivity; assumption.
  - right. right. right. repeat split; try reflexivity; assumption.
Qed.

(** The blocks of a section, one after the other. *)
Lemma populateSection_stops (app : dbtool_t) (pm : plan_masks)
    (alloc bitData bitIndex line : Z) (st db : data_t * index_t)
    (log : list memop) (l : Z) :
  populateSection app pm alloc bitData bitIndex line st db log = AssertFailed l ->
  dMax (fst st) <> 0
  /\ ((l = line \/ l = line + 5 \/ l = line + 9 \/ l = line + 16
       \/ l = line + 23 \/ l = line + 28 \/ l = line + 31 \/ l = line + 36
       \/ l = line + 42)
      \/ (l = line + 15 /\ dMax (fst st) < dNum (fst db)
          /\ has (fst pm) bitData = false)
      \/ ((l = line + 35 \/ l = line + 41)
          /\ has (snd pm) bitIndex = false /\ xSize (snd st) <> xSize (snd db))).
Proof.
  unfold populateSection. intros H.
  destruct (Z.eqb_spec (dMax (fst st)) 0) as [E0 | N0]; [ discriminate | ].
  split; [ exact N0 | ].
  destruct (populateData app pm alloc bitData line (fst st) (fst db) log)
    as [[d log1] | l1] eqn:ED; cbn [andThen] in H.
  - destruct (populateIndex app pm alloc bitIndex (line + 23) (snd st) (snd db) log1)
      as [[x log2] | l2] eqn:EX; cbn [andThen] in H; [ discriminate | ].
    injection H as <-. apply populateIndex_stops in EX.
    destruct EX as [EX | (EX & Hr & Hs)].
    + left. lia.
    + right. right. split; [ lia | ]. split; assumption.
  - injection H as <-. apply populateData_stops in ED.
    destruct ED as [ED | (ED & Hm & Hi)].
    + left. lia.
    + right. left. repeat split; assumption.
Qed.

(** What a returning run of a section's blocks leaves of the data. *)
Lemma populateSection_returns (app : dbtool_t) (pm : plan_masks)
    (alloc bitData bitIndex line : Z) (st db : data_t * index_t)
    (log : list memop) (d : data_t) (x : index_t) (log' : list memop) :
  populateSection app pm alloc bitData bitIndex line st db log
    = Populated (d, x, log') ->
  (dMax (fst st) = 0 /\ d = mkData (dNum (fst st)) (dMax (fst st)) None
   /\ x = snd st /\ log' = log)
  \/ (dMax (fst st) <> 0
      /\ exists log1 log2,
           populateData app pm alloc bitData line (fst st) (fst db) log
             = Populated (d, log1)
           /\ log' = log1 ++ log2).
Proof.
  unfold populateSection. intros H.
  destruct (Z.eqb_spec (dMax (fst st)) 0) as [E0 | N0].
  - injection H as <- <- <-. left. repeat split; assumption.
  - right. split; [ exact N0 | ].
    destruct (populateData app pm alloc bitData line (fst st) (fst db) log)
      as [[d1 log1] | l1] eqn:ED; cbn [andThen] in H; [ | discriminate ].
    destruct (populateIndex app pm alloc bitIndex (line + 23) (snd st) (snd db) log1)
      as [[x1 log2] | l2] eqn:EX; cbn [andThen] in H; [ | discriminate ].
    injection H as <- <- <-.
    unfold populateIndex in EX. check_cases EX.
    all: injection EX as <- <-.
    all: first [ exists log1, []; split; [ reflexivity | symmetry; apply app_nil_r ]
               | eexists log1, _; split; reflexivity ].
Qed.

(** The log of a run only grows. *)
Lemma populateSection_log (app : dbtool_t) (pm : plan_masks)
    (alloc bitData bitIndex line : Z) (st db : data_t * index_t)
    (log : list memop) (d : data_t) (x : index_t) (log' : list memop) :
  populateSection app pm alloc bitData bitIndex line st db log
    = Populated (d, x, log') ->
  exists more, log' = log ++ more.
Proof.
  intros H. apply populateSection_returns in H.
  destruct H as [(_ & _ & _ & ->) | (_ & log1 & log2 & ED & ->)].
  - exists []. symmetry. apply app_nil_r.
  - destruct pm as [inherit rebuild].
    apply populateData_returns in ED.
    destruct ED as [(_ & -> & _) | [(_ & -> & _) | [(_ & -> & _) | (_ & -> & _)]]].
    + exists log2. reflexivity.
    + exists log2. reflexivity.
    + eexists. rewrite <- app_assoc. reflexivity.
    + exists log2. reflexivity.
Qed.

(** *** What the planner hands to the populator *)

(** An index that the plan does not rebuild has the size of the
    input's. *)
Lemma plan_index_sizes (app : dbtool_t) (ctxPure : Z) (store : store_t)
    (db : input_t) (numNodes : Z) (store' : store_t) (inherit' rebuild' : Z) :
  planSections app ctxPure store db numNodes
    = Planned (store', (inherit', rebuild')) ->
  (ALLOCMASK_SIGNATUREINDEX <> 0 -> maxSignature store' <> 0 ->
   has rebuild' ALLOCMASK_SIGNATUREINDEX = false ->
   signatureIndexSize store' = inSignatureIndexSize db)
  /\ (ALLOCMASK_HINTINDEX <> 0 -> maxHint store' <> 0 ->
      has rebuild' ALLOCMASK_HINTINDEX = false ->
      hintIndexSize store' = inHintIndexSize db)
  /\ (ALLOCMASK_IMPRINTINDEX <> 0 -> maxImprint store' <> 0 ->
      has rebuild' ALLOCMASK_IMPRINTINDEX = false ->
      imprintIndexSize store' = inImprintIndexSize db)
  /\ (ALLOCMASK_MEMBERINDEX <> 0 -> maxMember store' <> 0 ->
      has rebuild' ALLOCMASK_MEMBERINDEX = false ->
      memberIndexSize store' = inMemberIndexSize db).
Proof.
  intros H. apply planSections_stages in H.
  destruct H as ([[maxSig inh1] [sis [inh2 rb2]] [maxHnt inh3] [his [inh4 rb4]]
                  [[[il ils] maxImp] [inh5 rb5]] [iis [inh6 rb6]] [maxMem inh7]
                  [mis [inh8 rb8]]] & Hst & Heq).
  unfold staged, planOf in *.
  cbn [gSignature gSignatureIndex gHint gHintIndex gImprint gImprintIndex
       gMember gMemberIndex fst snd] in *.
  destruct Hst as (E1 & E2 & E3 & E4 & E5 & E6 & E7 & E8).
  injection Heq as -> -> ->.
  cbn [maxSignature signatureIndexSize maxHint hintIndexSize maxImprint
       imprintIndexSize maxMember memberIndexSize].
  destruct (planImprint_effect _ _ _ _ _ _ _ _ _ _ _ _ _ E5) as (R5 & _).
  destruct (sizeIndex_within _ _ _ _ _ _ _ _ _ _ E4) as (R4 & _).
  destruct (sizeIndex_within _ _ _ _ _ _ _ _ _ _ E6) as (R6 & _).
  destruct (sizeIndex_within _ _ _ _ _ _ _ _ _ _ E8) as (R8 & _).
  assert (Hkey : forall max opt bit size inh rb sz inh' rb',
             sizeIndex app max opt bit size (inh, rb) = (sz, (inh', rb')) ->
             within rb' rb8 -> bit <> 0 -> max <> 0 -> has rb8 bit = false ->
             sz = size).
  { intros max opt bit size inh rb sz inh' rb' E Hw Hb Hm Hh.
    apply sizeIndex_effect in E.
    destruct E as [(Hz & _) | [(_ & _ & -> & _) | [(_ & Hs & _) | (_ & Hs & _)]]];
      [ contradiction | | exact Hs | exact Hs ].
    exfalso. rewrite has_within in Hh; [ discriminate | | exact Hb ].
    eapply within_trans; [ apply within_set_bit | exact Hw ]. }
  repeat split; intros Hb Hm Hh.
  - apply (Hkey _ _ _ _ _ _ _ _ _ E2); try assumption;
      repeat (eapply within_trans; [ eassumption | ]); apply within_refl.
  - apply (Hkey _ _ _ _ _ _ _ _ _ E4); try assumption;
      repeat (eapply within_trans; [ eassumption | ]); apply within_refl.
  - apply (Hkey _ _ _ _ _ _ _ _ _ E6); try assumption;
      repeat (eapply within_trans; [ eassumption | ]); apply within_refl.
  - apply (Hkey _ _ _ _ _ _ _ _ _ E8); try assumption; apply within_refl.
Qed.

(** The closing tests of the planner, read off a plan it returned. *)
Lemma sizeDatabaseSections_fits (app : dbtool_t) (ctxPure : Z) (store : store_t)
    (db : input_t) (numNodes : Z) (store' : store_t) (pm : plan_masks) :
  sizeDatabaseSections app ctxPure store db numNodes = Planned (store', pm) ->
  planSections app ctxPure store db numNodes = Planned (store', pm)
  /\ numSignature db <= maxSignature store'
  /\ numHint db <= maxHint store'
  /\ numMember db <= maxMember store'.
Proof.
  unfold sizeDatabaseSections. intros H.
  destruct (planSections app ctxPure store db numNodes) as [[st pm'] | m];
    [ | discriminate ].
  cbn [bind] in H.
  destruct (Z.ltb_spec (maxSignature st) (numSignature db)); [ discriminate | ].
  destruct (Z.ltb_spec (maxHint st) (numHint db)); [ discriminate | ].
  destruct (Z.ltb_spec (maxMember st) (numMember db)); [ discriminate | ].
  injection H as <- <-. repeat split; assumption.
Qed.

(** The assertions of the populator that compare sizes: the capacity of
    the signature, hint and member sections against the input's count,
    and the size of each index against the input's. *)
Definition size_assertions : list Z :=
  [569; 589; 595; 627; 647; 653; 705; 711; 743; 763; 769].

(** X24.  After the planner the populator never stops at a comparison of
    sizes: when it runs on an output database that carries the sizes of a
    plan that [sizeDatabaseSections] returned for the input, with the
    masks of that plan, the assertions
    [store.maxSignature >= db.numSignature] (and those for the hints and
    the members) and [store.signatureIndexSize == db.signatureIndexSize]
    (and those for the other three indices) hold whenever they are
    reached.  The bits of the four indices must not be zero. *)
Theorem populate_sizes_as_planned (app : dbtool_t) (ctxPure : Z)
    (store0 store db : database_t) (numNodes : Z) (pm : plan_masks) (line : Z) :
  ALLOCMASK_SIGNATUREINDEX <> 0 -> ALLOCMASK_HINTINDEX <> 0 ->
  ALLOCMASK_IMPRINTINDEX <> 0 -> ALLOCMASK_MEMBERINDEX <> 0 ->
  sizeDatabaseSections app ctxPure (sizesOf store0) (inputOf db) numNodes
    = Planned (sizesOf store, pm) ->
  populateDatabaseSections app pm store db = AssertFailed line ->
  ~ In line size_assertions.
Proof.
  intros B1 B2 B3 B4 Hplan Hpop Hin.
  apply sizeDatabaseSections_fits in Hplan.
  destruct Hplan as (Hplan & F1 & F2 & F3).
  destruct pm as [inherit rebuild].
  apply plan_index_sizes in Hplan. destruct Hplan as (S1 & S2 & S3 & S4).
  cbn [sizesOf inputOf maxSignature signatureIndexSize maxHint hintIndexSize
       maxImprint imprintIndexSize maxMember memberIndexSize
       numSignature inSignatureIndexSize numHint inHintIndexSize
       numImprint inImprintIndexSize numMember inMemberIndexSize] in *.
  unfold size_assertions in Hin. cbn [In] in Hin.
  unfold populateDatabaseSections in Hpop.
  destruct (populateTransform _ _ _) as [tr | l0] eqn:ET; cbn [andThen] in Hpop.
  2: { injection Hpop as <-. unfold populateTransform in ET.
       check_cases ET; injection ET as <-; lia. }
  destruct (populateSection app _ _ ALLOCMASK_SIGNATURE _ _ _ _ _)
    as [[[sg sx] log1] | l1] eqn:E1; cbn [andThen] in Hpop.
  2: { injection Hpop as <-. apply populateSection_stops in E1.
       cbn [fst snd] in E1.
       destruct E1 as (N & [E | [(E & Hm & _) | (E & Hr & Hs)]]);
         [ lia | lia | ].
       apply Hs. apply S1; assumption. }
  destruct (populateSection app _ _ ALLOCMASK_HINT _ _ _ _ _)
    as [[[hn hx] log2] | l2] eqn:E2; cbn [andThen] in Hpop.
  2: { injection Hpop as <-. apply populateSection_stops in E2.
       cbn [fst snd] in E2.
       destruct E2 as (N & [E | [(E & Hm & _) | (E & Hr & Hs)]]);
         [ lia | lia | ].
       apply Hs. apply S2; assumption. }
  destruct (populateSection app _ _ ALLOCMASK_IMPRINT _ _ _ _ _)
    as [[[im ix] log3] | l3] eqn:E3; cbn [andThen] in Hpop.
  2: { injection Hpop as <-. apply populateSection_stops in E3.
       cbn [fst snd] in E3.
       destruct E3 as (N & [E | [(E & Hm & _) | (E & Hr & Hs)]]);
         [ lia | lia | ].
       apply Hs. apply S3; assumption. }
  destruct (populateSection app _ _ ALLOCMASK_MEMBER _ _ _ _ _)
    as [[[mb mx] log4] | l4] eqn:E4; cbn [andThen] in Hpop.
  2: { injection Hpop as <-. apply populateSection_stops in E4.
       cbn [fst snd] in E4.
       destruct E4 as (N & [E | [(E & Hm & _) | (E & Hr & Hs)]]);
         [ lia | lia | ].
       apply Hs. apply S4; assumption. }
  discriminate.
Qed.

(** X25.  The capacity of the imprint section is not protected in the
    way the other three are.  When the output database has room for
    fewer imprints than the input holds and the imprints are not to be
    rebuilt, the populator cannot copy them: a run that returns has
    taken the input's array as its own and leaves [numImprint] above
    [maxImprint], which happens when the section is inherited or
    copy-on-write is on; every other run stops at an assertion. *)
Theorem populate_imprints_over_capacity (app : dbtool_t) (inherit rebuild : Z)
    (store db store' : database_t) (log : list memop) :
  0 < dMax (imprint store) < dNum (imprint db) ->
  has (Ref.lnot32 rebuild) ALLOCMASK_IMPRINT = true ->
  populateDatabaseSections app (inherit, rebuild) store db
    = Populated (store', log) ->
  dMax (imprint store') < dNum (imprint store')
  /\ dPtr (imprint store') = dPtr (imprint db)
  /\ has (Ref.lnot32 (allocFlags store)) ALLOCMASK_IMPRINT = true
  /\ (has inherit ALLOCMASK_IMPRINT = true \/ copyOnWrite app <> 0).
Proof.
  intros Hcap Hrb Hpop.
  unfold populateDatabaseSections in Hpop.
  destruct (populateTransform _ _ _) as [tr | l0];
    cbn [andThen] in Hpop; [ | discriminate ].
  destruct (populateSection app _ _ ALLOCMASK_SIGNATURE _ _ _ _ _)
    as [[[sg sx] log1] | l1]; cbn [andThen] in Hpop; [ | discriminate ].
  destruct (populateSection app _ _ ALLOCMASK_HINT _ _ _ _ _)
    as [[[hn hx] log2] | l2]; cbn [andThen] in Hpop; [ | discriminate ].
  destruct (populateSection app _ _ ALLOCMASK_IMPRINT _ _ _ _ _)
    as [[[im ix] log3] | l3] eqn:E3; cbn [andThen] in Hpop; [ | discriminate ].
  destruct (populateSection app _ _ ALLOCMASK_MEMBER _ _ _ _ _)
    as [[[mb mx] log4] | l4]; cbn [andThen] in Hpop; [ | discriminate ].
  injection Hpop as <- <-. cbn [imprint].
  apply populateSection_returns in E3. cbn [fst snd] in E3.
  destruct E3 as [(E0 & _) | (_ & la & lb & ED & _)]; [ lia | ].
  apply populateData_returns in ED.
  destruct ED as [(-> & _ & Ha & Hw) | [(_ & _ & _ & _ & E0)
                 | [(_ & _ & _ & _ & _ & Hle & _) | (_ & _ & Hr & _)]]].
  - cbn [dMax dNum dPtr]. repeat split; try assumption; try lia.
    destruct Hw as [Hi | (_ & _ & Hc)]; [ left | right ]; assumption.
  - lia.
  - lia.
  - rewrite Hr in Hrb. discriminate.
Qed.

(** What a returning run leaves of a data section with capacity that is
    not to be rebuilt: the capacity of the plan, a count within it, and
    either the input's array, or its own with the one reserved entry of
    an empty input, or its own with the input's entries copied into
    it. *)
Definition settled (alloc bit : Z) (st db d : data_t) (log : list memop) : Prop :=
  dMax d = dMax st
  /\ dNum d <= dMax d
  /\ ((dNum d = dNum db /\ dPtr d = dPtr db
       /\ has (Ref.lnot32 alloc) bit = true)
      \/ (dNum db = 0 /\ dNum d = 1 /\ dPtr d = dPtr st
          /\ has alloc bit = true)
      \/ (dNum d = dNum db /\ dPtr d = dPtr st /\ has alloc bit = true
          /\ In (Memcpy (dPtr st) (dPtr db) (dNum db)) log)).

Lemma populateSection_settled (app : dbtool_t) (inherit rebuild : Z)
    (alloc bitData bitIndex line : Z) (st db : data_t * index_t)
    (log : list memop) (d : data_t) (x : index_t) (log' final : list memop) :
  populateSection app (inherit, rebuild) alloc bitData bitIndex line st db log
    = Populated (d, x, log') ->
  (forall op, In op log' -> In op final) ->
  dNum (fst db) <= dMax (fst st) ->
  dMax (fst st) <> 0 ->
  has (Ref.lnot32 rebuild) bitData = true ->
  settled alloc bitData (fst st) (fst db) d final.
Proof.
  intros H Hlog Hfit Hmax Hrb. apply populateSection_returns in H.
  destruct H as [(E0 & _) | (_ & log1 & log2 & ED & ->)]; [ contradiction | ].
  apply populateData_returns in ED. unfold settled.
  destruct ED as [(-> & _ & Ha & _) | [(-> & _ & Ha & _ & E0)
                 | [(-> & -> & Ha & _ & Hn & Hle & _) | (_ & _ & Hr & _)]]];
    cbn [dMax dNum dPtr].
  - split; [ reflexivity | ]. split; [ exact Hfit | ].
    left. repeat split. exact Ha.
  - split; [ reflexivity | ]. split; [ lia | ].
    right. left. repeat split; assumption.
  - split; [ reflexivity | ]. split; [ exact Hle | ].
    right. right. repeat split; [ exact Ha | ].
    apply Hlog. apply in_or_app. left. apply in_or_app. right. left. reflexivity.
  - rewrite Hr in Hrb. discriminate.
Qed.

(** X26.  After the planner, the populator keeps what the input holds of
    the signatures, hints and members.  When it returns, each of these
    sections that has capacity and is not to be rebuilt has the planned
    capacity, a count that does not exceed it, and holds the input's
    entries: either it shares the input's array, which is done only for
    a section that [allocFlags] does not list, or it keeps its own array,
    which [allocFlags] then lists, with the input's entries copied by one
    [memcpy] of the log, or with the one reserved entry when the input
    has none. *)
Theorem populate_keeps_input (app : dbtool_t) (ctxPure : Z)
    (store0 store db store' : database_t) (numNodes : Z)
    (inherit rebuild : Z) (log : list memop) :
  sizeDatabaseSections app ctxPure (sizesOf store0) (inputOf db) numNodes
    = Planned (sizesOf store, (inherit, rebuild)) ->
  populateDatabaseSections app (inherit, rebuild) store db
    = Populated (store', log) ->
  (dMax (signature store) <> 0 ->
   has (Ref.lnot32 rebuild) ALLOCMASK_SIGNATURE = true ->
   settled (allocFlags store) ALLOCMASK_SIGNATURE
           (signature store) (signature db) (signature store') log)
  /\ (dMax (hint store) <> 0 ->
      has (Ref.lnot32 rebuild) ALLOCMASK_HINT = true ->
      settled (allocFlags store) ALLOCMASK_HINT
              (hint store) (hint db) (hint store') log)
  /\ (dMax (member store) <> 0 ->
      has (Ref.lnot32 rebuild) ALLOCMASK_MEMBER = true ->
      settled (allocFlags store) ALLOCMASK_MEMBER
              (member store) (member db) (member store') log).
Proof.
  intros Hplan Hpop.
  apply sizeDatabaseSections_fits in Hplan.
  destruct Hplan as (_ & F1 & F2 & F3).
  cbn [sizesOf inputOf maxSignature maxHint maxMember
       numSignature numHint numMember] in *.
  unfold populateDatabaseSections in Hpop.
  destruct (populateTransform _ _ _) as [tr | l0];
    cbn [andThen] in Hpop; [ | discriminate ].
  destruct (populateSection app _ _ ALLOCMASK_SIGNATURE _ _ _ _ _)
    as [[[sg sx] log1] | l1] eqn:E1; cbn [andThen] in Hpop; [ | discriminate ].
  destruct (populateSection app _ _ ALLOCMASK_HINT _ _ _ _ _)
    as [[[hn hx] log2] | l2] eqn:E2; cbn [andThen] in Hpop; [ | discriminate ].
  destruct (populateSection app _ _ ALLOCMASK_IMPRINT _ _ _ _ _)
    as [[[im ix] log3] | l3] eqn:E3; cbn [andThen] in Hpop; [ | discriminate ].
  destruct (populateSection app _ _ ALLOCMASK_MEMBER _ _ _ _ _)
    as [[[mb mx] log4] | l4] eqn:E4; cbn [andThen] in Hpop; [ | discriminate ].
  injection Hpop as <- <-. cbn [signature hint member].
  destruct (populateSection_log _ _ _ _ _ _ _ _ _ _ _ _ E2) as [m2 ->].
  destruct (populateSection_log _ _ _ _ _ _ _ _ _ _ _ _ E3) as [m3 ->].
  destruct (populateSection_log _ _ _ _ _ _ _ _ _ _ _ _ E4) as [m4 ->].
  split; [ | split ]; intros Hmax Hrb.
  - apply (populateSection_settled _ _ _ _ _ _ _ _ _ _ _ _ _ _ E1);
      try assumption.
    intros op Hop. repeat (apply in_or_app; left). exact Hop.
  - apply (populateSection_settled _ _ _ _ _ _ _ _ _ _ _ _ _ _ E2);
      try assumption.
    intros op Hop. do 2 (apply in_or_app; left). exact Hop.
  - apply (populateSection_settled _ _ _ _ _ _ _ _ _ _ _ _ _ _ E4);
      try assumption.
    intros op Hop. exact Hop.
Qed.

(** The requests of the caller are in the final [rebuildSections], and
    nothing of the final [rebuildSections] is inherited. *)
Lemma plan_rebuild_kept (app : dbtool_t) (ctxPure : Z) (store : store_t)
    (db : input_t) (numNodes : Z) (store' : store_t) (inherit' rebuild' : Z) :
  planSections app ctxPure store db numNodes
    = Planned (store', (inherit', rebuild')) ->
  forall bit, within bit (rebuildSections app) ->
    within bit rebuild' /\ lacks inherit' bit.
Proof.
  intros H bit Hbit. apply planSections_stages in H.
  destruct H as ([[maxSig inh1] [sis [inh2 rb2]] [maxHnt inh3] [his [inh4 rb4]]
                  [[[il ils] maxImp] [inh5 rb5]] [iis [inh6 rb6]] [maxMem inh7]
                  [mis [inh8 rb8]]] & Hst & Heq).
  unfold staged, planOf in *.
  cbn [gSignature gSignatureIndex gHint gHintIndex gImprint gImprintIndex
       gMember gMemberIndex fst snd] in *.
  destruct Hst as (E1 & E2 & E3 & E4 & E5 & E6 & E7 & E8).
  injection Heq as -> -> ->.
  destruct (planImprint_effect _ _ _ _ _ _ _ _ _ _ _ _ _ E5) as (R5 & _).
  destruct (sizeIndex_within _ _ _ _ _ _ _ _ _ _ E2) as (R2 & _).
  destruct (sizeIndex_within _ _ _ _ _ _ _ _ _ _ E4) as (R4 & _).
  destruct (sizeIndex_within _ _ _ _ _ _ _ _ _ _ E6) as (R6 & _).
  destruct (sizeIndex_within _ _ _ _ _ _ _ _ _ _ E8) as (R8 & _).
  assert (Hw : within bit rb8).
  { eapply within_trans; [ exact Hbit | ].
    repeat (eapply within_trans; [ eassumption | ]). apply within_refl. }
  split; [ exact Hw | ].
  eapply lacks_mono; [ apply lacks_ldiff_self | exact Hw ].
Qed.

(** What a returning run leaves of a data section that the caller wants
    rebuilt, when copy-on-write is on and the section is planned no
    larger than the input's count. *)
Lemma populateSection_shares (app : dbtool_t) (inherit rebuild : Z)
    (alloc bitData bitIndex line : Z) (st db : data_t * index_t)
    (log : list memop) (d : data_t) (x : index_t) (log' : list memop) :
  populateSection app (inherit, rebuild) alloc bitData bitIndex line st db log
    = Populated (d, x, log') ->
  copyOnWrite app <> 0 ->
  0 < dNum (fst db) -> dMax (fst st) = dNum (fst db) ->
  d = mkData (dNum (fst db)) (dMax (fst st)) (dPtr (fst db))
  /\ has (Ref.lnot32 alloc) bitData = true.
Proof.
  intros H Hcow Hnum Hmax. apply populateSection_returns in H.
  destruct H as [(E0 & _) | (_ & log1 & log2 & ED & _)]; [ lia | ].
  apply populateData_returns in ED.
  destruct ED as [(-> & _ & Ha & _) | [(_ & _ & _ & _ & E0)
                 | [(_ & _ & _ & _ & _ & _ & [Hlt | Hc])
                   | (_ & _ & _ & _ & _ & [Hlt | Hc])]]];
    try lia; try contradiction.
  split; [ reflexivity | exact Ha ].
Qed.

(** X27.  Under copy-on-write a data section that is to be rebuilt gets
    no memory of its own when it is planned at the size of the input's
    count.  If the caller asked for the signatures (hints, imprints,
    members) to be rebuilt, the input holds some, the planned capacity
    equals the input's count and copy-on-write is on, then every run of
    the populator that returns has set the section's array to the
    input's array and its count to the input's count, after asserting
    that [allocFlags] does not list the section: what is rebuilt
    afterwards is rebuilt in the memory of the input. *)
Theorem populate_rebuild_shares_input (app : dbtool_t) (ctxPure : Z)
    (store0 store db store' : database_t) (numNodes : Z)
    (inherit rebuild : Z) (log : list memop) :
  copyOnWrite app <> 0 ->
  sizeDatabaseSections app ctxPure (sizesOf store0) (inputOf db) numNodes
    = Planned (sizesOf store, (inherit, rebuild)) ->
  populateDatabaseSections app (inherit, rebuild) store db
    = Populated (store', log) ->
  (within ALLOCMASK_SIGNATURE (rebuildSections app) ->
   0 < dNum (signature db) ->
   dMax (signature store) = dNum (signature db) ->
   within ALLOCMASK_SIGNATURE rebuild
   /\ has inherit ALLOCMASK_SIGNATURE = false
   /\ signature store'
      = mkData (dNum (signature db)) (dMax (signature store))
               (dPtr (signature db))
   /\ has (Ref.lnot32 (allocFlags store)) ALLOCMASK_SIGNATURE = true)
  /\ (within ALLOCMASK_HINT (rebuildSections app) ->
      0 < dNum (hint db) ->
      dMax (hint store) = dNum (hint db) ->
      within ALLOCMASK_HINT rebuild
      /\ has inherit ALLOCMASK_HINT = false
      /\ hint store'
         = mkData (dNum (hint db)) (dMax (hint store)) (dPtr (hint db))
      /\ has (Ref.lnot32 (allocFlags store)) ALLOCMASK_HINT = true)
  /\ (within ALLOCMASK_IMPRINT (rebuildSections app) ->
      0 < dNum (imprint db) ->
      dMax (imprint store) = dNum (imprint db) ->
      within ALLOCMASK_IMPRINT rebuild
      /\ has inherit ALLOCMASK_IMPRINT = false
      /\ imprint store'
         = mkData (dNum (imprint db)) (dMax (imprint store))
                  (dPtr (imprint db))
      /\ has (Ref.lnot32 (allocFlags store)) ALLOCMASK_IMPRINT = true)
  /\ (within ALLOCMASK_MEMBER (rebuildSections app) ->
      0 < dNum (member db) ->
      dMax (member store) = dNum (member db) ->
      within ALLOCMASK_MEMBER rebuild
      /\ has inherit ALLOCMASK_MEMBER = false
      /\ member store'
         = mkData (dNum (member db)) (dMax (member store))
                  (dPtr (member db))
      /\ has (Ref.lnot32 (allocFlags store)) ALLOCMASK_MEMBER = true).
Proof.
  intros Hcow Hplan Hpop.
  apply sizeDatabaseSections_fits in Hplan. destruct Hplan as (Hplan & _).
  assert (Hkept := plan_rebuild_kept _ _ _ _ _ _ _ _ Hplan).
  unfold populateDatabaseSections in Hpop.
  destruct (populateTransform _ _ _) as [tr | l0];
    cbn [andThen] in Hpop; [ | discriminate ].
  destruct (populateSection app _ _ ALLOCMASK_SIGNATURE _ _ _ _ _)
    as [[[sg sx] log1] | l1] eqn:E1; cbn [andThen] in Hpop; [ | discriminate ].
  destruct (populateSection app _ _ ALLOCMASK_HINT _ _ _ _ _)
    as [[[hn hx] log2] | l2] eqn:E2; cbn [andThen] in Hpop; [ | discriminate ].
  destruct (populateSection app _ _ ALLOCMASK_IMPRINT _ _ _ _ _)
    as [[[im ix] log3] | l3] eqn:E3; cbn [andThen] in Hpop; [ | discriminate ].
  destruct (populateSection app _ _ ALLOCMASK_MEMBER _ _ _ _ _)
    as [[[mb mx] log4] | l4] eqn:E4; cbn [andThen] in Hpop; [ | discriminate ].
  injection Hpop as <- <-. cbn [signature hint imprint member].
  split; [ | split; [ | split ] ]; intros Hreq Hnum Hmax;
    destruct (Hkept _ Hreq) as [Hw Hl];
    (split; [ exact Hw | ]); (split; [ apply has_lacks; exact Hl | ]).
  - apply (populateSection_shares _ _ _ _ _ _ _ _ _ _ _ _ _ E1); assumption.
  - apply (populateSection_shares _ _ _ _ _ _ _ _ _ _ _ _ _ E2); assumption.
  - apply (populateSection_shares _ _ _ _ _ _ _ _ _ _ _ _ _ E3); assumption.
  - apply (populateSection_shares _ _ _ _ _ _ _ _ _ _ _ _ _ E4); assumption.
Qed.
End WithCollaborators.

(** *** A concrete run: [--maximprint=5] on a database of 100 imprints *)

(** Sample bits for the sections, one each. *)
Definition sample_alloc_masks : alloc_masks :=
  {| ALLOCMASK_SIGNATURE := 2;  ALLOCMASK_SIGNATUREINDEX := 4;
     ALLOCMASK_HINT := 8;       ALLOCMASK_HINTINDEX := 16;
     ALLOCMASK_IMPRINT := 32;   ALLOCMASK_IMPRINTINDEX := 64;
     ALLOCMASK_MEMBER := 128;   ALLOCMASK_MEMBERINDEX := 256 |}.

(** A [dbtool_t] as its constructor leaves it, with [--maximprint=5]. *)
Definition sample_tool : dbtool_t :=
  {| opt_imprintIndexSize := 0; opt_hintIndexSize := 0; opt_interleave := 0;
     opt_maxHint := 0; opt_maxImprint := 5; opt_maxMember := 0;
     opt_maxSignature := 0; opt_memberIndexSize := 0;
     opt_signatureIndexSize := 0;
     copyOnWrite := 0; readOnlyMode := 0; rebuildSections := 0;
     inheritSections := 1 + 2 + 4 + 8 + 16 + 32 + 64 + 128 + 256 |}.

Definition sample_input : input_t :=
  {| numSignature := 10; inSignatureIndexSize := 53;
     numHint := 3; inHintIndexSize := 17;
     inInterleave := 504; numImprint := 100; inImprintIndexSize := 503;
     numMember := 20; inMemberIndexSize := 101 |}.

Definition sample_store : store_t := mkStore 0 0 0 0 0 0 0 0 0 0.

(** The run consults no generator or imprint metrics; the stand-ins
    below know no preset. *)
Definition sample_plan : planned (store_t * plan_masks) :=
  sizeDatabaseSections (masks := sample_alloc_masks)
    (fun _ _ _ => None) (fun _ _ _ _ => None)
    Interleave.getMetricsInterleave (fun n _ => n) (fun n => n)
    sample_tool 0 sample_store sample_input 4.

Lemma planner_fits_input_witness :
  exists store' pm,
    sample_plan = Planned (store', pm)
    /\ fits sample_input store'.
Proof.
  eexists _, _. split; [ reflexivity | ].
  eapply (proj1 (planner_fits_input (masks := sample_alloc_masks)
                   (fun _ _ _ => None) (fun _ _ _ _ => None)
                   Interleave.getMetricsInterleave (fun n _ => n) (fun n => n)
                   sample_tool 0 sample_store sample_input 4)).
  reflexivity.
Defined.

(** C3 as stated fails for the imprint section: the run returns without a
    fatal error, the output keeps room for 5 imprints and the input
    holds 100. *)
Lemma planner_accepts_small_imprints :
  exists store' pm,
    sample_plan = Planned (store', pm)
    /\ maxImprint store' = 5
    /\ numImprint sample_input = 100
    /\ maxImprint store' < numImprint sample_input.
Proof.
  eexists _, _. split; [ reflexivity | ]. simpl. repeat split.
Qed.

(** *** Instances of the further properties *)

(** X16.  In read-only mode the planner consults neither the generator
    nor the imprint metrics, and neither [raisePercent] nor [nextPrime]:
    whatever they would answer, [sizeDatabaseSections] ends the same way
    with the same sizes and masks. *)
Theorem readonly_ignores_metrics {masks : alloc_masks}
    (generator1 generator2 : Z -> Z -> Z -> option metricsGenerator_t)
    (imprint1 imprint2 : Z -> Z -> Z -> Z -> option Z)
    (getMetricsInterleave : Z -> Z -> option Interleave.metricsInterleave_t)
    (raise1 raise2 : Z -> Z -> Z) (prime1 prime2 : Z -> Z)
    (app : dbtool_t) (ctxPure : Z) (store : store_t) (db : input_t)
    (numNodes : Z) :
  readOnlyMode app <> 0 ->
  sizeDatabaseSections generator1 imprint1 getMetricsInterleave raise1 prime1
                       app ctxPure store db numNodes
  = sizeDatabaseSections generator2 imprint2 getMetricsInterleave raise2 prime2
                         app ctxPure store db numNodes.
Proof.
  intros Hro. apply Z.eqb_neq in Hro.
  unfold sizeDatabaseSections, planSections, sizeData, sizeIndex.
  rewrite !Hro. reflexivity.
Qed.

#[local] Existing Instance sample_alloc_masks.

Lemma sample_separate_bits : separate_bits (masks := sample_alloc_masks).
Proof.
  intros i j Hij.
  do 8 (destruct i as [| i]; [ do 8 (destruct j as [| j]; [ try reflexivity; try contradiction | ]); destruct j; reflexivity | ]).
  destruct i; reflexivity.
Defined.

(** Copy-on-write with [--maximprint=500] on the sample input, which
    holds 100 imprints. *)
Definition sample_cow_tool : dbtool_t :=
  {| opt_imprintIndexSize := 0; opt_hintIndexSize := 0; opt_interleave := 0;
     opt_maxHint := 0; opt_maxImprint := 500; opt_maxMember := 0;
     opt_maxSignature := 40; opt_memberIndexSize := 0;
     opt_signatureIndexSize := 0;
     copyOnWrite := 1; readOnlyMode := 0; rebuildSections := 0;
     inheritSections := 1 + 2 + 4 + 8 + 16 + 32 + 64 + 128 + 256 |}.

Definition sample_cow_plan : planned (store_t * plan_masks) :=
  planSections (masks := sample_alloc_masks)
    (fun _ _ _ => None) (fun _ _ _ _ => None)
    Interleave.getMetricsInterleave (fun n _ => n) (fun n => n)
    sample_cow_tool 0 sample_store sample_input 4.

Lemma plan_growing_not_inherited_witness :
  exists store' inherit' rebuild',
    sample_cow_plan = Planned (store', (inherit', rebuild'))
    /\ numSignature sample_input < maxSignature store'
    /\ (numSignature sample_input < maxSignature store' ->
        has inherit' ALLOCMASK_SIGNATURE = false)
    /\ (numHint sample_input < maxHint store' -> has inherit' ALLOCMASK_HINT = false)
    /\ (numMember sample_input < maxMember store' ->
        has inherit' ALLOCMASK_MEMBER = false).
Proof.
  eexists _, _, _. split; [ reflexivity | ]. split; [ reflexivity | ].
  eapply (plan_growing_not_inherited (masks := sample_alloc_masks)
           (fun _ _ _ => None) (fun _ _ _ _ => None)
           Interleave.getMetricsInterleave (fun n _ => n) (fun n => n)
           sample_cow_tool 0 sample_store sample_input 4).
  - exact sample_separate_bits.
  - reflexivity.
Defined.

Lemma plan_masks_sound_witness :
  exists store' inherit' rebuild',
    planSections (masks := sample_alloc_masks)
      (fun _ _ _ => None) (fun _ _ _ _ => None)
      Interleave.getMetricsInterleave (fun n _ => n) (fun n => n)
      sample_tool 0 sample_store sample_input 4
    = Planned (store', (inherit', rebuild'))
    /\ Z.land inherit' rebuild' = 0
    /\ Z.land (rebuildSections sample_tool) rebuild' = rebuildSections sample_tool
    /\ (copyOnWrite sample_tool = 0 ->
        Z.land inherit' (inheritSections sample_tool) = inherit').
Proof.
  eexists _, _, _. split; [ reflexivity | ].
  eapply (plan_masks_sound (masks := sample_alloc_masks)
           (fun _ _ _ => None) (fun _ _ _ _ => None)
           Interleave.getMetricsInterleave (fun n _ => n) (fun n => n)
           sample_tool 0 sample_store sample_input 4).
  reflexivity.
Defined.

(** An input without signatures, none inherited and none asked for. *)
Definition sample_empty_input : input_t :=
  {| numSignature := 0; inSignatureIndexSize := 0;
     numHint := 0; inHintIndexSize := 0;
     inInterleave := 504; numImprint := 0; inImprintIndexSize := 0;
     numMember := 0; inMemberIndexSize := 0 |}.

Definition sample_bare_tool : dbtool_t :=
  {| opt_imprintIndexSize := 0; opt_hintIndexSize := 0; opt_interleave := 0;
     opt_maxHint := 0; opt_maxImprint := 0; opt_maxMember := 0;
     opt_maxSignature := 0; opt_memberIndexSize := 0;
     opt_signatureIndexSize := 0;
     copyOnWrite := 0; readOnlyMode := 0; rebuildSections := 0;
     inheritSections := 1 + 2 + 4 + 8 + 16 + 32 + 64 + 128 + 256 |}.

Lemma plan_no_data_no_index_witness :
  exists store' pm,
    planSections (masks := sample_alloc_masks)
      (fun _ _ _ => None) (fun _ _ _ _ => None)
      Interleave.getMetricsInterleave (fun n _ => n) (fun n => n)
      sample_bare_tool 0 sample_store sample_empty_input 4
    = Planned (store', pm)
    /\ maxSignature store' = 0
    /\ (maxSignature store' = 0 ->
        signatureIndexSize store' = 0 /\ interleave store' = 0
        /\ maxImprint store' = 0 /\ imprintIndexSize store' = 0)
    /\ (maxHint store' = 0 -> hintIndexSize store' = 0)
    /\ (maxImprint store' = 0 -> imprintIndexSize store' = 0)
    /\ (maxMember store' = 0 -> memberIndexSize store' = 0).
Proof.
  eexists _, _. split; [ reflexivity | ]. split; [ reflexivity | ].
  eapply (plan_no_data_no_index (masks := sample_alloc_masks)
           (fun _ _ _ => None) (fun _ _ _ _ => None)
           Interleave.getMetricsInterleave (fun n _ => n) (fun n => n)
           sample_bare_tool 0 sample_store sample_empty_input 4).
  reflexivity.
Defined.

(** [--interleave=120] on the sample input, whose interleave is 504. *)
Definition sample_interleave_tool : dbtool_t :=
  {| opt_imprintIndexSize := 0; opt_hintIndexSize := 0; opt_interleave := 120;
     opt_maxHint := 0; opt_maxImprint := 5000; opt_maxMember := 0;
     opt_maxSignature := 0; opt_memberIndexSize := 0;
     opt_signatureIndexSize := 0;
     copyOnWrite := 0; readOnlyMode := 0; rebuildSections := 0;
     inheritSections := 1 + 2 + 4 + 8 + 16 + 32 + 64 + 128 + 256 |}.

Lemma plan_interleave_change_rebuilds_witness :
  exists store' inherit' rebuild',
    planSections (masks := sample_alloc_masks)
      (fun _ _ _ => None) (fun _ _ _ _ => None)
      Interleave.getMetricsInterleave (fun n _ => n) (fun n => n)
      sample_interleave_tool 0 sample_store sample_input 4
    = Planned (store', (inherit', rebuild'))
    /\ interleave store' = 120
    /\ has rebuild' ALLOCMASK_IMPRINT = true
    /\ has inherit' ALLOCMASK_IMPRINT = false.
Proof.
  eexists _, _, _. split; [ reflexivity | ]. split; [ reflexivity | ].
  eapply (plan_interleave_change_rebuilds (masks := sample_alloc_masks)
           (fun _ _ _ => None) (fun _ _ _ _ => None)
           Interleave.getMetricsInterleave (fun n _ => n) (fun n => n)
           sample_interleave_tool 0 sample_store sample_input 4).
  - discriminate.
  - reflexivity.
  - discriminate.
  - discriminate.
Defined.

Lemma plan_imprint_inherited_under_cow_witness :
  exists store' inherit' rebuild',
    sample_cow_plan = Planned (store', (inherit', rebuild'))
    /\ numImprint sample_input < maxImprint store'
    /\ has inherit' ALLOCMASK_IMPRINT = true
    /\ has rebuild' ALLOCMASK_IMPRINT = false.
Proof.
  eexists _, _, _. split; [ reflexivity | ]. split; [ reflexivity | ].
  eapply (plan_imprint_inherited_under_cow (masks := sample_alloc_masks)
           (fun _ _ _ => None) (fun _ _ _ _ => None)
           Interleave.getMetricsInterleave (fun n _ => n) (fun n => n)
           sample_cow_tool 0 sample_store sample_input 4).
  - exact sample_separate_bits.
  - discriminate.
  - discriminate.
  - reflexivity.
  - reflexivity.
  - discriminate.
  - reflexivity.
  - discriminate.
Defined.

(** A read-only run without options. *)
Definition sample_readonly_tool : dbtool_t :=
  {| opt_imprintIndexSize := 0; opt_hintIndexSize := 0; opt_interleave := 0;
     opt_maxHint := 0; opt_maxImprint := 0; opt_maxMember := 0;
     opt_maxSignature := 0; opt_memberIndexSize := 0;
     opt_signatureIndexSize := 0;
     copyOnWrite := 0; readOnlyMode := 1; rebuildSections := 0;
     inheritSections := 0 |}.

Lemma plan_readonly_sizes_witness :
  exists store' pm,
    sizeDatabaseSections (masks := sample_alloc_masks)
      (fun _ _ _ => None) (fun _ _ _ _ => None)
      Interleave.getMetricsInterleave (fun n _ => n) (fun n => n)
      sample_readonly_tool 0 sample_store sample_input 4
    = Planned (store', pm)
    /\ (maxSignature store' = numSignature sample_input
        \/ (numSignature sample_input = 0 /\ maxSignature store' = 1))
    /\ (maxHint store' = numHint sample_input
        \/ (numHint sample_input = 0 /\ maxHint store' = 1))
    /\ (maxMember store' = numMember sample_input
        \/ (numMember sample_input = 0 /\ maxMember store' = 1)).
Proof.
  eexists _, _.
  eapply (plan_readonly_sizes (masks := sample_alloc_masks)
           (fun _ _ _ => None) (fun _ _ _ _ => None)
           Interleave.getMetricsInterleave (fun n _ => n) (fun n => n)
           sample_readonly_tool 0 sample_store sample_input 4).
  - discriminate.
  - reflexivity.
  - reflexivity.
  - reflexivity.
  - reflexivity.
Defined.

Lemma readonly_ignores_metrics_witness :
  sizeDatabaseSections (masks := sample_alloc_masks)
    (fun _ _ _ => None) (fun _ _ _ _ => None)
    Interleave.getMetricsInterleave (fun n _ => n) (fun n => n)
    sample_readonly_tool 0 sample_store sample_input 4
  = sizeDatabaseSections (masks := sample_alloc_masks)
      (fun _ _ _ => Some (mkGenerator 1 1 1)) (fun _ _ _ _ => Some 7)
      Interleave.getMetricsInterleave (fun n p => n + p) (fun n => 2 * n)
      sample_readonly_tool 0 sample_store sample_input 4.
Proof.
  apply (readonly_ignores_metrics (masks := sample_alloc_masks)).
  discriminate.
Defined.


(** *** The populator on the sample input *)

(** The sample input as a database, its arrays at addresses of their
    own, and the output database before the planner has sized it. *)
Definition sample_transform : transform_t :=
  mkTransform 362880 362880 (Some 10) (Some 11) (Some 12) (Some 13) (Some 14)
              362897 (Some 15) (Some 16).

Definition sample_db : database_t :=
  mkDatabase 0 sample_transform
             (mkData 10 10 (Some 20)) (mkIndex 53 (Some 21))
             (mkData 3 3 (Some 22)) (mkIndex 17 (Some 23))
             504 720
             (mkData 100 100 (Some 24)) (mkIndex 503 (Some 25))
             (mkData 20 20 (Some 26)) (mkIndex 101 (Some 27)).

Definition sample_blank : database_t :=
  mkDatabase 0 (mkTransform 0 0 None None None None None 0 None None)
             (mkData 0 0 None) (mkIndex 0 None)
             (mkData 0 0 None) (mkIndex 0 None)
             0 0
             (mkData 0 0 None) (mkIndex 0 None)
             (mkData 0 0 None) (mkIndex 0 None).

(** The output database once it carries the sizes of the plan for
    [sample_tool], with arrays of its own and [allocFlags] as given. *)
Definition sample_sized (alloc : Z) : database_t :=
  mkDatabase alloc (mkTransform 0 0 None None None None None 0 None None)
             (mkData 0 10 (Some 30)) (mkIndex 53 (Some 31))
             (mkData 0 3 (Some 32)) (mkIndex 17 (Some 33))
             504 720
             (mkData 0 5 (Some 34)) (mkIndex 503 (Some 35))
             (mkData 0 20 (Some 36)) (mkIndex 101 (Some 37)).

(** With [allocFlags] listing the signatures, which the plan inherits,
    the run stops at line 554, which compares no sizes. *)
Lemma populate_sizes_as_planned_witness :
  populateDatabaseSections 1 sample_tool (511, 0) (sample_sized 2) sample_db
    = AssertFailed 554
  /\ ~ In 554 size_assertions.
Proof.
  split; [ reflexivity | ].
  apply (populate_sizes_as_planned
           (fun _ _ _ => None) (fun _ _ _ _ => None)
           Interleave.getMetricsInterleave (fun n _ => n) (fun n => n)
           1 sample_tool 0 sample_blank (sample_sized 2) sample_db 4 (511, 0) 554);
    try discriminate; reflexivity.
Defined.

(** The plan for [sample_tool] leaves room for 5 imprints and inherits
    the section; the run returns with the 100 imprints of the input. *)
Lemma populate_imprints_over_capacity_witness :
  exists store' log,
    populateDatabaseSections 1 sample_tool (511, 0) (sample_sized 0) sample_db
      = Populated (store', log)
    /\ dMax (imprint store') = 5 /\ dNum (imprint store') = 100
    /\ dMax (imprint store') < dNum (imprint store')
    /\ dPtr (imprint store') = dPtr (imprint sample_db)
    /\ has (Ref.lnot32 (allocFlags (sample_sized 0))) ALLOCMASK_IMPRINT = true
    /\ (has 511 ALLOCMASK_IMPRINT = true \/ copyOnWrite sample_tool <> 0).
Proof.
  eexists _, _. split; [ reflexivity | ].
  split; [ reflexivity | ]. split; [ reflexivity | ].
  eapply (populate_imprints_over_capacity 1 sample_tool 511 0
            (sample_sized 0) sample_db).
  - cbn. lia.
  - reflexivity.
  - reflexivity.
Defined.

(** Nothing but the transforms inherited, every section enlarged by an
    option and every index kept at the size of the input's. *)
Definition sample_copy_tool : dbtool_t :=
  {| opt_imprintIndexSize := 503; opt_hintIndexSize := 17; opt_interleave := 0;
     opt_maxHint := 5; opt_maxImprint := 500; opt_maxMember := 30;
     opt_maxSignature := 40; opt_memberIndexSize := 101;
     opt_signatureIndexSize := 53;
     copyOnWrite := 0; readOnlyMode := 0; rebuildSections := 0;
     inheritSections := 1 |}.

Definition sample_copy_store : database_t :=
  mkDatabase 510 (mkTransform 0 0 None None None None None 0 None None)
             (mkData 0 40 (Some 30)) (mkIndex 53 (Some 31))
             (mkData 0 5 (Some 32)) (mkIndex 17 (Some 33))
             504 720
             (mkData 0 500 (Some 34)) (mkIndex 503 (Some 35))
             (mkData 0 30 (Some 36)) (mkIndex 101 (Some 37)).

Lemma populate_keeps_input_witness :
  exists store' log,
    populateDatabaseSections 1 sample_copy_tool (1, 0) sample_copy_store sample_db
      = Populated (store', log)
    /\ dMax (signature sample_copy_store) <> 0
    /\ has (Ref.lnot32 0) ALLOCMASK_SIGNATURE = true
    /\ In (Memcpy (Some 30) (Some 20) 10) log
    /\ (dMax (signature sample_copy_store) <> 0 ->
        has (Ref.lnot32 0) ALLOCMASK_SIGNATURE = true ->
        settled (allocFlags sample_copy_store) ALLOCMASK_SIGNATURE
                (signature sample_copy_store) (signature sample_db)
                (signature store') log)
    /\ (dMax (hint sample_copy_store) <> 0 ->
        has (Ref.lnot32 0) ALLOCMASK_HINT = true ->
        settled (allocFlags sample_copy_store) ALLOCMASK_HINT
                (hint sample_copy_store) (hint sample_db) (hint store') log)
    /\ (dMax (member sample_copy_store) <> 0 ->
        has (Ref.lnot32 0) ALLOCMASK_MEMBER = true ->
        settled (allocFlags sample_copy_store) ALLOCMASK_MEMBER
                (member sample_copy_store) (member sample_db)
                (member store') log).
Proof.
  eexists _, _. split; [ reflexivity | ].
  split; [ discriminate | ]. split; [ reflexivity | ].
  split; [ left; reflexivity | ].
  apply (populate_keeps_input
           (fun _ _ _ => None) (fun _ _ _ _ => None)
           Interleave.getMetricsInterleave (fun n _ => n) (fun n => n)
           1 sample_copy_tool 0 sample_blank sample_copy_store sample_db _ 4 1 0);
    reflexivity.
Defined.

(** As [genmember] sets out: copy-on-write, the signatures to be rebuilt
    and [--maxsignature] at the input's count; the signatures and the
    members are not offered for inheriting. *)
Definition sample_rebuild_tool : dbtool_t :=
  {| opt_imprintIndexSize := 0; opt_hintIndexSize := 0; opt_interleave := 0;
     opt_maxHint := 0; opt_maxImprint := 0; opt_maxMember := 20;
     opt_maxSignature := 10; opt_memberIndexSize := 101;
     opt_signatureIndexSize := 0;
     copyOnWrite := 1; readOnlyMode := 0; rebuildSections := 2;
     inheritSections := 1 + 4 + 8 + 16 + 32 + 64 |}.

Definition sample_rebuild_store : database_t :=
  mkDatabase 0 (mkTransform 0 0 None None None None None 0 None None)
             (mkData 0 10 (Some 30)) (mkIndex 53 (Some 31))
             (mkData 0 3 (Some 32)) (mkIndex 17 (Some 33))
             504 720
             (mkData 0 100 (Some 34)) (mkIndex 503 (Some 35))
             (mkData 0 20 (Some 36)) (mkIndex 101 (Some 37)).

Lemma populate_rebuild_shares_input_witness :
  exists store' log,
    populateDatabaseSections 1 sample_rebuild_tool (509, 2)
                             sample_rebuild_store sample_db
      = Populated (store', log)
    /\ within ALLOCMASK_SIGNATURE (rebuildSections sample_rebuild_tool)
    /\ dPtr (signature store') = Some 20
    /\ (within ALLOCMASK_SIGNATURE (rebuildSections sample_rebuild_tool) ->
        0 < dNum (signature sample_db) ->
        dMax (signature sample_rebuild_store) = dNum (signature sample_db) ->
        within ALLOCMASK_SIGNATURE 2
        /\ has 509 ALLOCMASK_SIGNATURE = false
        /\ signature store'
           = mkData (dNum (signature sample_db))
                    (dMax (signature sample_rebuild_store))
                    (dPtr (signature sample_db))
        /\ has (Ref.lnot32 (allocFlags sample_rebuild_store))
               ALLOCMASK_SIGNATURE = true)
    /\ (within ALLOCMASK_HINT (rebuildSections sample_rebuild_tool) ->
        0 < dNum (hint sample_db) ->
        dMax (hint sample_rebuild_store) = dNum (hint sample_db) ->
        within ALLOCMASK_HINT 2
        /\ has 509 ALLOCMASK_HINT = false
        /\ hint store'
           = mkData (dNum (hint sample_db)) (dMax (hint sample_rebuild_store))
                    (dPtr (hint sample_db))
        /\ has (Ref.lnot32 (allocFlags sample_rebuild_store))
               ALLOCMASK_HINT = true)
    /\ (within ALLOCMASK_IMPRINT (rebuildSections sample_rebuild_tool) ->
        0 < dNum (imprint sample_db) ->
        dMax (imprint sample_rebuild_store) = dNum (imprint sample_db) ->
        within ALLOCMASK_IMPRINT 2
        /\ has 509 ALLOCMASK_IMPRINT = false
        /\ imprint store'
           = mkData (dNum (imprint sample_db))
                    (dMax (imprint sample_rebuild_store))
                    (dPtr (imprint sample_db))
        /\ has (Ref.lnot32 (allocFlags sample_rebuild_store))
               ALLOCMASK_IMPRINT = true)
    /\ (within ALLOCMASK_MEMBER (rebuildSections sample_rebuild_tool) ->
        0 < dNum (member sample_db) ->
        dMax (member sample_rebuild_store) = dNum (member sample_db) ->
        within ALLOCMASK_MEMBER 2
        /\ has 509 ALLOCMASK_MEMBER = false
        /\ member store'
           = mkData (dNum (member sample_db))
                    (dMax (member sample_rebuild_store))
                    (dPtr (member sample_db))
        /\ has (Ref.lnot32 (allocFlags sample_rebuild_store))
               ALLOCMASK_MEMBER = true).
Proof.
  eexists _, _. split; [ reflexivity | ].
  split; [ reflexivity | ]. split; [ reflexivity | ].
  eapply (populate_rebuild_shares_input
           (fun _ _ _ => None) (fun _ _ _ _ => None)
           Interleave.getMetricsInterleave (fun n _ => n) (fun n => n)
           1 sample_rebuild_tool 0 sample_blank sample_rebuild_store sample_db
           _ 4 509 2);
    [ discriminate | reflexivity | reflexivity ].
Defined.
End Planner.

(** ** The member engine (genmember.cc) *)

Module Member.

(** datadef.h is not among the sources, so the bits of the member and
    signature flags are left open. *)
Class record_masks := {
  MEMMASK_SAFE : Z;
  MEMMASK_COMP : Z;
  MEMMASK_DEPR : Z;
  SIGMASK_SAFE : Z
}.

(** Modelled from the spec: [member_t::MAXHEAD] (datadef.h), "up to 6 head
    references". *)
Definition MAXHEAD : nat := 6.

Definition OPTTEXT_WON     : Z := 1.
Definition OPTTEXT_COMPARE : Z := 2.

(** [(uint32_t) x] and [(int) x] of a 32-bit value. *)
Definition wrap32 (x : Z) : Z := x mod 2 ^ 32.
Definition toInt32 (x : Z) : Z :=
  if wrap32 x <? 2 ^ 31 then wrap32 x else wrap32 x - 2 ^ 32.

(** [mask & bit] as a C condition. *)
Definition has (mask bit : Z) : bool := negb (Z.land mask bit =? 0).

(** The fields of [member_t] that genmember.cc uses. *)
Record member_t := mkMember {
  name           : string;
  sid            : Z;
  tid            : Z;
  size           : Z;
  numPlaceholder : Z;
  numEndpoint    : Z;
  numBackRef     : Z;
  flags          : Z;
  Qmt            : Z;
  Tmt            : Z;
  Fmt            : Z;
  heads          : list Z;
  nextMember     : Z
}.

(** [::memset(&member, 0, sizeof(member))] *)
Definition zeroMember : member_t :=
  mkMember "" 0 0 0 0 0 0 0 0 0 0 (repeat 0 MAXHEAD) 0.

Definition withFlags (m : member_t) (v : Z) : member_t :=
  mkMember (name m) (sid m) (tid m) (size m) (numPlaceholder m) (numEndpoint m)
           (numBackRef m) v (Qmt m) (Tmt m) (Fmt m) (heads m) (nextMember m).
Definition withTid (m : member_t) (v : Z) : member_t :=
  mkMember (name m) (sid m) v (size m) (numPlaceholder m) (numEndpoint m)
           (numBackRef m) (flags m) (Qmt m) (Tmt m) (Fmt m) (heads m) (nextMember m).
Definition withQmt (m : member_t) (v : Z) : member_t :=
  mkMember (name m) (sid m) (tid m) (size m) (numPlaceholder m) (numEndpoint m)
           (numBackRef m) (flags m) v (Tmt m) (Fmt m) (heads m) (nextMember m).
Definition withTmt (m : member_t) (v : Z) : member_t :=
  mkMember (name m) (sid m) (tid m) (size m) (numPlaceholder m) (numEndpoint m)
           (numBackRef m) (flags m) (Qmt m) v (Fmt m) (heads m) (nextMember m).
Definition withFmt (m : member_t) (v : Z) : member_t :=
  mkMember (name m) (sid m) (tid m) (size m) (numPlaceholder m) (numEndpoint m)
           (numBackRef m) (flags m) (Qmt m) (Tmt m) v (heads m) (nextMember m).
Definition withHeads (m : member_t) (v : list Z) : member_t :=
  mkMember (name m) (sid m) (tid m) (size m) (numPlaceholder m) (numEndpoint m)
           (numBackRef m) (flags m) (Qmt m) (Tmt m) (Fmt m) v (nextMember m).
Definition withNextMember (m : member_t) (v : Z) : member_t :=
  mkMember (name m) (sid m) (tid m) (size m) (numPlaceholder m) (numEndpoint m)
           (numBackRef m) (flags m) (Qmt m) (Tmt m) (Fmt m) (heads m) v.
Definition withName (m : member_t) (v : string) : member_t :=
  mkMember v (sid m) (tid m) (size m) (numPlaceholder m) (numEndpoint m)
           (numBackRef m) (flags m) (Qmt m) (Tmt m) (Fmt m) (heads m) (nextMember m).

(** The fields of [signature_t] that [foundTreeMember] uses. *)
Record signature_t := mkSignature {
  sigFlags    : Z;
  sigSize     : Z;
  firstMember : Z
}.

Record pair_t := mkPair { sidmid : Z; pairTid : Z }.

(** The sections of [database_t], each with the fields genmember.cc
    reads or writes.  Arrays are addressed by id. *)
Record signatureSection := mkSignatures {
  maxSignature : Z;
  numSignature : Z;
  signatures   : Z -> signature_t
}.

Record imprintSection (imprints_t : Type) := mkImprints {
  interleave : Z;
  maxImprint : Z;
  numImprint : Z;
  imprints   : imprints_t      (* the imprints and their index *)
}.
Arguments mkImprints {imprints_t}.
Arguments interleave {imprints_t}.
Arguments maxImprint {imprints_t}.
Arguments numImprint {imprints_t}.
Arguments imprints {imprints_t}.

Record memberSection := mkMembers {
  maxMember   : Z;
  numMember   : Z;
  members     : Z -> member_t;
  memberIndex : Z -> Z
}.

Record pairSection := mkPairs {
  maxPair   : Z;
  numPair   : Z;
  pairs     : Z -> pair_t;
  pairIndex : Z -> Z
}.

Record database_t (imprints_t : Type) := mkDatabase {
  dbSignatures : signatureSection;
  dbImprints   : imprintSection imprints_t;
  dbMembers    : memberSection;
  dbPairs      : pairSection
}.
Arguments mkDatabase {imprints_t}.
Arguments dbSignatures {imprints_t}.
Arguments dbImprints {imprints_t}.
Arguments dbMembers {imprints_t}.
Arguments dbPairs {imprints_t}.

(** The state of [genmemberContext_t] that the engine reads or writes,
    with [progress] and [flags] of the I/O context. *)
Record genmemberContext_t (imprints_t : Type) := mkApp {
  opt_text      : Z;
  opt_truncate  : bool;            (* [if (this->opt_truncate)] *)
  readOnlyMode  : Z;
  ctxFlags      : Z;
  ctxProgress   : Z;
  pSafeScores   : Z -> Z;
  pStore        : database_t imprints_t;
  freeMemberRoot : Z;
  numEmpty      : Z;
  numUnsafe     : Z;
  skipDuplicate : Z;
  skipSize      : Z;
  skipUnsafe    : Z;
  truncated     : Z;
  truncatedName : string
}.
Arguments mkApp {imprints_t}.
Arguments opt_text {imprints_t}.
Arguments opt_truncate {imprints_t}.
Arguments readOnlyMode {imprints_t}.
Arguments ctxFlags {imprints_t}.
Arguments ctxProgress {imprints_t}.
Arguments pSafeScores {imprints_t}.
Arguments pStore {imprints_t}.
Arguments freeMemberRoot {imprints_t}.
Arguments numEmpty {imprints_t}.
Arguments numUnsafe {imprints_t}.
Arguments skipDuplicate {imprints_t}.
Arguments skipSize {imprints_t}.
Arguments skipUnsafe {imprints_t}.
Arguments truncated {imprints_t}.
Arguments truncatedName {imprints_t}.

(** How a call of the engine ends. *)
Inductive ended (A : Type) :=
| Done (a : A)        (* the call returns *)
| AssertFailed        (* an [assert] failed *)
| FatalError          (* a database helper called [ctx.fatal] *)
| OutOfTurns.         (* a member chain longer than the member section *)
Arguments Done {A} a.
Arguments AssertFailed {A}.
Arguments FatalError {A}.
Arguments OutOfTurns {A}.

Definition upd {A : Type} (a : Z -> A) (i : Z) (v : A) : Z -> A :=
  fun j => if j =? i then v else a j.


Section Engine.
Context {cmasks : context_masks} {rmasks : record_masks}.
Variable imprints_t : Type.

Local Abbreviation database := (database_t imprints_t).
Local Abbreviation app_t := (genmemberContext_t imprints_t).

(** database.h and the tinytree.h of this generation are not among the
    sources; the engine's calls into them are parameters.  The failure of
    an [add...] helper is its [ctx.fatal("storage full")]. *)
Variable lookupMember : memberSection -> string -> Z.
Variable addMember : memberSection -> string -> option (memberSection * Z).
Variable lookupPair : pairSection -> Z -> Z -> Z.
Variable addPair : pairSection -> Z -> Z -> option (pairSection * Z).
Variable lookupFwdTransform : string -> Z.
Variable lookupImprintAssociative :
  imprintSection imprints_t -> TinyTree.tinyTree_t -> Z * Z.
Variable addImprintAssociative :
  imprintSection imprints_t -> TinyTree.tinyTree_t -> Z ->
  option (imprintSection imprints_t * Z).
(** [tree.saveString(id, name, skin)]: the name and the skin;
    [tree.saveString(id, name)] is the call without skin. *)
Variable saveString : TinyTree.tinyTree_t -> Z -> bool -> string * string.
Variable loadStringSafe : string -> TinyTree.tinyTree_t.
(** [tinyTree_t::calcScoreName], and [treeL.compare(treeL.root, treeR,
    treeR.root)] of the trees that [loadStringFast] builds from two names. *)
Variable calcScoreName : string -> Z.
Variable compareNames : string -> string -> Z.
(** The head of [treeR] that leaves out node [iHead] (the two scans of
    [findHeadTail] that select and copy the other nodes; the copy orders
    dyadics with [tree.compare]). *)
Variable extractHead : TinyTree.tinyTree_t -> Z -> TinyTree.tinyTree_t.
(** [pMember - pStore->members] for the local [tmpMember] of
    [foundTreeMember]. *)
Variable tmpMemberIndex : Z.

(** *** [comparMember]

    [lhs] and [rhs] point into [members]; they are modelled by the ids
    they point at. *)
Definition comparMember (members : Z -> member_t) (lhs rhs : Z) : Z :=
  if lhs =? rhs then 0 else
  let pMemberL := members lhs in
  let pMemberR := members rhs in
  (* test for empties (they should gather towards the end of members[]) *)
  if (sid pMemberL =? 0) && (sid pMemberR =? 0) then 0
  else if sid pMemberL =? 0 then 1
  else if sid pMemberR =? 0 then -1
  (* safes go first *)
  else if has (flags pMemberL) MEMMASK_SAFE && negb (has (flags pMemberR) MEMMASK_SAFE)
  then -1
  else if negb (has (flags pMemberL) MEMMASK_SAFE) && has (flags pMemberR) MEMMASK_SAFE
  then 1
  (* depreciates go last *)
  else if has (flags pMemberL) MEMMASK_DEPR && negb (has (flags pMemberR) MEMMASK_DEPR)
  then 1
  else if negb (has (flags pMemberL) MEMMASK_DEPR) && has (flags pMemberR) MEMMASK_DEPR
  then -1
  (* components go first *)
  else if has (flags pMemberL) MEMMASK_COMP && negb (has (flags pMemberR) MEMMASK_COMP)
  then -1
  else if negb (has (flags pMemberL) MEMMASK_COMP) && has (flags pMemberR) MEMMASK_COMP
  then -1
  else
    (* compare scores *)
    let scoreL := calcScoreName (name pMemberL) in
    let scoreR := calcScoreName (name pMemberR) in
    let cmp := toInt32 (scoreL - scoreR) in
    if negb (cmp =? 0) then cmp
    else
      (* compare trees *)
      compareNames (name pMemberL) (name pMemberR).

(** *** [findHeadTail] *)

(** The lookup of a tail: by its name with skin, and when that has no
    entry, by the name the safe parser makes of it. *)
Definition lookupTail (mems : memberSection) (treeR : TinyTree.tinyTree_t) (id : Z)
  : Z * string :=
  let '(name, skin) := saveString treeR id true in      (* fast *)
  let ix := lookupMember mems name in
  if memberIndex mems ix =? 0 then
    (* slow *)
    let '(name, _) := saveString treeR id false in
    let tree2 := loadStringSafe name in
    let '(name, skin) := saveString tree2 (TinyTree.root tree2) true in
    (memberIndex mems (lookupMember mems name), skin)
  else (memberIndex mems ix, skin).

(** The lookup of the head that leaves out [iHead]. *)
Definition lookupHead (mems : memberSection) (treeR : TinyTree.tinyTree_t) (iHead : Z)
  : Z :=
  let tree := extractHead treeR iHead in
  let '(name, skin) := saveString tree (TinyTree.root tree) true in
  let ix := lookupMember mems name in
  if memberIndex mems ix =? 0 then
    let tree2 := loadStringSafe name in
    let '(name, skin) := saveString tree2 (TinyTree.root tree2) true in
    memberIndex mems (lookupMember mems name)
  else memberIndex mems ix.

(** "convert mid/tid to pair": the pair id of [(mid, tid)], added when new. *)
Definition internPair (prs : pairSection) (mid tid : Z) : option (pairSection * Z) :=
  let ix := lookupPair prs mid tid in
  if pairIndex prs ix =? 0 then
    match addPair prs mid tid with
    | None => None
    | Some (prs, id) =>
        Some (mkPairs (maxPair prs) (numPair prs) (pairs prs) (upd (pairIndex prs) ix id),
              id)
    end
  else Some (prs, pairIndex prs ix).

(** "member is unsafe if component not found or unsafe" *)
Definition unsafeComponent (mems : memberSection) (mid : Z) : bool :=
  (mid =? 0) || negb (has (flags (members mems mid)) MEMMASK_SAFE).

Definition setPairs (db : database) (prs : pairSection) : database :=
  mkDatabase (dbSignatures db) (dbImprints db) (dbMembers db) prs.

(** One tail of [findHeadTail]: [Done (inl member)] is its
    [return false], [Done (inr ...)] goes on with the pair id. *)
Definition tailStep (db : database) (pMember : member_t)
    (treeR : TinyTree.tinyTree_t) (id : Z)
  : ended (member_t + (database * Z)) :=
  let '(mid, skin) := lookupTail (dbMembers db) treeR id in
  if unsafeComponent (dbMembers db) mid then
    Done (inl (withFlags pMember (Z.ldiff (flags pMember) MEMMASK_SAFE)))
  else
    match internPair (dbPairs db) mid (lookupFwdTransform skin) with
    | None => FatalError
    | Some (prs, pid) => Done (inr (setPairs db prs, pid))
    end.

(** [heads[k] = v] *)
Fixpoint setNth (l : list Z) (k : nat) (v : Z) : list Z :=
  match l, k with
  | [], _ => []
  | _ :: l', O => v :: l'
  | x :: l', S k' => x :: setNth l' k' v
  end.

(** "test if head already present":
    [for (k = 0; k < MAXHEAD && heads[k]; k++) if (heads[k] == midHead) ...] *)
Fixpoint headPresent (hs : list Z) (midHead : Z) : bool :=
  match hs with
  | [] => false
  | h :: hs' =>
      if h =? 0 then false
      else if h =? midHead then true
      else headPresent hs' midHead
  end.

(** The loop over [iHead]; [inl] is a [return false]. *)
Fixpoint headsLoop (mems : memberSection) (treeR : TinyTree.tinyTree_t)
    (pMember : member_t) (numHead : nat) (iHeads : list Z)
  : ended (member_t + member_t) :=
  match iHeads with
  | [] => Done (inr pMember)
  | iHead :: rest =>
      let midHead := lookupHead mems treeR iHead in
      if midHead =? 0 then
        (* component not found *)
        Done (inl (withFlags pMember (Z.ldiff (flags pMember) MEMMASK_SAFE)))
      else if negb (has (flags (members mems midHead)) MEMMASK_SAFE) then
        (* component unsafe *)
        Done (inl (withFlags pMember (Z.ldiff (flags pMember) MEMMASK_SAFE)))
      else if headPresent (heads pMember) midHead then
        headsLoop mems treeR pMember numHead rest
      else if negb (numHead <? MAXHEAD)%nat then AssertFailed
      else
        headsLoop mems treeR
                  (withHeads pMember (setNth (heads pMember) numHead midHead))
                  (S numHead) rest
  end.

(** The ids [from, from + 1, ..., below - 1]. *)
Definition idsBetween (from below : Z) : list Z :=
  map (fun k => from + Z.of_nat k) (seq 0 (Z.to_nat (below - from))).

(** [findHeadTail(pMember, treeR)], [iMid] being [pMember - pStore->members]
    and [flagsOfCtx] being [ctx.flags]: the value returned, the member and
    the database. *)
Definition findHeadTail (flagsOfCtx : Z) (db : database) (pMember : member_t)
    (iMid : Z) (treeR : TinyTree.tinyTree_t)
  : ended (bool * member_t * database) :=
  let root := TinyTree.root treeR in
  if Ref.inverted root then AssertFailed else
  (* safe until proven otherwise *)
  let pMember := withFlags pMember (Z.lor (flags pMember) MEMMASK_SAFE) in
  if root =? 0 then
    if negb (String.eqb (name pMember) "0") || negb (sid pMember =? 1)
    then AssertFailed
    else
      let pid := pairIndex (dbPairs db) (lookupPair (dbPairs db) iMid 0) in
      Done (true, withFmt (withTmt (withQmt (withTid pMember 0) pid) pid) pid, db)
  else if root =? TinyTree.TINYTREE_KSTART then
    if negb (String.eqb (name pMember) "a") || negb (sid pMember =? 2)
    then AssertFailed
    else
      let pid := pairIndex (dbPairs db) (lookupPair (dbPairs db) iMid 0) in
      Done (true, withFmt (withTmt (withQmt (withTid pMember 0) pid) pid) pid, db)
  else if negb (TinyTree.TINYTREE_NSTART <=? root) then AssertFailed
  else
    let node := TinyTree.N treeR root in
    let Q := TinyTree.Q node in
    let Tu := Ref.strip (TinyTree.T node) in
    let F := TinyTree.F node in
    match tailStep db pMember treeR Q with
    | AssertFailed => AssertFailed | FatalError => FatalError | OutOfTurns => OutOfTurns
    | Done (inl pMember) => Done (false, pMember, db)
    | Done (inr (db, pid)) =>
    let pMember := withQmt pMember pid in
    match tailStep db pMember treeR Tu with
    | AssertFailed => AssertFailed | FatalError => FatalError | OutOfTurns => OutOfTurns
    | Done (inl pMember) => Done (false, pMember, db)
    | Done (inr (db, pid)) =>
    let pMember := withTmt pMember pid in
    match (if F =? Tu
           then Done (inr (db, 0))                       (* de-dup T/F *)
           else tailStep db pMember treeR F) with
    | AssertFailed => AssertFailed | FatalError => FatalError | OutOfTurns => OutOfTurns
    | Done (inl pMember) => Done (false, pMember, db)
    | Done (inr (db, pid)) =>
    let pMember := withFmt pMember pid in
    (* erase heads, they may contain random values *)
    let pMember := withHeads pMember (repeat 0 MAXHEAD) in
    match headsLoop (dbMembers db) treeR pMember 0
                    (idsBetween TinyTree.TINYTREE_NSTART root) with
    | AssertFailed => AssertFailed | FatalError => FatalError | OutOfTurns => OutOfTurns
    | Done (inl pMember) => Done (false, pMember, db)
    | Done (inr pMember) =>
        let below (pid : Z) :=
          (pid =? 0) || (sidmid (pairs (dbPairs db) pid) <? iMid) in
        if has flagsOfCtx MAGICMASK_PARANOID
           && negb (below (Qmt pMember) && below (Tmt pMember) && below (Fmt pMember)
                    && forallb (fun h => (h =? 0) || (h <? iMid)) (heads pMember))
        then AssertFailed
        else Done (true, pMember, db)
    end end end end.

(** *** [memberAlloc], [memberFree] and the flush of a group *)

Definition setMembers (db : database) (mems : memberSection) : database :=
  mkDatabase (dbSignatures db) (dbImprints db) mems (dbPairs db).

Definition setSignature (db : database) (iSid : Z) (sig : signature_t) : database :=
  mkDatabase (mkSignatures (maxSignature (dbSignatures db))
                           (numSignature (dbSignatures db))
                           (upd (signatures (dbSignatures db)) iSid sig))
             (dbImprints db) (dbMembers db) (dbPairs db).

Definition setMember (mems : memberSection) (mid : Z) (m : member_t) : memberSection :=
  mkMembers (maxMember mems) (numMember mems) (upd (members mems) mid m)
            (memberIndex mems).

(** [memberAlloc(pName)]: the id of the member, the member section and
    the new head of the free list. *)
Definition memberAlloc (mems : memberSection) (freeRoot : Z) (pName : string)
  : option (Z * memberSection * Z) :=
  let mid := freeRoot in
  if negb (mid =? 0) then
    (* pop from free list, populate with name *)
    let pMember := members mems mid in
    Some (mid, setMember mems mid (withName pMember pName), nextMember pMember)
  else
    match addMember mems pName with
    | None => None
    | Some (mems, mid) => Some (mid, mems, freeRoot)
    end.

(** [memberFree(pMember)] for the member with id [mid]. *)
Definition memberFree (mems : memberSection) (freeRoot : Z) (mid : Z)
  : memberSection * Z :=
  (setMember mems mid (withNextMember zeroMember freeRoot), mid).

(** "remove all references to the deleted": the body of the loop over
    [iMid] for one member [p]. *)
Definition dropReferences (prs : pairSection) (deleted : Z) (p : member_t)
  : option member_t :=
  let drop (get : member_t -> Z) (set : member_t -> Z -> member_t) (p : option member_t) :=
    match p with
    | None => None
    | Some p =>
        if sidmid (pairs prs (get p)) =? deleted then
          if has (flags p) MEMMASK_SAFE then None       (* the assert *)
          else Some (set p 0)
        else Some p
    end in
  drop Fmt withFmt (drop Tmt withTmt (drop Qmt withQmt (Some p))).

Fixpoint dropReferencesLoop (prs : pairSection) (deleted : Z)
    (mems : memberSection) (iMids : list Z) : option memberSection :=
  match iMids with
  | [] => Some mems
  | iMid :: rest =>
      match dropReferences prs deleted (members mems iMid) with
      | None => None
      | Some p => dropReferencesLoop prs deleted (setMember mems iMid p) rest
      end
  end.

(** [while (pSignature->firstMember) { ... }]: at most [turns] members
    are released. *)
Fixpoint flushGroup (turns : nat) (prs : pairSection) (mems : memberSection)
    (freeRoot : Z) (first : Z) : ended (memberSection * Z) :=
  if first =? 0 then Done (mems, freeRoot) else
  match turns with
  | O => OutOfTurns
  | S turns' =>
      match dropReferencesLoop prs first mems (idsBetween 1 (numMember mems)) with
      | None => AssertFailed
      | Some mems =>
          (* release head of chain *)
          let next := nextMember (members mems first) in
          let '(mems, freeRoot) := memberFree mems freeRoot first in
          flushGroup turns' prs mems freeRoot next
      end
  end.

(** *** [foundTreeMember]

    The progress display on the terminal (the block under
    [ctx.opt_verbose >= ctx.VERBOSE_TICK]) and the lines printed for
    [--text] touch nothing of the state below and are left out. *)

Definition setStore (app : app_t) (db : database) : app_t :=
  mkApp (opt_text app) (opt_truncate app) (readOnlyMode app) (ctxFlags app)
        (ctxProgress app) (pSafeScores app) db (freeMemberRoot app)
        (numEmpty app) (numUnsafe app) (skipDuplicate app) (skipSize app)
        (skipUnsafe app) (truncated app) (truncatedName app).

Definition withSkipDuplicate (app : app_t) (v : Z) : app_t :=
  mkApp (opt_text app) (opt_truncate app) (readOnlyMode app) (ctxFlags app)
        (ctxProgress app) (pSafeScores app) (pStore app) (freeMemberRoot app)
        (numEmpty app) (numUnsafe app) v (skipSize app)
        (skipUnsafe app) (truncated app) (truncatedName app).

Definition withSkipSize (app : app_t) (v : Z) : app_t :=
  mkApp (opt_text app) (opt_truncate app) (readOnlyMode app) (ctxFlags app)
        (ctxProgress app) (pSafeScores app) (pStore app) (freeMemberRoot app)
        (numEmpty app) (numUnsafe app) (skipDuplicate app) v
        (skipUnsafe app) (truncated app) (truncatedName app).

Definition withSkipUnsafe (app : app_t) (v : Z) : app_t :=
  mkApp (opt_text app) (opt_truncate app) (readOnlyMode app) (ctxFlags app)
        (ctxProgress app) (pSafeScores app) (pStore app) (freeMemberRoot app)
        (numEmpty app) (numUnsafe app) (skipDuplicate app) (skipSize app)
        v (truncated app) (truncatedName app).

Definition withTruncated (app : app_t) (v : Z) (pName : string) : app_t :=
  mkApp (opt_text app) (opt_truncate app) (readOnlyMode app) (ctxFlags app)
        (ctxProgress app) (pSafeScores app) (pStore app) (freeMemberRoot app)
        (numEmpty app) (numUnsafe app) (skipDuplicate app) (skipSize app)
        (skipUnsafe app) v pName.

(** The tail of [foundTreeMember] from "won challenge" on: the flush, the
    promotion of the group and the admission of [tmpMember]. *)
Definition acceptMember (app : app_t) (db : database) (mix iSid : Z) (cmp : ascii)
    (tmpMember : member_t) (pNameR : string) (sizeR : Z)
  : ended (bool * app_t) :=
  let pSignature := signatures (dbSignatures db) iSid in
  let mems := dbMembers db in
  let freeRoot := freeMemberRoot app in
  let numEmpty' := numEmpty app in
  (* group flush *)
  match
    (if ((cmp =? ">")%char || (cmp =? "!")%char)
        && negb (firstMember pSignature =? 0) then
       if negb (readOnlyMode app =? 0) then
         (* member chain cannot be modified *)
         Done (mems, freeRoot, 0, wrap32 (numEmpty' + 1))
       else
         match flushGroup (Z.to_nat (numMember mems)) (dbPairs db) mems freeRoot
                          (firstMember pSignature) with
         | Done (mems, freeRoot) => Done (mems, freeRoot, 0, wrap32 (numEmpty' + 1))
         | AssertFailed => AssertFailed
         | FatalError => FatalError
         | OutOfTurns => OutOfTurns
         end
     else Done (mems, freeRoot, firstMember pSignature, numEmpty'))
  with
  | AssertFailed => AssertFailed | FatalError => FatalError | OutOfTurns => OutOfTurns
  | Done (mems, freeRoot, first, numEmpty') =>
      (* mark group as safe *)
      let '(sflags, numUnsafe') :=
        if (cmp =? ">")%char
        then (Z.lor (sigFlags pSignature) SIGMASK_SAFE, wrap32 (numUnsafe app - 1))
        else (sigFlags pSignature, numUnsafe app) in
      (* going to add member to group *)
      let numEmpty' := if first =? 0 then wrap32 (numEmpty' - 1) else numEmpty' in
      (* promote candidate to member *)
      match
        (if negb (readOnlyMode app =? 0) then
           (* link a fake member to mark non-empty *)
           Some (mems, freeRoot, 1)
         else
           match memberAlloc mems freeRoot pNameR with
           | None => None
           | Some (mid, mems, freeRoot) =>
               (* populate, link, index *)
               let mems := setMember mems mid (withNextMember tmpMember first) in
               Some (mkMembers (maxMember mems) (numMember mems) (members mems)
                               (upd (memberIndex mems) mix mid),
                     freeRoot, mid)
           end)
      with
      | None => FatalError
      | Some (mems, freeRoot, first) =>
          let db := setSignature (setMembers db mems) iSid
                      (mkSignature sflags (sigSize pSignature) first) in
          Done (true,
                mkApp (opt_text app) (opt_truncate app) (readOnlyMode app)
                      (ctxFlags app) (ctxProgress app)
                      (* update global score *)
                      (upd (pSafeScores app) iSid (sizeR mod 2 ^ 16))
                      db freeRoot numEmpty' numUnsafe'
                      (skipDuplicate app) (skipSize app) (skipUnsafe app)
                      (truncated app) (truncatedName app))
      end
  end.

(** "Find the matching signature group": the database, [sid] and [tid];
    [None] is the [ctx.fatal] of [addImprintAssociative]. *)
Definition classify (app : app_t) (treeR : TinyTree.tinyTree_t)
  : option (database * Z * Z) :=
  let db := pStore app in
  let markSid := numSignature (dbSignatures db) in
  if has (ctxFlags app) MAGICMASK_AINF && (readOnlyMode app =? 0) then
    (* add to imprints to index *)
    match addImprintAssociative (dbImprints db) treeR markSid with
    | None => None
    | Some (imps, iSid) =>
        Some (mkDatabase (dbSignatures db) imps (dbMembers db) (dbPairs db), iSid, 0)
    end
  else
    let '(iSid, iTid) := lookupImprintAssociative (dbImprints db) treeR in
    Some (db, iSid, iTid).

(** "early-reject": the candidate is larger than its group takes. *)
Definition earlyReject (app : app_t) (pSignature : signature_t) (iSid sizeR : Z)
  : bool :=
  if has (sigFlags pSignature) SIGMASK_SAFE
  then pSafeScores app iSid <? sizeR
  else wrap32 (sigSize pSignature + 1) <? sizeR.

(** "Test for database overflow" *)
Definition overflowing (app : app_t) : bool :=
  let db := pStore app in
  opt_truncate app
  && ((wrap32 (maxImprint (dbImprints db) - numImprint (dbImprints db))
       <=? interleave (dbImprints db))
      || (wrap32 (maxSignature (dbSignatures db) - numSignature (dbSignatures db))
          <=? 1)).

(** The local [tmpMember] as [foundTreeMember] fills it in. *)
Definition newMember (pNameR : string) (iSid iTid sizeR : Z)
    (nPlaceholder nEndpoint nBackRef : Z) : member_t :=
  mkMember pNameR iSid iTid sizeR nPlaceholder nEndpoint nBackRef
           0 0 0 0 (repeat 0 MAXHEAD) 0.

(** [foundTreeMember(treeR, pNameR, numPlaceholder, numEndpoint, numBackRef)]:
    the value returned and the state the call leaves. *)
Definition foundTreeMember (app : app_t) (treeR : TinyTree.tinyTree_t)
    (pNameR : string) (nPlaceholder nEndpoint nBackRef : Z)
  : ended (bool * app_t) :=
  if negb (truncated app =? 0) then Done (false, app)   (* quit as fast as possible *)
  else
  let db := pStore app in
  (* test for duplicates *)
  let mix := lookupMember (dbMembers db) pNameR in
  if negb (memberIndex (dbMembers db) mix =? 0) then
    Done (true, withSkipDuplicate app (wrap32 (skipDuplicate app + 1)))
  else
  (* test for database overflow *)
  if overflowing app
  then Done (false, withTruncated app (ctxProgress app) pNameR)
  else
  (* find the matching signature group *)
  match classify app treeR with
  | None => FatalError
  | Some (db, iSid, iTid) =>
  let app := setStore app db in
  if iSid =? 0 then Done (true, app)                    (* not found *)
  else
  let pSignature := signatures (dbSignatures db) iSid in
  let sizeR := wrap32 (TinyTree.count treeR - TinyTree.TINYTREE_NSTART) in
  (* early-reject *)
  if earlyReject app pSignature iSid sizeR
  then Done (true, withSkipSize app (wrap32 (skipSize app + 1)))
  else
  (* determine if safe when heads/tails are all safe *)
  let tmpMember := newMember pNameR iSid iTid sizeR nPlaceholder nEndpoint nBackRef in
  match findHeadTail (ctxFlags app) db tmpMember tmpMemberIndex treeR with
  | AssertFailed => AssertFailed | FatalError => FatalError | OutOfTurns => OutOfTurns
  | Done (found, tmpMember, db) =>
  let app := setStore app db in
  (* verify if candidate member is acceptable *)
  if has (sigFlags pSignature) SIGMASK_SAFE then
    if negb (has (flags tmpMember) MEMMASK_SAFE) then
      (* group is safe, candidate not. Reject: cmp = '<', lost challenge *)
      Done (true, withSkipUnsafe app (wrap32 (skipUnsafe app + 1)))
    else
      (* group/candidate both safe. Accept *)
      acceptMember app db mix iSid "+" tmpMember pNameR sizeR
  else
    if has (flags tmpMember) MEMMASK_SAFE then
      (* group is unsafe, candidate is safe. Accept *)
      acceptMember app db mix iSid ">" tmpMember pNameR sizeR
    else
      (* group/candidate both unsafe. Accept *)
      acceptMember app db mix iSid "=" tmpMember pNameR sizeR
  end
  end.


(** *** The claims about the member engine *)

(** C2 at the inputs where it fails.  For two occupied members that agree
    on SAFE and on DEPR, of which only the right one is a COMPONENT, the
    order of the claim puts the right one first, which a comparator says
    with a positive result; [comparMember] answers [-1], and it answers
    [-1] with the two exchanged as well. *)
Theorem comparMember_components (members : Z -> member_t) (lhs rhs : Z) :
  lhs <> rhs ->
  sid (members lhs) <> 0 -> sid (members rhs) <> 0 ->
  has (flags (members lhs)) MEMMASK_SAFE = has (flags (members rhs)) MEMMASK_SAFE ->
  has (flags (members lhs)) MEMMASK_DEPR = has (flags (members rhs)) MEMMASK_DEPR ->
  has (flags (members lhs)) MEMMASK_COMP = false ->
  has (flags (members rhs)) MEMMASK_COMP = true ->
  comparMember members lhs rhs = -1
  /\ comparMember members rhs lhs = -1.
Proof.
  intros Hne HL HR Hsafe Hdepr HcL HcR. unfold comparMember.
  destruct (Z.eqb_spec lhs rhs) as [E | _]; [ contradiction | ].
  destruct (Z.eqb_spec rhs lhs) as [E | _]; [ congruence | ].
  destruct (Z.eqb_spec (sid (members lhs)) 0) as [E | _]; [ contradiction | ].
  destruct (Z.eqb_spec (sid (members rhs)) 0) as [E | _]; [ contradiction | ].
  rewrite Hsafe, Hdepr, HcL, HcR. cbn [andb negb].
  destruct (has (flags (members rhs)) MEMMASK_SAFE),
           (has (flags (members rhs)) MEMMASK_DEPR); split; reflexivity.
Qed.

(** Clearing SAFE clears it. *)
Lemma has_ldiff (x bit : Z) : has (Z.ldiff x bit) bit = false.
Proof.
  unfold has.
  replace (Z.land (Z.ldiff x bit) bit) with 0; [ reflexivity | ].
  symmetry. apply Z.bits_inj'. intros i Hi.
  rewrite Z.land_spec, Z.ldiff_spec, Z.bits_0.
  destruct (Z.testbit x i), (Z.testbit bit i); reflexivity.
Qed.

(** C9, as amended.  A call that is not cut short by an earlier
    truncation, for a candidate whose name is already in the member name
    index, returns [true] and leaves the state as it was but for
    [skipDuplicate], which goes up by 1 (as the unsigned 32-bit counter it
    is). *)
Theorem duplicate_only_counted (app : app_t) (treeR : TinyTree.tinyTree_t)
    (pNameR : string) (nPlaceholder nEndpoint nBackRef : Z) :
  truncated app = 0 ->
  memberIndex (dbMembers (pStore app))
              (lookupMember (dbMembers (pStore app)) pNameR) <> 0 ->
  foundTreeMember app treeR pNameR nPlaceholder nEndpoint nBackRef
    = Done (true, withSkipDuplicate app (wrap32 (skipDuplicate app + 1)))
  /\ (0 <= skipDuplicate app < 2 ^ 32 - 1 ->
      wrap32 (skipDuplicate app + 1) = skipDuplicate app + 1).
Proof.
  intros Ht Hdup. unfold foundTreeMember. rewrite Ht. cbn [Z.eqb negb].
  destruct (Z.eqb_spec (memberIndex (dbMembers (pStore app))
                          (lookupMember (dbMembers (pStore app)) pNameR)) 0)
    as [E | _]; [ contradiction | ].
  split; [ reflexivity | ].
  intros Hr. unfold wrap32. apply Z.mod_small. lia.
Qed.



(** **** Tails, heads and the verdict *)

(** The tail [id] has no entry in the member name index or resolves to a
    member without SAFE. *)
Definition tailUnsafe (mems : memberSection) (treeR : TinyTree.tinyTree_t) (id : Z)
  : bool :=
  unsafeComponent mems (fst (lookupTail mems treeR id)).

(** One of the tails [Q], [T & ~IBIT], [F] of the root is ([F] is not
    looked at when it is the same tree as [T & ~IBIT]). *)
Definition someTailUnsafe (mems : memberSection) (treeR : TinyTree.tinyTree_t) : bool :=
  let node := TinyTree.N treeR (TinyTree.root treeR) in
  tailUnsafe mems treeR (TinyTree.Q node)
  || tailUnsafe mems treeR (Ref.strip (TinyTree.T node))
  || (negb (TinyTree.F node =? Ref.strip (TinyTree.T node))
      && tailUnsafe mems treeR (TinyTree.F node)).

(** The head that leaves out [iHead] is absent or unsafe. *)
Definition headUnsafe (mems : memberSection) (treeR : TinyTree.tinyTree_t) (iHead : Z)
  : bool :=
  let mid := lookupHead mems treeR iHead in
  (mid =? 0) || negb (has (flags (members mems mid)) MEMMASK_SAFE).

Definition someHeadUnsafe (mems : memberSection) (treeR : TinyTree.tinyTree_t) : bool :=
  existsb (headUnsafe mems treeR)
          (idsBetween TinyTree.TINYTREE_NSTART (TinyTree.root treeR)).

Lemma tailStep_inv (db : database) (pMember : member_t)
    (treeR : TinyTree.tinyTree_t) (id : Z) (r : member_t + (database * Z)) :
  tailStep db pMember treeR id = Done r ->
  match r with
  | inl pMember' =>
      tailUnsafe (dbMembers db) treeR id = true
      /\ has (flags pMember') MEMMASK_SAFE = false
  | inr (db', _) =>
      tailUnsafe (dbMembers db) treeR id = false
      /\ dbMembers db' = dbMembers db
      /\ dbSignatures db' = dbSignatures db
      /\ dbImprints db' = dbImprints db
  end.
Proof.
  unfold tailStep, tailUnsafe.
  destruct (lookupTail (dbMembers db) treeR id) as [mid skin]. simpl fst.
  destruct (unsafeComponent (dbMembers db) mid).
  - intros [= <-]. split; [ reflexivity | apply has_ldiff ].
  - destruct (internPair _ _ _) as [[prs pid] |]; [ | discriminate ].
    intros [= <-]. repeat split.
Qed.

Lemma headsLoop_inv (mems : memberSection) (treeR : TinyTree.tinyTree_t)
    (iHeads : list Z) :
  forall (pMember : member_t) (numHead : nat) (r : member_t + member_t),
    headsLoop mems treeR pMember numHead iHeads = Done r ->
    match r with
    | inl pMember' => has (flags pMember') MEMMASK_SAFE = false
    | inr pMember' =>
        existsb (headUnsafe mems treeR) iHeads = false
        /\ flags pMember' = flags pMember
    end.
Proof.
  induction iHeads as [| iHead rest IH]; intros pMember numHead r H; simpl in H.
  - injection H as <-. split; reflexivity.
  - simpl existsb. unfold headUnsafe at 1.
    destruct (lookupHead mems treeR iHead =? 0).
    { injection H as <-. apply has_ldiff. }
    destruct (has (flags (members mems (lookupHead mems treeR iHead))) MEMMASK_SAFE).
    2:{ injection H as <-. apply has_ldiff. }
    cbn [negb orb].
    destruct (headPresent (heads pMember) (lookupHead mems treeR iHead)).
    { apply (IH _ _ _ H). }
    destruct (negb (numHead <? MAXHEAD)%nat); [ discriminate | ].
    specialize (IH _ _ _ H). destruct r; [ exact IH | ].
    destruct IH as [Hex Hfl]. split; [ exact Hex | exact Hfl ].
Qed.

(** What a returning [findHeadTail] has done to a candidate whose root is
    an operator node: only the pair section can differ, and an unsafe tail
    or head makes it return [false] with SAFE cleared. *)
Lemma findHeadTail_inv (flagsOfCtx : Z) (db db' : database)
    (pMember pMember' : member_t) (iMid : Z) (treeR : TinyTree.tinyTree_t)
    (found : bool) :
  TinyTree.TINYTREE_NSTART <= TinyTree.root treeR ->
  findHeadTail flagsOfCtx db pMember iMid treeR = Done (found, pMember', db') ->
  (dbMembers db' = dbMembers db
   /\ dbSignatures db' = dbSignatures db
   /\ dbImprints db' = dbImprints db)
  /\ (someTailUnsafe (dbMembers db) treeR || someHeadUnsafe (dbMembers db) treeR = true ->
      found = false /\ has (flags pMember') MEMMASK_SAFE = false).
Proof.
  intros Hroot H. unfold findHeadTail in H.
  destruct (Ref.inverted (TinyTree.root treeR)); [ discriminate | ].
  destruct (Z.eqb_spec (TinyTree.root treeR) 0) as [E | _];
    [ rewrite E in Hroot; vm_compute in Hroot; contradiction | ].
  destruct (Z.eqb_spec (TinyTree.root treeR) TinyTree.TINYTREE_KSTART) as [E | _];
    [ rewrite E in Hroot; vm_compute in Hroot; contradiction | ].
  destruct (Z.leb_spec TinyTree.TINYTREE_NSTART (TinyTree.root treeR));
    [ | lia ].
  cbn [negb] in H.
  unfold someTailUnsafe, someHeadUnsafe.
  set (node := TinyTree.N treeR (TinyTree.root treeR)) in *.
  (* Q *)
  match type of H with
  | match ?t with _ => _ end = _ => destruct t as [rq | | |] eqn:EQ;
      try discriminate
  end.
  apply tailStep_inv in EQ. destruct rq as [pq | [dbq pidq]].
  { injection H as <- <- <-. destruct EQ as [Hq Hs].
    split; [ repeat split | ]. intros _. split; [ reflexivity | exact Hs ]. }
  destruct EQ as (Hq & Hmq & Hsq & Hiq).
  (* T *)
  match type of H with
  | match ?t with _ => _ end = _ => destruct t as [rt | | |] eqn:ET;
      try discriminate
  end.
  apply tailStep_inv in ET. destruct rt as [pt | [dbt pidt]].
  { injection H as <- <- <-. destruct ET as [Ht Hs].
    split; [ repeat split; assumption | ].
    intros _. split; [ reflexivity | exact Hs ]. }
  destruct ET as (Ht & Hmt & Hst & Hit).
  (* F *)
  match type of H with
  | match ?t with _ => _ end = _ => destruct t as [rf | | |] eqn:EF;
      try discriminate
  end.
  assert (HF : match rf with
               | inl pf => has (flags pf) MEMMASK_SAFE = false
               | inr (dbf, _) =>
                   (negb (TinyTree.F node =? Ref.strip (TinyTree.T node))
                    && tailUnsafe (dbMembers dbt) treeR (TinyTree.F node)) = false
                   /\ dbMembers dbf = dbMembers dbt
                   /\ dbSignatures dbf = dbSignatures dbt
                   /\ dbImprints dbf = dbImprints dbt
               end).
  { destruct (TinyTree.F node =? Ref.strip (TinyTree.T node)).
    - injection EF as <-. repeat split.
    - apply tailStep_inv in EF. destruct rf as [pf | [dbf pidf]].
      + apply EF.
      + destruct EF as (Hf & Hmf & Hsf & Hif). repeat split; assumption. }
  destruct rf as [pf | [dbf pidf]].
  { injection H as <- <- <-.
    split; [ repeat split; congruence | ].
    intros _. split; [ reflexivity | exact HF ]. }
  destruct HF as (Hf & Hmf & Hsf & Hif).
  (* heads *)
  match type of H with
  | match ?t with _ => _ end = _ => destruct t as [rh | | |] eqn:EH;
      try discriminate
  end.
  apply headsLoop_inv in EH. destruct rh as [ph | ph].
  { injection H as <- <- <-.
    split; [ repeat split; congruence | ].
    intros _. split; [ reflexivity | exact EH ]. }
  destruct EH as [Hh _].
  match type of H with
  | (if ?c then _ else _) = _ => destruct c; [ discriminate | ]
  end.
  injection H as <- <- <-.
  split; [ repeat split; congruence | ].
  intros Hsome. exfalso.
  rewrite Hmq in Ht. rewrite Hmt, Hmq in Hf. rewrite Hmf, Hmt, Hmq in Hh.
  rewrite Hq, Ht, Hf, Hh in Hsome. discriminate.
Qed.

Lemma classify_members (app : app_t) (treeR : TinyTree.tinyTree_t)
    (db : database) (iSid iTid : Z) :
  classify app treeR = Some (db, iSid, iTid) ->
  dbMembers db = dbMembers (pStore app)
  /\ dbSignatures db = dbSignatures (pStore app)
  /\ dbPairs db = dbPairs (pStore app).
Proof.
  unfold classify.
  destruct (has (ctxFlags app) MAGICMASK_AINF && (readOnlyMode app =? 0)).
  - destruct (addImprintAssociative _ _ _) as [[imps s0] |]; [ | discriminate ].
    intros [= <- _ _]. repeat split.
  - destruct (lookupImprintAssociative _ _) as [s0 t0].
    intros [= <- _ _]. repeat split.
Qed.

(** C1, as amended.  Take a candidate that reaches the head/tail
    analysis with an operator node as its root, and let that analysis
    return.  If one of its three tails, or one of its heads, has no entry
    in the member name index or resolves to a member without SAFE, the
    candidate's SAFE flag is cleared, for a tail as for a head.  When its
    signature group is SAFE the candidate is then rejected, with
    [skipUnsafe] counted and the member and signature sections as they
    were.  When the group is unsafe the candidate is accepted as an
    unsafe member.  Outside read-only mode a record is allocated for it,
    put at the head of the group's chain and entered in the name index,
    and if the allocation fails the call ends in the fatal error of
    [memberAlloc].  In read-only mode no record is allocated and nothing
    is entered in the index: the member section and the free list stay as
    they were, and the group is only marked, its [firstMember] set to the
    fake member 1. *)
Theorem unsafe_candidate_verdict (app : app_t) (treeR : TinyTree.tinyTree_t)
    (pNameR : string) (nPlaceholder nEndpoint nBackRef : Z)
    (db db' : database) (iSid iTid : Z) (found : bool) (tmpMember : member_t) :
  let mix := lookupMember (dbMembers (pStore app)) pNameR in
  let sizeR := wrap32 (TinyTree.count treeR - TinyTree.TINYTREE_NSTART) in
  let pSignature := signatures (dbSignatures db) iSid in
  (* the candidate reaches the analysis *)
  truncated app = 0 ->
  memberIndex (dbMembers (pStore app)) mix = 0 ->
  overflowing app = false ->
  classify app treeR = Some (db, iSid, iTid) ->
  iSid <> 0 ->
  earlyReject (setStore app db) pSignature iSid sizeR = false ->
  TinyTree.TINYTREE_NSTART <= TinyTree.root treeR ->
  findHeadTail (ctxFlags app) db
               (newMember pNameR iSid iTid sizeR nPlaceholder nEndpoint nBackRef)
               tmpMemberIndex treeR
    = Done (found, tmpMember, db') ->
  (* a tail or a head is absent or unsafe *)
  someTailUnsafe (dbMembers db) treeR || someHeadUnsafe (dbMembers db) treeR = true ->
  has (flags tmpMember) MEMMASK_SAFE = false
  (* SAFE group: rejected *)
  /\ (has (sigFlags pSignature) SIGMASK_SAFE = true ->
      foundTreeMember app treeR pNameR nPlaceholder nEndpoint nBackRef
        = Done (true, withSkipUnsafe (setStore app db') (wrap32 (skipUnsafe app + 1)))
      /\ dbMembers db' = dbMembers (pStore app)
      /\ dbSignatures db' = dbSignatures (pStore app))
  (* unsafe group, the member section can be written: admitted *)
  /\ (has (sigFlags pSignature) SIGMASK_SAFE = false ->
      readOnlyMode app = 0 ->
      forall mid mems freeRoot,
        memberAlloc (dbMembers db') (freeMemberRoot app) pNameR
          = Some (mid, mems, freeRoot) ->
        exists app',
          foundTreeMember app treeR pNameR nPlaceholder nEndpoint nBackRef
            = Done (true, app')
          /\ firstMember (signatures (dbSignatures (pStore app')) iSid) = mid
          /\ members (dbMembers (pStore app')) mid
             = withNextMember tmpMember (firstMember pSignature)
          /\ memberIndex (dbMembers (pStore app')) mix = mid
          /\ skipUnsafe app' = skipUnsafe app)
  (* unsafe group, the member section is full *)
  /\ (has (sigFlags pSignature) SIGMASK_SAFE = false ->
      readOnlyMode app = 0 ->
      memberAlloc (dbMembers db') (freeMemberRoot app) pNameR = None ->
      foundTreeMember app treeR pNameR nPlaceholder nEndpoint nBackRef
        = FatalError)
  (* unsafe group, read-only mode: marked with the fake member *)
  /\ (has (sigFlags pSignature) SIGMASK_SAFE = false ->
      readOnlyMode app <> 0 ->
      exists app',
        foundTreeMember app treeR pNameR nPlaceholder nEndpoint nBackRef
          = Done (true, app')
        /\ signatures (dbSignatures (pStore app')) iSid
           = mkSignature (sigFlags pSignature) (sigSize pSignature) 1
        /\ (forall s, s <> iSid ->
              signatures (dbSignatures (pStore app')) s
              = signatures (dbSignatures (pStore app)) s)
        /\ dbMembers (pStore app') = dbMembers (pStore app)
        /\ freeMemberRoot app' = freeMemberRoot app
        /\ skipUnsafe app' = skipUnsafe app).
Proof.
  intros mix sizeR pSignature Ht Hnew Hov Hcl Hsid Hearly Hroot Hfht Hsome.
  destruct (findHeadTail_inv _ _ _ _ _ _ _ _ Hroot Hfht)
    as ((Hm & Hs & Hi) & Hunsafe).
  destruct (Hunsafe Hsome) as [_ Hflag].
  destruct (classify_members _ _ _ _ _ Hcl) as (Hcm & Hcs & _).
  assert (Hunfold :
    foundTreeMember app treeR pNameR nPlaceholder nEndpoint nBackRef
    = if has (sigFlags pSignature) SIGMASK_SAFE
      then Done (true, withSkipUnsafe (setStore (setStore app db) db')
                                      (wrap32 (skipUnsafe app + 1)))
      else acceptMember (setStore (setStore app db) db') db' mix iSid "="
                 tmpMember pNameR sizeR).
  { unfold foundTreeMember. rewrite Ht. cbn [Z.eqb negb].
    fold mix. rewrite Hnew. cbn [Z.eqb negb].
    rewrite Hov, Hcl.
    destruct (Z.eqb_spec iSid 0) as [E | _]; [ contradiction | ].
    fold pSignature sizeR. rewrite Hearly.
    change (ctxFlags (setStore app db)) with (ctxFlags app).
    rewrite Hfht, Hflag. reflexivity. }
  assert (Haccept :
    acceptMember (setStore (setStore app db) db') db' mix iSid "="
                 tmpMember pNameR sizeR
    = let numEmpty' := if firstMember pSignature =? 0
                       then wrap32 (numEmpty app - 1) else numEmpty app in
      match
        (if negb (readOnlyMode app =? 0) then
           Some (dbMembers db', freeMemberRoot app, 1)
         else
           match memberAlloc (dbMembers db') (freeMemberRoot app) pNameR with
           | None => None
           | Some (mid, mems, freeRoot) =>
               let mems := setMember mems mid
                             (withNextMember tmpMember (firstMember pSignature)) in
               Some (mkMembers (maxMember mems) (numMember mems) (members mems)
                               (upd (memberIndex mems) mix mid),
                     freeRoot, mid)
           end)
      with
      | None => FatalError
      | Some (mems, freeRoot, first) =>
          Done (true,
                mkApp (opt_text app) (opt_truncate app) (readOnlyMode app)
                      (ctxFlags app) (ctxProgress app)
                      (upd (pSafeScores app) iSid (sizeR mod 2 ^ 16))
                      (setSignature (setMembers db' mems) iSid
                         (mkSignature (sigFlags pSignature) (sigSize pSignature)
                                      first))
                      freeRoot numEmpty' (numUnsafe app)
                      (skipDuplicate app) (skipSize app) (skipUnsafe app)
                      (truncated app) (truncatedName app))
      end).
  { unfold acceptMember.
    change ((("=" =? ">")%char || ("=" =? "!")%char)) with false.
    change ("=" =? ">")%char with false. cbn [andb].
    rewrite Hs. fold pSignature. reflexivity. }
  split; [ exact Hflag | ]. split; [ | split; [ | split ] ].
  - intros Hsafe. rewrite Hunfold, Hsafe.
    split; [ reflexivity | ]. split; congruence.
  - intros Hsafe Hro mid mems freeRoot Halloc.
    rewrite Hunfold, Hsafe, Haccept, Hro. cbn [Z.eqb negb]. rewrite Halloc.
    eexists. split; [ reflexivity | ].
    cbn -[wrap32]. unfold upd. rewrite !Z.eqb_refl. repeat split.
  - intros Hsafe Hro Halloc.
    rewrite Hunfold, Hsafe, Haccept, Hro. cbn [Z.eqb negb]. rewrite Halloc.
    reflexivity.
  - intros Hsafe Hro.
    rewrite Hunfold, Hsafe, Haccept.
    destruct (Z.eqb_spec (readOnlyMode app) 0) as [E | _]; [ contradiction | ].
    cbn [negb].
    eexists. split; [ reflexivity | ].
    cbn -[wrap32]. unfold upd. rewrite Z.eqb_refl.
    split; [ reflexivity | ]. split.
    + intros s Hne. destruct (Z.eqb_spec s iSid) as [E | _]; [ contradiction | ].
      rewrite Hs, Hcs. reflexivity.
    + split; [ congruence | ]. split; reflexivity.
Qed.


(** ** Further properties of the member engine *)

(** X17.  On its first three keys [comparMember] is a consistent
    comparator: a member is equal to itself; an empty record comes after
    an occupied one; among occupied records a SAFE one comes before an
    unsafe one; and with SAFE alike a depreciated one comes after one
    that is not.  In each case the answer with the two exchanged is the
    opposite one. *)
Theorem comparMember_tiers (members : Z -> member_t) (lhs rhs : Z) :
  lhs <> rhs ->
  sid (members rhs) <> 0 ->
  comparMember members lhs lhs = 0
  /\ (sid (members lhs) = 0 ->
      comparMember members lhs rhs = 1 /\ comparMember members rhs lhs = -1)
  /\ (sid (members lhs) <> 0 ->
      has (flags (members lhs)) MEMMASK_SAFE = true ->
      has (flags (members rhs)) MEMMASK_SAFE = false ->
      comparMember members lhs rhs = -1 /\ comparMember members rhs lhs = 1)
  /\ (sid (members lhs) <> 0 ->
      has (flags (members lhs)) MEMMASK_SAFE
      = has (flags (members rhs)) MEMMASK_SAFE ->
      has (flags (members lhs)) MEMMASK_DEPR = true ->
      has (flags (members rhs)) MEMMASK_DEPR = false ->
      comparMember members lhs rhs = 1 /\ comparMember members rhs lhs = -1).
Proof.
  intros Hne HR. split.
  { unfold comparMember. rewrite Z.eqb_refl. reflexivity. }
  unfold comparMember.
  destruct (Z.eqb_spec lhs rhs) as [E | _]; [ contradiction | ].
  destruct (Z.eqb_spec rhs lhs) as [E | _]; [ congruence | ].
  destruct (Z.eqb_spec (sid (members rhs)) 0) as [E | _]; [ contradiction | ].
  split; [ | split ].
  - intros HL. rewrite HL. split; reflexivity.
  - intros HL SL SR.
    destruct (Z.eqb_spec (sid (members lhs)) 0) as [E | _]; [ contradiction | ].
    rewrite SL, SR. split; reflexivity.
  - intros HL SS DL DR.
    destruct (Z.eqb_spec (sid (members lhs)) 0) as [E | _]; [ contradiction | ].
    rewrite SS, DL, DR.
    destruct (has (flags (members rhs)) MEMMASK_SAFE); split; reflexivity.
Qed.

(** X18.  The free list is last-in first-out: a record handed to
    [memberFree] is the one the next [memberAlloc] hands out, and the
    free list is then what it was before the two calls.  The record comes
    back zeroed but for the new name and for [nextMember], which still
    holds the link to the rest of the free list.  Nothing is added to the
    member section. *)
Theorem memberFree_memberAlloc (mems : memberSection) (freeRoot mid : Z)
    (pName : string) :
  mid <> 0 ->
  let '(mems1, root1) := memberFree mems freeRoot mid in
  exists mems2,
    memberAlloc mems1 root1 pName = Some (mid, mems2, freeRoot)
    /\ members mems2 mid = withName (withNextMember zeroMember freeRoot) pName
    /\ (forall i, i <> mid -> members mems2 i = members mems i)
    /\ numMember mems2 = numMember mems
    /\ memberIndex mems2 = memberIndex mems.
Proof.
  intros Hmid. unfold memberFree, memberAlloc.
  destruct (Z.eqb_spec mid 0) as [E | _]; [ contradiction | ]. cbn [negb].
  eexists. split.
  - cbn [setMember members upd]. unfold upd. rewrite Z.eqb_refl. reflexivity.
  - cbn. unfold upd. rewrite Z.eqb_refl. split; [ reflexivity | ].
    split; [ | split; reflexivity ].
    intros i Hi. destruct (Z.eqb_spec i mid); [ contradiction | reflexivity ].
Qed.

(** What [findHeadTail] leaves alone, for every root. *)
Lemma findHeadTail_frame (flagsOfCtx : Z) (db db' : database)
    (pMember pMember' : member_t) (iMid : Z) (treeR : TinyTree.tinyTree_t)
    (found : bool) :
  findHeadTail flagsOfCtx db pMember iMid treeR = Done (found, pMember', db') ->
  dbMembers db' = dbMembers db
  /\ dbSignatures db' = dbSignatures db
  /\ dbImprints db' = dbImprints db.
Proof.
  intros H.
  destruct (Z.leb_spec TinyTree.TINYTREE_NSTART (TinyTree.root treeR)) as [Hr | Hr].
  - apply (findHeadTail_inv _ _ _ _ _ _ _ _ Hr H).
  - unfold findHeadTail in H.
    destruct (Ref.inverted (TinyTree.root treeR)); [ discriminate | ].
    destruct (TinyTree.root treeR =? 0).
    { destruct (negb _ || negb _); [ discriminate | ].
      injection H as _ _ <-. repeat split. }
    destruct (TinyTree.root treeR =? TinyTree.TINYTREE_KSTART).
    { destruct (negb _ || negb _); [ discriminate | ].
      injection H as _ _ <-. repeat split. }
    destruct (Z.leb_spec TinyTree.TINYTREE_NSTART (TinyTree.root treeR));
      [ lia | discriminate ].
Qed.

Lemma has_lor (x bit : Z) : bit <> 0 -> has (Z.lor x bit) bit = true.
Proof.
  intros Hb. unfold has. apply negb_true_iff, Z.eqb_neq.
  replace (Z.land (Z.lor x bit) bit) with bit; [ exact Hb | ].
  symmetry. apply Z.bits_inj'. intros i Hi.
  rewrite Z.land_spec, Z.lor_spec.
  destruct (Z.testbit x i), (Z.testbit bit i); reflexivity.
Qed.



(** What every returning [acceptMember] does and leaves alone. *)
Lemma acceptMember_frame (app : app_t) (db : database) (mix iSid : Z) (cmp : ascii)
    (tmpMember : member_t) (pNameR : string) (sizeR : Z)
    (ret : bool) (app' : app_t) :
  acceptMember app db mix iSid cmp tmpMember pNameR sizeR = Done (ret, app') ->
  ret = true
  /\ truncated app' = truncated app
  /\ dbImprints (pStore app') = dbImprints db
  /\ dbPairs (pStore app') = dbPairs db
  /\ (readOnlyMode app <> 0 ->
      dbMembers (pStore app') = dbMembers db
      /\ freeMemberRoot app' = freeMemberRoot app).
Proof.
  unfold acceptMember. intros H.
  match type of H with
  | match ?flush with _ => _ end = _ =>
      destruct flush as [[[[mems1 root1] first1] empty1] | | |] eqn:Eflush;
        try discriminate
  end.
  destruct (if (cmp =? ">")%char then _ else _) as [sflags unsafe'].
  assert (Hro : readOnlyMode app <> 0 ->
                mems1 = dbMembers db /\ root1 = freeMemberRoot app).
  { intros Hn. apply Z.eqb_neq in Hn. rewrite Hn in Eflush. cbn [negb] in Eflush.
    destruct (_ && _); injection Eflush as <- <- _ _; split; reflexivity. }
  destruct (Z.eqb_spec (readOnlyMode app) 0) as [E0 | N0]; cbn [negb] in H.
  - destruct (memberAlloc mems1 root1 pNameR) as [[[mid mems2] root2] |];
      [ | discriminate ].
    injection H as <- <-. cbn.
    do 4 (split; [ reflexivity | ]). intros Hn. contradiction.
  - injection H as <- <-. cbn.
    do 4 (split; [ reflexivity | ]). intros _. exact (Hro N0).
Qed.

(** X20.  [foundTreeMember] returns [false] only to report truncation:
    either an earlier call had set [truncated] and this one changes
    nothing, or this call finds the database about to overflow and stores
    the progress and the name.  Every other returning call returns [true]
    and leaves [truncated] at zero. *)
Theorem foundTreeMember_false_is_truncation (app app' : app_t)
    (treeR : TinyTree.tinyTree_t) (pNameR : string)
    (nPlaceholder nEndpoint nBackRef : Z) (ret : bool) :
  foundTreeMember app treeR pNameR nPlaceholder nEndpoint nBackRef
    = Done (ret, app') ->
  (ret = false ->
   (truncated app <> 0 /\ app' = app)
   \/ (truncated app = 0 /\ overflowing app = true
       /\ app' = withTruncated app (ctxProgress app) pNameR))
  /\ (ret = true -> truncated app = 0 /\ truncated app' = 0).
Proof.
  unfold foundTreeMember. intros H.
  destruct (Z.eqb_spec (truncated app) 0) as [E0 | N0]; cbn [negb] in H.
  2:{ injection H as <- <-. split; [ intros _; left; split; [ exact N0 | reflexivity ]
                                   | discriminate ]. }
  destruct (negb (memberIndex _ _ =? 0)).
  { injection H as <- <-. split; [ discriminate | intros _; split; assumption ]. }
  destruct (overflowing app) eqn:Eo.
  { injection H as <- <-.
    split; [ intros _; right; repeat split; assumption | discriminate ]. }
  destruct (classify app treeR) as [[[db iSid] iTid] |]; [ | discriminate ].
  destruct (iSid =? 0).
  { injection H as <- <-. split; [ discriminate | intros _; split; assumption ]. }
  destruct (earlyReject _ _ _ _).
  { injection H as <- <-. split; [ discriminate | intros _; split; assumption ]. }
  destruct (findHeadTail _ _ _ _ _) as [[[found tmpMember] db'] | | |];
    try discriminate.
  destruct (has (sigFlags _) SIGMASK_SAFE), (has (flags tmpMember) MEMMASK_SAFE);
    cbn [negb] in H;
    try (injection H as <- <-;
         split; [ discriminate | intros _; split; assumption ]);
    apply acceptMember_frame in H; destruct H as (-> & Ht & _);
    (split; [ discriminate | intros _; split; [ exact E0 | rewrite Ht; exact E0 ] ]).
Qed.

Lemma classify_readonly (app : app_t) (treeR : TinyTree.tinyTree_t)
    (db : database) (iSid iTid : Z) :
  readOnlyMode app <> 0 ->
  classify app treeR = Some (db, iSid, iTid) ->
  db = pStore app.
Proof.
  intros Hro. apply Z.eqb_neq in Hro. unfold classify.
  rewrite Hro, andb_false_r.
  destruct (lookupImprintAssociative _ _) as [s0 t0].
  intros [= <- _ _]. reflexivity.
Qed.

(** In read-only mode a returning [acceptMember] leaves the database as
    it was but for the record of the group, which is linked to the fake
    member 1 and flagged SAFE when a SAFE candidate takes over. *)
Lemma acceptMember_readonly (app : app_t) (db : database) (mix iSid : Z) (cmp : ascii)
    (tmpMember : member_t) (pNameR : string) (sizeR : Z)
    (ret : bool) (app' : app_t) :
  readOnlyMode app <> 0 ->
  acceptMember app db mix iSid cmp tmpMember pNameR sizeR = Done (ret, app') ->
  ret = true
  /\ freeMemberRoot app' = freeMemberRoot app
  /\ pStore app'
     = setSignature db iSid
         (mkSignature
            (if (cmp =? ">")%char
             then Z.lor (sigFlags (signatures (dbSignatures db) iSid)) SIGMASK_SAFE
             else sigFlags (signatures (dbSignatures db) iSid))
            (sigSize (signatures (dbSignatures db) iSid)) 1).
Proof.
  intros Hro. apply Z.eqb_neq in Hro. unfold acceptMember. rewrite Hro. cbn [negb].
  destruct (((cmp =? ">")%char || (cmp =? "!")%char)
            && negb (firstMember (signatures (dbSignatures db) iSid) =? 0));
    destruct (cmp =? ">")%char; intros [= <- <-]; repeat split.
Qed.

(** X21.  In read-only mode a returning call of [foundTreeMember] never
    touches the member section, the imprint section or the free list,
    whatever its verdict on the candidate.  Of the signature section it
    leaves the sizes and every record other than that of the candidate's
    group as they were; the record of the group is either as it was, or
    the call returned [true] and the record is linked to the fake member
    1, with the size it had and the flags it had, SAFE added at most.
    And a candidate that is accepted, one that passes the tests for
    truncation, duplicates, overflow, an unknown group and size and is
    not an unsafe candidate of a SAFE group, is marked in just that way:
    the call returns [true] and the record of its group has
    [firstMember = 1], its former size and its former flags, with SAFE
    added when a SAFE candidate takes over an unsafe group. *)
Theorem foundTreeMember_readonly (app app' : app_t)
    (treeR : TinyTree.tinyTree_t) (pNameR : string)
    (nPlaceholder nEndpoint nBackRef : Z) (ret : bool) :
  let sigs := dbSignatures (pStore app) in
  let sigs' := dbSignatures (pStore app') in
  let iSid := fst (lookupImprintAssociative (dbImprints (pStore app)) treeR) in
  let iTid := snd (lookupImprintAssociative (dbImprints (pStore app)) treeR) in
  let sizeR := wrap32 (TinyTree.count treeR - TinyTree.TINYTREE_NSTART) in
  let pSignature := signatures sigs iSid in
  readOnlyMode app <> 0 ->
  foundTreeMember app treeR pNameR nPlaceholder nEndpoint nBackRef
    = Done (ret, app') ->
  (* what the call never touches *)
  dbMembers (pStore app') = dbMembers (pStore app)
  /\ dbImprints (pStore app') = dbImprints (pStore app)
  /\ freeMemberRoot app' = freeMemberRoot app
  (* the signature section but for the record of the group *)
  /\ maxSignature sigs' = maxSignature sigs
  /\ numSignature sigs' = numSignature sigs
  /\ (forall s, s <> iSid -> signatures sigs' s = signatures sigs s)
  (* the record of the group *)
  /\ (signatures sigs' iSid = pSignature
      \/ (ret = true
          /\ firstMember (signatures sigs' iSid) = 1
          /\ sigSize (signatures sigs' iSid) = sigSize pSignature
          /\ (sigFlags (signatures sigs' iSid) = sigFlags pSignature
              \/ sigFlags (signatures sigs' iSid)
                 = Z.lor (sigFlags pSignature) SIGMASK_SAFE)))
  (* an accepted candidate *)
  /\ (forall (found : bool) (tmpMember : member_t) (db' : database),
        truncated app = 0 ->
        memberIndex (dbMembers (pStore app))
                    (lookupMember (dbMembers (pStore app)) pNameR) = 0 ->
        overflowing app = false ->
        iSid <> 0 ->
        earlyReject app pSignature iSid sizeR = false ->
        findHeadTail (ctxFlags app) (pStore app)
                     (newMember pNameR iSid iTid sizeR nPlaceholder nEndpoint nBackRef)
                     tmpMemberIndex treeR
          = Done (found, tmpMember, db') ->
        has (sigFlags pSignature) SIGMASK_SAFE = false
        \/ has (flags tmpMember) MEMMASK_SAFE = true ->
        ret = true
        /\ signatures sigs' iSid
           = mkSignature
               (if has (sigFlags pSignature) SIGMASK_SAFE then sigFlags pSignature
                else if has (flags tmpMember) MEMMASK_SAFE
                     then Z.lor (sigFlags pSignature) SIGMASK_SAFE
                     else sigFlags pSignature)
               (sigSize pSignature) 1).
Proof.
  intros sigs sigs' iSid iTid sizeR pSignature Hro H.
  subst sigs sigs' iSid iTid sizeR pSignature.
  unfold foundTreeMember in H.
  destruct (Z.eqb_spec (truncated app) 0) as [Et | Et]; cbn [negb] in H.
  2:{ injection H as <- <-. repeat split; try (left; reflexivity).
      all: intros; contradiction. }
  destruct (Z.eqb_spec (memberIndex (dbMembers (pStore app))
                          (lookupMember (dbMembers (pStore app)) pNameR)) 0)
    as [Ed | Ed]; cbn [negb] in H.
  2:{ injection H as <- <-. repeat split; try (left; reflexivity).
      all: intros; contradiction. }
  destruct (overflowing app) eqn:Eo.
  { injection H as <- <-. repeat split; try (left; reflexivity).
    all: intros; discriminate. }
  destruct (classify app treeR) as [[[db iSid] iTid] |] eqn:Ec; [ | discriminate ].
  pose proof (classify_readonly _ _ _ _ _ Hro Ec) as ->.
  assert (Hids : lookupImprintAssociative (dbImprints (pStore app)) treeR = (iSid, iTid)).
  { unfold classify in Ec. apply Z.eqb_neq in Hro. rewrite Hro, andb_false_r in Ec.
    destruct (lookupImprintAssociative _ _) as [s0 t0].
    injection Ec as <- <-. reflexivity. }
  rewrite Hids. cbn [fst snd]. clear Ec.
  destruct (Z.eqb_spec iSid 0) as [Es | Es].
  { injection H as <- <-. repeat split; try (left; reflexivity).
    all: intros; contradiction. }
  change (earlyReject (setStore app (pStore app))) with (earlyReject app) in H.
  destruct (earlyReject app _ iSid _) eqn:Ee.
  { injection H as <- <-. repeat split; try (left; reflexivity).
    all: intros; discriminate. }
  change (ctxFlags (setStore app (pStore app))) with (ctxFlags app) in H.
  destruct (findHeadTail _ _ _ _ _) as [[[found tmpMember] db'] | | |] eqn:Ef;
    try discriminate.
  pose proof (findHeadTail_frame _ _ _ _ _ _ _ _ Ef) as (Hm & Hs & Hi).
  assert (Hacc : forall cmp,
            acceptMember (setStore (setStore app (pStore app)) db') db'
                         (lookupMember (dbMembers (pStore app)) pNameR)
                         iSid cmp tmpMember pNameR
                         (wrap32 (TinyTree.count treeR - TinyTree.TINYTREE_NSTART))
              = Done (ret, app') ->
            ret = true
            /\ freeMemberRoot app' = freeMemberRoot app
            /\ pStore app'
               = setSignature db' iSid
                   (mkSignature
                      (if (cmp =? ">")%char
                       then Z.lor (sigFlags (signatures (dbSignatures (pStore app)) iSid))
                                  SIGMASK_SAFE
                       else sigFlags (signatures (dbSignatures (pStore app)) iSid))
                      (sigSize (signatures (dbSignatures (pStore app)) iSid)) 1)).
  { intros cmp Ha. apply acceptMember_readonly in Ha; [ | exact Hro ].
    rewrite Hs in Ha. exact Ha. }
  assert (Hmarked : forall f,
            ret = true ->
            freeMemberRoot app' = freeMemberRoot app ->
            pStore app'
            = setSignature db' iSid
                (mkSignature f (sigSize (signatures (dbSignatures (pStore app)) iSid)) 1) ->
            (f = sigFlags (signatures (dbSignatures (pStore app)) iSid)
             \/ f = Z.lor (sigFlags (signatures (dbSignatures (pStore app)) iSid))
                          SIGMASK_SAFE) ->
            dbMembers (pStore app') = dbMembers (pStore app)
            /\ dbImprints (pStore app') = dbImprints (pStore app)
            /\ freeMemberRoot app' = freeMemberRoot app
            /\ maxSignature (dbSignatures (pStore app'))
               = maxSignature (dbSignatures (pStore app))
            /\ numSignature (dbSignatures (pStore app'))
               = numSignature (dbSignatures (pStore app))
            /\ (forall s, s <> iSid ->
                  signatures (dbSignatures (pStore app')) s
                  = signatures (dbSignatures (pStore app)) s)
            /\ (signatures (dbSignatures (pStore app')) iSid
                = signatures (dbSignatures (pStore app)) iSid
                \/ (ret = true
                    /\ firstMember (signatures (dbSignatures (pStore app')) iSid) = 1
                    /\ sigSize (signatures (dbSignatures (pStore app')) iSid)
                       = sigSize (signatures (dbSignatures (pStore app)) iSid)
                    /\ (sigFlags (signatures (dbSignatures (pStore app')) iSid)
                        = sigFlags (signatures (dbSignatures (pStore app)) iSid)
                        \/ sigFlags (signatures (dbSignatures (pStore app')) iSid)
                           = Z.lor (sigFlags (signatures (dbSignatures (pStore app)) iSid))
                                   SIGMASK_SAFE)))
            /\ signatures (dbSignatures (pStore app')) iSid
               = mkSignature f (sigSize (signatures (dbSignatures (pStore app)) iSid)) 1).
  { intros f Hr Hf Hp Hfl. rewrite Hp. cbn. unfold upd. rewrite Z.eqb_refl.
    rewrite Hs. repeat split; try assumption.
    - intros s Hne. destruct (Z.eqb_spec s iSid) as [E | _]; [ contradiction | ].
      reflexivity.
    - right. cbn. repeat split; assumption. }
  destruct (has (sigFlags (signatures (dbSignatures (pStore app)) iSid)) SIGMASK_SAFE)
    eqn:Egs;
    destruct (has (flags tmpMember) MEMMASK_SAFE) eqn:Ems; cbn [negb] in H.
  - (* '+' *)
    destruct (Hacc _ H) as (Hr & Hf & Hp).
    change ("+" =? ">")%char with false in Hp.
    destruct (Hmarked _ Hr Hf Hp (or_introl eq_refl))
      as (M1 & M2 & M3 & M4 & M5 & M6 & M7 & M8).
    do 7 (split; [ assumption | ]).
    intros fd tm d0 _ _ _ _ _ Hf0 _.
    split; [ exact Hr | exact M8 ].
  - (* '<' *)
    injection H as <- <-.
    cbn [pStore withSkipUnsafe setStore freeMemberRoot]. rewrite Hm, Hs, Hi.
    do 5 (split; [ reflexivity | ]).
    split; [ intros; reflexivity | ]. split; [ left; reflexivity | ].
    intros fd tm d0 _ _ _ _ _ Hf0 [Hc | Hc]; [ discriminate | ].
    injection Hf0 as _ <- _. congruence.
  - (* '>' *)
    destruct (Hacc _ H) as (Hr & Hf & Hp).
    change (">" =? ">")%char with true in Hp.
    destruct (Hmarked _ Hr Hf Hp (or_intror eq_refl))
      as (M1 & M2 & M3 & M4 & M5 & M6 & M7 & M8).
    do 7 (split; [ assumption | ]).
    intros fd tm d0 _ _ _ _ _ Hf0 _.
    injection Hf0 as _ <- _. rewrite Ems.
    split; [ exact Hr | exact M8 ].
  - (* '=' *)
    destruct (Hacc _ H) as (Hr & Hf & Hp).
    change ("=" =? ">")%char with false in Hp.
    destruct (Hmarked _ Hr Hf Hp (or_introl eq_refl))
      as (M1 & M2 & M3 & M4 & M5 & M6 & M7 & M8).
    do 7 (split; [ assumption | ]).
    intros fd tm d0 _ _ _ _ _ Hf0 _.
    injection Hf0 as _ <- _. rewrite Ems.
    split; [ exact Hr | exact M8 ].
Qed.

Lemma flushGroup_empty (turns : nat) (prs : pairSection) (mems : memberSection)
    (freeRoot : Z) :
  flushGroup turns prs mems freeRoot 0 = Done (mems, freeRoot).
Proof. destruct turns; reflexivity. Qed.

(** X22.  The verdict on a candidate that the head/tail analysis leaves
    SAFE, outside read-only mode.  In a SAFE group it joins: its record
    becomes the first member of the chain, in front of the former first
    member, and the group's flags and the count of unsafe groups stay.
    In an unsafe group it takes over: the former members are flushed to
    the free list, the group becomes SAFE, the candidate's record is the
    only member of the chain, the count of unsafe groups goes down by one
    and the group's score is the candidate's size. *)
Theorem safe_candidate_verdict (app : app_t) (treeR : TinyTree.tinyTree_t)
    (pNameR : string) (nPlaceholder nEndpoint nBackRef : Z)
    (db db' : database) (iSid iTid : Z) (found : bool) (tmpMember : member_t) :
  let mix := lookupMember (dbMembers (pStore app)) pNameR in
  let sizeR := wrap32 (TinyTree.count treeR - TinyTree.TINYTREE_NSTART) in
  let pSignature := signatures (dbSignatures db) iSid in
  (* the candidate reaches the analysis and comes out SAFE *)
  truncated app = 0 ->
  memberIndex (dbMembers (pStore app)) mix = 0 ->
  overflowing app = false ->
  classify app treeR = Some (db, iSid, iTid) ->
  iSid <> 0 ->
  earlyReject (setStore app db) pSignature iSid sizeR = false ->
  findHeadTail (ctxFlags app) db
               (newMember pNameR iSid iTid sizeR nPlaceholder nEndpoint nBackRef)
               tmpMemberIndex treeR
    = Done (found, tmpMember, db') ->
  has (flags tmpMember) MEMMASK_SAFE = true ->
  readOnlyMode app = 0 ->
  (has (sigFlags pSignature) SIGMASK_SAFE = true ->
   forall mid mems freeRoot,
     memberAlloc (dbMembers db') (freeMemberRoot app) pNameR
       = Some (mid, mems, freeRoot) ->
     exists app',
       foundTreeMember app treeR pNameR nPlaceholder nEndpoint nBackRef
         = Done (true, app')
       /\ signatures (dbSignatures (pStore app')) iSid
          = mkSignature (sigFlags pSignature) (sigSize pSignature) mid
       /\ members (dbMembers (pStore app')) mid
          = withNextMember tmpMember (firstMember pSignature)
       /\ memberIndex (dbMembers (pStore app')) mix = mid
       /\ numUnsafe app' = numUnsafe app)
  /\ (has (sigFlags pSignature) SIGMASK_SAFE = false ->
      forall mems1 root1 mid mems2 root2,
        flushGroup (Z.to_nat (numMember (dbMembers db'))) (dbPairs db')
                   (dbMembers db') (freeMemberRoot app) (firstMember pSignature)
          = Done (mems1, root1) ->
        memberAlloc mems1 root1 pNameR = Some (mid, mems2, root2) ->
        exists app',
          foundTreeMember app treeR pNameR nPlaceholder nEndpoint nBackRef
            = Done (true, app')
          /\ signatures (dbSignatures (pStore app')) iSid
             = mkSignature (Z.lor (sigFlags pSignature) SIGMASK_SAFE)
                           (sigSize pSignature) mid
          /\ members (dbMembers (pStore app')) mid = withNextMember tmpMember 0
          /\ memberIndex (dbMembers (pStore app')) mix = mid
          /\ numUnsafe app' = wrap32 (numUnsafe app - 1)
          /\ pSafeScores app' iSid = sizeR mod 2 ^ 16).
Proof.
  intros mix sizeR pSignature Ht Hnew Hov Hcl Hsid Hearly Hfht Hflag Hro.
  destruct (findHeadTail_frame _ _ _ _ _ _ _ _ Hfht) as (Hm & Hs & Hi).
  assert (Hunfold :
    foundTreeMember app treeR pNameR nPlaceholder nEndpoint nBackRef
    = if has (sigFlags pSignature) SIGMASK_SAFE
      then acceptMember (setStore (setStore app db) db') db' mix iSid "+"
                        tmpMember pNameR sizeR
      else acceptMember (setStore (setStore app db) db') db' mix iSid ">"
                        tmpMember pNameR sizeR).
  { unfold foundTreeMember. rewrite Ht. cbn [Z.eqb negb].
    fold mix. rewrite Hnew. cbn [Z.eqb negb].
    rewrite Hov, Hcl.
    destruct (Z.eqb_spec iSid 0) as [E | _]; [ contradiction | ].
    fold pSignature sizeR. rewrite Hearly.
    change (ctxFlags (setStore app db)) with (ctxFlags app).
    rewrite Hfht, Hflag. reflexivity. }
  split.
  - intros Hsafe mid mems freeRoot Halloc.
    rewrite Hunfold, Hsafe. unfold acceptMember.
    change ((("+" =? ">")%char || ("+" =? "!")%char)) with false.
    change ("+" =? ">")%char with false. cbn [andb].
    change (readOnlyMode (setStore (setStore app db) db')) with (readOnlyMode app).
    change (freeMemberRoot (setStore (setStore app db) db')) with (freeMemberRoot app).
    rewrite Hro. cbn [Z.eqb negb]. rewrite Halloc.
    eexists. split; [ reflexivity | ].
    cbn -[wrap32]. unfold upd. rewrite !Z.eqb_refl.
    rewrite Hs. fold pSignature. repeat split.
  - intros Hsafe mems1 root1 mid mems2 root2 Hflush Halloc.
    rewrite Hunfold, Hsafe. unfold acceptMember.
    change (((">" =? ">")%char || (">" =? "!")%char)) with true.
    change (">" =? ">")%char with true. cbn [andb].
    change (readOnlyMode (setStore (setStore app db) db')) with (readOnlyMode app).
    change (freeMemberRoot (setStore (setStore app db) db')) with (freeMemberRoot app).
    change (numEmpty (setStore (setStore app db) db')) with (numEmpty app).
    change (numUnsafe (setStore (setStore app db) db')) with (numUnsafe app).
    rewrite Hro. cbn [Z.eqb negb]. rewrite Hs. fold pSignature.
    destruct (Z.eqb_spec (firstMember pSignature) 0) as [E0 | N0]; cbn [negb].
    + rewrite E0, flushGroup_empty in Hflush. injection Hflush as <- <-.
      rewrite E0. cbn [Z.eqb]. rewrite Halloc.
      eexists. split; [ reflexivity | ].
      cbn -[wrap32]. unfold upd. rewrite !Z.eqb_refl. repeat split.
    + rewrite Hflush. cbn [Z.eqb]. rewrite Halloc.
      eexists. split; [ reflexivity | ].
      cbn -[wrap32]. unfold upd. rewrite !Z.eqb_refl. repeat split.
Qed.

(** *** The flush of a group *)

(** None of the three component pairs of [m] refers to member [d]. *)
Definition clean (prs : pairSection) (d : Z) (m : member_t) : Prop :=
  (Qmt m = 0 \/ sidmid (pairs prs (Qmt m)) <> d)
  /\ (Tmt m = 0 \/ sidmid (pairs prs (Tmt m)) <> d)
  /\ (Fmt m = 0 \/ sidmid (pairs prs (Fmt m)) <> d).

(** The record is blank to a lookup: no group, no flags, no name. *)
Definition blank (m : member_t) : Prop :=
  sid m = 0 /\ flags m = 0 /\ name m = ""%string.

(** The members [flushGroup] releases, in the order it releases them. *)
Fixpoint flushedIds (turns : nat) (prs : pairSection) (mems : memberSection)
    (freeRoot : Z) (first : Z) : list Z :=
  if first =? 0 then [] else
  match turns with
  | O => []
  | S turns' =>
      match dropReferencesLoop prs first mems (idsBetween 1 (numMember mems)) with
      | None => []
      | Some mems =>
          let next := nextMember (members mems first) in
          let '(mems, freeRoot) := memberFree mems freeRoot first in
          first :: flushedIds turns' prs mems freeRoot next
      end
  end.

Lemma In_idsBetween (from below i : Z) :
  In i (idsBetween from below) <-> from <= i < below.
Proof.
  unfold idsBetween. rewrite in_map_iff. split.
  - intros (k & <- & Hk). apply in_seq in Hk. lia.
  - intros Hi. exists (Z.to_nat (i - from)). split; [ lia | ].
    apply in_seq. lia.
Qed.

Lemma dropReferences_effect (prs : pairSection) (deleted : Z) (p p' : member_t) :
  dropReferences prs deleted p = Some p' ->
  sid p' = sid p /\ flags p' = flags p /\ name p' = name p
  /\ nextMember p' = nextMember p
  /\ (Qmt p' = 0 \/ (Qmt p' = Qmt p /\ sidmid (pairs prs (Qmt p)) <> deleted))
  /\ (Tmt p' = 0 \/ (Tmt p' = Tmt p /\ sidmid (pairs prs (Tmt p)) <> deleted))
  /\ (Fmt p' = 0 \/ (Fmt p' = Fmt p /\ sidmid (pairs prs (Fmt p)) <> deleted)).
Proof.
  unfold dropReferences. intros H.
  destruct (has (flags p) MEMMASK_SAFE) eqn:Es;
    destruct (sidmid (pairs prs (Qmt p)) =? deleted) eqn:EQ;
    destruct (sidmid (pairs prs (Tmt p)) =? deleted) eqn:ET;
    destruct (sidmid (pairs prs (Fmt p)) =? deleted) eqn:EF;
    repeat (cbn [Tmt Fmt Qmt flags withQmt withTmt withFmt] in H;
            rewrite ?EQ, ?ET, ?EF, ?Es in H);
    try discriminate H;
    injection H as <-; cbn [sid flags name nextMember Tmt Fmt Qmt
                            withQmt withTmt withFmt];
    rewrite ?Z.eqb_neq in *;
    repeat split;
    first [ left; reflexivity | right; split; [ reflexivity | assumption ] ].
Qed.

Lemma dropReferences_clean (prs : pairSection) (deleted : Z) (p p' : member_t) :
  dropReferences prs deleted p = Some p' -> clean prs deleted p'.
Proof.
  intros H. apply dropReferences_effect in H.
  destruct H as (_ & _ & _ & _ & HQ & HT & HF).
  repeat split;
    match goal with
    | Hx : ?f p' = 0 \/ _ |- ?f p' = 0 \/ _ =>
        destruct Hx as [Hx | [Hx Hn]]; [ left; exact Hx | right; rewrite Hx; exact Hn ]
    end.
Qed.

(** What the flush keeps of a record it does not release. *)
Definition kept (prs : pairSection) (P : member_t -> Prop) : Prop :=
  (forall deleted p p', P p -> dropReferences prs deleted p = Some p' -> P p')
  /\ (forall next, P (withNextMember zeroMember next)).

Lemma kept_clean (prs : pairSection) (d : Z) : kept prs (clean prs d).
Proof.
  split.
  - intros deleted p p' (HQ & HT & HF) H. apply dropReferences_effect in H.
    destruct H as (_ & _ & _ & _ & EQ & ET & EF).
    repeat split;
      match goal with
      | Hx : ?f p' = 0 \/ _ |- ?f p' = 0 \/ _ =>
          destruct Hx as [Hx | [Hx _]]; [ left; exact Hx | rewrite Hx; assumption ]
      end.
  - intros next. repeat split; left; reflexivity.
Qed.

Lemma kept_blank (prs : pairSection) : kept prs blank.
Proof.
  split.
  - intros deleted p p' (Hs & Hf & Hn) H. apply dropReferences_effect in H.
    destruct H as (Es & Ef & En & _). unfold blank. rewrite Es, Ef, En.
    repeat split; assumption.
  - intros next. repeat split.
Qed.

Lemma dropReferencesLoop_kept (prs : pairSection) (deleted : Z)
    (P : member_t -> Prop) (iMids : list Z) :
  kept prs P ->
  forall mems mems',
    dropReferencesLoop prs deleted mems iMids = Some mems' ->
    (numMember mems' = numMember mems /\ maxMember mems' = maxMember mems
     /\ memberIndex mems' = memberIndex mems)
    /\ (forall i, P (members mems i) -> P (members mems' i))
    /\ (forall i, In i iMids -> clean prs deleted (members mems' i)).
Proof.
  intros [Hdrop _]. induction iMids as [| iMid rest IH]; intros mems mems' H;
    simpl in H.
  - injection H as <-. split; [ repeat split | ].
    split; [ intros i Hp; exact Hp | intros i [] ].
  - destruct (dropReferences prs deleted (members mems iMid)) as [p |] eqn:Ed;
      [ | discriminate ].
    destruct (IH _ _ H) as ((Hn & Hx & Hi) & Hkeep & Hclean).
    split; [ repeat split; assumption | ]. split.
    + intros i Hp. apply Hkeep. cbn [setMember members]. unfold upd.
      destruct (Z.eqb_spec i iMid) as [-> | _]; [ | exact Hp ].
      eapply Hdrop; eassumption.
    + intros i [<- | Hin]; [ | apply Hclean, Hin ].
      destruct (kept_clean prs deleted) as [Hc _].
      destruct (IH _ _ H) as (_ & Hkeep' & _).
      clear Hkeep. 
      assert (Hgen : forall j, clean prs deleted (members (setMember mems iMid p) j) ->
                               clean prs deleted (members mems' j)).
      { clear - H Hc. revert H. generalize (setMember mems iMid p) as m0.
        induction rest as [| r rest' IHr]; intros m0 H j Hj; simpl in H.
        - injection H as <-. exact Hj.
        - destruct (dropReferences prs deleted (members m0 r)) as [q |] eqn:Eq;
            [ | discriminate ].
          apply (IHr _ H). cbn [setMember members]. unfold upd.
          destruct (Z.eqb_spec j r) as [-> | _]; [ | exact Hj ].
          eapply Hc; eassumption. }
      apply Hgen. cbn [setMember members]. unfold upd. rewrite Z.eqb_refl.
      eapply dropReferences_clean, Ed.
Qed.

Lemma flushGroup_kept (prs : pairSection) (P : member_t -> Prop) (turns : nat) :
  kept prs P ->
  forall mems freeRoot first mems' freeRoot',
    flushGroup turns prs mems freeRoot first = Done (mems', freeRoot') ->
    (numMember mems' = numMember mems /\ maxMember mems' = maxMember mems
     /\ memberIndex mems' = memberIndex mems)
    /\ (forall i, P (members mems i) -> P (members mems' i)).
Proof.
  intros HP. induction turns as [| turns IH];
    intros mems freeRoot first mems' freeRoot' H; cbn [flushGroup] in H.
  - destruct (first =? 0); [ | discriminate ].
    injection H as <- <-. split; [ repeat split | intros i Hp; exact Hp ].
  - destruct (first =? 0).
    { injection H as <- <-. split; [ repeat split | intros i Hp; exact Hp ]. }
    destruct (dropReferencesLoop prs first mems (idsBetween 1 (numMember mems)))
      as [mems1 |] eqn:El; [ | discriminate ].
    cbn [memberFree] in H.
    destruct (dropReferencesLoop_kept prs first P _ HP _ _ El)
      as ((Hn & Hx & Hi) & Hkeep & _).
    destruct (IH _ _ _ _ _ H) as ((Hn' & Hx' & Hi') & Hkeep').
    split; [ cbn in Hn', Hx', Hi'; repeat split; congruence | ].
    intros i Hp. apply Hkeep'. cbn [setMember members]. unfold upd.
    destruct (Z.eqb_spec i first) as [-> | _]; [ apply HP | apply Hkeep, Hp ].
Qed.

Lemma last_cons (x : Z) (l : list Z) (d : Z) : last (x :: l) d = last l x.
Proof.
  revert x d. induction l as [| y l IH]; intros x d; [ reflexivity | ].
  change (last (x :: y :: l) d) with (last (y :: l) d).
  rewrite (IH y d), (IH y x). reflexivity.
Qed.

(** X23.  What a flush leaves behind.  The section keeps its size and
    its name index.  Every record the flush released is blank: no group,
    no flags, no name.  And no record of the section refers any longer to
    a released member through a component pair: each of [Qmt], [Tmt] and
    [Fmt] is zero or names a pair of another member. *)
Theorem flushGroup_releases (turns : nat) (prs : pairSection)
    (mems mems' : memberSection) (freeRoot freeRoot' first : Z) :
  flushGroup turns prs mems freeRoot first = Done (mems', freeRoot') ->
  numMember mems' = numMember mems
  /\ maxMember mems' = maxMember mems
  /\ memberIndex mems' = memberIndex mems
  /\ freeRoot' = last (flushedIds turns prs mems freeRoot first) freeRoot
  /\ forall d, In d (flushedIds turns prs mems freeRoot first) ->
       blank (members mems' d)
       /\ forall i, 1 <= i < numMember mems -> clean prs d (members mems' i).
Proof.
  revert mems freeRoot first.
  induction turns as [| turns IH]; intros mems freeRoot first H;
    cbn [flushGroup flushedIds] in *.
  - destruct (first =? 0); [ | discriminate ].
    injection H as <- <-. do 4 (split; [ reflexivity | ]). intros d [].
  - destruct (first =? 0) eqn:E0.
    { injection H as <- <-. do 4 (split; [ reflexivity | ]). intros d []. }
    destruct (dropReferencesLoop prs first mems (idsBetween 1 (numMember mems)))
      as [mems1 |] eqn:El; [ | discriminate ].
    cbn [memberFree] in *.
    destruct (dropReferencesLoop_kept prs first (clean prs first) _
                (kept_clean prs first) _ _ El) as ((Hn & Hx & Hi) & _ & Hclean).
    destruct (IH _ _ _ H) as (Hn' & Hx' & Hi' & Hroot & Hrest).
    cbn [setMember numMember maxMember memberIndex] in Hn', Hx', Hi', Hrest.
    split; [ congruence | ]. split; [ congruence | ]. split; [ congruence | ].
    split.
    { rewrite last_cons. exact Hroot. }
    intros d [<- | Hin].
    + split.
      * destruct (flushGroup_kept prs blank turns (kept_blank prs) _ _ _ _ _ H)
          as (_ & Hkeep).
        apply Hkeep. cbn [setMember members]. unfold upd. rewrite Z.eqb_refl.
        repeat split.
      * intros i Hi0.
        destruct (flushGroup_kept prs (clean prs first) turns
                    (kept_clean prs first) _ _ _ _ _ H) as (_ & Hkeep).
        apply Hkeep. cbn [setMember members]. unfold upd.
        destruct (Z.eqb_spec i first) as [-> | _];
          [ repeat split; left; reflexivity | ].
        apply Hclean, In_idsBetween. exact Hi0.
    + destruct (Hrest d Hin) as [Hb Hc]. split; [ exact Hb | ].
      intros i Hi0. apply Hc. rewrite Hn. exact Hi0.
Qed.


(** ** The closing loops of [finaliseMembers] *)

(** "String all the members to signatures, best one is first in list":
    the loop [for (iMid = numMember - 1; iMid >= 1; --iMid)], which the
    assertion [numMember >= 1] precedes; [turns] bodies from [iMid]
    down. *)
Fixpoint chainMembers (turns : nat) (iMid : Z)
    (mems : Z -> member_t) (sigs : Z -> signature_t)
  : (Z -> member_t) * (Z -> signature_t) :=
  match turns with
  | O => (mems, sigs)
  | S turns' =>
      let pMember := mems iMid in
      let pSignature := sigs (sid pMember) in
      (* add to group *)
      chainMembers turns' (iMid - 1)
        (upd mems iMid (withNextMember pMember (firstMember pSignature)))
        (upd sigs (sid pMember)
             (mkSignature (sigFlags pSignature) (sigSize pSignature) iMid))
  end.

Definition stringMembers (numMember : Z)
    (mems : Z -> member_t) (sigs : Z -> signature_t)
  : (Z -> member_t) * (Z -> signature_t) :=
  chainMembers (Z.to_nat (numMember - 1)) (numMember - 1) mems sigs.

(** The members that a walk along [nextMember] from [mid] meets before
    it ends at 0 are those of [l], in this order. *)
Fixpoint chained (mems : Z -> member_t) (mid : Z) (l : list Z) : Prop :=
  match l with
  | [] => mid = 0
  | x :: l' => mid = x /\ x <> 0 /\ chained mems (nextMember (mems x)) l'
  end.

Lemma member_upd_same {A : Type} (a : Z -> A) (i : Z) (v : A) :
  upd a i v i = v.
Proof. unfold upd. rewrite Z.eqb_refl. reflexivity. Qed.

Lemma member_upd_other {A : Type} (a : Z -> A) (i j : Z) (v : A) :
  j <> i -> upd a i v j = a j.
Proof.
  intros H. unfold upd. destruct (Z.eqb_spec j i); [ contradiction | reflexivity ].
Qed.

Lemma chained_upd (mems : Z -> member_t) (j : Z) (v : member_t)
    (l : list Z) (mid : Z) :
  ~ In j l -> chained mems mid l -> chained (upd mems j v) mid l.
Proof.
  revert mid. induction l as [| x l IH]; intros mid Hj H; cbn [chained] in *.
  - exact H.
  - destruct H as (-> & Hx & H). split; [ reflexivity | ]. split; [ exact Hx | ].
    unfold upd at 2. destruct (Z.eqb_spec x j) as [-> | _].
    + exfalso. apply Hj. left. reflexivity.
    + apply IH; [ | exact H ]. intros Hin. apply Hj. right. exact Hin.
Qed.

Lemma idsBetween_cons (from below : Z) :
  from < below -> idsBetween from below = from :: idsBetween (from + 1) below.
Proof.
  intros H. unfold idsBetween.
  replace (Z.to_nat (below - from)) with (S (Z.to_nat (below - (from + 1))))
    by lia.
  cbn [seq map]. rewrite <- seq_shift, map_map. f_equal; [ lia | ].
  apply map_ext. intros k. lia.
Qed.

Lemma idsBetween_snoc (from below : Z) :
  from <= below -> idsBetween from (below + 1) = idsBetween from below ++ [below].
Proof.
  intros H. unfold idsBetween.
  replace (Z.to_nat (below + 1 - from)) with (Z.to_nat (below - from) + 1)%nat
    by lia.
  rewrite seq_app, map_app. cbn [seq map]. f_equal. f_equal. lia.
Qed.

Lemma idsBetween_nil (from below : Z) :
  below <= from -> idsBetween from below = [].
Proof.
  intros H. unfold idsBetween.
  replace (Z.to_nat (below - from)) with 0%nat by lia. reflexivity.
Qed.

(** The loop touches [nextMember] of the members and [firstMember] of
    the signatures, and nothing else. *)
Lemma chainMembers_frame (turns : nat) (iMid : Z)
    (mems : Z -> member_t) (sigs : Z -> signature_t)
    (mems' : Z -> member_t) (sigs' : Z -> signature_t) :
  chainMembers turns iMid mems sigs = (mems', sigs') ->
  (forall i, withNextMember (mems' i) 0 = withNextMember (mems i) 0)
  /\ (forall i, ~ (iMid - Z.of_nat turns < i <= iMid) -> mems' i = mems i)
  /\ (forall s, sigFlags (sigs' s) = sigFlags (sigs s)
                /\ sigSize (sigs' s) = sigSize (sigs s)).
Proof.
  revert iMid mems sigs.
  induction turns as [| turns IH]; intros iMid mems sigs H;
    cbn [chainMembers] in H.
  - injection H as <- <-. repeat split.
  - apply IH in H. destruct H as (Hm & Ho & Hs).
    split; [ | split ].
    + intros i. rewrite Hm. unfold upd.
      destruct (Z.eqb_spec i iMid) as [-> | _]; reflexivity.
    + intros i Hi. rewrite Ho by lia. unfold upd.
      destruct (Z.eqb_spec i iMid) as [-> | _]; [ lia | reflexivity ].
    + intros s. destruct (Hs s) as [-> ->]. unfold upd.
      destruct (Z.eqb_spec s (sid (mems iMid))) as [-> | _]; split; reflexivity.
Qed.

Lemma chainMembers_chains (n : Z) (sid0 : Z -> Z) (turns : nat)
    (mems : Z -> member_t) (sigs : Z -> signature_t)
    (mems' : Z -> member_t) (sigs' : Z -> signature_t) (s : Z) :
  Z.of_nat turns < n ->
  (forall i, sid (mems i) = sid0 i) ->
  chained mems (firstMember (sigs s))
          (filter (fun i => sid0 i =? s) (idsBetween (Z.of_nat turns + 1) n)) ->
  chainMembers turns (Z.of_nat turns) mems sigs = (mems', sigs') ->
  chained mems' (firstMember (sigs' s))
          (filter (fun i => sid0 i =? s) (idsBetween 1 n)).
Proof.
  revert mems sigs.
  induction turns as [| turns IH]; intros mems sigs Hn Hsid Hch H;
    cbn [chainMembers] in H.
  - injection H as <- <-. exact Hch.
  - replace (Z.of_nat (S turns) - 1) with (Z.of_nat turns) in H by lia.
    apply IH in H; [ exact H | lia | | ].
    + intros i. unfold upd.
      destruct (Z.eqb_spec i (Z.of_nat (S turns))) as [-> | _];
        [ apply Hsid | apply Hsid ].
    + rewrite idsBetween_cons by lia.
      replace (Z.of_nat turns + 1) with (Z.of_nat (S turns)) by lia.
      remember (Z.of_nat (S turns)) as K eqn:EK.
      assert (Hout : ~ In K (filter (fun i => sid0 i =? s)
                                    (idsBetween (K + 1) n))).
      { intros Hin. apply filter_In in Hin. destruct Hin as [Hin _].
        apply In_idsBetween in Hin. lia. }
      cbn [filter]. rewrite <- (Hsid K).
      remember (sid (mems K)) as sK eqn:EsK.
      destruct (Z.eqb_spec sK s) as [-> | Ns].
      * rewrite member_upd_same. cbn [firstMember chained].
        split; [ reflexivity | ]. split; [ lia | ].
        rewrite member_upd_same. cbn [nextMember withNextMember].
        apply chained_upd; [ exact Hout | exact Hch ].
      * rewrite member_upd_other by congruence.
        apply chained_upd; [ exact Hout | exact Hch ].
Qed.

(** X28.  The loop that strings the members to their signatures builds
    the groups in ascending order of member id.  For a signature whose
    [firstMember] is 0 when the loop starts, as the reset at the head of
    [finaliseMembers] leaves it, the walk from [firstMember] along
    [nextMember] afterwards meets exactly the members [1 .. numMember-1]
    that carry this [sid], lowest id first, and ends at 0.  Of the
    members only [nextMember] changes, of the signatures only
    [firstMember], and no record outside [1 .. numMember-1] is
    touched. *)
Theorem stringMembers_groups (numMember : Z)
    (mems : Z -> member_t) (sigs : Z -> signature_t)
    (mems' : Z -> member_t) (sigs' : Z -> signature_t) :
  1 <= numMember ->
  stringMembers numMember mems sigs = (mems', sigs') ->
  (forall s, firstMember (sigs s) = 0 ->
     chained mems' (firstMember (sigs' s))
             (filter (fun i => sid (mems i) =? s) (idsBetween 1 numMember)))
  /\ (forall i, withNextMember (mems' i) 0 = withNextMember (mems i) 0)
  /\ (forall i, ~ (1 <= i < numMember) -> mems' i = mems i)
  /\ (forall s, sigFlags (sigs' s) = sigFlags (sigs s)
                /\ sigSize (sigs' s) = sigSize (sigs s)).
Proof.
  unfold stringMembers. intros Hn H. split.
  - intros s Hs.
    replace (numMember - 1) with (Z.of_nat (Z.to_nat (numMember - 1))) in H at 2
      by lia.
    apply (chainMembers_chains numMember (fun i => sid (mems i))
             _ _ _ _ _ s) in H; [ exact H | lia | reflexivity | ].
    rewrite idsBetween_nil by lia. cbn [filter chained]. exact Hs.
  - apply chainMembers_frame in H. destruct H as (Hm & Ho & Hs).
    split; [ exact Hm | ]. split; [ | exact Hs ].
    intros i Hi. apply Ho. lia.
Qed.

(** "Flag component members":
    [pStore->members[mid].flags |= member_t::MEMMASK_COMP] *)
Definition flagComponent (mems : Z -> member_t) (mid : Z) : Z -> member_t :=
  upd mems mid (withFlags (mems mid) (Z.lor (flags (mems mid)) MEMMASK_COMP)).

(** The body of the loop for the member [iMid]; [pMember] points into
    the array, so that every [pMember->...] reads the array as it is. *)
Definition flagBody (prs : Z -> pair_t) (mems : Z -> member_t) (iMid : Z)
  : Z -> member_t :=
  let mems :=
    upd mems iMid
        (withFlags (mems iMid) (Z.ldiff (flags (mems iMid)) MEMMASK_COMP)) in
  if has (flags (mems iMid)) MEMMASK_SAFE then
    let mems :=
      if negb (Qmt (mems iMid) =? 0)
      then flagComponent mems (sidmid (prs (Qmt (mems iMid)))) else mems in
    let mems :=
      if negb (Tmt (mems iMid) =? 0)
      then flagComponent mems (sidmid (prs (Tmt (mems iMid)))) else mems in
    let mems :=
      if negb (Fmt (mems iMid) =? 0)
      then flagComponent mems (sidmid (prs (Fmt (mems iMid)))) else mems in
    fold_left
      (fun mems k =>
         if negb (nth k (heads (mems iMid)) 0 =? 0)
         then flagComponent mems (nth k (heads (mems iMid)) 0) else mems)
      (seq 0 MAXHEAD) mems
  else mems.

(** [for (iMid = 1; iMid < numMember; iMid++)], [turns] bodies from
    [iMid] up. *)
Fixpoint flagLoop (turns : nat) (iMid : Z) (prs : Z -> pair_t)
    (mems : Z -> member_t) : Z -> member_t :=
  match turns with
  | O => mems
  | S turns' => flagLoop turns' (iMid + 1) prs (flagBody prs mems iMid)
  end.

Definition flagComponents (prs : Z -> pair_t) (numMember : Z)
    (mems : Z -> member_t) : Z -> member_t :=
  flagLoop (Z.to_nat (numMember - 1)) 1 prs mems.

(** The members that the record [m] names as its components and heads:
    those its turn of the loop flags when [m] is safe. *)
Definition components (prs : Z -> pair_t) (m : member_t) : list Z :=
  (if negb (Qmt m =? 0) then [sidmid (prs (Qmt m))] else [])
  ++ (if negb (Tmt m =? 0) then [sidmid (prs (Tmt m))] else [])
  ++ (if negb (Fmt m =? 0) then [sidmid (prs (Fmt m))] else [])
  ++ filter (fun h => negb (h =? 0))
            (map (fun k => nth k (heads m) 0) (seq 0 MAXHEAD)).

(** The safe member [j] names [i]. *)
Definition flaggedBy (prs : Z -> pair_t) (mems : Z -> member_t) (i j : Z)
  : bool :=
  has (flags (mems j)) MEMMASK_SAFE
  && existsb (Z.eqb i) (components prs (mems j)).

(** Two records that differ in their flags at most. *)
Definition same_links (a b : member_t) : Prop := withFlags a 0 = withFlags b 0.

Lemma same_links_fields (a b : member_t) :
  same_links a b ->
  Qmt a = Qmt b /\ Tmt a = Tmt b /\ Fmt a = Fmt b /\ heads a = heads b.
Proof.
  unfold same_links, withFlags. intros H. injection H as _ _ _ _ _ _ _ -> -> -> -> _.
  repeat split.
Qed.

Lemma components_same_links (prs : Z -> pair_t) (a b : member_t) :
  same_links a b -> components prs a = components prs b.
Proof.
  intros H. apply same_links_fields in H. destruct H as (Hq & Ht & Hf & Hh).
  unfold components. rewrite Hq, Ht, Hf, Hh. reflexivity.
Qed.

Lemma ldiff_lor_same (x c : Z) : Z.ldiff (Z.lor x c) c = Z.ldiff x c.
Proof.
  apply Z.bits_inj'. intros i Hi. rewrite !Z.ldiff_spec, Z.lor_spec.
  destruct (Z.testbit x i), (Z.testbit c i); reflexivity.
Qed.

Lemma ldiff_ldiff_same (x c : Z) : Z.ldiff (Z.ldiff x c) c = Z.ldiff x c.
Proof.
  apply Z.bits_inj'. intros i Hi. rewrite !Z.ldiff_spec.
  destruct (Z.testbit x i), (Z.testbit c i); reflexivity.
Qed.

Lemma has_outside (x y c b : Z) :
  Z.land b c = 0 -> Z.ldiff x c = Z.ldiff y c -> has x b = has y b.
Proof.
  intros Hd He. unfold has. f_equal. f_equal.
  apply Z.bits_inj'. intros i Hi. rewrite !Z.land_spec.
  assert (Hb := f_equal (fun z => Z.testbit z i) Hd).
  assert (Hx := f_equal (fun z => Z.testbit z i) He).
  cbv beta in Hb, Hx. rewrite Z.land_spec, Z.bits_0 in Hb.
  rewrite !Z.ldiff_spec in Hx.
  destruct (Z.testbit x i), (Z.testbit y i), (Z.testbit c i), (Z.testbit b i);
    cbn in *; congruence.
Qed.

(** What the array holds of the flags after a list of members has been
    flagged. *)
Definition flagAll (mems : Z -> member_t) (l : list Z) : Z -> member_t :=
  fold_left flagComponent l mems.

Lemma flagComponent_effect (mems : Z -> member_t) (x i : Z) :
  MEMMASK_COMP <> 0 ->
  same_links (flagComponent mems x i) (mems i)
  /\ Z.ldiff (flags (flagComponent mems x i)) MEMMASK_COMP
     = Z.ldiff (flags (mems i)) MEMMASK_COMP
  /\ has (flags (flagComponent mems x i)) MEMMASK_COMP
     = has (flags (mems i)) MEMMASK_COMP || (i =? x).
Proof.
  intros Hc. unfold flagComponent, upd, same_links.
  destruct (Z.eqb_spec i x) as [-> | _].
  - cbn [withFlags flags]. split; [ reflexivity | ].
    split; [ apply ldiff_lor_same | ].
    rewrite has_lor by exact Hc. symmetry. apply orb_true_r.
  - split; [ reflexivity | ]. split; [ reflexivity | ].
    symmetry. apply orb_false_r.
Qed.

Lemma flagAll_effect (l : list Z) (mems : Z -> member_t) (i : Z) :
  MEMMASK_COMP <> 0 ->
  same_links (flagAll mems l i) (mems i)
  /\ Z.ldiff (flags (flagAll mems l i)) MEMMASK_COMP
     = Z.ldiff (flags (mems i)) MEMMASK_COMP
  /\ has (flags (flagAll mems l i)) MEMMASK_COMP
     = has (flags (mems i)) MEMMASK_COMP || existsb (Z.eqb i) l.
Proof.
  intros Hc. revert mems.
  induction l as [| x l IH]; intros mems; cbn [flagAll fold_left existsb].
  - split; [ reflexivity | ]. split; [ reflexivity | ].
    symmetry. apply orb_false_r.
  - destruct (IH (flagComponent mems x)) as (L & D & H).
    destruct (flagComponent_effect mems x i Hc) as (L1 & D1 & H1).
    unfold flagAll in *.
    split; [ unfold same_links in *; congruence | ].
    split; [ congruence | ].
    rewrite H, H1. symmetry. apply orb_assoc.
Qed.

Lemma flagAll_app (mems : Z -> member_t) (l1 l2 : list Z) :
  flagAll mems (l1 ++ l2) = flagAll (flagAll mems l1) l2.
Proof. unfold flagAll. apply fold_left_app. Qed.

(** The body flags the components of the record it finds at [iMid]. *)
Lemma flagBody_flagAll (prs : Z -> pair_t) (mems : Z -> member_t) (iMid : Z) :
  MEMMASK_COMP <> 0 ->
  Z.land MEMMASK_SAFE MEMMASK_COMP = 0 ->
  flagBody prs mems iMid
  = flagAll (upd mems iMid
                 (withFlags (mems iMid)
                            (Z.ldiff (flags (mems iMid)) MEMMASK_COMP)))
            (if has (flags (mems iMid)) MEMMASK_SAFE
             then components prs (mems iMid) else []).
Proof.
  intros Hc Hd. unfold flagBody.
  set (c := upd mems iMid _).
  assert (Hkeep : same_links (c iMid) (mems iMid)).
  { unfold c. rewrite member_upd_same. reflexivity. }
  assert (Hsafe : has (flags (c iMid)) MEMMASK_SAFE
                  = has (flags (mems iMid)) MEMMASK_SAFE).
  { unfold c. rewrite member_upd_same. cbn [withFlags flags].
    apply (has_outside _ _ MEMMASK_COMP); [ exact Hd | apply ldiff_ldiff_same ]. }
  rewrite Hsafe.
  destruct (has (flags (mems iMid)) MEMMASK_SAFE); [ | reflexivity ].
  rewrite <- (components_same_links prs _ _ Hkeep). unfold components.
  assert (Hstep : forall (m : Z -> member_t) (get : member_t -> Z),
             (if negb (get (m iMid) =? 0)
              then flagComponent m (sidmid (prs (get (m iMid)))) else m)
             = flagAll m (if negb (get (m iMid) =? 0)
                          then [sidmid (prs (get (m iMid)))] else [])).
  { intros m get. destruct (negb (get (m iMid) =? 0)); reflexivity. }
  assert (Hlinks : forall (m : Z -> member_t) l,
             same_links (m iMid) (c iMid) ->
             same_links (flagAll m l iMid) (c iMid)).
  { intros m l Hm. destruct (flagAll_effect l m iMid Hc) as (L & _).
    unfold same_links in *. congruence. }
  rewrite (Hstep c Qmt).
  set (lq := if negb (Qmt (c iMid) =? 0) then _ else _).
  assert (Kq : same_links (flagAll c lq iMid) (c iMid))
    by (apply Hlinks; reflexivity).
  rewrite (Hstep (flagAll c lq) Tmt).
  destruct (same_links_fields _ _ Kq) as (_ & -> & _).
  set (lt := if negb (Tmt (c iMid) =? 0) then _ else _).
  assert (Kt : same_links (flagAll (flagAll c lq) lt iMid) (c iMid))
    by (apply Hlinks; exact Kq).
  rewrite (Hstep (flagAll (flagAll c lq) lt) Fmt).
  destruct (same_links_fields _ _ Kt) as (_ & _ & -> & _).
  set (lf := if negb (Fmt (c iMid) =? 0) then _ else _).
  assert (Kf : same_links (flagAll (flagAll (flagAll c lq) lt) lf iMid) (c iMid))
    by (apply Hlinks; exact Kt).
  rewrite !flagAll_app.
  generalize dependent (flagAll (flagAll (flagAll c lq) lt) lf).
  clear Kq Kt lq lt lf Hstep.
  generalize (seq 0 MAXHEAD) as ks.
  induction ks as [| k ks IH]; intros m Km; cbn [fold_left map filter].
  - reflexivity.
  - destruct (same_links_fields _ _ Km) as (_ & _ & _ & Hh). rewrite Hh.
    destruct (negb (nth k (heads (c iMid)) 0 =? 0)); cbn [fold_left].
    + apply IH. apply (Hlinks m [nth k (heads (c iMid)) 0]). exact Km.
    + apply IH. exact Km.
Qed.

(** Where the members flagged for [i] are looked for once the loop has
    passed the members below [k]. *)
Definition flaggedFrom (i k : Z) : Z := if (1 <=? i) && (i <? k) then i else 1.

Lemma flagLoop_marks (prs : Z -> pair_t) (mems : Z -> member_t)
    (turns : nat) (k : Z) (cur : Z -> member_t) (i : Z) :
  MEMMASK_COMP <> 0 ->
  Z.land MEMMASK_SAFE MEMMASK_COMP = 0 ->
  1 <= k ->
  (forall i,
      same_links (cur i) (mems i)
      /\ Z.ldiff (flags (cur i)) MEMMASK_COMP
         = Z.ldiff (flags (mems i)) MEMMASK_COMP
      /\ has (flags (cur i)) MEMMASK_COMP
         = (negb ((1 <=? i) && (i <? k)) && has (flags (mems i)) MEMMASK_COMP)
           || existsb (flaggedBy prs mems i) (idsBetween (flaggedFrom i k) k)) ->
  same_links (flagLoop turns k prs cur i) (mems i)
  /\ Z.ldiff (flags (flagLoop turns k prs cur i)) MEMMASK_COMP
     = Z.ldiff (flags (mems i)) MEMMASK_COMP
  /\ has (flags (flagLoop turns k prs cur i)) MEMMASK_COMP
     = (negb ((1 <=? i) && (i <? k + Z.of_nat turns))
        && has (flags (mems i)) MEMMASK_COMP)
       || existsb (flaggedBy prs mems i)
                  (idsBetween (flaggedFrom i (k + Z.of_nat turns))
                              (k + Z.of_nat turns)).
Proof.
  intros Hc Hd. revert k cur.
  induction turns as [| turns IH]; intros k cur Hk Inv; cbn [flagLoop].
  - replace (k + Z.of_nat 0) with k by lia. apply Inv.
  - replace (k + Z.of_nat (S turns)) with (k + 1 + Z.of_nat turns) by lia.
    apply IH; [ lia | ]. clear IH i. intros i.
    rewrite flagBody_flagAll by assumption.
    set (c := upd cur k _).
    destruct (Inv k) as (Lk & Dk & _).
    assert (Hsafe : has (flags (cur k)) MEMMASK_SAFE
                    = has (flags (mems k)) MEMMASK_SAFE)
      by (apply (has_outside _ _ MEMMASK_COMP); assumption).
    rewrite Hsafe, (components_same_links prs _ _ Lk).
    set (l := if has (flags (mems k)) MEMMASK_SAFE then _ else _).
    assert (Hl : existsb (Z.eqb i) l = flaggedBy prs mems i k).
    { unfold l, flaggedBy. destruct (has (flags (mems k)) MEMMASK_SAFE);
        reflexivity. }
    destruct (flagAll_effect l c i Hc) as (L & D & H).
    destruct (Inv i) as (Li & Di & Hi).
    assert (Hci : same_links (c i) (mems i)
                  /\ Z.ldiff (flags (c i)) MEMMASK_COMP
                     = Z.ldiff (flags (mems i)) MEMMASK_COMP
                  /\ has (flags (c i)) MEMMASK_COMP
                     = negb (i =? k) && has (flags (cur i)) MEMMASK_COMP).
    { unfold c, upd. destruct (Z.eqb_spec i k) as [-> | _].
      - cbn [withFlags flags negb andb]. split; [ exact Lk | ].
        split; [ rewrite ldiff_ldiff_same; exact Dk | apply has_ldiff ].
      - cbn [negb andb]. repeat split; assumption. }
    destruct Hci as (Lc & Dc & Hcomp).
    split; [ unfold same_links in *; congruence | ].
    split; [ congruence | ].
    rewrite H, Hcomp, Hi, Hl. unfold flaggedFrom.
    destruct (Z.eqb_spec i k) as [-> | Nk].
    + replace ((1 <=? k) && (k <? k + 1)) with true by lia.
      cbn [negb andb orb].
      rewrite idsBetween_cons, idsBetween_nil by lia.
      cbn [existsb]. rewrite orb_false_r. reflexivity.
    + cbn [negb andb].
      destruct (Z.leb_spec 1 i), (Z.ltb_spec i k), (Z.ltb_spec i (k + 1));
        try lia; cbn [negb andb orb];
        rewrite idsBetween_snoc by lia; rewrite existsb_app; cbn [existsb];
        rewrite orb_false_r, ?orb_assoc; reflexivity.
Qed.

(** X29.  Which members carry [MEMMASK_COMP] after the loop "Flag
    component members".  A member [i] of [1 .. numMember-1] carries it
    exactly when a safe member with an id of [i] or above names [i] as a
    component ([Qmt], [Tmt], [Fmt] through the pair section) or as a head:
    a flag set on behalf of a member before [i] is cleared again when the
    loop reaches [i].  A record outside that range keeps its flag and
    gains it when any safe member names it.  The loop changes nothing
    but this one flag; the two masks must not overlap. *)
Theorem flagComponents_marks (prs : Z -> pair_t) (numMember : Z)
    (mems : Z -> member_t) (i : Z) :
  MEMMASK_COMP <> 0 ->
  Z.land MEMMASK_SAFE MEMMASK_COMP = 0 ->
  1 <= numMember ->
  same_links (flagComponents prs numMember mems i) (mems i)
  /\ Z.ldiff (flags (flagComponents prs numMember mems i)) MEMMASK_COMP
     = Z.ldiff (flags (mems i)) MEMMASK_COMP
  /\ has (flags (flagComponents prs numMember mems i)) MEMMASK_COMP
     = if (1 <=? i) && (i <? numMember)
       then existsb (flaggedBy prs mems i) (idsBetween i numMember)
       else has (flags (mems i)) MEMMASK_COMP
            || existsb (flaggedBy prs mems i) (idsBetween 1 numMember).
Proof.
  intros Hc Hd Hn. unfold flagComponents.
  destruct (flagLoop_marks prs mems (Z.to_nat (numMember - 1)) 1 mems i Hc Hd)
    as (L & D & H); [ lia | | ].
  { intros j. split; [ reflexivity | ]. split; [ reflexivity | ].
    assert (E : (1 <=? j) && (j <? 1) = false)
      by (destruct (Z.leb_spec 1 j), (Z.ltb_spec j 1); try reflexivity; lia).
    unfold flaggedFrom. rewrite E.
    rewrite idsBetween_nil by lia. cbn [negb andb existsb].
    symmetry. apply orb_false_r. }
  replace (1 + Z.of_nat (Z.to_nat (numMember - 1))) with numMember in H by lia.
  split; [ exact L | ]. split; [ exact D | ].
  rewrite H. unfold flaggedFrom.
  destruct ((1 <=? i) && (i <? numMember)); reflexivity.
Qed.

(** ** The statistics of a name in [membersFromFile] *)

(** "calculate values": the loop [for (p = name; *p; p++)] over the name
    that [sscanf] has read, with its counters [newPlaceholder],
    [newEndpoint], [newBackRef] and the mask [beenThere] of the letters
    met. *)
Fixpoint nameStatistics (name : string)
    (newPlaceholder newEndpoint newBackRef beenThere : Z) : Z * Z * Z :=
  match name with
  | EmptyString => (newPlaceholder, newEndpoint, newBackRef)
  | String p rest =>
      if TinyTree.islower p then
        if TinyTree.unvisited beenThere (TinyTree.code p - TinyTree.code "a") then
          nameStatistics rest (wrap32 (newPlaceholder + 1))
                         (wrap32 (newEndpoint + 1)) newBackRef
                         (TinyTree.visit beenThere
                                         (TinyTree.code p - TinyTree.code "a"))
        else
          nameStatistics rest newPlaceholder (wrap32 (newEndpoint + 1))
                         newBackRef beenThere
      else if TinyTree.isdigit p && negb (p =? "0")%char then
        nameStatistics rest newPlaceholder newEndpoint
                       (wrap32 (newBackRef + 1)) beenThere
      else
        nameStatistics rest newPlaceholder newEndpoint newBackRef beenThere
  end.

(** The letter of the alphabet with number [k] (0 for 'a') occurs in the
    name. *)
Definition occurs (name : list ascii) (k : Z) : bool :=
  existsb (fun p => TinyTree.islower p
                    && (TinyTree.code p - TinyTree.code "a" =? k)) name.

Lemma testbit_visit (beenThere x k : Z) :
  0 <= x -> 0 <= k ->
  Z.testbit (TinyTree.visit beenThere x) k = Z.testbit beenThere k || (k =? x).
Proof.
  intros Hx Hk. unfold TinyTree.visit.
  rewrite Z.lor_spec, Z.shiftl_spec by assumption. f_equal.
  destruct (Z.eqb_spec k x) as [-> | N].
  - rewrite Z.sub_diag. reflexivity.
  - destruct (k - x) as [| q | q] eqn:E; [ lia | | reflexivity ].
    destruct q; reflexivity.
Qed.

Lemma filter_one_more {A : Type} (f g : A -> bool) (x : A) (l : list A) :
  NoDup l -> In x l -> f x = true -> g x = false ->
  (forall k, k <> x -> f k = g k) ->
  List.length (filter f l) = S (List.length (filter g l)).
Proof.
  intros Hnd Hin Hf Hg Hext.
  induction l as [| a l IH]; [ destruct Hin | ].
  apply NoDup_cons_iff in Hnd. destruct Hnd as [Hna Hnd].
  cbn [filter]. destruct Hin as [-> | Hin].
  - rewrite Hf, Hg. cbn [List.length]. f_equal. f_equal.
    apply filter_ext_in. intros k Hk. apply Hext. intros ->. contradiction.
  - assert (Hax : a <> x) by (intros ->; contradiction).
    rewrite (Hext a Hax). destruct (g a); cbn [List.length];
      rewrite (IH Hnd Hin); reflexivity.
Qed.

Lemma NoDup_idsBetween (from below : Z) : NoDup (idsBetween from below).
Proof.
  remember (Z.to_nat (below - from)) as n eqn:En. revert from En.
  induction n as [| n IH]; intros from En.
  - rewrite idsBetween_nil by lia. constructor.
  - rewrite idsBetween_cons by lia. constructor.
    + intros Hin. apply In_idsBetween in Hin. lia.
    + apply IH. lia.
Qed.

Lemma filter_length_le {A : Type} (f : A -> bool) (l : list A) :
  (List.length (filter f l) <= List.length l)%nat.
Proof.
  induction l as [| a l IH]; cbn [filter List.length]; [ lia | ].
  destruct (f a); cbn [List.length]; lia.
Qed.

(** The letters that occur in [l] and are not in the mask; the lowercase
    characters of [l]; its digits other than [0]. *)
Definition freshLetters (beenThere : Z) (l : list ascii) : nat :=
  List.length (filter (fun k => negb (Z.testbit beenThere k) && occurs l k)
                      (idsBetween 0 26)).

Definition lowercase (l : list ascii) : nat :=
  List.length (filter TinyTree.islower l).

Definition backRefs (l : list ascii) : nat :=
  List.length (filter (fun p => TinyTree.isdigit p && negb (p =? "0")%char) l).

Lemma islower_letter (p : ascii) :
  TinyTree.islower p = true ->
  0 <= TinyTree.code p - TinyTree.code "a" < 26.
Proof.
  unfold TinyTree.islower. intros H. apply andb_true_iff in H.
  destruct H as [Ha Hz]. apply Z.leb_le in Ha, Hz.
  change (TinyTree.code "a") with 97 in *.
  change (TinyTree.code "z") with 122 in *. lia.
Qed.

Lemma freshLetters_other (beenThere : Z) (p : ascii) (l : list ascii) :
  TinyTree.islower p = false ->
  freshLetters beenThere (p :: l) = freshLetters beenThere l.
Proof.
  intros H. unfold freshLetters. apply (f_equal (@List.length Z)).
  apply filter_ext. intros k.
  unfold occurs. cbn [existsb]. rewrite H. reflexivity.
Qed.

Lemma freshLetters_seen (beenThere : Z) (p : ascii) (l : list ascii) :
  TinyTree.islower p = true ->
  Z.testbit beenThere (TinyTree.code p - TinyTree.code "a") = true ->
  freshLetters beenThere (p :: l) = freshLetters beenThere l.
Proof.
  intros H Hb. unfold freshLetters. apply (f_equal (@List.length Z)).
  apply filter_ext. intros k.
  unfold occurs. cbn [existsb]. rewrite H. cbn [andb].
  destruct (Z.eqb_spec (TinyTree.code p - TinyTree.code "a") k) as [<- | _];
    [ | reflexivity ].
  rewrite Hb. reflexivity.
Qed.

Lemma freshLetters_new (beenThere : Z) (p : ascii) (l : list ascii) :
  TinyTree.islower p = true ->
  Z.testbit beenThere (TinyTree.code p - TinyTree.code "a") = false ->
  freshLetters beenThere (p :: l)
  = S (freshLetters
         (TinyTree.visit beenThere (TinyTree.code p - TinyTree.code "a")) l).
Proof.
  intros H Hb. assert (Hx := islower_letter p H).
  remember (TinyTree.code p - TinyTree.code "a") as x eqn:Ex.
  unfold freshLetters.
  apply (filter_one_more _ _ x).
  - apply NoDup_idsBetween.
  - apply In_idsBetween. lia.
  - unfold occurs. cbn [existsb]. rewrite Hb, H, <- Ex, Z.eqb_refl. reflexivity.
  - rewrite testbit_visit by lia. rewrite Z.eqb_refl, orb_true_r. reflexivity.
  - intros k Hk. unfold occurs. cbn [existsb]. rewrite H, <- Ex. cbn [andb].
    destruct (Z.eqb_spec x k) as [-> | _]; [ contradiction | ]. cbn [orb].
    destruct (Z.leb_spec 0 k) as [Hk0 | Hk0].
    + rewrite testbit_visit by lia.
      destruct (Z.eqb_spec k x) as [-> | _]; [ contradiction | ].
      rewrite orb_false_r. reflexivity.
    + rewrite !Z.testbit_neg_r by lia. reflexivity.
Qed.

Lemma freshLetters_le (l : list ascii) (beenThere : Z) :
  (freshLetters beenThere l <= lowercase l)%nat.
Proof.
  revert beenThere. induction l as [| p l IH]; intros beenThere.
  - unfold freshLetters, lowercase, occurs. cbn [existsb filter List.length].
    induction (idsBetween 0 26) as [| a r IHr]; cbn [filter List.length].
    + lia.
    + rewrite andb_false_r. exact IHr.
  - unfold lowercase. cbn [filter]. destruct (TinyTree.islower p) eqn:Elow.
    + cbn [List.length]. fold (lowercase l).
      destruct (Z.testbit beenThere (TinyTree.code p - TinyTree.code "a")) eqn:Eb.
      * rewrite freshLetters_seen by assumption. specialize (IH beenThere). lia.
      * rewrite freshLetters_new by assumption.
        specialize (IH (TinyTree.visit beenThere
                          (TinyTree.code p - TinyTree.code "a"))). lia.
    + fold (lowercase l). rewrite freshLetters_other by assumption. apply IH.
Qed.

Lemma nameStatistics_from (name : string) (P E B beenThere : Z) :
  0 <= P -> 0 <= E -> 0 <= B ->
  P + Z.of_nat (String.length name) < 2 ^ 32 ->
  E + Z.of_nat (String.length name) < 2 ^ 32 ->
  B + Z.of_nat (String.length name) < 2 ^ 32 ->
  nameStatistics name P E B beenThere
  = (P + Z.of_nat (freshLetters beenThere (list_ascii_of_string name)),
     E + Z.of_nat (lowercase (list_ascii_of_string name)),
     B + Z.of_nat (backRefs (list_ascii_of_string name))).
Proof.
  assert (Hpair : forall a b c a' b' c' : Z,
             a = a' -> b = b' -> c = c' -> (a, b, c) = (a', b', c'))
    by (intros; subst; reflexivity).
  revert P E B beenThere.
  induction name as [| p rest IH]; intros P E B beenThere HP HE HB LP LE LB;
    cbn [nameStatistics list_ascii_of_string].
  - apply Hpair.
    + unfold freshLetters, occurs. cbn [existsb].
      induction (idsBetween 0 26) as [| a r IHr]; cbn [filter List.length];
        [ lia | rewrite andb_false_r; exact IHr ].
    + unfold lowercase. cbn [filter List.length]. lia.
    + unfold backRefs. cbn [filter List.length]. lia.
  - cbn [String.length] in LP, LE, LB.
    assert (Hw : forall v, 0 <= v -> v + 1 < 2 ^ 32 -> wrap32 (v + 1) = v + 1)
      by (intros v H0 H1; unfold wrap32; apply Z.mod_small; lia).
    unfold lowercase, backRefs. cbn [filter].
    destruct (TinyTree.islower p) eqn:Elow.
    + unfold TinyTree.unvisited.
      destruct (Z.testbit beenThere (TinyTree.code p - TinyTree.code "a")) eqn:Eb;
        cbn [negb].
      * rewrite Hw by lia. rewrite IH by lia.
        rewrite freshLetters_seen by assumption.
        assert (Hd : TinyTree.isdigit p && negb (p =? "0")%char = false).
        { unfold TinyTree.islower, TinyTree.isdigit in *.
          apply andb_true_iff in Elow. destruct Elow as [Ha _].
          apply Z.leb_le in Ha. change (TinyTree.code "a") with 97 in Ha.
          change (TinyTree.code "9") with 57.
          destruct (Z.leb_spec (TinyTree.code p) 57); [ lia | ].
          rewrite andb_false_r. reflexivity. }
        rewrite Hd. cbn [List.length]. unfold lowercase, backRefs.
        apply Hpair; lia.
      * rewrite !Hw by lia. rewrite IH by lia.
        rewrite freshLetters_new by assumption.
        assert (Hd : TinyTree.isdigit p && negb (p =? "0")%char = false).
        { unfold TinyTree.islower, TinyTree.isdigit in *.
          apply andb_true_iff in Elow. destruct Elow as [Ha _].
          apply Z.leb_le in Ha. change (TinyTree.code "a") with 97 in Ha.
          change (TinyTree.code "9") with 57.
          destruct (Z.leb_spec (TinyTree.code p) 57); [ lia | ].
          rewrite andb_false_r. reflexivity. }
        rewrite Hd. cbn [List.length]. unfold lowercase, backRefs.
        apply Hpair; lia.
    + rewrite freshLetters_other by assumption.
      destruct (TinyTree.isdigit p && negb (p =? "0")%char).
      * rewrite Hw by lia. rewrite IH by lia. cbn [List.length].
        unfold lowercase, backRefs. apply Hpair; lia.
      * rewrite IH by lia. unfold lowercase, backRefs. apply Hpair; lia.
Qed.

(** X30.  What [membersFromFile] computes for a name, and compares with
    the three numbers of a line that gives them: [newPlaceholder] is the
    number of letters of the alphabet that occur in the name, however
    often; [newEndpoint] is the number of lowercase characters; and
    [newBackRef] is the number of digits other than [0].  So there are
    never more placeholders than endpoints, and never more than 26.  The
    name is shorter than 2^32 characters, so that no counter wraps. *)
Theorem nameStatistics_counts (name : string) :
  Z.of_nat (String.length name) < 2 ^ 32 ->
  exists newPlaceholder newEndpoint newBackRef,
    nameStatistics name 0 0 0 0 = (newPlaceholder, newEndpoint, newBackRef)
    /\ newPlaceholder
       = Z.of_nat (List.length (filter (occurs (list_ascii_of_string name))
                                       (idsBetween 0 26)))
    /\ newEndpoint = Z.of_nat (lowercase (list_ascii_of_string name))
    /\ newBackRef = Z.of_nat (backRefs (list_ascii_of_string name))
    /\ newPlaceholder <= newEndpoint
    /\ newPlaceholder <= 26.
Proof.
  intros Hlen. rewrite nameStatistics_from by lia.
  assert (Hfresh : freshLetters 0 (list_ascii_of_string name)
                   = List.length (filter (occurs (list_ascii_of_string name))
                                         (idsBetween 0 26))).
  { unfold freshLetters. apply (f_equal (@List.length Z)).
    apply filter_ext. intros k.
    rewrite Z.bits_0. reflexivity. }
  eexists _, _, _. split; [ reflexivity | ].
  rewrite !Z.add_0_l.
  split; [ rewrite Hfresh; reflexivity | ].
  split; [ reflexivity | ]. split; [ reflexivity | ].
  split.
  - apply Nat2Z.inj_le, freshLetters_le.
  - rewrite Hfresh.
    assert (H26 : List.length (idsBetween 0 26) = 26%nat) by reflexivity.
    assert (Hle := filter_length_le (occurs (list_ascii_of_string name))
                                    (idsBetween 0 26)).
    lia.
Qed.
End Engine.


Arguments setStore {imprints_t}.
Arguments withSkipDuplicate {imprints_t}.
Arguments withSkipSize {imprints_t}.
Arguments withSkipUnsafe {imprints_t}.
Arguments withTruncated {imprints_t}.
Arguments overflowing {imprints_t}.

(** *** A concrete store

    Closed statements need concrete flag bits and concrete helpers.  The
    bits follow the order in which the spec lists the flags; the helpers
    are small stand-ins for those of database.h and tinytree.h. *)

Definition sample_record_masks : record_masks :=
  {| MEMMASK_SAFE := 1; MEMMASK_COMP := 2; MEMMASK_DEPR := 8; SIGMASK_SAFE := 1 |}.

(** Modelled from the spec: a name index with open addressing, probed
    linearly from the hash of the name to the first empty slot or the
    first slot whose member has the name.  The table here has 7 slots and
    hashes a name to its length. *)
Fixpoint probeMember (turns : nat) (mems : memberSection) (pName : string) (ix : Z) : Z :=
  match turns with
  | O => ix
  | S turns' =>
      let mid := memberIndex mems ix in
      if mid =? 0 then ix
      else if String.eqb (name (members mems mid)) pName then ix
      else probeMember turns' mems pName ((ix + 1) mod 7)
  end.

Definition sample_lookupMember (mems : memberSection) (pName : string) : Z :=
  probeMember 7 mems pName (Z.of_nat (String.length pName) mod 7).

(** Modelled from the spec: [addMember] appends a zeroed record with the
    name to the member section; a full section is fatal. *)
Definition sample_addMember (mems : memberSection) (pName : string)
  : option (memberSection * Z) :=
  if maxMember mems <=? numMember mems then None
  else Some (mkMembers (maxMember mems) (numMember mems + 1)
                       (upd (members mems) (numMember mems) (withName zeroMember pName))
                       (memberIndex mems),
             numMember mems).

(** Modelled from the spec: the pair index, 5 slots probed from
    [mid + tid]; [addPair] appends. *)
Fixpoint probePair (turns : nat) (prs : pairSection) (mid tid : Z) (ix : Z) : Z :=
  match turns with
  | O => ix
  | S turns' =>
      let pid := pairIndex prs ix in
      if pid =? 0 then ix
      else if (sidmid (pairs prs pid) =? mid) && (pairTid (pairs prs pid) =? tid) then ix
      else probePair turns' prs mid tid ((ix + 1) mod 5)
  end.

Definition sample_lookupPair (prs : pairSection) (mid tid : Z) : Z :=
  probePair 5 prs mid tid ((mid + tid) mod 5).

Definition sample_addPair (prs : pairSection) (mid tid : Z)
  : option (pairSection * Z) :=
  if maxPair prs <=? numPair prs then None
  else Some (mkPairs (maxPair prs) (numPair prs + 1)
                     (upd (pairs prs) (numPair prs) (mkPair mid tid))
                     (pairIndex prs),
             numPair prs).

(** Names come from the encoder and the safe parser of [TinyTree]. *)
Definition sample_saveString (tree : TinyTree.tinyTree_t) (id : Z) (withSkin : bool)
  : string * string :=
  match TinyTree.encode tree id withSkin with
  | Some (TinyTree.Returned p) => p
  | _ => (""%string, ""%string)
  end.

Definition sample_loadStringSafe (pName : string) : TinyTree.tinyTree_t :=
  match TinyTree.decodeSafe (masks := TinyTree.sample_masks)
          TinyTree.sample_tree pName "abcdefghi" with
  | TinyTree.Returned (_, tree) => tree
  | _ => TinyTree.sample_tree
  end.

(** The candidate ["ab+c+"]: node 10 is [a|b], the root 11 is [c|(a|b)]. *)
Definition candidate : TinyTree.tinyTree_t :=
  TinyTree.mkTree 0 12
    (fun i => if i =? 10 then TinyTree.mkNode 1 Ref.IBIT 2
              else if i =? 11 then TinyTree.mkNode 3 Ref.IBIT 10
              else TinyTree.mkNode 0 0 0)
    11.

(** A store with the two reserved members ["0"] and ["a"], both SAFE, and
    an empty, unsafe signature group 5 for the candidate.  The member
    ["ab+"], the [F] tail of the candidate, is not in it. *)
Definition sample_members : memberSection :=
  mkMembers 10 3
    (fun i => if i =? 1 then mkMember "0" 1 0 0 0 0 0 1 0 0 0 (repeat 0 MAXHEAD) 0
              else if i =? 2 then mkMember "a" 2 0 0 1 1 0 1 0 0 0 (repeat 0 MAXHEAD) 0
              else zeroMember)
    (fun slot => if slot =? 1 then 1 else if slot =? 2 then 2 else 0).

Definition sample_database (groupFlags : Z) (maxImp : Z) : database_t unit :=
  mkDatabase
    (mkSignatures 10 6
       (fun i => if i =? 5 then mkSignature groupFlags 2 0 else mkSignature 0 0 0))
    (mkImprints 504 maxImp 1000 tt)
    sample_members
    (mkPairs 10 1 (fun _ => mkPair 0 0) (fun _ => 0)).

(** The engine before the call: [groupFlags] are the flags of group 5. *)
Definition sample_app (groupFlags : Z) (truncate : bool) (maxImp : Z) (truncatedAt : Z)
  : genmemberContext_t unit :=
  mkApp 0 truncate 0 0 42 (fun _ => 0) (sample_database groupFlags maxImp)
        0 3 3 0 0 0 truncatedAt "".

(** The engine in read-only mode. *)
Definition sample_readonly_app : genmemberContext_t unit :=
  mkApp 0 false 1 0 42 (fun _ => 0) (sample_database 0 100000)
        0 3 3 0 0 0 0 "".

(** [foundTreeMember] over the stand-ins; the associative index knows
    every tree as signature 5, transform 0. *)
Definition sample_foundTreeMember :=
  foundTreeMember (cmasks := TinyTree.sample_masks) (rmasks := sample_record_masks)
    unit sample_lookupMember sample_addMember sample_lookupPair sample_addPair
    (fun _ => 0) (fun _ _ => (5, 0)) (fun imps _ _ => Some (imps, 5))
    sample_saveString sample_loadStringSafe (fun tree _ => tree) 0.

Lemma comparMember_components_witness :
  let members :=
    fun i => if i =? 1 then mkMember "ab+" 3 0 1 2 2 0 1 0 0 0 (repeat 0 MAXHEAD) 0
             else mkMember "ab&" 4 0 1 2 2 0 3 0 0 0 (repeat 0 MAXHEAD) 0 in
  comparMember (rmasks := sample_record_masks)
               (fun n => Z.of_nat (String.length n)) (fun _ _ => 0) members 1 2 = -1
  /\ comparMember (rmasks := sample_record_masks)
                  (fun n => Z.of_nat (String.length n)) (fun _ _ => 0) members 2 1 = -1.
Proof.
  apply (comparMember_components (rmasks := sample_record_masks));
    vm_compute; congruence.
Defined.


(** The head/tail analysis over the stand-ins. *)
Definition sample_findHeadTail :=
  findHeadTail (cmasks := TinyTree.sample_masks) (rmasks := sample_record_masks)
    unit sample_lookupMember sample_lookupPair sample_addPair (fun _ => 0)
    sample_saveString sample_loadStringSafe (fun tree _ => tree).

Definition sample_someTailUnsafe :=
  someTailUnsafe (rmasks := sample_record_masks)
    sample_lookupMember sample_saveString sample_loadStringSafe.

(** C1 as stated fails.  The [F] tail ["ab+"] of the candidate ["ab+c+"]
    has no entry in the member name index and the candidate's group 5 is
    unsafe: the candidate is not rejected.  A fourth member record is
    allocated for it, it becomes the head of the chain of group 5, which
    was empty, and its name is entered in the index. *)
Lemma unsafe_tail_candidate_admitted :
  let app := sample_app 0 false 100000 0 in
  memberIndex sample_members (sample_lookupMember sample_members "ab+") = 0
  /\ sample_someTailUnsafe sample_members candidate = true
  /\ firstMember (signatures (dbSignatures (pStore app)) 5) = 0
  /\ exists app',
       sample_foundTreeMember app candidate "ab+c+" 3 3 0 = Done (true, app')
       /\ numMember (dbMembers (pStore app')) = numMember sample_members + 1
       /\ firstMember (signatures (dbSignatures (pStore app')) 5) = 3
       /\ name (members (dbMembers (pStore app')) 3) = "ab+c+"%string
       /\ has (flags (members (dbMembers (pStore app')) 3))
              (MEMMASK_SAFE (record_masks := sample_record_masks)) = false
       /\ memberIndex (dbMembers (pStore app'))
                      (sample_lookupMember sample_members "ab+c+") = 3.
Proof.
  cbv zeta. split; [ reflexivity | ]. split; [ vm_compute; reflexivity | ].
  split; [ reflexivity | ].
  eexists. split; [ vm_compute; reflexivity | ].
  repeat split.
Qed.

Lemma unsafe_candidate_verdict_witness :
  let app := sample_app 0 false 100000 0 in
  exists tmpMember db',
    sample_findHeadTail 0 (pStore app) (newMember "ab+c+" 5 0 2 3 3 0) 0 candidate
      = Done (false, tmpMember, db')
    /\ has (flags tmpMember) (MEMMASK_SAFE (record_masks := sample_record_masks)) = false
    (* admitted as member 3 *)
    /\ (exists app',
          sample_foundTreeMember app candidate "ab+c+" 3 3 0 = Done (true, app')
          /\ firstMember (signatures (dbSignatures (pStore app')) 5) = 3
          /\ members (dbMembers (pStore app')) 3 = withNextMember tmpMember 0
          /\ memberIndex (dbMembers (pStore app'))
                         (sample_lookupMember sample_members "ab+c+") = 3
          /\ skipUnsafe app' = skipUnsafe app)
    (* in read-only mode: group 5 marked with the fake member *)
    /\ (exists app',
          sample_foundTreeMember sample_readonly_app candidate "ab+c+" 3 3 0
            = Done (true, app')
          /\ signatures (dbSignatures (pStore app')) 5 = mkSignature 0 2 1
          /\ (forall s, s <> 5 ->
                signatures (dbSignatures (pStore app')) s
                = signatures (dbSignatures (pStore sample_readonly_app)) s)
          /\ dbMembers (pStore app') = dbMembers (pStore sample_readonly_app)
          /\ freeMemberRoot app' = freeMemberRoot sample_readonly_app
          /\ skipUnsafe app' = skipUnsafe sample_readonly_app).
Proof.
  cbv zeta.
  epose proof (unsafe_candidate_verdict
                 (cmasks := TinyTree.sample_masks) (rmasks := sample_record_masks)
                 unit sample_lookupMember sample_addMember
                 sample_lookupPair sample_addPair
                 (fun _ => 0) (fun _ _ => (5, 0)) (fun imps _ _ => Some (imps, 5))
                 sample_saveString sample_loadStringSafe (fun tree _ => tree) 0
                 (sample_app 0 false 100000 0) candidate "ab+c+" 3 3 0
                 (pStore (sample_app 0 false 100000 0)) _ 5 0 false _) as H.
  cbv zeta in H.
  specialize (H eq_refl eq_refl eq_refl eq_refl).
  specialize (H ltac:(discriminate) eq_refl ltac:(vm_compute; discriminate)).
  specialize (H ltac:(vm_compute; reflexivity) ltac:(vm_compute; reflexivity)).
  destruct H as (Hflag & _ & Haccept & _ & _).
  epose proof (unsafe_candidate_verdict
                 (cmasks := TinyTree.sample_masks) (rmasks := sample_record_masks)
                 unit sample_lookupMember sample_addMember
                 sample_lookupPair sample_addPair
                 (fun _ => 0) (fun _ _ => (5, 0)) (fun imps _ _ => Some (imps, 5))
                 sample_saveString sample_loadStringSafe (fun tree _ => tree) 0
                 sample_readonly_app candidate "ab+c+" 3 3 0
                 (pStore sample_readonly_app) _ 5 0 false _) as R.
  cbv zeta in R.
  specialize (R eq_refl eq_refl eq_refl eq_refl).
  specialize (R ltac:(discriminate) eq_refl ltac:(vm_compute; discriminate)).
  specialize (R ltac:(vm_compute; reflexivity) ltac:(vm_compute; reflexivity)).
  destruct R as (_ & _ & _ & _ & Hread).
  eexists _, _. split; [ vm_compute; reflexivity | ].
  split; [ exact Hflag | ]. split.
  - eapply (Haccept eq_refl eq_refl 3 _ 0). vm_compute. reflexivity.
  - exact (Hread eq_refl ltac:(discriminate)).
Defined.

Lemma duplicate_only_counted_witness :
  let app := sample_app 0 true 1200 0 in
  sample_foundTreeMember app candidate "a" 1 1 0
    = Done (true, withSkipDuplicate app (wrap32 (skipDuplicate app + 1)))
  /\ (0 <= skipDuplicate app < 2 ^ 32 - 1 ->
      wrap32 (skipDuplicate app + 1) = skipDuplicate app + 1).
Proof.
  cbv zeta.
  apply (duplicate_only_counted
           (cmasks := TinyTree.sample_masks) (rmasks := sample_record_masks)
           unit sample_lookupMember sample_addMember
           sample_lookupPair sample_addPair
           (fun _ => 0) (fun _ _ => (5, 0)) (fun imps _ _ => Some (imps, 5))
           sample_saveString sample_loadStringSafe (fun tree _ => tree) 0
           (sample_app 0 true 1200 0) candidate "a" 1 1 0).
  - reflexivity.
  - vm_compute. discriminate.
Defined.

(** C9 as stated fails.  After a truncation ([truncated = 7]) a call for
    the name ["a"], which is in the index, returns [false] at once:
    [skipDuplicate] stays 0. *)
Lemma duplicate_after_truncation :
  let app := sample_app 0 true 1200 7 in
  memberIndex (dbMembers (pStore app))
              (sample_lookupMember (dbMembers (pStore app)) "a") = 2
  /\ sample_foundTreeMember app candidate "a" 1 1 0 = Done (false, app)
  /\ skipDuplicate app = 0.
Proof. cbv zeta. repeat split. Qed.



(** The guard compares differences of [unsigned] numbers.  With 1000
    imprints in a section whose maximum is 900 the difference is not
    [-100] but [2 ^ 32 - 100], far above the interleave of 504: the guard
    does not fire, and the candidate ["ab+c+"] is admitted with
    [truncated] still 0. *)
Lemma overflow_guard_wraps :
  let app := sample_app 0 true 900 0 in
  opt_truncate app = true
  /\ maxImprint (dbImprints (pStore app)) - numImprint (dbImprints (pStore app)) = -100
  /\ wrap32 (maxImprint (dbImprints (pStore app)) - numImprint (dbImprints (pStore app)))
     = 2 ^ 32 - 100
  /\ interleave (dbImprints (pStore app)) = 504
  /\ overflowing app = false
  /\ exists app',
       sample_foundTreeMember app candidate "ab+c+" 3 3 0 = Done (true, app')
       /\ truncated app' = 0
       /\ truncatedName app' = ""%string.
Proof.
  cbv zeta. do 5 (split; [ reflexivity | ]).
  eexists. split; [ vm_compute; reflexivity | ]. split; reflexivity.
Qed.

(** *** Instances of the further properties *)

(** An unsafe record, a SAFE one and an empty one. *)
Definition sample_records : Z -> member_t :=
  fun i => if i =? 1 then mkMember "ab+" 3 0 1 2 2 0 0 0 0 0 (repeat 0 MAXHEAD) 0
           else if i =? 2 then mkMember "ab&" 4 0 1 2 2 0 1 0 0 0 (repeat 0 MAXHEAD) 0
           else zeroMember.

Lemma comparMember_tiers_witness :
  comparMember (rmasks := sample_record_masks)
               (fun n => Z.of_nat (String.length n)) (fun _ _ => 0)
               sample_records 2 1 = -1
  /\ comparMember (rmasks := sample_record_masks)
                  (fun n => Z.of_nat (String.length n)) (fun _ _ => 0)
                  sample_records 1 2 = 1.
Proof.
  apply (comparMember_tiers (rmasks := sample_record_masks)
           (fun n => Z.of_nat (String.length n)) (fun _ _ => 0)
           sample_records 2 1);
    vm_compute; congruence.
Defined.

Lemma memberFree_memberAlloc_witness :
  exists mems2,
    memberAlloc sample_addMember
                (fst (memberFree sample_members 0 2))
                (snd (memberFree sample_members 0 2)) "ab+"
      = Some (2, mems2, 0)
    /\ members mems2 2 = withName (withNextMember zeroMember 0) "ab+"
    /\ (forall i, i <> 2 -> members mems2 i = members sample_members i)
    /\ numMember mems2 = numMember sample_members
    /\ memberIndex mems2 = memberIndex sample_members.
Proof.
  apply (memberFree_memberAlloc sample_addMember sample_members 0 2 "ab+").
  discriminate.
Defined.


Lemma foundTreeMember_false_is_truncation_witness :
  let app := sample_app 0 true 1200 0 in
  sample_foundTreeMember app candidate "ab+c+" 3 3 0
    = Done (false, withTruncated app (ctxProgress app) "ab+c+")
  /\ (false = false ->
      (truncated app <> 0 /\ withTruncated app (ctxProgress app) "ab+c+" = app)
      \/ (truncated app = 0 /\ overflowing app = true
          /\ withTruncated app (ctxProgress app) "ab+c+"
             = withTruncated app (ctxProgress app) "ab+c+"))
  /\ (false = true ->
      truncated app = 0
      /\ truncated (withTruncated app (ctxProgress app) "ab+c+") = 0).
Proof.
  cbv zeta. split; [ vm_compute; reflexivity | ].
  apply (foundTreeMember_false_is_truncation
           (cmasks := TinyTree.sample_masks) (rmasks := sample_record_masks)
           unit sample_lookupMember sample_addMember
           sample_lookupPair sample_addPair
           (fun _ => 0) (fun _ _ => (5, 0)) (fun imps _ _ => Some (imps, 5))
           sample_saveString sample_loadStringSafe (fun tree _ => tree) 0
           (sample_app 0 true 1200 0) _ candidate "ab+c+" 3 3 0 false).
  vm_compute. reflexivity.
Defined.

Lemma foundTreeMember_readonly_witness :
  exists app',
    sample_foundTreeMember sample_readonly_app candidate "ab+c+" 3 3 0
      = Done (true, app')
    /\ dbMembers (pStore app') = dbMembers (pStore sample_readonly_app)
    /\ dbImprints (pStore app') = dbImprints (pStore sample_readonly_app)
    /\ freeMemberRoot app' = freeMemberRoot sample_readonly_app
    /\ maxSignature (dbSignatures (pStore app')) = 10
    /\ numSignature (dbSignatures (pStore app')) = 6
    /\ (forall s, s <> 5 ->
          signatures (dbSignatures (pStore app')) s
          = signatures (dbSignatures (pStore sample_readonly_app)) s)
    /\ signatures (dbSignatures (pStore sample_readonly_app)) 5 = mkSignature 0 2 0
    /\ signatures (dbSignatures (pStore app')) 5 = mkSignature 0 2 1.
Proof.
  epose proof (foundTreeMember_readonly
                 (cmasks := TinyTree.sample_masks) (rmasks := sample_record_masks)
                 unit sample_lookupMember sample_addMember
                 sample_lookupPair sample_addPair
                 (fun _ => 0) (fun _ _ => (5, 0)) (fun imps _ _ => Some (imps, 5))
                 sample_saveString sample_loadStringSafe (fun tree _ => tree) 0
                 sample_readonly_app _ candidate "ab+c+" 3 3 0 true) as H.
  cbv zeta in H.
  specialize (H ltac:(discriminate) ltac:(vm_compute; reflexivity)).
  destruct H as (M1 & M2 & M3 & M4 & M5 & M6 & _ & M8).
  epose proof (M8 false _ _ eq_refl eq_refl eq_refl ltac:(discriminate) eq_refl
                  ltac:(vm_compute; reflexivity) (or_introl eq_refl)) as [_ M9].
  eexists. split; [ vm_compute; reflexivity | ].
  split; [ exact M1 | ]. split; [ exact M2 | ]. split; [ exact M3 | ].
  split; [ exact M4 | ]. split; [ exact M5 | ]. split; [ exact M6 | ].
  split; [ reflexivity | exact M9 ].
Defined.

(** The engine after it has admitted ["ab+c+"] as the unsafe member 3 of
    group 5, and the candidate ["ab+"], whose tails are the reserved
    members. *)
Definition sample_app_unsafe : genmemberContext_t unit :=
  match sample_foundTreeMember (sample_app 0 false 100000 0) candidate "ab+c+" 3 3 0 with
  | Done (_, app) => app
  | _ => sample_app 0 false 100000 0
  end.

Definition candidate_safe : TinyTree.tinyTree_t :=
  TinyTree.mkTree 0 11
    (fun i => if i =? 10 then TinyTree.mkNode 1 Ref.IBIT 2
              else TinyTree.mkNode 0 0 0)
    10.

Lemma safe_candidate_verdict_witness :
  firstMember (signatures (dbSignatures (pStore sample_app_unsafe)) 5) = 3
  /\ exists tmpMember app',
       sample_foundTreeMember sample_app_unsafe candidate_safe "ab+" 2 2 0
         = Done (true, app')
       /\ signatures (dbSignatures (pStore app')) 5 = mkSignature 1 2 3
       /\ members (dbMembers (pStore app')) 3 = withNextMember tmpMember 0
       /\ has (flags tmpMember) (MEMMASK_SAFE (record_masks := sample_record_masks)) = true
       /\ name (members (dbMembers (pStore app')) 3) = "ab+"%string
       /\ numUnsafe app' = numUnsafe sample_app_unsafe - 1.
Proof.
  split; [ reflexivity | ].
  epose proof (safe_candidate_verdict
                 (cmasks := TinyTree.sample_masks) (rmasks := sample_record_masks)
                 unit sample_lookupMember sample_addMember
                 sample_lookupPair sample_addPair
                 (fun _ => 0) (fun _ _ => (5, 0)) (fun imps _ _ => Some (imps, 5))
                 sample_saveString sample_loadStringSafe (fun tree _ => tree) 0
                 sample_app_unsafe candidate_safe "ab+" 2 2 0
                 (pStore sample_app_unsafe) _ 5 0 true _) as H.
  cbv zeta in H.
  specialize (H eq_refl ltac:(vm_compute; reflexivity) eq_refl eq_refl).
  specialize (H ltac:(discriminate) ltac:(vm_compute; reflexivity)).
  specialize (H ltac:(vm_compute; reflexivity) ltac:(vm_compute; reflexivity) eq_refl).
  destruct H as (_ & Htake).
  specialize (Htake ltac:(vm_compute; reflexivity)).
  edestruct Htake as (app' & Hret & Hsig & Hmem & _ & Hun & _).
  - vm_compute. reflexivity.
  - vm_compute. reflexivity.
  - eexists _, app'. split; [ exact Hret | ].
    split; [ rewrite Hsig; vm_compute; reflexivity | ].
    split; [ exact Hmem | ].
    split; [ vm_compute; reflexivity | ].
    split; [ rewrite Hmem; reflexivity | ].
    rewrite Hun. vm_compute. reflexivity.
Defined.

Lemma flushGroup_releases_witness :
  flushedIds (rmasks := sample_record_masks) 4
             (dbPairs (pStore sample_app_unsafe))
             (dbMembers (pStore sample_app_unsafe)) 0 3 = [3]
  /\ exists mems' freeRoot',
       flushGroup (rmasks := sample_record_masks) 4
                  (dbPairs (pStore sample_app_unsafe))
                  (dbMembers (pStore sample_app_unsafe)) 0 3
         = Done (mems', freeRoot')
       /\ numMember mems' = numMember (dbMembers (pStore sample_app_unsafe))
       /\ maxMember mems' = maxMember (dbMembers (pStore sample_app_unsafe))
       /\ memberIndex mems' = memberIndex (dbMembers (pStore sample_app_unsafe))
       /\ freeRoot'
          = last (flushedIds (rmasks := sample_record_masks) 4
                             (dbPairs (pStore sample_app_unsafe))
                             (dbMembers (pStore sample_app_unsafe)) 0 3) 0
       /\ forall d,
            In d (flushedIds (rmasks := sample_record_masks) 4
                             (dbPairs (pStore sample_app_unsafe))
                             (dbMembers (pStore sample_app_unsafe)) 0 3) ->
            blank (members mems' d)
            /\ forall i,
                 1 <= i < numMember (dbMembers (pStore sample_app_unsafe)) ->
                 clean (dbPairs (pStore sample_app_unsafe)) d (members mems' i).
Proof.
  split; [ vm_compute; reflexivity | ].
  eexists _, _. split; [ vm_compute; reflexivity | ].
  apply (flushGroup_releases (rmasks := sample_record_masks)).
  vm_compute. reflexivity.
Defined.


(** *** The closing loops on sample records *)

(** Three members: the first and the third belong to group 5, the second
    to group 6.  The first names the third as a head, the third names
    the first through pair 1. *)
Definition sample_grouped : Z -> member_t :=
  fun i => if i =? 1 then mkMember "ab+" 5 0 1 2 2 0 1 0 0 0 [3; 0; 0; 0; 0; 0] 0
           else if i =? 2 then mkMember "ab&" 6 0 1 2 2 0 0 0 0 0 (repeat 0 MAXHEAD) 0
           else if i =? 3 then mkMember "ab^" 5 0 1 2 2 0 1 1 0 0 (repeat 0 MAXHEAD) 0
           else zeroMember.

Definition sample_pairing : Z -> pair_t :=
  fun i => if i =? 1 then mkPair 1 0 else mkPair 0 0.

Lemma stringMembers_groups_witness :
  filter (fun i => sid (sample_grouped i) =? 5) (idsBetween 1 4) = [1; 3]
  /\ (forall s, firstMember (mkSignature 0 0 0) = 0 ->
        chained (fst (stringMembers 4 sample_grouped (fun _ => mkSignature 0 0 0)))
                (firstMember
                   (snd (stringMembers 4 sample_grouped
                                       (fun _ => mkSignature 0 0 0)) s))
                (filter (fun i => sid (sample_grouped i) =? s) (idsBetween 1 4)))
  /\ (forall i,
        withNextMember
          (fst (stringMembers 4 sample_grouped (fun _ => mkSignature 0 0 0)) i) 0
        = withNextMember (sample_grouped i) 0)
  /\ (forall i, ~ (1 <= i < 4) ->
        fst (stringMembers 4 sample_grouped (fun _ => mkSignature 0 0 0)) i
        = sample_grouped i)
  /\ (forall s,
        sigFlags (snd (stringMembers 4 sample_grouped
                                     (fun _ => mkSignature 0 0 0)) s)
        = sigFlags (mkSignature 0 0 0)
        /\ sigSize (snd (stringMembers 4 sample_grouped
                                       (fun _ => mkSignature 0 0 0)) s)
           = sigSize (mkSignature 0 0 0)).
Proof.
  split; [ reflexivity | ].
  apply (stringMembers_groups 4 sample_grouped (fun _ => mkSignature 0 0 0)
           (fst (stringMembers 4 sample_grouped (fun _ => mkSignature 0 0 0)))
           (snd (stringMembers 4 sample_grouped (fun _ => mkSignature 0 0 0))));
    [ lia | apply surjective_pairing ].
Defined.

(** The third member is named by the first, which the loop passes
    before it, and ends without the flag; the first is named by the
    third and ends with it. *)
Lemma flagComponents_marks_witness :
  flaggedBy (rmasks := sample_record_masks) sample_pairing sample_grouped 3 1
    = true
  /\ has (flags (flagComponents (rmasks := sample_record_masks)
                                sample_pairing 4 sample_grouped 1))
         (MEMMASK_COMP (record_masks := sample_record_masks)) = true
  /\ same_links (flagComponents (rmasks := sample_record_masks)
                                sample_pairing 4 sample_grouped 3)
                (sample_grouped 3)
  /\ Z.ldiff (flags (flagComponents (rmasks := sample_record_masks)
                                    sample_pairing 4 sample_grouped 3))
             (MEMMASK_COMP (record_masks := sample_record_masks))
     = Z.ldiff (flags (sample_grouped 3))
               (MEMMASK_COMP (record_masks := sample_record_masks))
  /\ has (flags (flagComponents (rmasks := sample_record_masks)
                                sample_pairing 4 sample_grouped 3))
         (MEMMASK_COMP (record_masks := sample_record_masks))
     = if (1 <=? 3) && (3 <? 4)
       then existsb (flaggedBy (rmasks := sample_record_masks)
                               sample_pairing sample_grouped 3)
                    (idsBetween 3 4)
       else has (flags (sample_grouped 3))
                (MEMMASK_COMP (record_masks := sample_record_masks))
            || existsb (flaggedBy (rmasks := sample_record_masks)
                                  sample_pairing sample_grouped 3)
                       (idsBetween 1 4).
Proof.
  split; [ reflexivity | ]. split; [ reflexivity | ].
  apply (flagComponents_marks (rmasks := sample_record_masks)
           sample_pairing 4 sample_grouped 3);
    [ discriminate | reflexivity | lia ].
Defined.

(** The member of the comment in [findHeadTail]: four letters, five
    endpoints, one back-reference. *)
Lemma nameStatistics_counts_witness :
  nameStatistics "ab+bc^d2^" 0 0 0 0 = (4, 5, 1)
  /\ exists newPlaceholder newEndpoint newBackRef,
       nameStatistics "ab+bc^d2^" 0 0 0 0
         = (newPlaceholder, newEndpoint, newBackRef)
       /\ newPlaceholder
          = Z.of_nat (List.length
                        (filter (occurs (list_ascii_of_string "ab+bc^d2^"))
                                (idsBetween 0 26)))
       /\ newEndpoint = Z.of_nat (lowercase (list_ascii_of_string "ab+bc^d2^"))
       /\ newBackRef = Z.of_nat (backRefs (list_ascii_of_string "ab+bc^d2^"))
       /\ newPlaceholder <= newEndpoint
       /\ newPlaceholder <= 26.
Proof.
  split; [ reflexivity | ].
  apply (nameStatistics_counts "ab+bc^d2^"). reflexivity.
Defined.
End Member.
